(* Verification of the core of "The Maze Learns": maze generation and BFS
   validation, circle-versus-segment collision, ball integration and bounce,
   the fixed-timestep scheduler, the player profile and the difficulty mapper,
   the metrics tracker, the win test, the clamping of wide passages and the
   keyboard input.

   Modelling conventions
   - A JavaScript number that holds an index, a count or a seed is a Z; the
     remainder operator is Z.rem, Math.floor of a quotient is Z.div or Qfloor.
   - The 32-bit operations of the generator (|, ^, >>>, Math.imul) are written
     out on Z with their wrap-around.
   - Other numbers are exact: rationals (Q) where the code only adds,
     multiplies, divides and compares, reals (R) where it takes square roots,
     sines, cosines or arctangents.  Rounding of binary64 arithmetic is not
     modelled there: a bound that rounding can miss by an ulp is stated with
     the tolerance of the repository's own test (TOLERANCE), and module
     Binary64 evaluates the same source lines on binary64 numbers where a
     statement turns on the last bit.
   - A function that mutates its argument returns the new value; the grid and
     the random stream of one generation attempt are threaded through a
     state-and-failure monad, where failure is a thrown TypeError (an
     undefined cell) or an exhausted loop budget. *)

From Stdlib Require Import ZArith QArith Qabs Qround Qminmax Qpower Reals Qreals Lra Lia Psatz.
From Stdlib Require Floats.
From stdpp Require Import gmap list strings.

Set Warnings "-inexact-float".

(* ================================================================== *)
(*  Part I.  The program                                              *)
(* ================================================================== *)

(* ------------------------------------------------------------------ *)
(* State-and-failure monad: a computation reads and writes a state of type
   [St] and either returns a value or throws (None). *)
Definition M (St A : Type) : Type := St -> option (A * St).

Definition ret {St A} (a : A) : M St A := fun s => Some (a, s).
Definition bind {St A B} (m : M St A) (k : A -> M St B) : M St B :=
  fun s => match m s with
           | Some (a, s') => k a s'
           | None => None
           end.
Definition throw {St A} : M St A := fun _ => None.

#[global] Instance M_ret {St} : MRet (M St) := fun A a => ret a.
#[global] Instance M_bind {St} : MBind (M St) := fun A B k m => bind m k.

(* for (let i = lo; i < lo + n; i++) body(i) *)
Fixpoint forLoop {St} (n : nat) (i : Z) (body : Z -> M St unit) : M St unit :=
  match n with
  | O => ret tt
  | S n' => bind (body i) (fun _ => forLoop n' (i + 1) body)
  end.

(* for (let i = 0; i < hi; i++) body(i) *)
Definition forUpTo {St} (hi : Z) (body : Z -> M St unit) : M St unit :=
  forLoop (Z.to_nat hi) 0 body.


Module Rng.
Local Open Scope Z_scope.

(* ToInt32 and ToUint32 of an integer-valued number *)
Definition toInt32 (z : Z) : Z := (z + 2 ^ 31) mod 2 ^ 32 - 2 ^ 31.
Definition toUint32 (z : Z) : Z := z mod 2 ^ 32.

(* a | b, a ^ b, a >>> n, Math.imul(a, b) *)
Definition or32 (a b : Z) : Z := Z.lor (toInt32 a) (toInt32 b).
Definition xor32 (a b : Z) : Z := Z.lxor (toInt32 a) (toInt32 b).
Definition ushr32 (a n : Z) : Z := Z.shiftr (toUint32 a) n.
Definition imul (a b : Z) : Z := toInt32 (toInt32 a * toInt32 b).

Record RNG := mkRNG { state : Z; seed : Z }.

Definition createRNG (seed0 : Z) : RNG := mkRNG (or32 seed0 0) seed0.

Definition next (rng : RNG) : Q * RNG :=
  let state := or32 (state rng + 0x6d2b79f5) 0 in
  let t := imul (xor32 state (ushr32 state 15)) (or32 1 state) in
  let t := xor32 (t + imul (xor32 t (ushr32 t 7)) (or32 61 t)) t in
  ((inject_Z (ushr32 (xor32 t (ushr32 t 14)) 0) / 4294967296)%Q, mkRNG state (seed rng)).

(* Math.floor(next() * (max - min)) + min *)
Definition nextInt (min max : Z) (rng : RNG) : Z * RNG :=
  let (v, rng) := next rng in
  (Qfloor (v * inject_Z (max - min)) + min, rng).

Definition nextFloat (min max : Q) (rng : RNG) : Q * RNG :=
  let (v, rng) := next rng in
  ((v * (max - min) + min)%Q, rng).

Definition computeAttemptSeed (baseSeed attemptIndex : Z) : Z := baseSeed + attemptIndex.

(* [arr[i], arr[j]] = [arr[j], arr[i]]; None when an index is outside the
   array, where JavaScript would store undefined *)
Definition swap {T} (arr : list T) (i j : nat) : option (list T) :=
  match arr !! j, arr !! i with
  | Some aj, Some ai => Some (<[j := ai]> (<[i := aj]> arr))
  | _, _ => None
  end.

(* the passes i, i - 1, ..., 1 of the loop of shuffle *)
Fixpoint shuffleFrom {T} (i : nat) (arr : list T) (rng : RNG) : option (list T * RNG) :=
  match i with
  | O => Some (arr, rng)
  | S i' =>
      let (j, rng) := nextInt 0 (Z.of_nat i + 1) rng in
      if 0 <=? j then
        match swap arr i (Z.to_nat j) with
        | Some arr => shuffleFrom i' arr rng
        | None => None
        end
      else None
  end.

(* for (let i = arr.length - 1; i > 0; i--) { ... } return arr *)
Definition shuffle {T} (arr : list T) (rng : RNG) : option (list T * RNG) :=
  shuffleFrom (length arr - 1) arr rng.

End Rng.


Module Types.
Local Open Scope Z_scope.

Record MazeCell := mkCell {
  ring : Z;
  slice : Z;
  wallInner : bool;
  wallOuter : bool;
  wallCW : bool;
  wallCCW : bool
}.

Record ExitSector := mkExit { sliceStart : Z; sliceCount : Z }.

Record MazeConfig := mkConfig {
  rings : Z;
  slices : Z;
  seed : Z;
  innerRadius : Q;
  outerRadius : Q;
  ballRadius : Q
}.

Record GenerationParams := mkParams {
  wallDensity : Q;
  branchiness : Q;
  corridorWidth : Q;
  radialDensity : Q;
  decoyRate : Q;
  pathLengthBias : Q;
  exitOffset : Z;
  exitWidth : Z
}.

Definition defaultGenerationParams : GenerationParams :=
  mkParams 0.3 0.3 1.0 0.2 0.2 0.5 (-1) 2.

Abbreviation Grid := (list (list MazeCell)).

Record MazeData := mkMaze {
  cells : Grid;
  exit : ExitSector;
  config : MazeConfig;
  params : GenerationParams;
  finalSeed : Z
}.

(* Math.PI, the binary64 number 3.141592653589793 *)
Definition MATH_PI : Q := 884279719003555 # 281474976710656.

Definition sliceAngle (slices : Z) : Q := (2 * MATH_PI / inject_Z slices)%Q.

Definition ringInnerRadius (config : MazeConfig) (ring : Z) : Q :=
  let ringWidth := ((outerRadius config - innerRadius config) / inject_Z (rings config))%Q in
  (innerRadius config + inject_Z ring * ringWidth)%Q.

Definition ringOuterRadius (config : MazeConfig) (ring : Z) : Q :=
  let ringWidth := ((outerRadius config - innerRadius config) / inject_Z (rings config))%Q in
  (innerRadius config + inject_Z (ring + 1) * ringWidth)%Q.

Definition ringWidth (config : MazeConfig) : Q :=
  ((outerRadius config - innerRadius config) / inject_Z (rings config))%Q.

(* cells[r][s]; None when the row or the cell is undefined *)
Definition getCell (cells : Grid) (r s : Z) : option MazeCell :=
  if (0 <=? r) && (0 <=? s) then
    match cells !! Z.to_nat r with
    | Some row => row !! Z.to_nat s
    | None => None
    end
  else None.

Definition setCell (cells : Grid) (r s : Z) (c : MazeCell) : Grid :=
  match cells !! Z.to_nat r with
  | Some row => <[Z.to_nat r := <[Z.to_nat s := c]> row]> cells
  | None => cells
  end.

Definition withWallInner (b : bool) (c : MazeCell) : MazeCell :=
  mkCell (ring c) (slice c) b (wallOuter c) (wallCW c) (wallCCW c).
Definition withWallOuter (b : bool) (c : MazeCell) : MazeCell :=
  mkCell (ring c) (slice c) (wallInner c) b (wallCW c) (wallCCW c).
Definition withWallCW (b : bool) (c : MazeCell) : MazeCell :=
  mkCell (ring c) (slice c) (wallInner c) (wallOuter c) b (wallCCW c).
Definition withWallCCW (b : bool) (c : MazeCell) : MazeCell :=
  mkCell (ring c) (slice c) (wallInner c) (wallOuter c) (wallCW c) b.

(* reading cells[r][s].field throws when cells[r][s] is undefined *)
Definition readCell (r s : Z) : M Grid MazeCell :=
  fun cells => match getCell cells r s with
               | Some c => Some (c, cells)
               | None => None
               end.

(* cells[r][s].field = value *)
Definition modifyCell (f : MazeCell -> MazeCell) (r s : Z) : M Grid unit :=
  fun cells => match getCell cells r s with
               | Some c => Some (tt, setCell cells r s (f c))
               | None => None
               end.

End Types.


Module Solver.
Import Types.
Local Open Scope Z_scope.

Record SolveResult := mkSolve { solvable : bool; path : list (Z * Z) }.

Section Solve.
Variable cells : Grid.
Variable config : MazeConfig.
Variable exit : ExitSector.

Definition key (r s : Z) : Z := r * slices config + s.

(* the exit target set *)
Definition exitCells : gset Z :=
  foldl (fun acc i => acc ∪ {[ key (rings config - 1)
                                   (Z.rem (sliceStart exit + i) (slices config)) ]})
        ∅ (seqZ 0 (sliceCount exit)).

(* visited and queue after the loop that seeds every ring-0 cell *)
Definition seedStarts : gmap Z Z * list (Z * Z) :=
  foldl (fun vq s => (<[key 0 s := -1]> (fst vq), snd vq ++ [(0, s)]))
        (∅, []) (seqZ 0 (slices config)).

(* if (!visited.has(nk)) { visited.set(nk, ck); queue.push([nr, ns]); } *)
Definition visit (ck nr ns : Z) (vq : gmap Z Z * list (Z * Z)) : gmap Z Z * list (Z * Z) :=
  let nk := key nr ns in
  match fst vq !! nk with
  | Some _ => vq
  | None => (<[nk := ck]> (fst vq), snd vq ++ [(nr, ns)])
  end.

Definition explore (cell : MazeCell) (cr cs : Z) (vq : gmap Z Z * list (Z * Z))
  : gmap Z Z * list (Z * Z) :=
  let ck := key cr cs in
  let vq := if (0 <? cr) && negb (wallInner cell) then visit ck (cr - 1) cs vq else vq in
  let vq := if (cr <? rings config - 1) && negb (wallOuter cell)
            then visit ck (cr + 1) cs vq else vq in
  let vq := if negb (wallCW cell)
            then visit ck cr (Z.rem (cs + 1) (slices config)) vq else vq in
  let vq := if negb (wallCCW cell)
            then visit ck cr (Z.rem (cs - 1 + slices config) (slices config)) vq else vq in
  vq.

(* while (current !== -1) { path.unshift(...); current = visited.get(current) ?? -1 };
   a parent chain is shorter than the number of visited cells
   (SolverFacts.reconstruct_rooted) *)
Fixpoint reconstruct (fuel : nat) (visited : gmap Z Z) (current : Z) (path : list (Z * Z))
  : option (list (Z * Z)) :=
  if current =? -1 then Some path else
  match fuel with
  | O => None
  | S fuel' =>
      let r := current / slices config in
      let s := Z.rem current (slices config) in
      reconstruct fuel' visited (default (-1) (visited !! current)) ((r, s) :: path)
  end.

(* while (head < queue.length) { ... }; every pass advances head, and a cell
   enters the queue at most once, so the budget solveMaze gives is never
   exhausted on a lattice of rings x slices cells (SolverFacts.bfs_total) *)
Fixpoint bfs (fuel : nat) (visited : gmap Z Z) (queue : list (Z * Z)) (head : nat)
  : option SolveResult :=
  match queue !! head with
  | None => Some (mkSolve false [])
  | Some (cr, cs) =>
      match fuel with
      | O => None
      | S fuel' =>
          let ck := key cr cs in
          match getCell cells cr cs with
          | None => None
          | Some cell =>
              if bool_decide (ck ∈ exitCells) && negb (wallOuter cell) then
                match reconstruct (size visited) visited ck [] with
                | Some path => Some (mkSolve true path)
                | None => None
                end
              else
                let (visited, queue) := explore cell cr cs (visited, queue) in
                bfs fuel' visited queue (S head)
          end
      end
  end.

Definition solveMaze : option SolveResult :=
  let (visited, queue) := seedStarts in
  bfs (Z.to_nat (Z.max 0 (rings config * slices config) + slices config + 1))
    visited queue 0.
End Solve.

End Solver.


Module Generator.
Import Rng Types Solver.
Local Open Scope Z_scope.

Definition GEOMETRIC_MARGIN : Q := 4.
Definition MAX_REGEN_ATTEMPTS : nat := 20.
Definition ARC_BIAS : nat := 4.

(* the two mutable objects a generation attempt works on *)
Record GenState := mkGen { grid : Grid; rng : RNG }.

Definition onCells {A} (m : M Grid A) : M GenState A :=
  fun st => match m (grid st) with
            | Some (a, g) => Some (a, mkGen g (rng st))
            | None => None
            end.

Definition rngNext : M GenState Q :=
  fun st => let (v, r) := next (rng st) in Some (v, mkGen (grid st) r).

Definition rngNextInt (min max : Z) : M GenState Z :=
  fun st => let (v, r) := nextInt min max (rng st) in Some (v, mkGen (grid st) r).

Definition createEmptyGrid (config : MazeConfig) : Grid :=
  map (fun r => map (fun s => mkCell r s true true true true) (seqZ 0 (slices config)))
      (seqZ 0 (rings config)).

Inductive Direction := inner | outer | cw | ccw.

Record Neighbor := mkNeighbor { nring : Z; nslice : Z; direction : Direction }.

Definition getNeighbors (ring slice : Z) (config : MazeConfig) : list Neighbor :=
  (if 0 <? ring then [mkNeighbor (ring - 1) slice inner] else [])
  ++ (if ring <? rings config - 1 then [mkNeighbor (ring + 1) slice outer] else [])
  ++ [mkNeighbor ring (Z.rem (slice + 1) (slices config)) cw]
  ++ [mkNeighbor ring (Z.rem (slice - 1 + slices config) (slices config)) ccw].

Definition removeWall (r1 s1 r2 s2 : Z) (direction : Direction) : M Grid unit :=
  match direction with
  | inner => modifyCell (withWallInner false) r1 s1;; modifyCell (withWallOuter false) r2 s2
  | outer => modifyCell (withWallOuter false) r1 s1;; modifyCell (withWallInner false) r2 s2
  | cw => modifyCell (withWallCW false) r1 s1;; modifyCell (withWallCCW false) r2 s2
  | ccw => modifyCell (withWallCCW false) r1 s1;; modifyCell (withWallCW false) r2 s2
  end.

(* the weighted list: every unvisited neighbor, arc neighbors ARC_BIAS times *)
Definition weightedNeighbors (visited : gset (Z * Z)) (neighbors : list Neighbor)
  : list Neighbor :=
  flat_map (fun n =>
              if bool_decide ((nring n, nslice n) ∈ visited) then []
              else
                let weight := match direction n with
                              | cw | ccw => ARC_BIAS
                              | _ => 1%nat
                              end in
                repeat n weight)
           neighbors.

(* the while loop of carveSpanningTree; the head of [stack] is the top.  Every
   pass pushes a cell not visited before or pops one, so 2 * rings * slices
   passes are enough (GeneratorFacts.carveLoop_total) *)
Fixpoint carveLoop (fuel : nat) (config : MazeConfig)
         (visited : gset (Z * Z)) (stack : list (Z * Z)) : M GenState unit :=
  match stack with
  | [] => ret tt
  | (cr, cs) :: rest =>
      match fuel with
      | O => throw
      | S fuel' =>
          let neighbors := getNeighbors cr cs config in
          let weighted := weightedNeighbors visited neighbors in
          if (length weighted =? 0)%nat then carveLoop fuel' config visited rest
          else
            i ← rngNextInt 0 (Z.of_nat (length weighted));
            match (if 0 <=? i then weighted !! Z.to_nat i else None) with
            | None => throw
            | Some chosen =>
                onCells (removeWall cr cs (nring chosen) (nslice chosen) (direction chosen));;
                carveLoop fuel' config
                          ({[ (nring chosen, nslice chosen) ]} ∪ visited)
                          ((nring chosen, nslice chosen) :: stack)
            end
      end
  end.

Definition carveSpanningTree (config : MazeConfig) : M GenState unit :=
  let startR := 0 in
  startS ← rngNextInt 0 (slices config);
  carveLoop (Z.to_nat (2 * (rings config * slices config) + 1)) config
            {[ (startR, startS) ]} [(startR, startS)].

Definition openEntryHoles (config : MazeConfig) : M GenState unit :=
  let numHoles := Z.min 3 (Z.max 2 (slices config / 4)) in
  let spacing := slices config / numHoles in
  offset ← rngNextInt 0 (slices config);
  forUpTo numHoles (fun i =>
    let s := Z.rem (offset + i * spacing) (slices config) in
    onCells (modifyCell (withWallInner false) 0 s)).

Definition addExtraOpenings (config : MazeConfig) (params : GenerationParams)
  : M GenState unit :=
  let totalCells := rings config * slices config in
  let openingsToAdd := Qfloor (inject_Z totalCells * branchiness params * 0.5) in
  forUpTo openingsToAdd (fun _ =>
    r ← rngNextInt 0 (rings config);
    s ← rngNextInt 0 (slices config);
    cell ← onCells (readCell r s);
    v ← rngNext;
    if Qlt_le_dec v 0.7 then
      tryInner ← (if (0 <? r) && wallInner cell
                   then v' ← rngNext; ret (if Qlt_le_dec v' 0.5 then true else false)
                   else ret false);
      if tryInner : bool then onCells (removeWall r s (r - 1) s inner)
      else if (r <? rings config - 1) && wallOuter cell
           then onCells (removeWall r s (r + 1) s outer)
           else ret tt
    else
      let ns := Z.rem (s + 1) (slices config) in
      if wallCW cell then onCells (removeWall r s r ns cw) else ret tt).

Definition capRadialWalls (config : MazeConfig) (params : GenerationParams)
  : M GenState unit :=
  forUpTo (rings config) (fun r =>
    forUpTo (slices config) (fun s =>
      cell ← onCells (readCell r s);
      if negb (wallCW cell) then ret tt
      else if Z.rem r 2 =? 1 then
        let ns := Z.rem (s + 1) (slices config) in
        onCells (modifyCell (withWallCW false) r s);;
        onCells (modifyCell (withWallCCW false) r ns)
      else
        v ← rngNext;
        if Qlt_le_dec (radialDensity params) v then
          let ns := Z.rem (s + 1) (slices config) in
          onCells (modifyCell (withWallCW false) r s);;
          onCells (modifyCell (withWallCCW false) r ns)
        else ret tt)).

Definition placeExit (config : MazeConfig) (params : GenerationParams)
  : M GenState ExitSector :=
  sliceStart ← (if 0 <=? exitOffset params
                 then ret (Z.rem (exitOffset params) (slices config))
                 else rngNextInt 0 (slices config));
  let sliceCount := Z.min (exitWidth params) (slices config) in
  forUpTo sliceCount (fun i =>
    let s := Z.rem (sliceStart + i) (slices config) in
    onCells (modifyCell (withWallOuter false) (rings config - 1) s));;
  ret (mkExit sliceStart sliceCount).

Definition ensurePathToExit (config : MazeConfig) (exit : ExitSector) : M Grid unit :=
  let targetSlice := sliceStart exit in
  forUpTo (rings config - 1) (fun r =>
    c1 ← readCell r targetSlice;
    blocked ← (if wallOuter c1
                then c2 ← readCell (r + 1) targetSlice; ret (wallInner c2)
                else ret false);
    if blocked : bool then
      modifyCell (withWallOuter false) r targetSlice;;
      modifyCell (withWallInner false) (r + 1) targetSlice
    else ret tt).

Definition checkGeometricConstraints (config : MazeConfig) : bool :=
  let rw := ((outerRadius config - innerRadius config) / inject_Z (rings config))%Q in
  let minCellHeight := (2 * ballRadius config + GEOMETRIC_MARGIN)%Q in
  if Qlt_le_dec rw minCellHeight then false else
  let innerR := ringInnerRadius config 0 in
  let arcLen := (innerR * sliceAngle (slices config))%Q in
  if Qlt_le_dec arcLen minCellHeight then false else
  true.

Definition generateFallbackMaze (config : MazeConfig) (params : GenerationParams)
  : option MazeData :=
  let build : M Grid unit :=
    forUpTo (rings config) (fun r =>
      forUpTo (slices config) (fun s =>
        let ns := Z.rem (s + 1) (slices config) in
        modifyCell (withWallCW false) r s;;
        modifyCell (withWallCCW false) r ns);;
      if r <? rings config - 1 then
        let connectSlice := Z.rem r (slices config) in
        modifyCell (withWallOuter false) r connectSlice;;
        modifyCell (withWallInner false) (r + 1) connectSlice
      else ret tt);;
    modifyCell (withWallOuter false) (rings config - 1) 0;;
    modifyCell (withWallOuter false) (rings config - 1) 1 in
  match build (createEmptyGrid config) with
  | Some (_, cells) => Some (mkMaze cells (mkExit 0 2) config params (seed config))
  | None => None
  end.

(* solveMaze(cells, config, exit) on the current grid *)
Definition runSolver (config : MazeConfig) (exit : ExitSector) : M GenState SolveResult :=
  fun st => match solveMaze (grid st) config exit with
            | Some r => Some (r, st)
            | None => None
            end.

(* one pass of the retry loop's body after the geometric check *)
Definition attemptMaze (config : MazeConfig) (params : GenerationParams)
  : M GenState (ExitSector * SolveResult) :=
  carveSpanningTree config;;
  openEntryHoles config;;
  addExtraOpenings config params;;
  capRadialWalls config params;;
  exit ← placeExit config params;
  onCells (ensurePathToExit config exit);;
  solution ← runSolver config exit;
  ret (exit, solution).

Fixpoint generateLoop (attemptsLeft : nat) (config : MazeConfig) (params : GenerationParams)
         (seed : Z) : option MazeData :=
  match attemptsLeft with
  | O => generateFallbackMaze config params
  | S attemptsLeft' =>
      let rng := createRNG seed in
      if negb (checkGeometricConstraints config) then
        generateLoop attemptsLeft' config params (seed + 1)
      else
        let cells := createEmptyGrid config in
        match attemptMaze config params (mkGen cells rng) with
        | None => None
        | Some ((exit, solution), st) =>
            if solvable solution
            then Some (mkMaze (grid st) exit config params seed)
            else generateLoop attemptsLeft' config params (seed + 1)
        end
  end.

Definition generateMaze (config : MazeConfig) (params : GenerationParams) : option MazeData :=
  generateLoop MAX_REGEN_ATTEMPTS config params (Types.seed config).

End Generator.

Module Physics.
Local Open Scope R_scope.

Record Ball := mkBall { x : R; y : R; vx : R; vy : R; radius : R }.

Definition GRAVITY : R := 600.
Definition FRICTION : R := 0.985.
Definition RESTITUTION : R := 0.4.
Definition MAX_SPEED : R := 800.

Definition createBall (x0 y0 radius0 : R) : Ball :=
  mkBall x0 y0 0 0 radius0.

Definition integrateBall (ball : Ball) (dt mazeAngle : R) : Ball :=
  let gx := GRAVITY * sin mazeAngle in
  let gy := GRAVITY * cos mazeAngle in
  let ball := mkBall (x ball) (y ball) (vx ball + gx * dt) (vy ball + gy * dt) (radius ball) in
  let ball := mkBall (x ball) (y ball) (vx ball * FRICTION) (vy ball * FRICTION) (radius ball) in
  let speed := sqrt (vx ball * vx ball + vy ball * vy ball) in
  let ball :=
    if Rlt_dec MAX_SPEED speed then
      let scale := MAX_SPEED / speed in
      mkBall (x ball) (y ball) (vx ball * scale) (vy ball * scale) (radius ball)
    else ball in
  mkBall (x ball + vx ball * dt) (y ball + vy ball * dt) (vx ball) (vy ball) (radius ball).

Definition bounceBall (ball : Ball) (normal : R * R) (penetration : R) : Ball :=
  let ball := mkBall (x ball + fst normal * penetration) (y ball + snd normal * penetration)
                     (vx ball) (vy ball) (radius ball) in
  let dot := vx ball * fst normal + vy ball * snd normal in
  if Rlt_dec dot 0 then
    mkBall (x ball) (y ball)
           (vx ball - (1 + RESTITUTION) * dot * fst normal)
           (vy ball - (1 + RESTITUTION) * dot * snd normal)
           (radius ball)
  else ball.

Definition resetBall (ball : Ball) (x0 y0 : R) : Ball :=
  mkBall x0 y0 0 0 (radius ball).

End Physics.


Module Collision.
Import Physics.
Local Open Scope R_scope.

Record Segment := mkSegment { x1 : R; y1 : R; x2 : R; y2 : R }.

Record CollisionResult := mkResult { hit : bool; normal : R * R; penetration : R }.

Definition circleVsSegment (ball : Ball) (seg : Segment) : CollisionResult :=
  let NO_HIT := mkResult false (0, 0) 0 in
  let dx := x2 seg - x1 seg in
  let dy := y2 seg - y1 seg in
  let lenSq := dx * dx + dy * dy in
  if Rlt_dec lenSq 1e-10 then NO_HIT else
  let t := Rmax 0 (Rmin 1 (((x ball - x1 seg) * dx + (y ball - y1 seg) * dy) / lenSq)) in
  let cx := x1 seg + t * dx in
  let cy := y1 seg + t * dy in
  let distX := x ball - cx in
  let distY := y ball - cy in
  let dist := sqrt (distX * distX + distY * distY) in
  if Rle_dec (radius ball) dist then NO_HIT
  else if Rlt_dec dist 1e-10 then NO_HIT
  else
    let nx := distX / dist in
    let ny := distY / dist in
    mkResult true (nx, ny) (radius ball - dist).


Definition tessellateArc (cx cy r theta1 theta2 : R) (numSegments : Z) : list Segment :=
  let dTheta := (theta2 - theta1) / IZR numSegments in
  (fun i : Z =>
     let a1 := theta1 + IZR i * dTheta in
     let a2 := theta1 + IZR (i + 1) * dTheta in
     mkSegment (cx + r * cos a1) (cy + r * sin a1) (cx + r * cos a2) (cy + r * sin a2))
    <$> seqZ 0 numSegments.

End Collision.


Module Time.
Local Open Scope Q_scope.

Definition PHYSICS_HZ : Q := 120.
Definition FIXED_DT : Q := 1 / PHYSICS_HZ.
Definition MAX_FRAME_TIME : Q := 0.1.

Record TimeState := mkTimeState {
  accumulator : Q;
  lastTime : Q;
  alpha : Q;
  elapsed : Q
}.

(* performance.now() is read once at construction; it is passed in as [now] *)
Definition createTimeState (now : Q) : TimeState :=
  mkTimeState 0 (now / 1000) 0 0.

Section UpdateTime.
(* the state the physics callback mutates, and the callback itself *)
Variable World : Type.
Variable physicsTick : Q -> World -> World.

(* while (state.accumulator >= FIXED_DT) { ... }; the loop runs
   floor(accumulator / FIXED_DT) times, which is the budget updateTime gives *)
Fixpoint tickLoop (fuel : nat) (state : TimeState) (w : World)
  : option (TimeState * World) :=
  if Qle_bool FIXED_DT (accumulator state) then
    match fuel with
    | O => None
    | S fuel' =>
        let w := physicsTick FIXED_DT w in
        let state := mkTimeState (accumulator state - FIXED_DT) (lastTime state)
                                 (alpha state) (elapsed state + FIXED_DT) in
        tickLoop fuel' state w
    end
  else Some (state, w).

Definition updateTime (state : TimeState) (now : Q) (w : World)
  : option (Q * TimeState * World) :=
  let currentTime := now / 1000 in
  let frameTime := currentTime - lastTime state in
  let state := mkTimeState (accumulator state) currentTime (alpha state) (elapsed state) in
  let frameTime := if Qlt_le_dec MAX_FRAME_TIME frameTime then MAX_FRAME_TIME else frameTime in
  let state := mkTimeState (accumulator state + frameTime) (lastTime state)
                           (alpha state) (elapsed state) in
  let fuel := S (Z.to_nat (Qfloor (accumulator state / FIXED_DT))) in
  match tickLoop fuel state w with
  | None => None
  | Some (state, w) =>
      let state := mkTimeState (accumulator state) (lastTime state)
                               (accumulator state / FIXED_DT) (elapsed state) in
      Some (alpha state, state, w)
  end.

End UpdateTime.

End Time.


Module Metrics.
Record AttemptMetrics := mkMetrics {
  totalTime : Q;
  avgSpeed : Q;
  idleRatio : Q;
  riskRatio : Q;
  collisionCount : Q;
  directionChanges : Q;
  exploration : Q;
  won : bool
}.
End Metrics.


Module Profile.
Local Open Scope Q_scope.

Definition EMA_ALPHA : Q := 0.3.

Record PlayerProfile := mkProfile {
  avgSpeed : Q;
  avgIdleRatio : Q;
  avgRiskRatio : Q;
  avgCollisions : Q;
  avgDirChanges : Q;
  avgExploration : Q;
  avgTime : Q;
  attempts : Z
}.

Definition createProfile : PlayerProfile := mkProfile 0 0 0 0 0 0 0 0.

Definition ema (prev current : Q) : Q :=
  prev * (1 - EMA_ALPHA) + current * EMA_ALPHA.

Definition updateProfile (profile : PlayerProfile) (metrics : Metrics.AttemptMetrics)
  : PlayerProfile :=
  let attempts' := (attempts profile + 1)%Z in
  if (attempts' =? 1)%Z then
    mkProfile (Metrics.avgSpeed metrics)
              (Metrics.idleRatio metrics)
              (Metrics.riskRatio metrics)
              (Metrics.collisionCount metrics)
              (Metrics.directionChanges metrics)
              (Metrics.exploration metrics)
              (Metrics.totalTime metrics)
              attempts'
  else
    mkProfile (ema (avgSpeed profile) (Metrics.avgSpeed metrics))
              (ema (avgIdleRatio profile) (Metrics.idleRatio metrics))
              (ema (avgRiskRatio profile) (Metrics.riskRatio metrics))
              (ema (avgCollisions profile) (Metrics.collisionCount metrics))
              (ema (avgDirChanges profile) (Metrics.directionChanges metrics))
              (ema (avgExploration profile) (Metrics.exploration metrics))
              (ema (avgTime profile) (Metrics.totalTime metrics))
              attempts'.

End Profile.


Module Mapping.
Import Types Profile.
Local Open Scope Q_scope.

Record Range := mkRange { min : Q; max : Q }.

Module CLAMPS.
Definition wallDensity := mkRange 0.1 0.7.
Definition branchiness := mkRange 0.05 0.6.
Definition corridorWidth := mkRange 1.0 2.0.
Definition radialDensity := mkRange 0.1 0.35.
Definition decoyRate := mkRange 0.0 0.5.
Definition pathLengthBias := mkRange 0.2 0.8.
Definition exitWidth := mkRange 1 2.
End CLAMPS.

Definition MAX_DELTA : Q := 0.1.

Definition clamp (value min max : Q) : Q := Qmax min (Qmin max value).

(* Math.sign *)
Definition sign (q : Q) : Q :=
  match q ?= 0 with
  | Lt => -1
  | Eq => 0
  | Gt => 1
  end.

Definition rateLimited (prev target maxDelta : Q) : Q :=
  let delta := target - prev in
  if Qle_bool (Qabs delta) maxDelta then target
  else prev + sign delta * maxDelta.

Definition mapProfileToParams (profile : PlayerProfile) (currentParams : GenerationParams)
  : GenerationParams :=
  if (attempts profile <? 1)%Z then currentParams else
  let targetWallDensity := 0.2 + avgSpeed profile / 500 in
  let targetPathLength := 0.3 + avgSpeed profile / 600 in
  let targetBranchiness := 0.15 + (1 - avgDirChanges profile / 50) * 0.3 in
  let targetDecoyRate := 0.1 + (1 - avgCollisions profile / 20) * 0.2 in
  let targetCorridorWidth := 1.5 - avgExploration profile * 0.5 in
  let targetRadialDensity := 0.2 + avgRiskRatio profile * 0.15 in
  let targetExitWidth := if Qlt_le_dec 60 (avgTime profile) then 2%Z else 1%Z in
  mkParams
    (clamp (rateLimited (wallDensity currentParams) targetWallDensity MAX_DELTA)
           (min CLAMPS.wallDensity) (max CLAMPS.wallDensity))
    (clamp (rateLimited (branchiness currentParams) targetBranchiness MAX_DELTA)
           (min CLAMPS.branchiness) (max CLAMPS.branchiness))
    (clamp (rateLimited (corridorWidth currentParams) targetCorridorWidth MAX_DELTA)
           (min CLAMPS.corridorWidth) (max CLAMPS.corridorWidth))
    (clamp (rateLimited (radialDensity currentParams) targetRadialDensity MAX_DELTA)
           (min CLAMPS.radialDensity) (max CLAMPS.radialDensity))
    (clamp (rateLimited (decoyRate currentParams) targetDecoyRate MAX_DELTA)
           (min CLAMPS.decoyRate) (max CLAMPS.decoyRate))
    (clamp (rateLimited (pathLengthBias currentParams) targetPathLength MAX_DELTA)
           (min CLAMPS.pathLengthBias) (max CLAMPS.pathLengthBias))
    (-1)
    targetExitWidth.

End Mapping.


Module JSMath.
Local Open Scope R_scope.

(* Math.atan2(y, x): the angle of the point (x, y), in (-PI, PI] *)
Definition atan2 (y x : R) : R :=
  if Rlt_dec 0 x then atan (y / x)
  else if Rlt_dec x 0 then
    if Rle_dec 0 y then atan (y / x) + PI else atan (y / x) - PI
  else if Rlt_dec 0 y then PI / 2
  else if Rlt_dec y 0 then - PI / 2
  else 0.

(* Math.floor *)
Definition floor (v : R) : Z := Int_part v.

End JSMath.

Module Tracker.
Import Types Physics JSMath.
Local Open Scope R_scope.

(* the AttemptMetrics object, with the numbers snapshotMetrics computes *)
Module Attempt.
Record AttemptMetrics := mkAttempt {
  totalTime : R;
  avgSpeed : R;
  idleRatio : R;
  riskRatio : R;
  collisionCount : Z;
  directionChanges : Z;
  exploration : R;
  won : bool
}.
End Attempt.

(* visitedCells holds the strings `${ring},${slice}`; a string stands for the
   pair of integers it prints.  The model is for slices <> 0: with slices = 0
   the slice is NaN. *)
Record MetricsTracker := mkTracker {
  startTime : R;
  tickCount : Z;
  totalSpeed : R;
  idleTicks : Z;
  nearOuterTicks : Z;
  collisions : Z;
  dirChanges : Z;
  visitedCells : gset (Z * Z);
  config : MazeConfig;
  totalTime : R
}.

Definition IDLE_THRESHOLD : R := 5.
Definition OUTER_RISK_FRACTION : R := 0.85.

(* performance.now() is passed in as [now] *)
Definition createMetricsTracker (config : MazeConfig) (now : R) : MetricsTracker :=
  mkTracker now 0 0 0 0 0 0 ∅ config 0.

Definition recordTick (tracker : MetricsTracker) (ball : Ball) (_mazeAngle dt : R)
  : MetricsTracker :=
  let cfg := config tracker in
  let tickCount := (tickCount tracker + 1)%Z in
  let totalTime := totalTime tracker + dt in
  let speed := sqrt (vx ball * vx ball + vy ball * vy ball) in
  let totalSpeed := totalSpeed tracker + speed in
  let idleTicks :=
    if Rlt_dec speed IDLE_THRESHOLD then (idleTicks tracker + 1)%Z else idleTicks tracker in
  let dist := sqrt (x ball * x ball + y ball * y ball) in
  let outerR := Q2R (ringOuterRadius cfg (rings cfg - 1)) in
  let nearOuterTicks :=
    if Rlt_dec (outerR * OUTER_RISK_FRACTION) dist
    then (nearOuterTicks tracker + 1)%Z else nearOuterTicks tracker in
  let sa := Q2R (sliceAngle (slices cfg)) in
  let theta := atan2 (y ball) (x ball) in
  let theta := if Rlt_dec theta 0 then theta + 2 * Q2R MATH_PI else theta in
  let slice := Z.rem (floor (theta / sa)) (slices cfg) in
  let ringWidth := Q2R ((outerRadius cfg - innerRadius cfg) / inject_Z (rings cfg)) in
  let visitedCells :=
    (* a zero ringWidth makes ring Infinity or NaN, which fails the range test *)
    if Req_dec_T ringWidth 0 then visitedCells tracker else
    let ring := floor ((dist - Q2R (innerRadius cfg)) / ringWidth) in
    if (0 <=? ring)%Z && (ring <? rings cfg)%Z
    then {[ (ring, slice) ]} ∪ visitedCells tracker
    else visitedCells tracker in
  mkTracker (startTime tracker) tickCount totalSpeed idleTicks nearOuterTicks
            (collisions tracker) (dirChanges tracker) visitedCells cfg totalTime.

Definition recordCollision (tracker : MetricsTracker) : MetricsTracker :=
  mkTracker (startTime tracker) (tickCount tracker) (totalSpeed tracker) (idleTicks tracker)
            (nearOuterTicks tracker) (collisions tracker + 1) (dirChanges tracker)
            (visitedCells tracker) (config tracker) (totalTime tracker).

Definition recordDirectionChange (tracker : MetricsTracker) : MetricsTracker :=
  mkTracker (startTime tracker) (tickCount tracker) (totalSpeed tracker) (idleTicks tracker)
            (nearOuterTicks tracker) (collisions tracker) (dirChanges tracker + 1)
            (visitedCells tracker) (config tracker) (totalTime tracker).

Definition snapshotMetrics (tracker : MetricsTracker) : Attempt.AttemptMetrics :=
  let ticks := Z.max (tickCount tracker) 1 in
  let totalCells := (rings (config tracker) * slices (config tracker))%Z in
  Attempt.mkAttempt
    (totalTime tracker)
    (totalSpeed tracker / IZR ticks)
    (IZR (idleTicks tracker) / IZR ticks)
    (IZR (nearOuterTicks tracker) / IZR ticks)
    (collisions tracker)
    (dirChanges tracker)
    (IZR (Z.of_nat (size (visitedCells tracker))) / IZR totalCells)
    false.

End Tracker.

Module Renderer.
Import Rng Types Physics Collision.
Local Open Scope Z_scope.

Definition ARC_SEGMENTS : Z := 8.
Definition PASSAGE_FACTOR : Q := 3.

Definition maxPassage (config : MazeConfig) : Q :=
  (PASSAGE_FACTOR * ballRadius config * 2)%Q.

(* an integer as the binary64 number nearest to it, ties to the even
   significand; integers below 2^53 in size are exact *)
Definition roundDouble (z : Z) : Z :=
  let a := Z.abs z in
  if a <? 2 ^ 53 then z else
  let e := Z.log2 a - 52 in
  let q := a / 2 ^ e in
  let r := a mod 2 ^ e in
  let q := if 2 * r <? 2 ^ e then q
           else if 2 ^ e <? 2 * r then q + 1
           else if Z.even q then q else q + 1 in
  Z.sgn z * (q * 2 ^ e).

(* a >> n *)
Definition sar32 (a n : Z) : Z := Z.shiftr (toInt32 a) n.

(* the products are ordinary multiplications of numbers, not Math.imul, so
   they are rounded to binary64 before the next 32-bit operation *)
Definition cellHash (ring slice salt : Z) : Q :=
  let h := or32 (ring * 7919 + slice * 104729 + salt * 31) 0 in
  let h := roundDouble (xor32 (sar32 h 16) h * 0x45d9f3b) in
  let h := roundDouble (xor32 (sar32 h 16) h * 0x45d9f3b) in
  let h := xor32 (sar32 h 16) h in
  (inject_Z (Z.land (toInt32 h) 0x7fffffff) / inject_Z 0x7fffffff)%Q.


Local Open Scope R_scope.

(* segments.push(...) appends; the function returns the array it was given *)
Definition addClampedPassageSegments (segments : list Segment)
           (r theta0 theta1 maxPass : R) (ring slice salt : Z) : list Segment :=
  let arcLen := r * (theta1 - theta0) in
  if Rle_dec arcLen maxPass then segments else
  let gapAngle := maxPass / r in
  let totalAngle := theta1 - theta0 in
  let margin := gapAngle * 0.1 in
  let range := totalAngle - gapAngle - margin * 2 in
  let offset := margin + Q2R (cellHash ring slice salt) * Rmax 0 range in
  let gapStart := theta0 + offset in
  let gapEnd := gapStart + gapAngle in
  let segments :=
    if Rlt_dec (theta0 + 0.001) gapStart
    then segments ++ tessellateArc 0 0 r theta0 gapStart ARC_SEGMENTS
    else segments in
  let segments :=
    if Rlt_dec gapEnd (theta1 - 0.001)
    then segments ++ tessellateArc 0 0 r gapEnd theta1 ARC_SEGMENTS
    else segments in
  segments.

End Renderer.

Module Game.
Import Types Physics JSMath.
Local Open Scope R_scope.



End Game.

Module Input.
Local Open Scope string_scope.

Record InputState := mkInput {
  left : bool;
  right : bool;
  resetPressed : bool;
  debugToggled : bool
}.

(* the module variables keys, resetEdge and debugEdge *)
Record InputStore := mkStore {
  keys : gset string;
  resetEdge : bool;
  debugEdge : bool
}.

Definition initialStore : InputStore := mkStore ∅ false false.

(* the three listeners initInput registers; e.key is passed in as [key] *)
Definition onKeyDown (key : string) (st : InputStore) : InputStore :=
  let resetEdge := if String.eqb key "r" || String.eqb key "R" then true else resetEdge st in
  let debugEdge := if String.eqb key "F1" then true else debugEdge st in
  mkStore ({[ key ]} ∪ keys st) resetEdge debugEdge.

Definition onKeyUp (key : string) (st : InputStore) : InputStore :=
  mkStore (keys st ∖ {[ key ]}) (resetEdge st) (debugEdge st).

Definition onBlur (st : InputStore) : InputStore :=
  mkStore ∅ (resetEdge st) (debugEdge st).

Definition has (st : InputStore) (key : string) : bool := bool_decide (key ∈ keys st).

Definition readInput (st : InputStore) : InputState * InputStore :=
  (mkInput (has st "a" || has st "A" || has st "ArrowLeft")
           (has st "d" || has st "D" || has st "ArrowRight")
           (resetEdge st) (debugEdge st),
   mkStore (keys st) false false).

End Input.


Module Tolerance.

(* adapt.mapping.test.ts compares a rate-limited step with 0.1 + 1e-9: the
   room the repository leaves for the rounding of binary64 arithmetic *)
Definition TOLERANCE : Q := 1 # 1000000000.

(* the same room relative to the size of a and b *)
Definition slack (a b : Q) : Q := TOLERANCE * (Qabs a + Qabs b).

End Tolerance.


(* The same source lines on the kernel's binary64 numbers (round to nearest,
   ties to even), to evaluate them where the last bit matters. *)
Module Binary64.
Import Floats.
Local Open Scope float_scope.

(* the rational a finite binary64 number stands for *)
Definition toQ (v : float) : Q :=
  match Prim2SF v with
  | S754_finite s m e =>
      let q := (inject_Z (Z.pos m) * Qpower 2 e)%Q in
      if s then Qopp q else q
  | _ => 0%Q
  end.

Definition isNaN (v : float) : bool := negb (v =? v).

(* Math.sign: 1, -1, or the argument itself when it is a zero or NaN *)
Definition Math_sign (v : float) : float :=
  if 0 <? v then 1 else if v <? 0 then -1 else v.

(* Math.min and Math.max: NaN when an argument is NaN, and -0 below +0 *)
Definition Math_min (a b : float) : float :=
  if isNaN a || isNaN b then nan
  else if a <? b then a else if b <? a then b
  else if get_sign a then a else b.

Definition Math_max (a b : float) : float :=
  if isNaN a || isNaN b then nan
  else if a <? b then b else if b <? a then a
  else if get_sign a then b else a.

Module Physics.

Record Ball := mkBall { x : float; y : float; vx : float; vy : float; radius : float }.

Definition GRAVITY : float := 600.
Definition FRICTION : float := 0.985.
Definition MAX_SPEED : float := 800.

(* Math.sin(mazeAngle) and Math.cos(mazeAngle) are passed in as [sinA] and
   [cosA]: how they are rounded is left to the engine *)
Definition integrateBall (ball : Ball) (dt sinA cosA : float) : Ball :=
  let gx := GRAVITY * sinA in
  let gy := GRAVITY * cosA in
  let vx := vx ball + gx * dt in
  let vy := vy ball + gy * dt in
  let vx := vx * FRICTION in
  let vy := vy * FRICTION in
  let speed := sqrt (vx * vx + vy * vy) in
  let scale := MAX_SPEED / speed in
  let vx' := if MAX_SPEED <? speed then vx * scale else vx in
  let vy' := if MAX_SPEED <? speed then vy * scale else vy in
  mkBall (x ball + vx' * dt) (y ball + vy' * dt) vx' vy' (radius ball).

End Physics.

Module Metrics.

Record AttemptMetrics := mkMetrics {
  totalTime : float;
  avgSpeed : float;
  idleRatio : float;
  riskRatio : float;
  collisionCount : float;
  directionChanges : float;
  exploration : float;
  won : bool
}.

End Metrics.

Module Profile.

Definition EMA_ALPHA : float := 0.3.

Record PlayerProfile := mkProfile {
  avgSpeed : float;
  avgIdleRatio : float;
  avgRiskRatio : float;
  avgCollisions : float;
  avgDirChanges : float;
  avgExploration : float;
  avgTime : float;
  attempts : Z
}.

Definition createProfile : PlayerProfile := mkProfile 0 0 0 0 0 0 0 0.

Definition ema (prev current : float) : float :=
  prev * (1 - EMA_ALPHA) + current * EMA_ALPHA.

Definition updateProfile (profile : PlayerProfile) (metrics : Metrics.AttemptMetrics)
  : PlayerProfile :=
  let attempts' := (attempts profile + 1)%Z in
  if (attempts' =? 1)%Z then
    mkProfile (Metrics.avgSpeed metrics)
              (Metrics.idleRatio metrics)
              (Metrics.riskRatio metrics)
              (Metrics.collisionCount metrics)
              (Metrics.directionChanges metrics)
              (Metrics.exploration metrics)
              (Metrics.totalTime metrics)
              attempts'
  else
    mkProfile (ema (avgSpeed profile) (Metrics.avgSpeed metrics))
              (ema (avgIdleRatio profile) (Metrics.idleRatio metrics))
              (ema (avgRiskRatio profile) (Metrics.riskRatio metrics))
              (ema (avgCollisions profile) (Metrics.collisionCount metrics))
              (ema (avgDirChanges profile) (Metrics.directionChanges metrics))
              (ema (avgExploration profile) (Metrics.exploration metrics))
              (ema (avgTime profile) (Metrics.totalTime metrics))
              attempts'.

End Profile.

Module Mapping.
Import Profile.

Record GenerationParams := mkParams {
  wallDensity : float;
  branchiness : float;
  corridorWidth : float;
  radialDensity : float;
  decoyRate : float;
  pathLengthBias : float;
  exitOffset : Z;
  exitWidth : Z
}.

Definition defaultGenerationParams : GenerationParams :=
  mkParams 0.3 0.3 1.0 0.2 0.2 0.5 (-1) 2.

Record Range := mkRange { min : float; max : float }.

Module CLAMPS.
Definition wallDensity := mkRange 0.1 0.7.
Definition branchiness := mkRange 0.05 0.6.
Definition corridorWidth := mkRange 1.0 2.0.
Definition radialDensity := mkRange 0.1 0.35.
Definition decoyRate := mkRange 0.0 0.5.
Definition pathLengthBias := mkRange 0.2 0.8.
End CLAMPS.

Definition MAX_DELTA : float := 0.1.

Definition clamp (value min max : float) : float := Math_max min (Math_min max value).

Definition rateLimited (prev target maxDelta : float) : float :=
  let delta := target - prev in
  if abs delta <=? maxDelta then target
  else prev + Math_sign delta * maxDelta.

Definition mapProfileToParams (profile : PlayerProfile) (currentParams : GenerationParams)
  : GenerationParams :=
  if (attempts profile <? 1)%Z then currentParams else
  let targetWallDensity := 0.2 + avgSpeed profile / 500 in
  let targetPathLength := 0.3 + avgSpeed profile / 600 in
  let targetBranchiness := 0.15 + (1 - avgDirChanges profile / 50) * 0.3 in
  let targetDecoyRate := 0.1 + (1 - avgCollisions profile / 20) * 0.2 in
  let targetCorridorWidth := 1.5 - avgExploration profile * 0.5 in
  let targetRadialDensity := 0.2 + avgRiskRatio profile * 0.15 in
  let targetExitWidth := if 60 <? avgTime profile then 2%Z else 1%Z in
  mkParams
    (clamp (rateLimited (wallDensity currentParams) targetWallDensity MAX_DELTA)
           (min CLAMPS.wallDensity) (max CLAMPS.wallDensity))
    (clamp (rateLimited (branchiness currentParams) targetBranchiness MAX_DELTA)
           (min CLAMPS.branchiness) (max CLAMPS.branchiness))
    (clamp (rateLimited (corridorWidth currentParams) targetCorridorWidth MAX_DELTA)
           (min CLAMPS.corridorWidth) (max CLAMPS.corridorWidth))
    (clamp (rateLimited (radialDensity currentParams) targetRadialDensity MAX_DELTA)
           (min CLAMPS.radialDensity) (max CLAMPS.radialDensity))
    (clamp (rateLimited (decoyRate currentParams) targetDecoyRate MAX_DELTA)
           (min CLAMPS.decoyRate) (max CLAMPS.decoyRate))
    (clamp (rateLimited (pathLengthBias currentParams) targetPathLength MAX_DELTA)
           (min CLAMPS.pathLengthBias) (max CLAMPS.pathLengthBias))
    (-1)
    targetExitWidth.

End Mapping.

(* the inputs of the runs evaluated in Part II *)
Definition fastBall : Physics.Ball := Physics.mkBall 0 0 900 0 8.
Definition angleZero : float * float := (0, 1).
Definition tick : float := 1 / 120.
Definition typicalMetrics : Metrics.AttemptMetrics :=
  Metrics.mkMetrics 30 100 0.1 0.2 5 10 0.5 true.

End Binary64.


(* ================================================================== *)
(*  Part II.  Properties                                              *)
(* ================================================================== *)

Section Hoare.
Context {St : Type}.

(* total correctness: from a state satisfying P the computation returns, and
   the result and final state satisfy Q *)
Definition hoare {A} (P : St -> Prop) (m : M St A) (Q : A -> St -> Prop) : Prop :=
  forall s, P s -> exists a s', m s = Some (a, s') /\ Q a s'.

Lemma hoare_ret {A} (P : St -> Prop) (a : A) (Q : A -> St -> Prop) :
  (forall s, P s -> Q a s) -> hoare P (mret a) Q.
Proof. intros H s Hs. exists a, s. split; [reflexivity | auto]. Qed.

Lemma hoare_bind {A B} (P : St -> Prop) (m : M St A) (k : A -> M St B)
      (Q : A -> St -> Prop) (R : B -> St -> Prop) :
  hoare P m Q -> (forall a, hoare (Q a) (k a) R) -> hoare P (m ≫= k) R.
Proof.
  intros Hm Hk s Hs.
  destruct (Hm s Hs) as (a & s' & Em & Ha).
  destruct (Hk a s' Ha) as (b & s'' & Ek & Hb).
  exists b, s''. split; [| exact Hb].
  unfold mbind, M_bind, bind. rewrite Em. exact Ek.
Qed.

Lemma hoare_weaken {A} (P P' : St -> Prop) (m : M St A) (Q Q' : A -> St -> Prop) :
  hoare P' m Q' -> (forall s, P s -> P' s) -> (forall a s, Q' a s -> Q a s) ->
  hoare P m Q.
Proof.
  intros Hm HP HQ s Hs. destruct (Hm s (HP s Hs)) as (a & s' & E & Ha).
  exists a, s'. auto.
Qed.

Lemma hoare_forLoop (I : Z -> St -> Prop) (body : Z -> M St unit) n lo :
  (forall i, lo <= i < lo + Z.of_nat n -> hoare (I i) (body i) (fun _ => I (i + 1)))%Z ->
  hoare (I lo) (forLoop n lo body) (fun _ => I (lo + Z.of_nat n)%Z).
Proof.
  revert lo. induction n as [| n IH]; intros lo Hbody.
  - cbn [forLoop]. apply hoare_ret. intros s Hs.
    now replace (lo + Z.of_nat 0)%Z with lo by lia.
  - cbn [forLoop]. eapply (hoare_bind _ _ _ (fun _ => I (lo + 1)%Z)).
    + apply Hbody. lia.
    + intros _. eapply hoare_weaken.
      * apply IH. intros i Hi. apply Hbody. lia.
      * auto.
      * intros u s Hs. cbn beta in Hs.
        now replace (lo + Z.of_nat (S n))%Z with (lo + 1 + Z.of_nat n)%Z by lia.
Qed.

(* a fact that does not depend on the state may be assumed *)
Lemma hoare_assume {A} (fact : Prop) (P : St -> Prop) (m : M St A) (Q : A -> St -> Prop) :
  (fact -> hoare P m Q) -> hoare (fun s => P s /\ fact) m Q.
Proof. intros H s [Hs Hf]. exact (H Hf s Hs). Qed.

(* a loop whose body keeps one invariant *)
Lemma hoare_forUpTo (I : St -> Prop) (body : Z -> M St unit) hi :
  (forall i, 0 <= i < hi -> hoare I (body i) (fun _ => I))%Z ->
  hoare I (forUpTo hi body) (fun _ => I).
Proof.
  intros Hbody. unfold forUpTo.
  apply (hoare_forLoop (fun _ => I)). intros i Hi. apply Hbody. lia.
Qed.

(* a loop with an invariant that depends on the next index *)
Lemma hoare_forUpTo_indexed (I : Z -> St -> Prop) (body : Z -> M St unit) hi :
  (forall i, 0 <= i < hi -> hoare (I i) (body i) (fun _ => I (i + 1)))%Z ->
  hoare (I 0%Z) (forUpTo hi body) (fun _ => I (Z.max 0 hi)).
Proof.
  intros Hbody. unfold forUpTo.
  eapply hoare_weaken.
  - apply (hoare_forLoop I). intros i Hi. apply Hbody. lia.
  - auto.
  - intros u s Hs. cbn beta in Hs.
    now replace (Z.max 0 hi) with (0 + Z.of_nat (Z.to_nat hi))%Z by lia.
Qed.
End Hoare.

Lemma length_filter_shrinks {A} (P Q : A -> Prop)
      `{!forall x, Decision (P x)} `{!forall x, Decision (Q x)} (l : list A) (x : A) :
  (forall y, Q y -> P y) -> x ∈ l -> P x -> ~ Q x ->
  (length (filter Q l) < length (filter P l))%nat.
Proof.
  intros Himp Hin HP HQ.
  assert (Hmono : forall k : list A, (length (filter Q k) <= length (filter P k))%nat).
  { induction k as [| e k IH]; [reflexivity |].
    rewrite !filter_cons. repeat case_decide; cbn [length]; try lia.
    exfalso. auto. }
  induction l as [| d l IH]; [now apply elem_of_nil in Hin |].
  rewrite !filter_cons. apply elem_of_cons in Hin. destruct Hin as [<- | Hin].
  - rewrite (decide_False (P := Q x)) by exact HQ.
    rewrite (decide_True (P := P x)) by exact HP.
    cbn [length]. specialize (Hmono l). lia.
  - specialize (IH Hin). repeat case_decide; cbn [length]; try lia.
    exfalso. auto.
Qed.


Module GridFacts.
Import Types.
Local Open Scope Z_scope.

(* the four wall flags of a cell *)
Inductive Wall := WInner | WOuter | WCW | WCCW.

#[global] Instance Wall_eq_dec : EqDecision Wall.
Proof. solve_decision. Defined.

Definition wallOf (w : Wall) (c : MazeCell) : bool :=
  match w with
  | WInner => wallInner c
  | WOuter => wallOuter c
  | WCW => wallCW c
  | WCCW => wallCCW c
  end.

Definition clearOf (w : Wall) : MazeCell -> MazeCell :=
  match w with
  | WInner => withWallInner false
  | WOuter => withWallOuter false
  | WCW => withWallCW false
  | WCCW => withWallCCW false
  end.

(* the flag as the grid holds it; an undefined cell reads as walled *)
Definition wallAt (cells : Grid) (w : Wall) (r s : Z) : bool :=
  match getCell cells r s with
  | Some c => wallOf w c
  | None => true
  end.

Definition defined (R S : Z) (cells : Grid) : Prop :=
  forall r s, 0 <= r < R -> 0 <= s < S -> is_Some (getCell cells r s).

Lemma wallOf_clearOf w x c :
  wallOf w (clearOf x c) = if decide (w = x) then false else wallOf w c.
Proof. destruct w, x; reflexivity. Qed.

Lemma getCell_setCell cells r s c0 c r' s' :
  getCell cells r s = Some c0 ->
  getCell (setCell cells r s c) r' s'
  = if decide (r' = r /\ s' = s) then Some c else getCell cells r' s'.
Proof.
  unfold getCell, setCell. intros H.
  destruct (0 <=? r) eqn:Er; [| discriminate].
  destruct (0 <=? s) eqn:Es; [| discriminate].
  cbn [andb] in H.
  destruct (cells !! Z.to_nat r) as [row |] eqn:Erow; [| discriminate].
  apply Z.leb_le in Er, Es.
  pose proof (lookup_lt_Some _ _ _ Erow) as Hlr.
  pose proof (lookup_lt_Some _ _ _ H) as Hls.
  destruct (decide (r' = r /\ s' = s)) as [[-> ->] | Hne].
  - rewrite (proj2 (Z.leb_le 0 r) Er), (proj2 (Z.leb_le 0 s) Es). cbn [andb].
    rewrite list_lookup_insert_eq by exact Hlr.
    now rewrite list_lookup_insert_eq by exact Hls.
  - destruct (0 <=? r') eqn:Er'; [| reflexivity].
    destruct (0 <=? s') eqn:Es'; [| reflexivity].
    cbn [andb]. apply Z.leb_le in Er', Es'.
    destruct (decide (Z.to_nat r' = Z.to_nat r)) as [Eq | Nq].
    + assert (r' = r) by lia. subst r'.
      rewrite list_lookup_insert_eq by exact Hlr. rewrite Erow.
      rewrite list_lookup_insert_ne; [reflexivity |].
      intros E. apply Hne. split; [reflexivity | lia].
    + rewrite list_lookup_insert_ne by auto. reflexivity.
Qed.

(* what cells[r][s].wall = false does, when it does not throw *)
Lemma modifyCell_clear x r s cells cells' :
  modifyCell (clearOf x) r s cells = Some (tt, cells') ->
  (forall r' s', is_Some (getCell cells' r' s') <-> is_Some (getCell cells r' s'))
  /\ (forall w r' s',
         wallAt cells' w r' s'
         = if decide (w = x) then
             if decide (r' = r /\ s' = s) then false else wallAt cells w r' s'
           else wallAt cells w r' s').
Proof.
  unfold modifyCell. destruct (getCell cells r s) as [c |] eqn:Ec; [| discriminate].
  intros [= <-]. split.
  - intros r' s'. rewrite (getCell_setCell _ _ _ c) by exact Ec.
    destruct (decide (r' = r /\ s' = s)) as [[-> ->] | _]; [| reflexivity].
    rewrite Ec. split; eauto.
  - intros w r' s'. unfold wallAt. rewrite (getCell_setCell _ _ _ c) by exact Ec.
    destruct (decide (r' = r /\ s' = s)) as [[-> ->] | Hne].
    + rewrite wallOf_clearOf, Ec. destruct (decide (w = x)); reflexivity.
    + destruct (decide (w = x)); reflexivity.
Qed.

Lemma modifyCell_succeeds f r s cells :
  is_Some (getCell cells r s) -> exists cells', modifyCell f r s cells = Some (tt, cells').
Proof. intros [c Hc]. unfold modifyCell. rewrite Hc. eauto. Qed.

(* adjacent cells agree on the wall they share *)
Definition paired (R S : Z) (cells : Grid) : Prop :=
  forall r s, 0 <= r < R -> 0 <= s < S ->
    wallAt cells WCW r s = wallAt cells WCCW r (Z.rem (s + 1) S)
    /\ (r < R - 1 -> wallAt cells WOuter r s = wallAt cells WInner (r + 1) s).

(* walls in F stay removed *)
Definition keepsClear (F : Wall -> Z -> Z -> Prop) (cells : Grid) : Prop :=
  forall w r s, F w r s -> wallAt cells w r s = false.

Definition Good (R S : Z) (F : Wall -> Z -> Z -> Prop) (cells : Grid) : Prop :=
  defined R S cells /\ paired R S cells /\ keepsClear F cells.

(* the two flags of one shared wall *)
Definition partners (R S : Z) (x : Wall) (r1 s1 : Z) (y : Wall) (r2 s2 : Z) : Prop :=
  0 <= r1 < R /\ 0 <= s1 < S /\ 0 <= r2 < R /\ 0 <= s2 < S /\
  ((x = WCW /\ y = WCCW /\ r2 = r1 /\ s2 = Z.rem (s1 + 1) S)
   \/ (x = WCCW /\ y = WCW /\ r1 = r2 /\ s1 = Z.rem (s2 + 1) S)
   \/ (x = WOuter /\ y = WInner /\ r2 = r1 + 1 /\ s2 = s1)
   \/ (x = WInner /\ y = WOuter /\ r1 = r2 + 1 /\ s1 = s2)).

Lemma rem_succ s S :
  0 <= s < S -> Z.rem (s + 1) S = if decide (s + 1 = S) then 0 else s + 1.
Proof.
  intros H. rewrite Z.rem_mod_nonneg by lia.
  destruct (decide (s + 1 = S)) as [E | E].
  - rewrite E. apply Z.mod_same. lia.
  - apply Z.mod_small. lia.
Qed.

Lemma rem_succ_cases s S :
  0 <= s < S ->
  (s + 1 = S /\ Z.rem (s + 1) S = 0) \/ (s + 1 < S /\ Z.rem (s + 1) S = s + 1).
Proof. intros H. rewrite (rem_succ s S H). case_decide; lia. Qed.

(* decide every test on a flag or a position, then close the case *)
Ltac settle_flags :=
  repeat (case_decide; try discriminate; try congruence);
  first [reflexivity | assumption | exfalso; lia].

Lemma rem_range a S : 0 <= a -> 0 < S -> 0 <= Z.rem a S < S.
Proof. intros Ha HS. rewrite Z.rem_mod_nonneg by lia. apply Z.mod_pos_bound. lia. Qed.

Lemma modifyCell_clear_total R S x r s (P : Grid -> Prop) :
  0 <= r < R -> 0 <= s < S ->
  hoare (fun cells => defined R S cells /\ P cells)
        (modifyCell (clearOf x) r s)
        (fun _ cells' =>
           defined R S cells'
           /\ exists cells, P cells
              /\ forall w r' s',
                   wallAt cells' w r' s'
                   = if decide (w = x) then
                       if decide (r' = r /\ s' = s) then false else wallAt cells w r' s'
                     else wallAt cells w r' s').
Proof.
  intros Hr Hs cells [Hd HP].
  destruct (modifyCell_succeeds (clearOf x) r s cells (Hd r s Hr Hs)) as [cells' E].
  exists tt, cells'. split; [exact E |].
  destruct (modifyCell_clear _ _ _ _ _ E) as [Hdef Hw].
  split.
  - intros r' s' Hr' Hs'. apply Hdef. auto.
  - exists cells. auto.
Qed.

Lemma clearPair_total R S F x r1 s1 y r2 s2 :
  partners R S x r1 s1 y r2 s2 ->
  hoare (Good R S F)
        (modifyCell (clearOf x) r1 s1 ;; modifyCell (clearOf y) r2 s2)
        (fun _ => Good R S F).
Proof.
  intros (Hr1 & Hs1 & Hr2 & Hs2 & Hp).
  eapply hoare_bind.
  - eapply hoare_weaken.
    + apply (modifyCell_clear_total R S x r1 s1 (Good R S F)); assumption.
    + intros cells H. split; [apply H | exact H].
    + intros a s H. exact H.
  - intros u. eapply hoare_weaken.
    + apply (modifyCell_clear_total R S y r2 s2
               (fun c1 => exists c0, Good R S F c0 /\
                  forall w r' s', wallAt c1 w r' s'
                    = if decide (w = x) then
                        if decide (r' = r1 /\ s' = s1) then false else wallAt c0 w r' s'
                      else wallAt c0 w r' s')); assumption.
    + intros cells H. exact H.
    + intros u' cells2 (Hd2 & cells1 & (cells0 & (Hd0 & Hp0 & Hk0) & H1) & H2).
      split; [exact Hd2 | split].
      * intros r s Hr Hs. destruct (Hp0 r s Hr Hs) as [Hcw Hout].
        pose proof (rem_succ_cases s S Hs) as Hrs.
        pose proof (rem_succ_cases s1 S Hs1) as Hrs1.
        pose proof (rem_succ_cases s2 S Hs2) as Hrs2.
        rewrite !H2, !H1.
        destruct Hp as [(-> & -> & -> & ->) | [(-> & -> & -> & ->)
                      | [(-> & -> & -> & ->) | (-> & -> & -> & ->)]]];
          (split; [| intros Hlt; specialize (Hout Hlt)]);
          settle_flags.
      * intros w r s HF. rewrite H2, H1. specialize (Hk0 w r s HF).
        repeat case_decide; auto.
Qed.

(* a flag on the rim of the lattice has no partner *)
Definition onRim (R : Z) (x : Wall) (r : Z) : Prop :=
  (x = WInner /\ r = 0) \/ (x = WOuter /\ r = R - 1).

Lemma clearRim_effect R S F x r s cells cells' :
  onRim R x r ->
  modifyCell (clearOf x) r s cells = Some (tt, cells') ->
  Good R S F cells ->
  Good R S (fun w r' s' => F w r' s' \/ (w = x /\ r' = r /\ s' = s)) cells'.
Proof.
  intros Hrim E (Hd0 & Hp0 & Hk0).
  destruct (modifyCell_clear _ _ _ _ _ E) as [Hdef H1].
  split; [| split].
  - intros r' s' Hr' Hs'. apply Hdef. auto.
  - intros r' s' Hr' Hs'. destruct (Hp0 r' s' Hr' Hs') as [Hcw Hout].
    pose proof (rem_succ_cases s' S Hs') as Hrs.
    rewrite !H1.
    destruct Hrim as [[-> ->] | [-> ->]];
      (split; [| intros Hlt; specialize (Hout Hlt)]);
      settle_flags.
  - intros w r' s' [HF | (-> & -> & ->)]; rewrite H1.
    + specialize (Hk0 w r' s' HF). repeat case_decide; auto.
    + rewrite decide_True by auto. rewrite decide_True by auto. reflexivity.
Qed.

Lemma clearRim_total R S F x r s :
  onRim R x r -> 0 <= r < R -> 0 <= s < S ->
  hoare (Good R S F)
        (modifyCell (clearOf x) r s)
        (fun _ cells => Good R S (fun w r' s' => F w r' s' \/ (w = x /\ r' = r /\ s' = s)) cells).
Proof.
  intros Hrim Hr Hs cells Hg.
  destruct (modifyCell_succeeds (clearOf x) r s cells (proj1 Hg r s Hr Hs)) as [cells' E].
  exists tt, cells'. split; [exact E |].
  eapply clearRim_effect; eassumption.
Qed.

Lemma Good_weaken R S (F F' : Wall -> Z -> Z -> Prop) cells :
  Good R S F cells -> (forall w r s, F' w r s -> F w r s) -> Good R S F' cells.
Proof. intros (Hd & Hp & Hk) HF. split; [| split]; auto. intros w r s H. auto. Qed.

End GridFacts.

Module RngFacts.
Import Rng.
Local Open Scope Z_scope.

Lemma next_range rng : (0 <= fst (next rng) < 1)%Q.
Proof.
  unfold next. cbn [fst].
  set (u := ushr32 _ 0).
  assert (Hu : 0 <= u < 2 ^ 32).
  { unfold u, ushr32, toUint32. rewrite Z.shiftr_0_r. apply Z.mod_pos_bound. lia. }
  clearbody u. split.
  - apply Qle_shift_div_l; [reflexivity |].
    rewrite Qmult_0_l. change 0%Q with (inject_Z 0). rewrite <- Zle_Qle. lia.
  - apply Qlt_shift_div_r; [reflexivity |].
    rewrite Qmult_1_l. change 4294967296%Q with (inject_Z 4294967296).
    rewrite <- Zlt_Qlt. lia.
Qed.

Lemma nextInt_range lo hi rng : lo < hi -> lo <= fst (nextInt lo hi rng) < hi.
Proof.
  intros Hlt. unfold nextInt.
  pose proof (next_range rng) as [H0 H1].
  destruct (next rng) as [v rng']. cbn [fst] in *.
  set (n := hi - lo) in *.
  assert (Hn : (0 < inject_Z n)%Q).
  { change 0%Q with (inject_Z 0). rewrite <- Zlt_Qlt. lia. }
  assert (Hlo : 0 <= Qfloor (v * inject_Z n)).
  { change 0 with (Qfloor 0). apply Qfloor_resp_le. nra. }
  assert (Hhi : Qfloor (v * inject_Z n) < n).
  { rewrite Zlt_Qlt. eapply Qle_lt_trans; [apply Qfloor_le |]. nra. }
  lia.
Qed.

End RngFacts.


Module SolverFacts.
Import Types Solver GridFacts.
Local Open Scope Z_scope.

Section Solve.
Variable cells : Grid.
Variable config : MazeConfig.
Variable exit : ExitSector.
Let R := rings config.
Let S := slices config.
Hypothesis HS : 1 <= S.

Local Abbreviation key := (key config).

Lemma key_unfold r s : key r s = r * S + s.
Proof. reflexivity. Qed.

Lemma key_div r s : 0 <= s < S -> key r s / S = r.
Proof.
  intros Hs. rewrite key_unfold. rewrite Z.add_comm, Z.div_add by lia.
  rewrite Z.div_small by lia. lia.
Qed.

Lemma key_rem r s : 0 <= r -> 0 <= s < S -> Z.rem (key r s) S = s.
Proof.
  intros Hr Hs. rewrite key_unfold. rewrite Z.rem_mod_nonneg by nia.
  rewrite Z.add_comm, Z.mod_add by lia. apply Z.mod_small. lia.
Qed.

Lemma key_inj r s r' s' :
  0 <= s < S -> 0 <= s' < S -> key r s = key r' s' -> r = r' /\ s = s'.
Proof.
  intros Hs Hs' E.
  assert (Er : r = r').
  { rewrite <- (key_div r s Hs), <- (key_div r' s' Hs'). now rewrite E. }
  subst r'. rewrite !key_unfold in E. lia.
Qed.

(* --- the exit target set ---------------------------------------- *)

Lemma elem_of_foldl_union (f : Z -> Z) (l : list Z) (X : gset Z) k :
  k ∈ foldl (fun acc i => acc ∪ {[ f i ]}) X l <-> k ∈ X \/ exists i, i ∈ l /\ k = f i.
Proof.
  revert X. induction l as [| j l IH]; intros X; cbn [foldl].
  - split; [auto | intros [H | (i & Hi & _)]; [exact H | now apply elem_of_nil in Hi]].
  - rewrite IH. split.
    + intros [H | (i & Hi & ->)].
      * apply elem_of_union in H. destruct H as [H | H]; [auto |].
        apply elem_of_singleton in H. right. exists j. split; [left | exact H].
      * right. exists i. split; [now right | reflexivity].
    + intros [H | (i & Hi & ->)].
      * left. apply elem_of_union. auto.
      * apply elem_of_cons in Hi. destruct Hi as [-> | Hi].
        -- left. apply elem_of_union. right. now apply elem_of_singleton.
        -- right. eauto.
Qed.

Lemma elem_of_exitCells k :
  k ∈ exitCells config exit
  <-> exists i, 0 <= i < sliceCount exit
                /\ k = key (R - 1) (Z.rem (sliceStart exit + i) S).
Proof.
  unfold exitCells. rewrite elem_of_foldl_union. split.
  - intros [H | (i & Hi & ->)]; [now apply elem_of_empty in H |].
    apply elem_of_seqZ in Hi. exists i. split; [lia | reflexivity].
  - intros (i & Hi & ->). right. exists i. split; [apply elem_of_seqZ; lia | reflexivity].
Qed.

(* --- parent pointers -------------------------------------------- *)

(* k is n parent links away from a ring-0 start cell *)
Inductive rooted (visited : gmap Z Z) : Z -> nat -> Prop :=
| rooted_start k :
    visited !! k = Some (-1) -> 0 <= k < S -> rooted visited k 0
| rooted_step k p n :
    visited !! k = Some p -> p <> -1 -> 0 <= k ->
    rooted visited p n -> rooted visited k (Datatypes.S n).

Lemma rooted_insert visited nk ck k n :
  visited !! nk = None -> rooted visited k n -> rooted (<[nk := ck]> visited) k n.
Proof.
  intros Hfresh Hk. induction Hk as [k Hk Hr | k p n Hk Hp Hk0 _ IH].
  - apply rooted_start; [| exact Hr].
    rewrite lookup_insert_ne; [exact Hk | congruence].
  - eapply rooted_step; [| exact Hp | exact Hk0 | exact IH].
    rewrite lookup_insert_ne; [exact Hk | congruence].
Qed.

Lemma reconstruct_rooted visited k n :
  rooted visited k n ->
  forall fuel acc, (n < fuel)%nat ->
    exists chain,
      reconstruct config fuel visited k acc = Some (chain ++ acc)
      /\ (exists s0, head chain = Some (0, s0))
      /\ last chain = Some (k / S, Z.rem k S).
Proof.
  induction 1 as [k Hk Hr | k p n Hk Hp Hk0 _ IH]; intros fuel acc Hfuel.
  - destruct fuel as [| fuel]; [lia |].
    cbn [reconstruct]. destruct (Z.eqb_spec k (-1)) as [E | _]; [lia |].
    rewrite Hk. cbn [default]. destruct fuel; cbn [reconstruct]; fold S.
    all: exists [(k / S, Z.rem k S)]; split; [reflexivity |];
      split; [| reflexivity];
      exists k; cbn [head]; rewrite Z.div_small by lia;
      rewrite Z.rem_small by lia; reflexivity.
  - destruct fuel as [| fuel]; [lia |].
    cbn [reconstruct]. destruct (Z.eqb_spec k (-1)) as [E | _]; [lia |].
    rewrite Hk. change (default (-1) (Some p)) with p. fold S.
    destruct (IH fuel ((k / S, Z.rem k S) :: acc) ltac:(lia))
      as (chain & E & (s0 & Hhead) & Hlast).
    exists (chain ++ [(k / S, Z.rem k S)]).
    rewrite E, <- app_assoc. split; [reflexivity |]. split.
    + exists s0. destruct chain; [discriminate | exact Hhead].
    + apply last_snoc.
Qed.

(* --- the search invariant --------------------------------------- *)

Definition Inv (visited : gmap Z Z) (queue : list (Z * Z)) : Prop :=
  (forall i r s, queue !! i = Some (r, s) ->
                 0 <= r /\ 0 <= s < S /\ is_Some (visited !! key r s))
  /\ (forall k p, visited !! k = Some p ->
                  exists n, rooted visited k n /\ (n < size visited)%nat).

Lemma Inv_visit visited queue ck nr ns :
  Inv visited queue ->
  is_Some (visited !! ck) -> 0 <= ck ->
  0 <= nr -> 0 <= ns < S ->
  Inv (fst (visit config ck nr ns (visited, queue)))
      (snd (visit config ck nr ns (visited, queue))).
Proof.
  intros [Hq Hv] [cp Hck] Hck0 Hnr Hns. unfold visit. cbn [fst snd].
  destruct (visited !! key nr ns) as [p |] eqn:Enk; [split; assumption |].
  cbn [fst snd].
  assert (Hsize : size (<[key nr ns := ck]> visited) = Datatypes.S (size visited))
    by (apply map_size_insert_None; exact Enk).
  split.
  - intros i r s Hi. apply lookup_app_Some in Hi.
    destruct Hi as [Hi | [_ Hi]].
    + destruct (Hq i r s Hi) as (Hr & Hs & Hsome).
      split; [exact Hr | split; [exact Hs |]].
      destruct (decide (key nr ns = key r s)) as [E | E].
      * rewrite E, lookup_insert_eq. eauto.
      * rewrite lookup_insert_ne by exact E. exact Hsome.
    + apply list_lookup_singleton_Some in Hi. destruct Hi as [_ [= <- <-]].
      split; [exact Hnr | split; [exact Hns |]].
      rewrite lookup_insert_eq. eauto.
  - intros k p Hk. rewrite Hsize.
    destruct (decide (key nr ns = k)) as [E | E].
    + subst k. rewrite lookup_insert_eq in Hk. injection Hk as <-.
      destruct (Hv ck cp Hck) as (n & Hn & Hlt).
      exists (Datatypes.S n). split; [| lia].
      eapply rooted_step.
      * apply lookup_insert_eq.
      * lia.
      * rewrite key_unfold. nia.
      * apply rooted_insert; assumption.
    + rewrite lookup_insert_ne in Hk by exact E.
      destruct (Hv k p Hk) as (n & Hn & Hlt).
      exists n. split; [apply rooted_insert; assumption | lia].
Qed.

Lemma rem_pred_range cs : 0 <= cs < S -> 0 <= Z.rem (cs - 1 + S) S < S.
Proof. intros. apply rem_range; lia. Qed.

(* whatever every visit of a neighbor keeps, explore keeps *)
Lemma explore_preserves (P : gmap Z Z * list (Z * Z) -> Prop) cell cr cs :
  0 <= cr -> 0 <= cs < S ->
  (forall vq nr ns,
      P vq -> 0 <= nr -> (cr < R -> nr < R) -> 0 <= ns < S ->
      P (visit config (key cr cs) nr ns vq)) ->
  forall vq, P vq -> P (explore config cell cr cs vq).
Proof.
  intros Hcr Hcs Hstep vq Hvq. unfold explore. cbv zeta. fold R S.
  pose proof (rem_range (cs + 1) S ltac:(lia) ltac:(lia)) as Hcw.
  pose proof (rem_pred_range cs Hcs) as Hccw.
  set (vq1 := if (0 <? cr) && negb (wallInner cell)
              then visit config (key cr cs) (cr - 1) cs vq else vq).
  assert (H1 : P vq1).
  { unfold vq1. destruct ((0 <? cr) && negb (wallInner cell)) eqn:E; [| exact Hvq].
    apply andb_true_iff in E. destruct E as [E _]. apply Z.ltb_lt in E.
    apply Hstep; auto; lia. }
  clearbody vq1.
  set (vq2 := if (cr <? R - 1) && negb (wallOuter cell)
              then visit config (key cr cs) (cr + 1) cs vq1 else vq1).
  assert (H2 : P vq2).
  { unfold vq2. destruct ((cr <? R - 1) && negb (wallOuter cell)) eqn:E; [| exact H1].
    apply andb_true_iff in E. destruct E as [E _]. apply Z.ltb_lt in E.
    apply Hstep; auto; lia. }
  clearbody vq2.
  set (vq3 := if negb (wallCW cell)
              then visit config (key cr cs) cr (Z.rem (cs + 1) S) vq2 else vq2).
  assert (H3 : P vq3).
  { unfold vq3. destruct (negb (wallCW cell)); [| exact H2]. apply Hstep; auto. }
  clearbody vq3.
  destruct (negb (wallCCW cell)); [| exact H3]. apply Hstep; auto.
Qed.

Lemma visit_keeps_visited ck nr ns vq k :
  is_Some (fst vq !! k) -> is_Some (fst (visit config ck nr ns vq) !! k).
Proof.
  intros Hsome. unfold visit. destruct (fst vq !! key nr ns) eqn:E; [exact Hsome |].
  cbn [fst]. destruct (decide (key nr ns = k)) as [<- | Ne].
  - rewrite lookup_insert_eq. eauto.
  - rewrite lookup_insert_ne by exact Ne. exact Hsome.
Qed.

Lemma Inv_explore visited queue cell cr cs :
  Inv visited queue ->
  is_Some (visited !! key cr cs) -> 0 <= cr -> 0 <= cs < S ->
  Inv (fst (explore config cell cr cs (visited, queue)))
      (snd (explore config cell cr cs (visited, queue))).
Proof.
  intros HI Hck Hcr Hcs.
  assert (Hk0 : 0 <= key cr cs) by (rewrite key_unfold; nia).
  apply (explore_preserves
           (fun vq => Inv (fst vq) (snd vq) /\ is_Some (fst vq !! key cr cs))
           cell cr cs Hcr Hcs); [| split; assumption].
  intros [v q] nr ns [HIv Hsome] Hnr _ Hns. cbn [fst snd] in *. split.
  - apply Inv_visit; assumption.
  - apply (visit_keeps_visited _ _ _ (v, q)). exact Hsome.
Qed.

(* --- the ring-0 seeds ------------------------------------------- *)

Definition SeedInv (vq : gmap Z Z * list (Z * Z)) : Prop :=
  (forall i r s, snd vq !! i = Some (r, s) ->
                 r = 0 /\ 0 <= s < S /\ is_Some (fst vq !! key 0 s))
  /\ (forall k p, fst vq !! k = Some p -> p = -1 /\ 0 <= k < S).

Lemma seedStarts_SeedInv :
  SeedInv (seedStarts config) /\ length (snd (seedStarts config)) = Z.to_nat S.
Proof.
  unfold seedStarts. fold S.
  assert (Hgen : forall l vq,
             (forall s, s ∈ l -> 0 <= s < S) -> SeedInv vq ->
             SeedInv (foldl (fun vq s => (<[key 0 s := -1]> (fst vq), snd vq ++ [(0, s)]))
                            vq l)
             /\ length (snd (foldl (fun vq s => (<[key 0 s := -1]> (fst vq),
                                                  snd vq ++ [(0, s)])) vq l))
                = (length (snd vq) + length l)%nat).
  { induction l as [| s l IH]; intros vq Hl Hvq; cbn [foldl].
    - split; [exact Hvq | cbn [length]; lia].
    - destruct (IH (<[key 0 s := -1]> (fst vq), snd vq ++ [(0, s)])) as [H1 H2].
      + intros s' Hs'. apply Hl. now right.
      + pose proof (Hl s ltac:(left)) as Hs. destruct Hvq as [Hq Hv].
        split; cbn [fst snd].
        * intros i r s' Hi. apply lookup_app_Some in Hi. destruct Hi as [Hi | [_ Hi]].
          -- destruct (Hq i r s' Hi) as (-> & Hs' & Hsome).
             split; [reflexivity | split; [exact Hs' |]].
             destruct (decide (key 0 s = key 0 s')) as [E | E].
             ++ rewrite E, lookup_insert_eq. eauto.
             ++ rewrite lookup_insert_ne by exact E. exact Hsome.
          -- apply list_lookup_singleton_Some in Hi. destruct Hi as [_ [= <- <-]].
             split; [reflexivity | split; [exact Hs |]].
             rewrite lookup_insert_eq. eauto.
        * intros k p Hk. destruct (decide (key 0 s = k)) as [E | E].
          -- subst k. rewrite lookup_insert_eq in Hk. injection Hk as <-.
             rewrite key_unfold. lia.
          -- rewrite lookup_insert_ne in Hk by exact E. eauto.
      + split; [exact H1 |]. rewrite H2. cbn [snd]. rewrite length_app. cbn [length]. lia. }
  destruct (Hgen (seqZ 0 S) (∅, [])) as [H1 H2].
  - intros s Hs. apply elem_of_seqZ in Hs. lia.
  - split; cbn [fst snd].
    + intros i r s Hi. now rewrite lookup_nil in Hi.
    + intros k p Hk. now rewrite lookup_empty in Hk.
  - split; [exact H1 |]. rewrite H2, length_seqZ. reflexivity.
Qed.

Lemma size_pos_of_lookup (visited : gmap Z Z) k p :
  visited !! k = Some p -> (0 < size visited)%nat.
Proof.
  intros Hk. destruct (size visited) eqn:E; [| lia].
  apply map_size_empty_iff in E. subst visited. now rewrite lookup_empty in Hk.
Qed.

Lemma SeedInv_Inv vq : SeedInv vq -> Inv (fst vq) (snd vq).
Proof.
  intros [Hq Hv]. split.
  - intros i r s Hi. destruct (Hq i r s Hi) as (-> & Hs & Hsome).
    split; [lia | split; [exact Hs | exact Hsome]].
  - intros k p Hk. destruct (Hv k p Hk) as [-> Hr].
    exists 0%nat. split; [apply rooted_start; assumption |].
    eapply size_pos_of_lookup. exact Hk.
Qed.

(* --- what a returned result looks like -------------------------- *)

Hypothesis Hstart : 0 <= sliceStart exit.

Definition pathShape (res : SolveResult) : Prop :=
  (solvable res = true ->
     path res <> []
     /\ (exists s0, head (path res) = Some (0, s0))
     /\ exists i c,
          0 <= i < sliceCount exit
          /\ last (path res) = Some (R - 1, Z.rem (sliceStart exit + i) S)
          /\ getCell cells (R - 1) (Z.rem (sliceStart exit + i) S) = Some c
          /\ wallOuter c = false)
  /\ (solvable res = false -> path res = []).

Lemma bfs_pathShape fuel visited queue head res :
  Inv visited queue ->
  bfs cells config exit fuel visited queue head = Some res ->
  pathShape res.
Proof.
  revert visited queue head.
  induction fuel as [| fuel IH]; intros visited queue head HI Hrun.
  - cbn [bfs] in Hrun. destruct (queue !! head) as [[cr cs] |]; [discriminate |].
    injection Hrun as <-. split; [discriminate | reflexivity].
  - cbn [bfs] in Hrun.
    destruct (queue !! head) as [[cr cs] |] eqn:Eq.
    2: { injection Hrun as <-. split; [discriminate | reflexivity]. }
    destruct (proj1 HI head cr cs Eq) as (Hcr & Hcs & Hsome).
    destruct (getCell cells cr cs) as [cell |] eqn:Ecell; [| discriminate].
    destruct (bool_decide (key cr cs ∈ exitCells config exit) && negb (wallOuter cell))
      eqn:Eexit.
    + apply andb_true_iff in Eexit. destruct Eexit as [Hin Hopen].
      apply bool_decide_eq_true in Hin. apply negb_true_iff in Hopen.
      apply elem_of_exitCells in Hin. destruct Hin as (i & Hi & Hkey).
      pose proof (rem_range (sliceStart exit + i) S ltac:(lia) ltac:(lia)) as Hrem.
      apply key_inj in Hkey; [| assumption | assumption].
      destruct Hkey as [-> ->].
      destruct Hsome as [p Hp].
      destruct (proj2 HI _ _ Hp) as (n & Hn & Hlt).
      destruct (reconstruct_rooted visited _ n Hn (size visited) [] Hlt)
        as (chain & Erec & Hhead & Hlast).
      rewrite Erec in Hrun. injection Hrun as <-.
      rewrite app_nil_r. unfold pathShape. cbn [solvable path].
      split; [intros _ | discriminate].
      split; [destruct Hhead as [s0 Hs0]; destruct chain; [discriminate | congruence] |].
      split; [exact Hhead |].
      exists i, cell. rewrite Hlast, key_div by assumption.
      rewrite key_rem by (assumption || lia). auto.
    + destruct (explore config cell cr cs (visited, queue)) as [visited' queue'] eqn:Eexp.
      apply (IH visited' queue' (Datatypes.S head)); [| exact Hrun].
      pose proof (Inv_explore visited queue cell cr cs HI Hsome Hcr Hcs) as HI'.
      rewrite Eexp in HI'. exact HI'.
Qed.

Lemma solveMaze_pathShape res :
  solveMaze cells config exit = Some res -> pathShape res.
Proof.
  unfold solveMaze. destruct (seedStarts config) as [visited queue] eqn:Eseed.
  apply bfs_pathShape.
  pose proof (SeedInv_Inv _ (proj1 seedStarts_SeedInv)) as HI.
  rewrite Eseed in HI. exact HI.
Qed.

(* --- the search always returns on a fully defined lattice ------- *)

Hypothesis HR : 1 <= R.
Hypothesis Hdef : defined R S cells.

Definition Bounded (queue : list (Z * Z)) : Prop :=
  forall i r s, queue !! i = Some (r, s) -> r < R.

Definition unvisitedKeys (visited : gmap Z Z) : nat :=
  length (filter (fun k => visited !! k = None) (seqZ 0 (R * S))).

Definition potential (vq : gmap Z Z * list (Z * Z)) : nat :=
  (length (snd vq) + unvisitedKeys (fst vq))%nat.

Lemma visit_potential ck nr ns vq :
  0 <= nr < R -> 0 <= ns < S -> Bounded (snd vq) ->
  Bounded (snd (visit config ck nr ns vq))
  /\ (potential (visit config ck nr ns vq) <= potential vq)%nat.
Proof.
  intros Hnr Hns Hb. unfold visit.
  destruct (fst vq !! key nr ns) eqn:Enk; [split; [exact Hb | lia] |].
  unfold potential. cbn [fst snd]. split.
  - intros i r s Hi. apply lookup_app_Some in Hi. destruct Hi as [Hi | [_ Hi]].
    + eapply Hb. exact Hi.
    + apply list_lookup_singleton_Some in Hi. destruct Hi as [_ [= <- <-]]. lia.
  - rewrite length_app. cbn [length].
    assert (Hlt : (unvisitedKeys (<[key nr ns := ck]> (fst vq))
                   < unvisitedKeys (fst vq))%nat).
    { unfold unvisitedKeys.
      apply (length_filter_shrinks (fun k => fst vq !! k = None)
               (fun k => <[key nr ns := ck]> (fst vq) !! k = None) _ (key nr ns)).
      - intros k Hk. destruct (decide (key nr ns = k)) as [<- | Ne].
        + now rewrite lookup_insert_eq in Hk.
        + now rewrite lookup_insert_ne in Hk by exact Ne.
      - apply elem_of_seqZ. rewrite key_unfold. nia.
      - exact Enk.
      - now rewrite lookup_insert_eq. }
    lia.
Qed.

Lemma bfs_total fuel visited queue head :
  Inv visited queue -> Bounded queue ->
  (potential (visited, queue) <= head + fuel)%nat ->
  is_Some (bfs cells config exit fuel visited queue head).
Proof.
  revert visited queue head.
  induction fuel as [| fuel IH]; intros visited queue head HI Hb Hpot;
    unfold potential in Hpot; cbn [fst snd] in Hpot; cbn [bfs].
  - destruct (queue !! head) as [[cr cs] |] eqn:Eq; [| eauto].
    apply lookup_lt_Some in Eq. lia.
  - destruct (queue !! head) as [[cr cs] |] eqn:Eq; [| eauto].
    destruct (proj1 HI head cr cs Eq) as (Hcr & Hcs & Hsome).
    pose proof (Hb head cr cs Eq) as HcrR.
    destruct (Hdef cr cs ltac:(lia) Hcs) as [cell Ecell]. rewrite Ecell.
    destruct (bool_decide (key cr cs ∈ exitCells config exit) && negb (wallOuter cell)).
    + destruct Hsome as [p Hp].
      destruct (proj2 HI _ _ Hp) as (n & Hn & Hlt).
      destruct (reconstruct_rooted visited _ n Hn (size visited) [] Hlt)
        as (chain & Erec & _).
      rewrite Erec. eauto.
    + pose proof (Inv_explore visited queue cell cr cs HI Hsome Hcr Hcs) as HI'.
      assert (Hpres : Bounded (snd (explore config cell cr cs (visited, queue)))
                      /\ (potential (explore config cell cr cs (visited, queue))
                          <= potential (visited, queue))%nat).
      { apply (explore_preserves
                 (fun vq => Bounded (snd vq)
                            /\ (potential vq <= potential (visited, queue))%nat)
                 cell cr cs Hcr Hcs); [| split; [exact Hb | lia]].
        intros vq nr ns [Hbq Hle] Hnr Hlt Hns.
        destruct (visit_potential (key cr cs) nr ns vq) as [Hb' Hle'];
          [lia | exact Hns | exact Hbq |].
        split; [exact Hb' | lia]. }
      destruct (explore config cell cr cs (visited, queue)) as [visited' queue'].
      cbn [fst snd] in *. destruct Hpres as [Hb' Hle].
      apply IH; [exact HI' | exact Hb' |].
      unfold potential in *. cbn [fst snd] in *. lia.
Qed.

Lemma solveMaze_total : is_Some (solveMaze cells config exit).
Proof.
  unfold solveMaze.
  destruct seedStarts_SeedInv as [Hseed Hlen].
  pose proof (SeedInv_Inv _ Hseed) as HI.
  destruct (seedStarts config) as [visited queue]. cbn [fst snd] in *.
  apply bfs_total; [exact HI | |].
  - intros i r s Hi. destruct (proj1 Hseed i r s Hi) as (-> & _). lia.
  - unfold potential, unvisitedKeys. cbn [fst snd]. rewrite Hlen.
    pose proof (length_filter (fun k => visited !! k = None) (seqZ 0 (R * S))) as Hf.
    rewrite length_seqZ in Hf. fold R S. nia.
Qed.

End Solve.
End SolverFacts.

Module GeneratorFacts.
Import Rng Types Solver Generator GridFacts RngFacts SolverFacts.
Local Open Scope Z_scope.

Section Steps.
Variable config : MazeConfig.
Let R := rings config.
Let S := slices config.
Hypothesis HR : 1 <= R.
Hypothesis HS : 1 <= S.

Definition GoodSt (F : Wall -> Z -> Z -> Prop) (st : GenState) : Prop :=
  Good R S F (grid st).

Lemma hoare_onCells {A} (P : Grid -> Prop) (m : M Grid A) (Q : A -> Grid -> Prop) :
  hoare P m Q ->
  hoare (fun st => P (grid st)) (onCells m) (fun a st => Q a (grid st)).
Proof.
  intros Hm st Hst. destruct (Hm (grid st) Hst) as (a & g & E & Hq).
  exists a, (mkGen g (rng st)). unfold onCells. rewrite E. auto.
Qed.

Lemma hoare_rngNext (P : Grid -> Prop) :
  hoare (fun st => P (grid st)) rngNext (fun _ st => P (grid st)).
Proof.
  intros st Hst. unfold rngNext. destruct (next (rng st)) as [v r].
  eexists _, _. split; [reflexivity | exact Hst].
Qed.

Lemma hoare_rngNextInt (P : Grid -> Prop) lo hi :
  lo < hi ->
  hoare (fun st => P (grid st)) (rngNextInt lo hi)
        (fun v st => P (grid st) /\ lo <= v < hi).
Proof.
  intros Hlt st Hst. unfold rngNextInt.
  pose proof (nextInt_range lo hi (rng st) Hlt) as Hr.
  destruct (nextInt lo hi (rng st)) as [v r].
  eexists _, _. split; [reflexivity | auto].
Qed.

Lemma hoare_readCell (P : Grid -> Prop) r s :
  0 <= r < R -> 0 <= s < S ->
  hoare (fun cells => defined R S cells /\ P cells) (readCell r s)
        (fun c cells => getCell cells r s = Some c /\ P cells).
Proof.
  intros Hr Hs cells [Hd HP]. destruct (Hd r s Hr Hs) as [c Hc].
  exists c, cells. unfold readCell. rewrite Hc. auto.
Qed.

Lemma getNeighbors_partner cr cs n :
  0 <= cr < R -> 0 <= cs < S ->
  n ∈ getNeighbors cr cs config ->
  0 <= nring n < R /\ 0 <= nslice n < S /\
  exists x y,
    partners R S x cr cs y (nring n) (nslice n)
    /\ removeWall cr cs (nring n) (nslice n) (direction n)
       = (modifyCell (clearOf x) cr cs ;; modifyCell (clearOf y) (nring n) (nslice n)).
Proof.
  intros Hr Hs Hin. unfold getNeighbors in Hin. fold R S in Hin.
  pose proof (rem_range (cs + 1) S ltac:(lia) ltac:(lia)) as Hcw.
  pose proof (rem_range (cs - 1 + S) S ltac:(lia) ltac:(lia)) as Hccw.
  assert (Hback : Z.rem (Z.rem (cs - 1 + S) S + 1) S = cs).
  { rewrite !Z.rem_mod_nonneg by lia.
    destruct (decide (cs = 0)) as [-> | Hne].
    - replace (0 - 1 + S) with (S - 1) by lia.
      rewrite (Z.mod_small (S - 1)) by lia.
      replace (S - 1 + 1) with S by lia. apply Z.mod_same. lia.
    - replace (cs - 1 + S) with (cs - 1 + 1 * S) by lia.
      rewrite Z.mod_add by lia. rewrite (Z.mod_small (cs - 1)) by lia.
      replace (cs - 1 + 1) with cs by lia. apply Z.mod_small. lia. }
  rewrite !elem_of_app in Hin.
  destruct Hin as [Hin | [Hin | [Hin | Hin]]].
  - destruct (Z.ltb_spec 0 cr); [| now apply elem_of_nil in Hin].
    apply list_elem_of_singleton in Hin. subst n. cbn.
    repeat split; try lia. exists WInner, WOuter.
    split; [| reflexivity]. unfold partners. repeat split; try lia.
    right; right; right. repeat split; lia.
  - destruct (Z.ltb_spec cr (R - 1)); [| now apply elem_of_nil in Hin].
    apply list_elem_of_singleton in Hin. subst n. cbn.
    repeat split; try lia. exists WOuter, WInner.
    split; [| reflexivity]. unfold partners. repeat split; try lia.
    right; right; left. repeat split; lia.
  - apply list_elem_of_singleton in Hin. subst n. cbn. fold S.
    repeat split; try lia. exists WCW, WCCW.
    split; [| reflexivity]. unfold partners. repeat split; try lia.
    left. repeat split; lia.
  - apply list_elem_of_singleton in Hin. subst n. cbn. fold S.
    repeat split; try lia. exists WCCW, WCW.
    split; [| reflexivity]. unfold partners. repeat split; try lia.
    right; left. repeat split; lia.
Qed.

(* every cell of the lattice *)
Definition gridList : list (Z * Z) :=
  r ← seqZ 0 R; s ← seqZ 0 S; [(r, s)].

Lemma elem_of_gridList r s : (r, s) ∈ gridList <-> 0 <= r < R /\ 0 <= s < S.
Proof.
  unfold gridList. rewrite list_elem_of_bind. split.
  - intros (r' & Hin & Hr). apply list_elem_of_bind in Hin.
    destruct Hin as (s' & Hin & Hs). apply list_elem_of_singleton in Hin.
    injection Hin as -> ->. apply elem_of_seqZ in Hr, Hs. lia.
  - intros [Hr Hs]. exists r. split; [| apply elem_of_seqZ; lia].
    apply list_elem_of_bind. exists s. split; [| apply elem_of_seqZ; lia].
    apply list_elem_of_singleton. reflexivity.
Qed.

Lemma length_gridList : length gridList = (Z.to_nat R * Z.to_nat S)%nat.
Proof.
  unfold gridList.
  assert (Hrow : forall r : Z, length (s ← seqZ 0 S; [(r, s)]) = Z.to_nat S).
  { intros r. rewrite <- (length_seqZ 0 S). generalize (seqZ 0 S). intros k.
    induction k as [| s k IHk]; [reflexivity |].
    cbn [mbind list_bind length app]. now rewrite IHk. }
  rewrite <- (length_seqZ 0 R). generalize (seqZ 0 R). intros l.
  induction l as [| r l IH]; [reflexivity |].
  cbn [mbind list_bind length]. rewrite length_app, IH, Hrow. reflexivity.
Qed.

Definition unvisited (visited : gset (Z * Z)) : nat :=
  length (filter (fun c => c ∉ visited) gridList).

Lemma unvisited_bound visited : (unvisited visited <= Z.to_nat R * Z.to_nat S)%nat.
Proof. unfold unvisited. rewrite <- length_gridList. apply length_filter. Qed.

Lemma unvisited_shrinks visited c :
  c ∈ gridList -> c ∉ visited ->
  (unvisited ({[ c ]} ∪ visited) < unvisited visited)%nat.
Proof.
  unfold unvisited. generalize gridList. intros l Hin Hnot.
  induction l as [| d l IH]; [now apply elem_of_nil in Hin |].
  rewrite !filter_cons.
  assert (Hmono : (length (filter (fun c0 => c0 ∉ ({[c]} ∪ visited : gset (Z * Z))) l)
                   <= length (filter (fun c0 => c0 ∉ visited) l))%nat).
  { clear. induction l as [| e l IH]; [reflexivity |].
    rewrite !filter_cons. repeat case_decide; cbn [length]; try lia.
    exfalso. set_solver. }
  apply elem_of_cons in Hin. destruct Hin as [-> | Hin].
  - rewrite decide_False by set_solver. rewrite decide_True by exact Hnot.
    cbn [length]. lia.
  - specialize (IH Hin). repeat case_decide; cbn [length]; try lia.
    exfalso. set_solver.
Qed.

Lemma weighted_elem visited neighbors n :
  n ∈ weightedNeighbors visited neighbors ->
  n ∈ neighbors /\ (nring n, nslice n) ∉ visited.
Proof.
  unfold weightedNeighbors. rewrite list_elem_of_In, in_flat_map.
  intros (m & Hm & Hin). apply list_elem_of_In in Hm.
  case_bool_decide as Hv; [destruct Hin |].
  apply repeat_spec in Hin. subst m. auto.
Qed.

Lemma carveLoop_total (F : Wall -> Z -> Z -> Prop) fuel visited stack :
  (forall r s, (r, s) ∈ stack -> 0 <= r < R /\ 0 <= s < S) ->
  (length stack + 2 * unvisited visited <= fuel)%nat ->
  hoare (GoodSt F) (carveLoop fuel config visited stack) (fun _ => GoodSt F).
Proof.
  revert visited stack. induction fuel as [| fuel IH]; intros visited stack Hrange Hfuel.
  - destruct stack as [| [cr cs] rest]; [| cbn [length] in Hfuel; lia].
    cbn [carveLoop]. apply hoare_ret. auto.
  - destruct stack as [| [cr cs] rest]; [apply hoare_ret; auto |].
    cbn [carveLoop].
    destruct (Hrange cr cs ltac:(left)) as [Hcr Hcs].
    set (weighted := weightedNeighbors visited (getNeighbors cr cs config)).
    destruct (Nat.eqb_spec (length weighted) 0) as [Hempty | Hsome].
    + apply IH.
      * intros r s Hin. apply Hrange. now right.
      * cbn [length] in Hfuel. lia.
    + eapply hoare_bind.
      * apply (hoare_rngNextInt (Good R S F) 0 (Z.of_nat (length weighted))). lia.
      * intros i. apply hoare_assume. intros Hi.
        destruct (Z.leb_spec 0 i) as [_ | Hneg]; [| lia].
        destruct (lookup_lt_is_Some_2 weighted (Z.to_nat i) ltac:(lia)) as [chosen Hch].
        rewrite Hch.
        apply list_elem_of_lookup_2 in Hch.
        apply weighted_elem in Hch. destruct Hch as [Hnb Hfresh].
        destruct (getNeighbors_partner cr cs chosen Hcr Hcs Hnb)
          as (Hnr & Hns & x & y & Hpart & ->).
        eapply hoare_bind.
        -- apply (hoare_onCells (Good R S F) _ (fun _ => Good R S F)).
           apply clearPair_total. exact Hpart.
        -- intros u. apply IH.
           ++ intros r s Hin. apply elem_of_cons in Hin.
              destruct Hin as [[= -> ->] | Hin]; [auto | apply Hrange; exact Hin].
           ++ pose proof (unvisited_shrinks visited (nring chosen, nslice chosen)
                            (proj2 (elem_of_gridList _ _) (conj Hnr Hns)) Hfresh).
              cbn [length] in *. lia.
Qed.

Lemma carveSpanningTree_total (F : Wall -> Z -> Z -> Prop) :
  hoare (GoodSt F) (carveSpanningTree config) (fun _ => GoodSt F).
Proof.
  unfold carveSpanningTree. cbv zeta.
  eapply hoare_bind.
  - apply (hoare_rngNextInt (Good R S F) 0 S). lia.
  - intros startS. apply hoare_assume. intros Hs.
    apply carveLoop_total.
    + intros r s Hin. apply list_elem_of_singleton in Hin.
      injection Hin as -> ->. lia.
    + pose proof (unvisited_bound {[ (0, startS) ]}). cbn [length]. fold R S. nia.
Qed.


Lemma hoare_clearPair_st (F : Wall -> Z -> Z -> Prop) x r1 s1 y r2 s2 :
  partners R S x r1 s1 y r2 s2 ->
  hoare (GoodSt F)
        (onCells (modifyCell (clearOf x) r1 s1) ;; onCells (modifyCell (clearOf y) r2 s2))
        (fun _ => GoodSt F).
Proof.
  intros Hp st Hst.
  destruct (clearPair_total R S F x r1 s1 y r2 s2 Hp (grid st) Hst)
    as (u & g & E & Hg).
  unfold mbind, M_bind, bind in E.
  destruct (modifyCell (clearOf x) r1 s1 (grid st)) as [[u1 g1] |] eqn:E1; [| discriminate].
  exists tt, (mkGen g (rng st)).
  unfold mbind, M_bind, bind, onCells. rewrite E1. cbn [grid rng]. rewrite E.
  destruct u. auto.
Qed.

Lemma hoare_removeWall_st (F : Wall -> Z -> Z -> Prop) x r1 s1 y r2 s2 d :
  partners R S x r1 s1 y r2 s2 ->
  removeWall r1 s1 r2 s2 d
  = (modifyCell (clearOf x) r1 s1 ;; modifyCell (clearOf y) r2 s2) ->
  hoare (GoodSt F) (onCells (removeWall r1 s1 r2 s2 d)) (fun _ => GoodSt F).
Proof.
  intros Hp ->.
  apply (hoare_onCells (Good R S F) _ (fun _ => Good R S F)).
  apply clearPair_total. exact Hp.
Qed.

Lemma hoare_clearRim_st (F : Wall -> Z -> Z -> Prop) x r s :
  onRim R x r -> 0 <= r < R -> 0 <= s < S ->
  hoare (GoodSt F) (onCells (modifyCell (clearOf x) r s))
        (fun _ => GoodSt (fun w r' s' => F w r' s' \/ (w = x /\ r' = r /\ s' = s))).
Proof.
  intros Hrim Hr Hs.
  apply (hoare_onCells (Good R S F) _ (fun _ => Good R S _)).
  apply clearRim_total; assumption.
Qed.

Lemma hoare_readCell_st (F : Wall -> Z -> Z -> Prop) r s :
  0 <= r < R -> 0 <= s < S ->
  hoare (GoodSt F) (onCells (readCell r s))
        (fun c st => GoodSt F st /\ getCell (grid st) r s = Some c).
Proof.
  intros Hr Hs st Hst. destruct (proj1 Hst r s Hr Hs) as [c Hc].
  exists c, st. unfold onCells, readCell. rewrite Hc. destruct st. auto.
Qed.

Lemma openEntryHoles_total (F : Wall -> Z -> Z -> Prop) :
  hoare (GoodSt F) (openEntryHoles config) (fun _ => GoodSt F).
Proof.
  unfold openEntryHoles. cbv zeta. fold S.
  eapply hoare_bind.
  - apply (hoare_rngNextInt (Good R S F) 0 S). lia.
  - intros offset. apply hoare_assume. intros Hoff.
    apply hoare_forUpTo. intros i Hi.
    eapply hoare_weaken.
    + apply (hoare_clearRim_st F WInner 0 (Z.rem (offset + i * (S / Z.min 3 (Z.max 2 (S / 4)))) S)).
      * left. auto.
      * lia.
      * apply rem_range; [| lia].
        assert (0 <= S / Z.min 3 (Z.max 2 (S / 4))) by (apply Z.div_pos; lia).
        nia.
    + auto.
    + intros u st Hst. eapply Good_weaken; [exact Hst |].
      intros w r s HF. left. exact HF.
Qed.

Lemma partners_inner r s : 0 < r < R -> 0 <= s < S -> partners R S WInner r s WOuter (r - 1) s.
Proof. intros. unfold partners. repeat split; try lia. right; right; right. repeat split; lia. Qed.

Lemma partners_outer r s :
  0 <= r < R - 1 -> 0 <= s < S -> partners R S WOuter r s WInner (r + 1) s.
Proof. intros. unfold partners. repeat split; try lia. right; right; left. repeat split; lia. Qed.

Lemma partners_cw r s :
  0 <= r < R -> 0 <= s < S -> partners R S WCW r s WCCW r (Z.rem (s + 1) S).
Proof.
  intros. pose proof (rem_range (s + 1) S ltac:(lia) ltac:(lia)).
  unfold partners. repeat split; try lia. left. repeat split; lia.
Qed.

Lemma addExtraOpenings_total (F : Wall -> Z -> Z -> Prop) params :
  hoare (GoodSt F) (addExtraOpenings config params) (fun _ => GoodSt F).
Proof.
  unfold addExtraOpenings. cbv zeta. fold R S.
  apply hoare_forUpTo. intros i0 _.
  eapply hoare_bind; [apply (hoare_rngNextInt (Good R S F) 0 R); lia |].
  intros r. cbn beta.
  eapply hoare_bind.
  { eapply hoare_weaken.
    - apply (hoare_rngNextInt (fun g => Good R S F g /\ 0 <= r < R) 0 S). lia.
    - cbn beta. auto.
    - intros s st H. exact H. }
  intros s. cbn beta.
  eapply hoare_weaken with (P' := fun st => GoodSt F st /\ (0 <= r < R /\ 0 <= s < S))
                           (Q' := fun _ => GoodSt F);
    [| intros st [[? ?] ?]; auto | auto].
  apply hoare_assume. intros [Hr Hs].
  eapply hoare_bind; [apply hoare_readCell_st; assumption |].
  intros cell.
  eapply hoare_weaken with (P' := GoodSt F) (Q' := fun _ => GoodSt F);
    [| intros st H; apply H | auto].
  eapply hoare_bind; [apply (hoare_rngNext (Good R S F)) |].
  intros v. cbn beta.
  destruct (Qlt_le_dec v 0.7) as [Harc | Htan].
  - eapply hoare_bind with (Q := fun b st => GoodSt F st /\ (b = true -> 0 < r)).
    + destruct ((0 <? r) && wallInner cell) eqn:Ein.
      * apply andb_true_iff in Ein. destruct Ein as [Hpos _]. apply Z.ltb_lt in Hpos.
        eapply hoare_bind; [apply (hoare_rngNext (Good R S F)) |].
        intros v'. apply hoare_ret. intros st Hst. split; [exact Hst | auto].
      * apply hoare_ret. intros st Hst. split; [exact Hst | discriminate].
    + intros tryInner. apply hoare_assume. intros Htry.
      destruct tryInner.
      * apply (hoare_removeWall_st F WInner r s WOuter (r - 1) s inner); [| reflexivity].
        apply partners_inner; [specialize (Htry eq_refl); lia | exact Hs].
      * destruct ((r <? R - 1) && wallOuter cell) eqn:Eout.
        -- apply andb_true_iff in Eout. destruct Eout as [Hlt _]. apply Z.ltb_lt in Hlt.
           apply (hoare_removeWall_st F WOuter r s WInner (r + 1) s outer); [| reflexivity].
           apply partners_outer; [lia | exact Hs].
        -- apply hoare_ret. auto.
  - destruct (wallCW cell).
    + apply (hoare_removeWall_st F WCW r s WCCW r (Z.rem (s + 1) S) cw); [| reflexivity].
      apply partners_cw; assumption.
    + apply hoare_ret. auto.
Qed.


Lemma capRadialWalls_total (F : Wall -> Z -> Z -> Prop) params :
  hoare (GoodSt F) (capRadialWalls config params) (fun _ => GoodSt F).
Proof.
  unfold capRadialWalls. fold R S.
  apply hoare_forUpTo. intros r Hr.
  apply hoare_forUpTo. intros s Hs.
  eapply hoare_bind; [apply hoare_readCell_st; assumption |].
  intros cell.
  eapply hoare_weaken with (P' := GoodSt F) (Q' := fun _ => GoodSt F);
    [| intros st H; apply H | auto].
  destruct (negb (wallCW cell)); [apply hoare_ret; auto |].
  destruct (Z.rem r 2 =? 1).
  - apply (hoare_clearPair_st F WCW r s WCCW r (Z.rem (s + 1) S)).
    apply partners_cw; assumption.
  - eapply hoare_bind; [apply (hoare_rngNext (Good R S F)) |].
    intros v. cbn beta.
    destruct (Qlt_le_dec (radialDensity params) v).
    + apply (hoare_clearPair_st F WCW r s WCCW r (Z.rem (s + 1) S)).
      apply partners_cw; assumption.
    + apply hoare_ret. auto.
Qed.

(* the outer-wall flags of the exit sector *)
Definition exitWalls (e : ExitSector) (w : Wall) (r s : Z) : Prop :=
  w = WOuter /\ r = R - 1
  /\ exists i, 0 <= i < sliceCount e /\ s = Z.rem (sliceStart e + i) S.

Lemma placeExit_total (F : Wall -> Z -> Z -> Prop) params :
  hoare (GoodSt F) (placeExit config params)
        (fun e st =>
           GoodSt (fun w r s => F w r s \/ exitWalls e w r s) st
           /\ 0 <= sliceStart e < S
           /\ sliceCount e = Z.min (exitWidth params) S).
Proof.
  unfold placeExit. fold R S.
  eapply hoare_bind with (Q := fun start st => GoodSt F st /\ 0 <= start < S).
  - destruct (0 <=? exitOffset params) eqn:Eoff.
    + apply Z.leb_le in Eoff. apply hoare_ret. intros st Hst.
      split; [exact Hst | apply rem_range; lia].
    + apply (hoare_rngNextInt (Good R S F) 0 S). lia.
  - intros start. apply hoare_assume. intros Hstart.
    set (count := Z.min (exitWidth params) S).
    pose (I := fun (k : Z) (st : GenState) =>
                 GoodSt (fun w r s => F w r s
                           \/ (w = WOuter /\ r = R - 1
                               /\ exists i, 0 <= i < k /\ s = Z.rem (start + i) S)) st).
    eapply hoare_bind with (Q := fun _ => I (Z.max 0 count)).
    + eapply hoare_weaken.
      * apply (hoare_forUpTo_indexed I). intros i Hi. unfold I.
        eapply hoare_weaken.
        -- apply (hoare_clearRim_st
                    (fun w r s => F w r s
                       \/ (w = WOuter /\ r = R - 1
                           /\ exists j, 0 <= j < i /\ s = Z.rem (start + j) S))
                    WOuter (R - 1) (Z.rem (start + i) S)).
           ++ right. auto.
           ++ lia.
           ++ apply rem_range; lia.
        -- intros st Hst. exact Hst.
        -- intros u st Hst. eapply Good_weaken; [exact Hst |].
           intros w r s [HF | (Hw & Hr & j & Hj & Hs)].
           ++ left. left. exact HF.
           ++ destruct (decide (j = i)) as [-> | Hne].
              ** right. auto.
              ** left. right. split; [exact Hw | split; [exact Hr |]].
                 exists j. split; [lia | exact Hs].
      * intros st Hst. unfold I. eapply Good_weaken; [exact Hst |].
        intros w r s [HF | (_ & _ & j & Hj & _)]; [exact HF | lia].
      * auto.
    + intros u. apply hoare_ret. intros st Hst. unfold I in Hst.
      split; [| split; [exact Hstart | reflexivity]].
      eapply Good_weaken; [exact Hst |].
      intros w r s [HF | (Hw & Hr & j & Hj & Hs)]; [left; exact HF | right].
      cbn [sliceStart sliceCount] in *.
      split; [exact Hw | split; [exact Hr |]]. exists j. split; [lia | exact Hs].
Qed.

Lemma ensurePathToExit_total (F : Wall -> Z -> Z -> Prop) e :
  0 <= sliceStart e < S ->
  hoare (Good R S F) (ensurePathToExit config e) (fun _ => Good R S F).
Proof.
  intros Ht. unfold ensurePathToExit. cbv zeta. fold R.
  apply hoare_forUpTo. intros r Hr.
  eapply hoare_bind.
  { eapply hoare_weaken.
    - apply (hoare_readCell (Good R S F) r (sliceStart e)); [lia | exact Ht].
    - intros g Hg. split; [apply Hg | exact Hg].
    - intros c g H. exact (proj2 H). }
  intros c1. cbn beta.
  eapply hoare_bind with (Q := fun _ => Good R S F).
  - destruct (wallOuter c1).
    + eapply hoare_bind.
      { eapply hoare_weaken.
        - apply (hoare_readCell (Good R S F) (r + 1) (sliceStart e)); [lia | exact Ht].
        - intros g Hg. split; [apply Hg | exact Hg].
        - intros c g H. exact (proj2 H). }
      intros c2. apply hoare_ret. auto.
    + apply hoare_ret. auto.
  - intros blocked. destruct blocked.
    + apply (clearPair_total R S F WOuter r (sliceStart e) WInner (r + 1) (sliceStart e)).
      apply partners_outer; [lia | exact Ht].
    + apply hoare_ret. auto.
Qed.


Lemma getCell_createEmptyGrid r s :
  0 <= r < R -> 0 <= s < S ->
  getCell (createEmptyGrid config) r s = Some (mkCell r s true true true true).
Proof.
  intros Hr Hs. unfold getCell, createEmptyGrid. fold R S.
  rewrite (proj2 (Z.leb_le 0 r)) by lia. rewrite (proj2 (Z.leb_le 0 s)) by lia.
  cbn [andb]. rewrite list_lookup_fmap, lookup_seqZ_lt by lia. cbn [fmap option_fmap option_map].
  rewrite list_lookup_fmap, lookup_seqZ_lt by lia. cbn [fmap option_fmap option_map].
  f_equal. f_equal; lia.
Qed.

Lemma createEmptyGrid_Good : Good R S (fun _ _ _ => False) (createEmptyGrid config).
Proof.
  assert (Hw : forall w r s, 0 <= r < R -> 0 <= s < S ->
                             wallAt (createEmptyGrid config) w r s = true).
  { intros w r s Hr Hs. unfold wallAt. rewrite getCell_createEmptyGrid by assumption.
    destruct w; reflexivity. }
  split; [| split].
  - intros r s Hr Hs. rewrite getCell_createEmptyGrid by assumption. eauto.
  - intros r s Hr Hs.
    pose proof (rem_range (s + 1) S ltac:(lia) ltac:(lia)).
    split; [| intros Hlt]; rewrite !Hw by lia; reflexivity.
  - intros w r s [].
Qed.

Lemma runSolver_total F e :
  hoare (GoodSt F) (runSolver config e)
        (fun sol st => GoodSt F st /\ solveMaze (grid st) config e = Some sol).
Proof.
  intros st Hst. unfold runSolver.
  destruct (solveMaze_total (grid st) config e HS HR (proj1 Hst)) as [sol Hsol].
  rewrite Hsol. eauto.
Qed.

Lemma attemptMaze_total params :
  hoare (GoodSt (fun _ _ _ => False)) (attemptMaze config params)
        (fun es st =>
           GoodSt (exitWalls (fst es)) st
           /\ 0 <= sliceStart (fst es) < S
           /\ sliceCount (fst es) = Z.min (exitWidth params) S
           /\ solveMaze (grid st) config (fst es) = Some (snd es)).
Proof.
  unfold attemptMaze.
  eapply hoare_bind; [apply carveSpanningTree_total |]. intros ?.
  eapply hoare_bind; [apply openEntryHoles_total |]. intros ?.
  eapply hoare_bind; [apply addExtraOpenings_total |]. intros ?.
  eapply hoare_bind; [apply capRadialWalls_total |]. intros ?.
  eapply hoare_bind; [apply placeExit_total |]. intros e. cbn beta.
  eapply hoare_weaken with
    (P' := fun st => GoodSt (exitWalls e) st
                     /\ (0 <= sliceStart e < S /\ sliceCount e = Z.min (exitWidth params) S));
    [| | intros es st H; exact H].
  2: { intros st (Hg & Hs & Hc). split; [| auto].
       eapply Good_weaken; [exact Hg |]. intros w r s H. right. exact H. }
  apply hoare_assume. intros [Hs Hc].
  eapply hoare_bind.
  { apply (hoare_onCells (Good R S (exitWalls e)) _ (fun _ => Good R S (exitWalls e))).
    apply ensurePathToExit_total. exact Hs. }
  intros ?.
  eapply hoare_bind; [apply runSolver_total |]. intros sol.
  apply hoare_ret. intros st [Hg Hsol]. cbn [fst snd]. auto.
Qed.

Lemma fallback_build_Good params m :
  generateFallbackMaze config params = Some m ->
  Good R S (exitWalls (exit m)) (cells m)
  /\ exit m = mkExit 0 2 /\ Types.config m = config /\ Types.params m = params.
Proof.
  unfold generateFallbackMaze. cbv zeta. fold R S.
  set (loops := forUpTo R _).
  assert (Hloops : hoare (Good R S (fun _ _ _ => False)) loops
                         (fun _ => Good R S (fun _ _ _ => False))).
  { unfold loops. apply hoare_forUpTo. intros r Hr.
    eapply hoare_bind.
    - apply hoare_forUpTo. intros s Hs.
      apply (clearPair_total R S _ WCW r s WCCW r (Z.rem (s + 1) S)).
      apply partners_cw; assumption.
    - intros ?. destruct (Z.ltb_spec r (R - 1)) as [Hlt | Hge].
      + apply (clearPair_total R S _ WOuter r (Z.rem r S) WInner (r + 1) (Z.rem r S)).
        apply partners_outer; [lia | apply rem_range; lia].
      + apply hoare_ret. auto. }
  destruct (Hloops _ createEmptyGrid_Good) as (u0 & g0 & E0 & Hg0).
  unfold mbind, M_bind, bind. rewrite E0.
  destruct (modifyCell (withWallOuter false) (R - 1) 0 g0) as [[u1 g1] |] eqn:E1;
    [| discriminate].
  destruct (modifyCell (withWallOuter false) (R - 1) 1 g1) as [[u2 g2] |] eqn:E2;
    [| discriminate].
  intros [= <-]. cbn [cells exit Types.config Types.params].
  split; [| auto].
  destruct u1, u2.
  pose proof (clearRim_effect R S _ WOuter (R - 1) 0 g0 g1 ltac:(right; auto) E1 Hg0) as Hg1.
  pose proof (clearRim_effect R S _ WOuter (R - 1) 1 g1 g2 ltac:(right; auto) E2 Hg1) as Hg2.
  eapply Good_weaken; [exact Hg2 |].
  intros w r s (-> & -> & i & Hi & ->). cbn [sliceStart sliceCount] in *.
  assert (Hcases : i = 0 \/ i = 1) by lia.
  destruct Hcases as [-> | ->].
  - left. right. repeat split. 
  - destruct (decide (S = 1)) as [E | E].
    + left. right. rewrite E. repeat split.
    + right. repeat split. apply Z.rem_small. lia.
Qed.

Lemma fallback_total params : 2 <= S -> is_Some (generateFallbackMaze config params).
Proof.
  intros HS2. unfold generateFallbackMaze. cbv zeta. fold R S.
  set (build := _ ;; _).
  assert (Hbuild : hoare (Good R S (fun _ _ _ => False)) build (fun _ _ => True)).
  { unfold build. eapply hoare_bind.
    - apply hoare_forUpTo. intros r Hr.
      eapply hoare_bind.
      + apply hoare_forUpTo. intros s Hs.
        apply (clearPair_total R S _ WCW r s WCCW r (Z.rem (s + 1) S)).
        apply partners_cw; assumption.
      + intros ?. destruct (Z.ltb_spec r (R - 1)) as [Hlt | Hge].
        * apply (clearPair_total R S _ WOuter r (Z.rem r S) WInner (r + 1) (Z.rem r S)).
          apply partners_outer; [lia | apply rem_range; lia].
        * apply hoare_ret. auto.
    - intros ?. eapply hoare_bind.
      + apply (clearRim_total R S _ WOuter (R - 1) 0); [right; auto | lia | lia].
      + intros ?. eapply hoare_weaken.
        * eapply clearRim_total with (R := R) (S := S) (x := WOuter) (r := R - 1) (s := 1);
            first [lia | right; split; reflexivity].
        * intros g Hg. exact Hg.
        * auto. }
  destruct (Hbuild _ createEmptyGrid_Good) as (u & g & E & _).
  rewrite E. eauto.
Qed.

Lemma generateLoop_Good params n seed0 m :
  generateLoop n config params seed0 = Some m ->
  Good R S (exitWalls (exit m)) (cells m)
  /\ Types.config m = config /\ Types.params m = params
  /\ is_Some (solveMaze (cells m) config (exit m)).
Proof.
  revert seed0. induction n as [| n IH]; intros seed0; cbn [generateLoop].
  - intros Hm. destruct (fallback_build_Good params m Hm) as (Hg & He & Hc & Hp).
    split; [exact Hg | split; [exact Hc | split; [exact Hp |]]].
    apply solveMaze_total; [exact HS | exact HR | apply Hg].
  - destruct (negb (checkGeometricConstraints config)); [apply IH |].
    destruct (attemptMaze_total params (mkGen (createEmptyGrid config) (createRNG seed0))
                                createEmptyGrid_Good)
      as ([e sol] & st & E & Hg & Hs & Hc & Hsol).
    rewrite E. cbn [fst snd] in *.
    destruct (solvable sol); [| apply IH].
    intros [= <-]. cbn [cells exit Types.config Types.params].
    rewrite Hsol. eauto.
Qed.

Lemma generateLoop_total params n seed0 :
  2 <= S -> is_Some (generateLoop n config params seed0).
Proof.
  intros HS2. revert seed0. induction n as [| n IH]; intros seed0; cbn [generateLoop].
  - apply fallback_total. exact HS2.
  - destruct (negb (checkGeometricConstraints config)); [apply IH |].
    destruct (attemptMaze_total params (mkGen (createEmptyGrid config) (createRNG seed0))
                                createEmptyGrid_Good)
      as ([e sol] & st & E & _).
    rewrite E. destruct (solvable sol); [eauto | apply IH].
Qed.

End Steps.
End GeneratorFacts.

Module MazeSpec.
Import Rng Types Solver Generator GridFacts RngFacts SolverFacts GeneratorFacts.
Local Open Scope Z_scope.

(* every slice of the exit sector has its outer wall removed on the last ring *)
Definition exitOpen (m : MazeData) : Prop :=
  forall i, 0 <= i < sliceCount (exit m) ->
    exists c,
      getCell (cells m) (rings (config m) - 1)
              (Z.rem (sliceStart (exit m) + i) (slices (config m))) = Some c
      /\ wallOuter c = false.

(* the two flags of every shared wall agree *)
Definition wallsAgree (R S : Z) (cells : Grid) : Prop :=
  forall r s, 0 <= r < R -> 0 <= s < S ->
    exists c cn,
      getCell cells r s = Some c
      /\ getCell cells r (Z.rem (s + 1) S) = Some cn
      /\ wallCW c = wallCCW cn
      /\ (r < R - 1 ->
          exists co, getCell cells (r + 1) s = Some co /\ wallOuter c = wallInner co).

Lemma wallsAgree_iff R S cells :
  1 <= S -> (wallsAgree R S cells <-> defined R S cells /\ paired R S cells).
Proof.
  intros HS. split.
  - intros H. split.
    + intros r s Hr Hs. destruct (H r s Hr Hs) as (c & _ & Hc & _). eauto.
    + intros r s Hr Hs. destruct (H r s Hr Hs) as (c & cn & Hc & Hcn & Hcw & Hout).
      unfold wallAt. rewrite Hc, Hcn. split; [exact Hcw |].
      intros Hlt. destruct (Hout Hlt) as (co & Hco & E). now rewrite Hco.
  - intros [Hd Hp] r s Hr Hs.
    pose proof (rem_range (s + 1) S ltac:(lia) ltac:(lia)) as Hrem.
    destruct (Hd r s Hr Hs) as [c Hc].
    destruct (Hd r (Z.rem (s + 1) S) Hr Hrem) as [cn Hcn].
    destruct (Hp r s Hr Hs) as [Hcw Hout]. unfold wallAt in Hcw, Hout.
    rewrite Hc, Hcn in Hcw. rewrite Hc in Hout.
    exists c, cn. repeat split; try assumption.
    intros Hlt. destruct (Hd (r + 1) s ltac:(lia) Hs) as [co Hco].
    specialize (Hout Hlt). rewrite Hco in Hout. eauto.
Qed.

Lemma generateMaze_Good config params m :
  1 <= rings config -> 1 <= slices config ->
  generateMaze config params = Some m ->
  Good (rings config) (slices config) (exitWalls config (exit m)) (cells m)
  /\ Types.config m = config /\ Types.params m = params
  /\ is_Some (solveMaze (cells m) config (exit m)).
Proof. intros HR HS. apply generateLoop_Good; assumption. Qed.

Lemma generateMaze_returns (config : MazeConfig) (params : GenerationParams) :
  1 <= rings config -> 2 <= slices config ->
  exists m, generateMaze config params = Some m.
Proof.
  intros HR HS. apply generateLoop_total; [exact HR | lia | exact HS].
Qed.

(* with a single slice the fallback maze writes cells[rings - 1][1], which is
   undefined: here the geometric check fails, so every attempt is skipped *)
Example fallback_throws_on_single_slice :
  generateMaze (mkConfig 3 1 0 30 200 100) defaultGenerationParams = None.
Proof. vm_compute. reflexivity. Qed.

(** C5.  In every maze generateMaze returns (the fallback maze included), every
    slice of the exit sector, counted from sliceStart modulo slices, has its
    outer wall removed on the outermost ring. *)
Theorem generateMaze_exit_sector_open (config : MazeConfig) (params : GenerationParams) :
  1 <= rings config -> 1 <= slices config ->
  (2 <= slices config -> exists m, generateMaze config params = Some m)
  /\ (forall m, generateMaze config params = Some m ->
                Types.config m = config /\ exitOpen m).
Proof.
  intros HR HS. split; [intros HS2; apply generateMaze_returns; assumption |].
  intros m Hm.
  destruct (generateMaze_Good config params m HR HS Hm) as ((_ & _ & Hk) & Hc & _).
  split; [exact Hc |]. unfold exitOpen. rewrite Hc. intros i Hi.
  specialize (Hk WOuter (rings config - 1)
                 (Z.rem (sliceStart (exit m) + i) (slices config))).
  unfold wallAt in Hk.
  destruct (getCell (cells m) (rings config - 1)
                    (Z.rem (sliceStart (exit m) + i) (slices config))) as [c |].
  - exists c. split; [reflexivity |]. apply Hk.
    split; [reflexivity | split; [reflexivity |]]. eauto.
  - assert (true = false); [| discriminate]. apply Hk.
    split; [reflexivity | split; [reflexivity |]]. eauto.
Qed.

(** C6.  In every maze generateMaze returns, cells[r][s].wallCW equals
    cells[r][(s+1) % slices].wallCCW, and for r < rings - 1 cells[r][s].wallOuter
    equals cells[r+1][s].wallInner; removing the wall towards a neighbor keeps
    this agreement. *)
Theorem generateMaze_walls_agree (config : MazeConfig) (params : GenerationParams) :
  1 <= rings config -> 1 <= slices config ->
  (2 <= slices config -> exists m, generateMaze config params = Some m)
  /\ (forall m, generateMaze config params = Some m ->
                wallsAgree (rings config) (slices config) (cells m))
  /\ (forall cells cr cs n,
         wallsAgree (rings config) (slices config) cells ->
         0 <= cr < rings config -> 0 <= cs < slices config ->
         n ∈ getNeighbors cr cs config ->
         exists cells',
           removeWall cr cs (nring n) (nslice n) (direction n) cells = Some (tt, cells')
           /\ wallsAgree (rings config) (slices config) cells').
Proof.
  intros HR HS. split; [intros HS2; apply generateMaze_returns; assumption |]. split.
  - intros m Hm.
    destruct (generateMaze_Good config params m HR HS Hm) as ((Hd & Hp & _) & _).
    apply wallsAgree_iff; auto.
  - intros cells cr cs n Hw Hcr Hcs Hn.
    apply wallsAgree_iff in Hw; [| exact HS]. destruct Hw as [Hd Hp].
    destruct (getNeighbors_partner config HS cr cs n Hcr Hcs Hn)
      as (_ & _ & x & y & Hpart & ->).
    destruct (clearPair_total _ _ (fun _ _ _ => False) x cr cs y _ _ Hpart cells)
      as ([] & cells' & E & Hd' & Hp' & _).
    + split; [exact Hd | split; [exact Hp |]]. intros w r s [].
    + exists cells'. split; [exact E |]. apply wallsAgree_iff; auto.
Qed.

(* the configurations of the solvability test *)
Definition testConfig (rings slices seed : Z) : MazeConfig :=
  mkConfig rings slices seed 30 200 6.

Definition testedLattices : list (Z * Z) := [(2, 4); (4, 16); (6, 12)].

Definition generatesSolvable (config : MazeConfig) (params : GenerationParams) : bool :=
  match generateMaze config params with
  | Some m =>
      match solveMaze (cells m) (Types.config m) (exit m) with
      | Some res => solvable res
      | None => false
      end
  | None => false
  end.

Lemma tested_runs_solvable :
  forallb (fun rs : Z * Z =>
             forallb (fun seed => generatesSolvable (testConfig (fst rs) (snd rs) seed)
                                                    defaultGenerationParams)
                     (seqZ 0 50))
          testedLattices = true.
Proof. vm_cast_no_check (@eq_refl bool true). Qed.

Lemma tested_run (rs : Z * Z) (seed : Z) :
  In rs testedLattices -> In seed (seqZ 0 50) ->
  generatesSolvable (testConfig (fst rs) (snd rs) seed) defaultGenerationParams = true.
Proof.
  intros Hrs Hseed.
  exact (proj1 (forallb_forall _ _)
               (proj1 (forallb_forall _ _) tested_runs_solvable rs Hrs) seed Hseed).
Qed.

Lemma generateLoop_infeasible config params n seed0 :
  checkGeometricConstraints config = false ->
  generateLoop n config params seed0 = generateFallbackMaze config params.
Proof.
  intros Hgeo. revert seed0. induction n as [| n IH]; intros seed0; cbn [generateLoop].
  - reflexivity.
  - rewrite Hgeo. cbn [negb]. apply IH.
Qed.

Lemma generateMaze_infeasible config params :
  checkGeometricConstraints config = false ->
  generateMaze config params = generateFallbackMaze config params.
Proof. intros Hgeo. unfold generateMaze. apply generateLoop_infeasible. exact Hgeo. Qed.

Lemma generatesSolvable_true config params :
  generatesSolvable config params = true ->
  exists m res,
    generateMaze config params = Some m
    /\ solveMaze (cells m) (Types.config m) (exit m) = Some res
    /\ solvable res = true.
Proof.
  unfold generatesSolvable.
  destruct (generateMaze config params) as [m |]; [| discriminate].
  destruct (solveMaze (cells m) (Types.config m) (exit m)) as [res |] eqn:Er;
    [| discriminate].
  intros Hres. exists m, res. split; [reflexivity | split; [exact Er | exact Hres]].
Qed.

(** C1.  For every seed in [0, 50) and each lattice (2,4), (4,16), (6,12), with
    inner radius 30, outer radius 200, ball radius 6 and the default
    parameters, generateMaze returns a maze on which solveMaze reports
    solvable = true; where the geometric check fails that maze is the
    deterministic fallback maze. *)
Theorem generateMaze_solvable_on_tested_seeds (rings slices seed : Z) :
  0 <= seed < 50 ->
  (rings, slices) ∈ testedLattices ->
  exists m res,
    generateMaze (testConfig rings slices seed) defaultGenerationParams = Some m
    /\ solveMaze (cells m) (Types.config m) (exit m) = Some res
    /\ solvable res = true
    /\ (checkGeometricConstraints (testConfig rings slices seed) = false ->
        generateFallbackMaze (testConfig rings slices seed) defaultGenerationParams = Some m).
Proof.
  intros Hseed Hin.
  assert (Hs : In seed (seqZ 0 50)) by (apply list_elem_of_In, elem_of_seqZ; lia).
  pose proof (tested_run (rings, slices) seed (proj1 (list_elem_of_In _ _) Hin) Hs) as Hall.
  destruct (generatesSolvable_true _ _ Hall) as (m & res & Em & Er & Hres).
  exists m, res. split; [exact Em | split; [exact Er | split; [exact Hres |]]].
  intros Hgeo. rewrite <- (generateMaze_infeasible _ defaultGenerationParams Hgeo). exact Em.
Qed.

(** C7.  When solveMaze returns solvable = true the path is not empty, starts on
    ring 0 and ends on ring rings - 1 at a slice of the exit sector whose outer
    wall is removed; when it returns solvable = false the path is empty. *)
Theorem solveMaze_path_shape (cells : Grid) (config : MazeConfig) (exit : ExitSector) :
  1 <= slices config -> 0 <= sliceStart exit ->
  (1 <= rings config -> defined (rings config) (slices config) cells ->
   exists res, solveMaze cells config exit = Some res)
  /\ (forall res,
        solveMaze cells config exit = Some res ->
        (solvable res = true ->
           path res <> []
           /\ (exists s0, head (path res) = Some (0, s0))
           /\ exists i c,
                0 <= i < sliceCount exit
                /\ last (path res)
                   = Some (rings config - 1, Z.rem (sliceStart exit + i) (slices config))
                /\ getCell cells (rings config - 1)
                           (Z.rem (sliceStart exit + i) (slices config)) = Some c
                /\ wallOuter c = false)
        /\ (solvable res = false -> path res = [])).
Proof.
  intros HS Hstart. split.
  - intros HR Hdef. exact (solveMaze_total cells config exit HS HR Hdef).
  - intros res Hrun. exact (solveMaze_pathShape cells config exit HS Hstart res Hrun).
Qed.

(* a lattice used to exercise the theorems *)
Definition sampleConfig : MazeConfig := testConfig 4 8 42.

Lemma generateMaze_solvable_witness :
  exists m res,
    generateMaze (testConfig 2 4 7) defaultGenerationParams = Some m
    /\ solveMaze (cells m) (Types.config m) (exit m) = Some res
    /\ solvable res = true.
Proof.
  destruct (generateMaze_solvable_on_tested_seeds 2 4 7) as (m & res & Hm & Hr & Hs & _).
  - lia.
  - left.
  - exists m, res. auto.
Defined.

Lemma generateMaze_exit_sector_open_witness :
  exists m, generateMaze sampleConfig defaultGenerationParams = Some m /\ exitOpen m.
Proof.
  destruct (generateMaze sampleConfig defaultGenerationParams) as [m |] eqn:Hm.
  - exists m. split; [reflexivity |].
    apply (proj2 (generateMaze_exit_sector_open sampleConfig defaultGenerationParams
                    ltac:(cbn; lia) ltac:(cbn; lia)) m Hm).
  - vm_compute in Hm. discriminate.
Defined.

Lemma generateMaze_walls_agree_witness :
  exists m, generateMaze sampleConfig defaultGenerationParams = Some m
            /\ wallsAgree 4 8 (cells m).
Proof.
  destruct (generateMaze sampleConfig defaultGenerationParams) as [m |] eqn:Hm.
  - exists m. split; [reflexivity |].
    apply (proj1 (proj2 (generateMaze_walls_agree sampleConfig defaultGenerationParams
                           ltac:(cbn; lia) ltac:(cbn; lia))) m Hm).
  - vm_compute in Hm. discriminate.
Defined.

(* one ring of two cells, the first open to the outside *)
Definition tinyGrid : Grid :=
  [[mkCell 0 0 true false true true; mkCell 0 1 true true true true]].
Definition tinyConfig : MazeConfig := mkConfig 1 2 0 30 200 6.
Definition tinyExit : ExitSector := mkExit 0 1.

Lemma solveMaze_path_shape_witness :
  exists res,
    solveMaze tinyGrid tinyConfig tinyExit = Some res
    /\ solvable res = true /\ path res <> [].
Proof.
  destruct (solveMaze tinyGrid tinyConfig tinyExit) as [res |] eqn:Hres;
    [| vm_compute in Hres; discriminate].
  exists res. split; [reflexivity |].
  destruct (proj2 (solveMaze_path_shape tinyGrid tinyConfig tinyExit
                     ltac:(cbn; lia) ltac:(cbn; lia)) res Hres) as [Hyes _].
  assert (Hs : solvable res = true)
    by (vm_compute in Hres; injection Hres as <-; reflexivity).
  split; [exact Hs | apply Hyes; exact Hs].
Defined.

End MazeSpec.

Module CollisionSpec.
Import Physics Collision.
Local Open Scope R_scope.

Definition EPS : R := 1e-10.

Definition segLenSq (seg : Segment) : R :=
  (x2 seg - x1 seg) * (x2 seg - x1 seg) + (y2 seg - y1 seg) * (y2 seg - y1 seg).

(* point of the segment at parameter u (u = 0 start, u = 1 end) *)
Definition pointAt (seg : Segment) (u : R) : R * R :=
  (x1 seg + u * (x2 seg - x1 seg), y1 seg + u * (y2 seg - y1 seg)).

Definition distTo (ball : Ball) (p : R * R) : R :=
  sqrt ((x ball - fst p) * (x ball - fst p) + (y ball - snd p) * (y ball - snd p)).

Definition closestParam (ball : Ball) (seg : Segment) : R :=
  Rmax 0 (Rmin 1 (((x ball - x1 seg) * (x2 seg - x1 seg)
                   + (y ball - y1 seg) * (y2 seg - y1 seg)) / segLenSq seg)).

Definition closestPoint (ball : Ball) (seg : Segment) : R * R :=
  pointAt seg (closestParam ball seg).

Definition segDistance (ball : Ball) (seg : Segment) : R :=
  distTo ball (closestPoint ball seg).

Lemma sumsq_nonneg a b : 0 <= a * a + b * b.
Proof. nra. Qed.


Lemma closestParam_cases ball seg :
  0 < segLenSq seg ->
  let w := (x ball - x1 seg) * (x2 seg - x1 seg) + (y ball - y1 seg) * (y2 seg - y1 seg) in
  let t := closestParam ball seg in
  (t = 0 /\ w <= 0) \/ (t = 1 /\ segLenSq seg <= w) \/ (t * segLenSq seg = w).
Proof.
  intros Hl w t. unfold t, closestParam. fold w.
  set (q := w / segLenSq seg).
  assert (Hq : q * segLenSq seg = w) by (unfold q; field; lra).
  destruct (Rle_dec q 0) as [H0 | H0].
  - left. split.
    + rewrite Rmax_left; [reflexivity |]. apply Rle_trans with q; [apply Rmin_r | exact H0].
    + nra.
  - destruct (Rle_dec 1 q) as [H1 | H1].
    + right; left. split.
      * rewrite Rmin_left by exact H1. apply Rmax_right; lra.
      * nra.
    + right; right. rewrite Rmin_right by lra. rewrite Rmax_right by lra. exact Hq.
Qed.



End CollisionSpec.

Module PhysicsSpec.
Import Physics Tolerance.
Local Open Scope R_scope.

Definition speed (ball : Ball) : R := sqrt (vx ball * vx ball + vy ball * vy ball).

(* the four stages named by the specification *)
Definition applyGravity (dt angle : R) (b : Ball) : Ball :=
  mkBall (x b) (y b) (vx b + GRAVITY * sin angle * dt) (vy b + GRAVITY * cos angle * dt) (radius b).
Definition applyFriction (b : Ball) : Ball :=
  mkBall (x b) (y b) (vx b * FRICTION) (vy b * FRICTION) (radius b).
Definition clampSpeed (b : Ball) : Ball :=
  if Rlt_dec MAX_SPEED (speed b)
  then mkBall (x b) (y b) (vx b * (MAX_SPEED / speed b)) (vy b * (MAX_SPEED / speed b)) (radius b)
  else b.
Definition advancePosition (dt : R) (b : Ball) : Ball :=
  mkBall (x b + vx b * dt) (y b + vy b * dt) (vx b) (vy b) (radius b).

Lemma speed_nonneg b : 0 <= speed b.
Proof. apply sqrt_pos. Qed.

Lemma speed_scaled a b k :
  0 <= k -> sqrt (a * k * (a * k) + b * k * (b * k)) = sqrt (a * a + b * b) * k.
Proof.
  intros Hk.
  replace (a * k * (a * k) + b * k * (b * k)) with ((a * a + b * b) * (k * k)) by ring.
  rewrite sqrt_mult_alt by nra.
  now rewrite sqrt_square.
Qed.

Lemma clampSpeed_bound b : speed (clampSpeed b) <= MAX_SPEED.
Proof.
  unfold clampSpeed. destruct (Rlt_dec MAX_SPEED (speed b)) as [Hgt | Hle]; [| lra].
  assert (Hpos : 0 < speed b) by (unfold MAX_SPEED in Hgt; lra).
  unfold speed at 1. cbn [vx vy].
  rewrite speed_scaled.
  - fold (speed b). right. field. lra.
  - apply Rlt_le, Rdiv_lt_0_compat; [unfold MAX_SPEED; lra | exact Hpos].
Qed.

(** C4 (amended).  integrateBall adds gravity times dt to the velocity, applies
    friction, rescales a velocity longer than MAX_SPEED by MAX_SPEED / speed
    and then moves the position by velocity times dt; the speed it leaves is
    at most MAX_SPEED up to rounding: within TOLERANCE of it. *)
Theorem integrateBall_sequence_and_speed_cap (ball : Ball) (dt mazeAngle : R) :
  integrateBall ball dt mazeAngle
    = advancePosition dt (clampSpeed (applyFriction (applyGravity dt mazeAngle ball)))
  /\ speed (integrateBall ball dt mazeAngle) <= MAX_SPEED + Q2R TOLERANCE.
Proof.
  assert (Htol : 0 <= Q2R TOLERANCE).
  { unfold TOLERANCE, Q2R. cbn [Qnum Qden]. lra. }
  assert (E : integrateBall ball dt mazeAngle
    = advancePosition dt (clampSpeed (applyFriction (applyGravity dt mazeAngle ball)))).
  { unfold integrateBall, advancePosition, clampSpeed, applyFriction, applyGravity, speed.
    cbn [x y vx vy radius].
    destruct (Rlt_dec MAX_SPEED _); reflexivity. }
  split; [exact E |].
  rewrite E.
  change (speed (advancePosition dt ?b)) with (speed b).
  pose proof (clampSpeed_bound (applyFriction (applyGravity dt mazeAngle ball))). lra.
Qed.

(** C4, as stated, fails in binary64: a ball that moves at (900, 0) and is
    integrated for one tick of 1 / 120 s at angle 0 (where the sine is 0 and
    the cosine 1) leaves with a velocity whose exact length is above
    MAX_SPEED (and within TOLERANCE of it), and whose length computed as the
    code computes its speed is above MAX_SPEED too. *)
Lemma integrateBall_speed_cap_counterexample :
  let ball' := Binary64.Physics.integrateBall Binary64.fastBall Binary64.tick
                 (fst Binary64.angleZero) (snd Binary64.angleZero) in
  let vx' := Binary64.Physics.vx ball' in
  let vy' := Binary64.Physics.vy ball' in
  (Binary64.toQ Binary64.Physics.MAX_SPEED * Binary64.toQ Binary64.Physics.MAX_SPEED
   < Binary64.toQ vx' * Binary64.toQ vx' + Binary64.toQ vy' * Binary64.toQ vy')%Q
  /\ (Binary64.toQ vx' * Binary64.toQ vx' + Binary64.toQ vy' * Binary64.toQ vy'
      <= (800 + TOLERANCE) * (800 + TOLERANCE))%Q
  /\ Binary64.toQ Binary64.Physics.MAX_SPEED == 800
  /\ PrimFloat.ltb Binary64.Physics.MAX_SPEED
                   (PrimFloat.sqrt (PrimFloat.add (PrimFloat.mul vx' vx') (PrimFloat.mul vy' vy')))
     = true.
Proof. vm_compute. repeat split; try reflexivity; discriminate. Qed.

Lemma sqrt_le_of_sq a b : 0 <= b -> a <= b -> sqrt a <= sqrt b.
Proof. intros. destruct (Rle_dec 0 a); [apply sqrt_le_1; lra |]. rewrite (sqrt_neg_0 a) by lra. apply sqrt_pos. Qed.



End PhysicsSpec.

Module TimeSpec.
Import Time.
Local Open Scope Q_scope.

Section Scheduler.
Variable World : Type.
Variable physicsTick : Q -> World -> World.

(* frameTime after the clamp *)
Definition clampedFrameTime (state : TimeState) (now : Q) : Q :=
  let currentTime := now / 1000 in
  let frameTime := currentTime - lastTime state in
  if Qlt_le_dec MAX_FRAME_TIME frameTime then MAX_FRAME_TIME else frameTime.

(* one updateTime call per timestamp, in order; the returned fractions are collected *)
Fixpoint runFrames (state : TimeState) (w : World) (nows : list Q)
  : option (list Q * TimeState * World) :=
  match nows with
  | [] => Some ([], state, w)
  | now :: rest =>
      match updateTime World physicsTick state now w with
      | None => None
      | Some (a, state, w) =>
          match runFrames state w rest with
          | None => None
          | Some (alphas, state, w) => Some (a :: alphas, state, w)
          end
      end
  end.

Definition settled (state : TimeState) : Prop :=
  0 <= accumulator state /\ accumulator state < FIXED_DT.

Lemma FIXED_DT_pos : 0 < FIXED_DT.
Proof. reflexivity. Qed.

Lemma inject_Z_succ n : inject_Z (Z.of_nat (S n)) == inject_Z (Z.of_nat n) + 1.
Proof. rewrite Nat2Z.inj_succ. unfold Z.succ. rewrite inject_Z_plus. reflexivity. Qed.

Lemma tickLoop_spec fuel state w :
  0 <= accumulator state ->
  accumulator state < inject_Z (Z.of_nat fuel) * FIXED_DT ->
  exists n state',
    tickLoop World physicsTick fuel state w
      = Some (state', Nat.iter n (physicsTick FIXED_DT) w)
    /\ settled state'
    /\ accumulator state == accumulator state' + inject_Z (Z.of_nat n) * FIXED_DT
    /\ elapsed state' == elapsed state + inject_Z (Z.of_nat n) * FIXED_DT
    /\ lastTime state' = lastTime state.
Proof.
  pose proof FIXED_DT_pos as Hdt.
  revert state w. induction fuel as [| fuel IH]; intros state w Hacc Hfuel.
  - exfalso.
    assert (E : inject_Z (Z.of_nat 0) * FIXED_DT == 0) by reflexivity.
    rewrite E in Hfuel. lra.
  - cbn [tickLoop].
    destruct (Qle_bool FIXED_DT (accumulator state)) eqn:E.
    + apply Qle_bool_iff in E.
      set (state1 := mkTimeState (accumulator state - FIXED_DT) (lastTime state)
                                 (alpha state) (elapsed state + FIXED_DT)).
      destruct (IH state1 (physicsTick FIXED_DT w)) as (n & state' & Hrun & Hs & Ha & He & Hl).
      * cbn [accumulator state1]. lra.
      * cbn [accumulator state1]. rewrite inject_Z_succ in Hfuel. lra.
      * exists (S n), state'. cbv zeta. fold state1.
        rewrite Hrun. cbn [accumulator elapsed lastTime state1] in *.
        split; [| split; [exact Hs | split; [| split; [| exact Hl]]]].
        -- now rewrite Nat.iter_succ_r.
        -- rewrite inject_Z_succ. lra.
        -- rewrite inject_Z_succ. lra.
    + exists O, state. cbn [Nat.iter].
      split; [reflexivity |].
      assert (Hlt : accumulator state < FIXED_DT).
      { apply Qnot_le_lt. intros Hle. apply Qle_bool_iff in Hle. congruence. }
      split; [split; assumption |].
      cbn. split; [ring | split; [ring | reflexivity]].
Qed.

Lemma clampedFrameTime_bounds state now :
  lastTime state <= now / 1000 ->
  0 <= clampedFrameTime state now <= MAX_FRAME_TIME
  /\ clampedFrameTime state now == Qmin (now / 1000 - lastTime state) MAX_FRAME_TIME.
Proof.
  intros Hmono. unfold clampedFrameTime. cbv zeta.
  destruct (Qlt_le_dec MAX_FRAME_TIME (now / 1000 - lastTime state)) as [Hbig | Hsmall].
  - split; [split; [discriminate | apply Qle_refl] |].
    symmetry. apply Q.min_r. lra.
  - split; [split; [lra | exact Hsmall] |].
    symmetry. apply Q.min_l. exact Hsmall.
Qed.

(* what one call does in exact arithmetic, from a settled state and a timestamp
   not before the last one *)
Definition frameExact (state : TimeState) (now : Q) (w : World)
           (a : Q) (state' : TimeState) (w' : World) : Prop :=
  exists n : nat,
    w' = Nat.iter n (physicsTick FIXED_DT) w
    /\ (n <= 12)%nat
    /\ clampedFrameTime state now <= MAX_FRAME_TIME
    /\ accumulator state + clampedFrameTime state now
       == accumulator state' + inject_Z (Z.of_nat n) * FIXED_DT
    /\ elapsed state' == elapsed state + inject_Z (Z.of_nat n) * FIXED_DT
    /\ settled state'
    /\ lastTime state' = now / 1000
    /\ a = alpha state'
    /\ a == accumulator state' / FIXED_DT
    /\ 0 <= a /\ a < 1.

Lemma updateTime_spec state now w :
  settled state ->
  lastTime state <= now / 1000 ->
  exists a state' w',
    updateTime World physicsTick state now w = Some (a, state', w')
    /\ frameExact state now w a state' w'.
Proof.
  pose proof FIXED_DT_pos as Hdt.
  intros [Hs0 Hs1] Hmono.
  destruct (clampedFrameTime_bounds state now Hmono) as [[Hf0 Hf1] _].
  unfold updateTime. cbv zeta. cbn [accumulator lastTime alpha elapsed].
  fold (clampedFrameTime state now).
  set (ft := clampedFrameTime state now) in *.
  set (state1 := mkTimeState (accumulator state + ft) (now / 1000) (alpha state) (elapsed state)).
  destruct (tickLoop_spec (S (Z.to_nat (Qfloor ((accumulator state + ft) / FIXED_DT))))
              state1 w) as (n & state' & Hrun & Hs & Ha & He & Hl).
  - cbn [accumulator state1]. lra.
  - cbn [accumulator state1].
    set (q := (accumulator state + ft) / FIXED_DT).
    assert (Hq0 : 0 <= q).
    { unfold q. apply Qle_shift_div_l; [exact Hdt | lra]. }
    assert (Hfl : (0 <= Qfloor q)%Z).
    { change 0%Z with (Qfloor 0). apply Qfloor_resp_le. exact Hq0. }
    rewrite inject_Z_succ, Z2Nat.id by exact Hfl.
    pose proof (Qlt_floor q) as Hlt. rewrite inject_Z_plus in Hlt.
    assert (Hqe : accumulator state + ft == q * FIXED_DT).
    { unfold q. field. unfold FIXED_DT, PHYSICS_HZ. discriminate. }
    rewrite Hqe. apply Qmult_lt_compat_r; [exact Hdt | exact Hlt].
  - rewrite Hrun. cbn [accumulator lastTime alpha elapsed state1] in *.
    eexists _, _, _. split; [reflexivity |].
    destruct Hs as [Hs0' Hs1'].
    exists n. cbn [accumulator lastTime alpha elapsed].
    assert (Hn : (n <= 12)%nat).
    { destruct (le_lt_dec n 12) as [Hle | Hgt]; [exact Hle | exfalso].
      assert (H13 : (13 <= Z.of_nat n)%Z) by lia.
      rewrite Zle_Qle in H13.
      unfold MAX_FRAME_TIME, FIXED_DT, PHYSICS_HZ in *.
      assert (Hc : 13 * (1 / 120) <= inject_Z (Z.of_nat n) * (1 / 120)).
      { apply Qmult_le_compat_r; [exact H13 | discriminate]. }
      assert (E13 : 13 * (1 / 120) == 13 # 120) by reflexivity.
      assert (E1 : 1 / 120 == 1 # 120) by reflexivity.
      rewrite E13 in Hc. rewrite E1 in *. lra. }
    repeat split; try assumption; try reflexivity.
    + apply Qle_shift_div_l; [exact Hdt | lra].
    + apply Qlt_shift_div_r; [exact Hdt | lra].
Qed.

(* timestamps (milliseconds) that never run backwards from the last recorded time *)
Fixpoint nonDecreasingFrom (last : Q) (nows : list Q) : Prop :=
  match nows with
  | [] => True
  | now :: rest => last <= now / 1000 /\ nonDecreasingFrom (now / 1000) rest
  end.

(* every call of a run behaves as frameExact says *)
Fixpoint framesExact (state : TimeState) (w : World) (nows alphas : list Q)
         (final : TimeState) (w' : World) : Prop :=
  match nows, alphas with
  | [], [] => final = state /\ w' = w
  | now :: rest, a :: alphas' =>
      exists state1 w1,
        updateTime World physicsTick state now w = Some (a, state1, w1)
        /\ frameExact state now w a state1 w1
        /\ framesExact state1 w1 rest alphas' final w'
  | _, _ => False
  end.

Lemma runFrames_spec nows : forall state w,
  settled state ->
  nonDecreasingFrom (lastTime state) nows ->
  exists alphas final w',
    runFrames state w nows = Some (alphas, final, w')
    /\ framesExact state w nows alphas final w'
    /\ settled final.
Proof.
  induction nows as [| now rest IH]; intros state w Hs Hnd.
  - exists [], state, w. cbn. auto.
  - destruct Hnd as [Hle Hrest].
    destruct (updateTime_spec state now w Hs Hle) as (a & state1 & w1 & Hrun & Hok).
    pose proof Hok as (n & _ & _ & _ & _ & _ & Hs1 & Hl1 & _).
    rewrite <- Hl1 in Hrest.
    destruct (IH state1 w1 Hs1 Hrest) as (alphas & final & w' & Hruns & Hoks & Hsf).
    exists (a :: alphas), final, w'.
    cbn [runFrames framesExact]. rewrite Hrun, Hruns.
    split; [reflexivity | split; [| exact Hsf]].
    exists state1, w1. auto.
Qed.





End Scheduler.


End TimeSpec.



Module ProfileSpec.
Import Profile Tolerance.
Local Open Scope Q_scope.

(* each tracked profile field with the snapshot field that feeds it *)
Definition tracked : list ((PlayerProfile -> Q) * (Metrics.AttemptMetrics -> Q)) :=
  [ (avgSpeed, Metrics.avgSpeed);
    (avgIdleRatio, Metrics.idleRatio);
    (avgRiskRatio, Metrics.riskRatio);
    (avgCollisions, Metrics.collisionCount);
    (avgDirChanges, Metrics.directionChanges);
    (avgExploration, Metrics.exploration);
    (avgTime, Metrics.totalTime) ].

(* n successive updateProfile calls with the same snapshot *)
Fixpoint updateMany (n : nat) (profile : PlayerProfile) (metrics : Metrics.AttemptMetrics)
  : PlayerProfile :=
  match n with
  | O => profile
  | S k => updateProfile (updateMany k profile metrics) metrics
  end.

Lemma ema_error prev c : ema prev c - c == (1 - EMA_ALPHA) * (prev - c).
Proof. unfold ema, EMA_ALPHA. ring. Qed.

Lemma ema_distance prev c : Qabs (ema prev c - c) == 0.7 * Qabs (prev - c).
Proof.
  rewrite ema_error, Qabs_Qmult. unfold EMA_ALPHA.
  assert (E : Qabs (1 - 0.3) == 0.7) by reflexivity.
  rewrite E. reflexivity.
Qed.

Lemma Qabs_zero_iff q : Qabs q == 0 <-> q == 0.
Proof.
  split; intros H.
  - assert (Hle : Qabs q <= 0) by (rewrite H; apply Qle_refl).
    apply Qabs_Qle_condition in Hle. lra.
  - rewrite H. reflexivity.
Qed.

(* a profile field f follows the snapshot field g when updateProfile writes it
   the way the source does: copied on the first attempt, blended afterwards *)
Definition follows (f : PlayerProfile -> Q) (g : Metrics.AttemptMetrics -> Q) : Prop :=
  forall p m,
    f (updateProfile p m)
    = if (attempts p + 1 =? 1)%Z then g m else ema (f p) (g m).

Lemma tracked_follows :
  Forall (fun fg : (PlayerProfile -> Q) * (Metrics.AttemptMetrics -> Q) =>
            follows (fst fg) (snd fg)) tracked.
Proof.
  unfold tracked.
  repeat constructor; intros p m; cbn [fst snd]; unfold updateProfile;
    destruct (attempts p + 1 =? 1)%Z; reflexivity.
Qed.

Lemma attempts_updateMany n p m :
  attempts (updateMany n p m) = (attempts p + Z.of_nat n)%Z.
Proof.
  induction n as [| k IH]; cbn [updateMany].
  - lia.
  - unfold updateProfile.
    destruct (attempts (updateMany k p m) + 1 =? 1)%Z; cbn [attempts]; lia.
Qed.

Lemma step_distance (old new c : Q) :
  new = c \/ new = ema old c ->
  Qabs (new - c) <= Qabs (old - c)
  /\ (~ Qabs (old - c) == 0 -> Qabs (new - c) < Qabs (old - c)).
Proof.
  pose proof (Qabs_nonneg (old - c)) as Hn.
  intros [-> | ->].
  - assert (E : Qabs (c - c) == 0) by (apply Qabs_zero_iff; ring).
    rewrite E. split; [exact Hn | intros; lra].
  - rewrite ema_distance. split; [lra | intros; lra].
Qed.

Lemma follows_converges f g p m n :
  follows f g ->
  let dist k := Qabs (f (updateMany k p m) - g m) in
  dist (S n) <= dist n
  /\ (~ dist n == 0 -> dist (S n) < dist n)
  /\ ((1 <= attempts p)%Z ->
      f (updateMany (S n) p m) = f (updateMany n p m) * (1 - 0.3) + g m * 0.3).
Proof.
  intros Hf dist. unfold dist. cbn [updateMany].
  set (q := updateMany n p m).
  pose proof (attempts_updateMany n p m) as Hatt. fold q in Hatt.
  rewrite (Hf q m).
  destruct (Z.eqb_spec (attempts q + 1) 1) as [E | E].
  - pose proof (step_distance (f q) (g m) (g m) (or_introl eq_refl)) as [H1 H2].
    split; [exact H1 | split; [exact H2 | intros; lia]].
  - pose proof (step_distance (f q) (ema (f q) (g m)) (g m) (or_intror eq_refl)) as [H1 H2].
    split; [exact H1 | split; [exact H2 | intros; reflexivity]].
Qed.

Lemma step_contracts (old new c : Q) :
  new = c \/ new = ema old c -> Qabs (new - c) <= 0.7 * Qabs (old - c).
Proof.
  pose proof (Qabs_nonneg (old - c)) as Hn.
  intros [-> | ->].
  - assert (E : Qabs (c - c) == 0) by (apply Qabs_zero_iff; ring).
    rewrite E. lra.
  - rewrite ema_distance. apply Qle_refl.
Qed.

Lemma follows_step f g p m n :
  follows f g ->
  f (updateMany (S n) p m) = g m
  \/ f (updateMany (S n) p m) = ema (f (updateMany n p m)) (g m).
Proof.
  intros Hf. cbn [updateMany]. rewrite (Hf (updateMany n p m) m).
  destruct (attempts (updateMany n p m) + 1 =? 1)%Z; auto.
Qed.

(* the distance after n calls is at most 7 / (7 + 3 n) of the first distance *)
Lemma follows_bound f g p m n :
  follows f g ->
  Qabs (f (updateMany n p m) - g m) * (7 + 3 * inject_Z (Z.of_nat n))
  <= 7 * Qabs (f p - g m).
Proof.
  intros Hf. induction n as [| n IH].
  - cbn [updateMany]. change (inject_Z (Z.of_nat 0)) with 0. lra.
  - pose proof (step_contracts _ _ _ (follows_step f g p m n Hf)) as Hstep.
    pose proof (Qabs_nonneg (f (updateMany n p m) - g m)) as Hn.
    pose proof (Qabs_nonneg (f (updateMany (S n) p m) - g m)) as Hn'.
    assert (Hk : 0 <= inject_Z (Z.of_nat n))
      by (change 0 with (inject_Z 0); rewrite <- Zle_Qle; lia).
    rewrite Nat2Z.inj_succ. unfold Z.succ. rewrite inject_Z_plus.
    change (inject_Z 1) with 1.
    set (k := inject_Z (Z.of_nat n)) in *.
    set (d := Qabs (f (updateMany n p m) - g m)) in *.
    set (d' := Qabs (f (updateMany (S n) p m) - g m)) in *.
    clearbody k d d'. nra.
Qed.

Lemma follows_limit f g p m (eps : Q) :
  follows f g -> 0 < eps ->
  exists N : nat, forall n, (N <= n)%nat -> Qabs (f (updateMany n p m) - g m) < eps.
Proof.
  intros Hf Heps.
  set (d0 := Qabs (f p - g m)).
  assert (Hd0 : 0 <= d0) by apply Qabs_nonneg.
  set (q := 7 * d0 / (3 * eps)).
  exists (S (Z.to_nat (Qceiling q))). intros n Hn.
  pose proof (follows_bound f g p m n Hf) as Hb. fold d0 in Hb.
  pose proof (Qabs_nonneg (f (updateMany n p m) - g m)) as Hdn.
  set (d := Qabs (f (updateMany n p m) - g m)) in *.
  assert (Hq0 : 0 <= q).
  { unfold q. apply Qle_shift_div_l; lra. }
  assert (Hc0 : (0 <= Qceiling q)%Z).
  { change 0%Z with (Qceiling 0). apply Qceiling_resp_le. exact Hq0. }
  assert (Hk : q < inject_Z (Z.of_nat n)).
  { eapply Qle_lt_trans; [apply Qle_ceiling |]. rewrite <- Zlt_Qlt. lia. }
  assert (Hq : q * (3 * eps) == 7 * d0) by (unfold q; field; lra).
  set (k := inject_Z (Z.of_nat n)) in *. clearbody k d d0 q.
  apply Qnot_le_lt. intros Hge. nra.
Qed.

Lemma slack_nonneg a b : 0 <= slack a b.
Proof.
  unfold slack, TOLERANCE.
  pose proof (Qabs_nonneg a). pose proof (Qabs_nonneg b).
  apply Qmult_le_0_compat; [discriminate | lra].
Qed.

Lemma pow_succ (n : nat) : 0.7 ^ Z.of_nat (S n) == 0.7 * 0.7 ^ Z.of_nat n.
Proof.
  rewrite Nat2Z.inj_succ. unfold Z.succ.
  rewrite Qpower_plus by discriminate. change (0.7 ^ 1) with 0.7. ring.
Qed.

Lemma pow_nonneg (n : nat) : 0 <= 0.7 ^ Z.of_nat n.
Proof. apply Qpower_pos. discriminate. Qed.

(* in exact arithmetic the distance after n calls is at most 0.7 ^ n of the
   first distance *)
Lemma follows_geometric f g p m n :
  follows f g ->
  Qabs (f (updateMany n p m) - g m) <= 0.7 ^ Z.of_nat n * Qabs (f p - g m).
Proof.
  intros Hf. induction n as [| n IH].
  - cbn [updateMany]. change (0.7 ^ Z.of_nat 0) with 1. lra.
  - pose proof (step_contracts _ _ _ (follows_step f g p m n Hf)) as Hstep.
    rewrite pow_succ.
    set (d := Qabs (f (updateMany n p m) - g m)) in *.
    set (d' := Qabs (f (updateMany (S n) p m) - g m)) in *.
    set (k := 0.7 ^ Z.of_nat n) in *.
    set (d0 := Qabs (f p - g m)) in *.
    clearbody d d' k d0. lra.
Qed.

(** C8 (amended).  One updateProfile call on a fresh profile copies every
    snapshot field.  Each later call blends the field with the snapshot value
    at weights 0.7 and 0.3, so under repeated calls with one snapshot the
    distance of every field to the snapshot value shrinks by the factor 0.7
    per call and tends to zero, up to the rounding of the blend: each bound
    holds within TOLERANCE relative to the size of the values. *)
Theorem updateProfile_first_exact_then_ema :
  (forall m : Metrics.AttemptMetrics,
      attempts (updateProfile createProfile m) = 1%Z
      /\ Forall (fun fg : (PlayerProfile -> Q) * (Metrics.AttemptMetrics -> Q) =>
                   fst fg (updateProfile createProfile m) = snd fg m) tracked)
  /\ (forall (p : PlayerProfile) (m : Metrics.AttemptMetrics) (n : nat),
      Forall (fun fg : (PlayerProfile -> Q) * (Metrics.AttemptMetrics -> Q) =>
                let f k := fst fg (updateMany k p m) in
                let c := snd fg m in
                let dist k := Qabs (f k - c) in
                ((1 <= attempts p)%Z -> f (S n) = f n * (1 - 0.3) + c * 0.3)
                /\ dist (S n) <= 0.7 * dist n + slack (f n) c
                /\ dist n <= 0.7 ^ Z.of_nat n * dist 0%nat + slack (f 0%nat) c
                /\ (forall eps, 0 < eps ->
                    exists N : nat, forall k, (N <= k)%nat -> dist k < eps + slack (f 0%nat) c))
             tracked).
Proof.
  split.
  - intros m. split; [reflexivity |].
    eapply List.Forall_impl; [| exact tracked_follows].
    intros [f g] Hf. cbn [fst snd] in *. now rewrite Hf.
  - intros p m n.
    eapply List.Forall_impl; [| exact tracked_follows].
    intros [f g] Hf. cbn [fst snd] in *. cbv zeta.
    destruct (follows_converges f g p m n Hf) as (_ & _ & H3).
    pose proof (step_contracts _ _ _ (follows_step f g p m n Hf)) as Hstep.
    pose proof (follows_geometric f g p m n Hf) as Hgeo.
    pose proof (slack_nonneg (f (updateMany n p m)) (g m)) as Hs1.
    pose proof (slack_nonneg (f (updateMany 0 p m)) (g m)) as Hs0.
    change (updateMany 0 p m) with p in *.
    split; [exact H3 | split; [lra | split; [lra |]]].
    intros eps Heps.
    destruct (follows_limit f g p m eps Hf Heps) as (N & HN).
    exists N. intros k Hk. specialize (HN k Hk). lra.
Qed.

(** C8, as stated, fails in binary64: with the snapshot held at idleRatio 0.1
    the first update copies 0.1, the second moves the field below 0.1, so the
    distance grows from zero (to less than the tolerance), and the third
    leaves it where it is, so a distance that is not zero does not shrink. *)
Lemma updateProfile_monotone_counterexample :
  let m := Binary64.typicalMetrics in
  let p1 := Binary64.Profile.updateProfile Binary64.Profile.createProfile m in
  let p2 := Binary64.Profile.updateProfile p1 m in
  let p3 := Binary64.Profile.updateProfile p2 m in
  Binary64.Profile.avgIdleRatio p1 = Binary64.Metrics.idleRatio m
  /\ PrimFloat.ltb (Binary64.Profile.avgIdleRatio p2) (Binary64.Metrics.idleRatio m) = true
  /\ Binary64.Profile.avgIdleRatio p3 = Binary64.Profile.avgIdleRatio p2
  /\ Binary64.toQ (Binary64.Metrics.idleRatio m) - Binary64.toQ (Binary64.Profile.avgIdleRatio p2)
     <= slack (Binary64.toQ (Binary64.Profile.avgIdleRatio p1))
              (Binary64.toQ (Binary64.Metrics.idleRatio m)).
Proof. vm_compute. repeat split; try reflexivity; discriminate. Qed.

End ProfileSpec.

Module MappingSpec.
Import Types Profile Mapping Tolerance.
Local Open Scope Q_scope.

Definition inRange (r : Range) (q : Q) : Prop := min r <= q <= max r.

(* the six rate-limited tunables, each with its clamp range *)
Definition tunables : list ((GenerationParams -> Q) * Range) :=
  [ (wallDensity, CLAMPS.wallDensity);
    (branchiness, CLAMPS.branchiness);
    (corridorWidth, CLAMPS.corridorWidth);
    (radialDensity, CLAMPS.radialDensity);
    (decoyRate, CLAMPS.decoyRate);
    (pathLengthBias, CLAMPS.pathLengthBias) ].

(* every field of the parameter bundle, read as a number *)
Definition allFields : list (GenerationParams -> Q) :=
  map fst tunables
  ++ [ (fun p => inject_Z (exitOffset p)); (fun p => inject_Z (exitWidth p)) ].

Definition withinRanges (p : GenerationParams) : Prop :=
  Forall (fun fr : (GenerationParams -> Q) * Range => inRange (snd fr) (fst fr p)) tunables
  /\ inRange CLAMPS.exitWidth (inject_Z (exitWidth p)).

Definition rateLimitedFrom (prev next : GenerationParams) : Prop :=
  Forall (fun f : GenerationParams -> Q => Qabs (f next - f prev) <= MAX_DELTA) allFields.

Lemma clamp_inRange v lo hi : lo <= hi -> lo <= clamp v lo hi <= hi.
Proof.
  intros H. unfold clamp. split.
  - apply Q.le_max_l.
  - apply Q.max_lub; [exact H | apply Q.le_min_l].
Qed.

Lemma sign_abs q : sign q * q == Qabs q.
Proof.
  unfold sign. destruct (q ?= 0) eqn:E.
  - apply Qeq_alt in E. rewrite E. reflexivity.
  - apply Qlt_alt in E. rewrite Qabs_neg by lra. ring.
  - apply Qgt_alt in E. rewrite Qabs_pos by lra. ring.
Qed.

Lemma rateLimited_step prev target : Qabs (rateLimited prev target MAX_DELTA - prev) <= MAX_DELTA.
Proof.
  unfold rateLimited.
  destruct (Qle_bool (Qabs (target - prev)) MAX_DELTA) eqn:E.
  - apply Qle_bool_iff in E. exact E.
  - assert (Hs : Qabs (sign (target - prev)) <= 1).
    { unfold sign. destruct (target - prev ?= 0); apply Qabs_Qle_condition; lra. }
    assert (Ha : prev + sign (target - prev) * MAX_DELTA - prev
                 == sign (target - prev) * MAX_DELTA) by ring.
    rewrite Ha, Qabs_Qmult. unfold MAX_DELTA in *.
    assert (E2 : Qabs 0.1 == 0.1) by reflexivity. rewrite E2.
    pose proof (Qabs_nonneg (sign (target - prev))). nra.
Qed.

Lemma clamp_toward v prev lo hi :
  lo <= prev <= hi -> Qabs (clamp v lo hi - prev) <= Qabs (v - prev).
Proof.
  intros [Hlo Hhi]. unfold clamp.
  apply Q.max_case_strong; [intros a b E; rewrite E; auto | |];
  intros Hm.
  - (* lo chosen: min hi v <= lo *)
    revert Hm. apply Q.min_case_strong; [intros a b E; rewrite E; auto | |]; intros Hn Hm.
    + apply Qabs_Qle_condition. pose proof (Qabs_nonneg (v - prev)). split; lra.
    + rewrite (Qabs_neg (lo - prev)) by lra. rewrite (Qabs_neg (v - prev)) by lra. lra.
  - revert Hm. apply Q.min_case_strong; [intros a b E; rewrite E; auto | |]; intros Hn Hm.
    + rewrite (Qabs_pos (hi - prev)) by lra. rewrite (Qabs_pos (v - prev)) by lra. lra.
    + apply Qle_refl.
Qed.


(** C2 (amended).  For a profile with at least one attempt, every rate-limited
    field of mapProfileToParams lies in its clamp range, exitWidth is 1 or 2
    and exitOffset is -1; a rate-limited field whose previous value lies in its
    clamp range moves by at most MAX_DELTA up to rounding: by at most
    MAX_DELTA + TOLERANCE, the bound the repository's test checks. *)
Theorem mapProfileToParams_clamped_rate_limited_in_range
    (profile : PlayerProfile) (prev : GenerationParams) :
  (1 <= attempts profile)%Z ->
  withinRanges (mapProfileToParams profile prev)
  /\ exitOffset (mapProfileToParams profile prev) = (-1)%Z
  /\ (exitWidth (mapProfileToParams profile prev) = 1%Z
      \/ exitWidth (mapProfileToParams profile prev) = 2%Z)
  /\ Forall (fun fr : (GenerationParams -> Q) * Range =>
               inRange (snd fr) (fst fr prev) ->
               Qabs (fst fr (mapProfileToParams profile prev) - fst fr prev)
               <= MAX_DELTA + TOLERANCE)
            tunables.
Proof.
  assert (Htol : 0 <= TOLERANCE) by discriminate.
  intros Hatt. unfold mapProfileToParams.
  destruct (Z.ltb_spec (attempts profile) 1) as [Hlt | _]; [lia |].
  cbv zeta.
  split; [| split; [| split]].
  - split.
    + unfold tunables. repeat constructor; cbn [fst snd wallDensity branchiness corridorWidth
        radialDensity decoyRate pathLengthBias]; apply clamp_inRange; cbn; lra.
    + cbn [exitWidth]. destruct (Qlt_le_dec 60 (avgTime profile));
        unfold inRange, Qle; cbn; lia.
  - reflexivity.
  - cbn [exitWidth]. destruct (Qlt_le_dec 60 (avgTime profile)); auto.
  - unfold tunables.
    repeat constructor; cbn [fst snd wallDensity branchiness corridorWidth
        radialDensity decoyRate pathLengthBias]; intros Hin;
      (eapply Qle_trans; [apply clamp_toward; exact Hin |];
       eapply Qle_trans; [apply rateLimited_step | lra]).
Qed.

Definition typicalMetrics : Metrics.AttemptMetrics :=
  Metrics.mkMetrics 30 100 0.1 0.2 5 10 0.5 true.

Definition typicalProfile : PlayerProfile := updateProfile createProfile typicalMetrics.

Definition denseParams : GenerationParams :=
  mkParams 0.9 0.1 1.0 0.2 0.2 0.5 (-1) 2.

Lemma mapProfileToParams_witness :
  withinRanges (mapProfileToParams typicalProfile defaultGenerationParams).
Proof.
  refine (proj1 (mapProfileToParams_clamped_rate_limited_in_range
                   typicalProfile defaultGenerationParams _)).
  vm_compute. discriminate.
Defined.

(** C2, as stated, fails: from the default parameters exitWidth moves by 1, and
    from a previous wallDensity of 0.9 the clamp moves wallDensity by 0.2.  In
    binary64 a rate-limited step is not held to 0.1 either: for the same
    profile the default wallDensity, which lies in its clamp range, moves from
    0.3 to 0.4, two numbers whose exact difference is above 0.1 (and within
    TOLERANCE of it), and the difference the test computes is above its
    MAX_DELTA. *)
Lemma mapProfileToParams_rate_limit_counterexample :
  (1 <= attempts typicalProfile)%Z
  /\ ~ rateLimitedFrom defaultGenerationParams
         (mapProfileToParams typicalProfile defaultGenerationParams)
  /\ (1 <= attempts typicalProfile)%Z
  /\ ~ rateLimitedFrom denseParams (mapProfileToParams typicalProfile denseParams)
  /\ (let prev := Binary64.Mapping.defaultGenerationParams in
      let profile := Binary64.Profile.updateProfile Binary64.Profile.createProfile
                       Binary64.typicalMetrics in
      let next := Binary64.Mapping.mapProfileToParams profile prev in
      Binary64.toQ (Binary64.Mapping.min Binary64.Mapping.CLAMPS.wallDensity)
      <= Binary64.toQ (Binary64.Mapping.wallDensity prev)
      <= Binary64.toQ (Binary64.Mapping.max Binary64.Mapping.CLAMPS.wallDensity)
      /\ MAX_DELTA < Binary64.toQ (Binary64.Mapping.wallDensity next)
                     - Binary64.toQ (Binary64.Mapping.wallDensity prev)
      /\ Binary64.toQ (Binary64.Mapping.wallDensity next)
         - Binary64.toQ (Binary64.Mapping.wallDensity prev) <= MAX_DELTA + TOLERANCE
      /\ PrimFloat.ltb Binary64.Mapping.MAX_DELTA
                       (PrimFloat.abs (PrimFloat.sub (Binary64.Mapping.wallDensity next)
                                                     (Binary64.Mapping.wallDensity prev)))
         = true).
Proof.
  split; [vm_compute; discriminate |].
  split; [| split; [vm_compute; discriminate |]].
  - intros H. unfold rateLimitedFrom, allFields in H.
    apply Forall_app in H. destruct H as [_ H].
    inversion H as [| ? ? _ H2]; subst. inversion H2 as [| ? ? H3 _]; subst.
    vm_compute in H3. apply H3. reflexivity.
  - split.
    + intros H. unfold rateLimitedFrom, allFields, tunables in H.
      inversion H as [| ? ? H1 _]; subst.
      vm_compute in H1. apply H1. reflexivity.
    + vm_compute. repeat split; try reflexivity; discriminate.
Qed.
End MappingSpec.

Module SearchFacts.
Import Types Solver GridFacts SolverFacts.
Local Open Scope Z_scope.

Section Search.
Variable cells : Grid.
Variable config : MazeConfig.
Variable exit : ExitSector.
Hypothesis HS : 1 <= slices config.

Local Abbreviation key := (key config).
Local Abbreviation R := (rings config).
Local Abbreviation S := (slices config).

(* the neighbors explore offers from (cr, cs); the flags are those of the
   cell the search stands on *)
Definition stepOf (cell : MazeCell) (cr cs nr ns : Z) : Prop :=
  (0 < cr /\ wallInner cell = false /\ nr = cr - 1 /\ ns = cs)
  \/ (cr < R - 1 /\ wallOuter cell = false /\ nr = cr + 1 /\ ns = cs)
  \/ (wallCW cell = false /\ nr = cr /\ ns = Z.rem (cs + 1) S)
  \/ (wallCCW cell = false /\ nr = cr /\ ns = Z.rem (cs - 1 + S) S).

Definition openMove (a b : Z * Z) : Prop :=
  exists cell,
    getCell cells (fst a) (snd a) = Some cell
    /\ stepOf cell (fst a) (snd a) (fst b) (snd b).

(* every cell of the route is in the lattice and every step is an open move *)
Definition isWalk (path : list (Z * Z)) : Prop :=
  (forall i a, path !! i = Some a -> 0 <= fst a < R /\ 0 <= snd a < S)
  /\ (forall i a b, path !! i = Some a -> path !! Datatypes.S i = Some b -> openMove a b).

(* the cells a ball entering at ring 0 can get to through open moves *)
Inductive reachable : Z -> Z -> Prop :=
| reach_start s : 0 <= s < S -> reachable 0 s
| reach_step r s cell nr ns :
    reachable r s -> getCell cells r s = Some cell -> stepOf cell r s nr ns ->
    reachable nr ns.

Definition exitSlice (s : Z) : Prop :=
  exists i, 0 <= i < sliceCount exit /\ s = Z.rem (sliceStart exit + i) S.

Lemma stepOf_range cell cr cs nr ns :
  0 <= cr < R -> 0 <= cs < S -> stepOf cell cr cs nr ns ->
  0 <= nr < R /\ 0 <= ns < S.
Proof.
  intros Hr Hs Hstep.
  pose proof (rem_range (cs + 1) S ltac:(lia) ltac:(lia)).
  pose proof (rem_range (cs - 1 + S) S ltac:(lia) ltac:(lia)).
  destruct Hstep as [(? & ? & -> & ->) | [(? & ? & -> & ->) | [(? & -> & ->) | (? & -> & ->)]]];
    lia.
Qed.

Lemma reachable_range r s : 1 <= R -> reachable r s -> 0 <= r < R /\ 0 <= s < S.
Proof.
  intros HR. induction 1 as [s Hs | r s cell nr ns _ IH _ Hstep]; [lia |].
  eapply stepOf_range; [apply IH | apply IH | exact Hstep].
Qed.

(* --- what explore does ------------------------------------------ *)

Lemma explore_steps (P : gmap Z Z * list (Z * Z) -> Prop) cell cr cs :
  (forall vq nr ns, P vq -> stepOf cell cr cs nr ns -> P (visit config (key cr cs) nr ns vq)) ->
  forall vq, P vq -> P (explore config cell cr cs vq).
Proof.
  intros Hstep vq Hvq. unfold explore. cbv zeta.
  set (vq1 := if (0 <? cr) && negb (wallInner cell)
              then visit config (key cr cs) (cr - 1) cs vq else vq).
  assert (H1 : P vq1).
  { unfold vq1. destruct ((0 <? cr) && negb (wallInner cell)) eqn:E; [| exact Hvq].
    apply andb_true_iff in E. destruct E as [E1 E2].
    apply Z.ltb_lt in E1. apply negb_true_iff in E2.
    apply Hstep; [exact Hvq |]. left. auto. }
  clearbody vq1.
  set (vq2 := if (cr <? R - 1) && negb (wallOuter cell)
              then visit config (key cr cs) (cr + 1) cs vq1 else vq1).
  assert (H2 : P vq2).
  { unfold vq2. destruct ((cr <? R - 1) && negb (wallOuter cell)) eqn:E; [| exact H1].
    apply andb_true_iff in E. destruct E as [E1 E2].
    apply Z.ltb_lt in E1. apply negb_true_iff in E2.
    apply Hstep; [exact H1 |]. right; left. auto. }
  clearbody vq2.
  set (vq3 := if negb (wallCW cell)
              then visit config (key cr cs) cr (Z.rem (cs + 1) S) vq2 else vq2).
  assert (H3 : P vq3).
  { unfold vq3. destruct (negb (wallCW cell)) eqn:E; [| exact H2].
    apply negb_true_iff in E.
    apply Hstep; [exact H2 |]. right; right; left. auto. }
  clearbody vq3.
  destruct (negb (wallCCW cell)) eqn:E; [| exact H3].
  apply negb_true_iff in E.
  apply Hstep; [exact H3 |]. right; right; right. auto.
Qed.

Lemma visit_visits ck nr ns vq : is_Some (fst (visit config ck nr ns vq) !! key nr ns).
Proof.
  unfold visit. destruct (fst vq !! key nr ns) eqn:E; [rewrite E; eauto |].
  cbn [fst]. rewrite lookup_insert_eq. eauto.
Qed.

Lemma visit_lookup_old ck nr ns vq k p :
  fst vq !! k = Some p -> fst (visit config ck nr ns vq) !! k = Some p.
Proof.
  intros Hk. unfold visit. destruct (fst vq !! key nr ns) eqn:E; [exact Hk |].
  cbn [fst]. rewrite lookup_insert_ne; [exact Hk | congruence].
Qed.

Lemma visit_queue_old ck nr ns vq i c :
  snd vq !! i = Some c -> snd (visit config ck nr ns vq) !! i = Some c.
Proof.
  intros Hi. unfold visit. destruct (fst vq !! key nr ns); [exact Hi |].
  cbn [snd]. apply lookup_app_l_Some. exact Hi.
Qed.

Lemma explore_lookup_old cell cr cs vq k p :
  fst vq !! k = Some p -> fst (explore config cell cr cs vq) !! k = Some p.
Proof.
  intros Hk. revert vq Hk.
  apply (explore_steps (fun vq => fst vq !! k = Some p)).
  intros vq nr ns Hvq _. apply visit_lookup_old. exact Hvq.
Qed.

Lemma explore_queue_old cell cr cs vq i c :
  snd vq !! i = Some c -> snd (explore config cell cr cs vq) !! i = Some c.
Proof.
  intros Hi. revert vq Hi.
  apply (explore_steps (fun vq => snd vq !! i = Some c)).
  intros vq nr ns Hvq _. apply visit_queue_old. exact Hvq.
Qed.

(* after explore every neighbor it offers has been visited *)
Lemma explore_covers cell cr cs vq nr ns :
  stepOf cell cr cs nr ns ->
  is_Some (fst (explore config cell cr cs vq) !! key nr ns).
Proof.
  intros Hstep. unfold explore. cbv zeta.
  set (vq1 := if (0 <? cr) && negb (wallInner cell)
              then visit config (key cr cs) (cr - 1) cs vq else vq).
  set (vq2 := if (cr <? R - 1) && negb (wallOuter cell)
              then visit config (key cr cs) (cr + 1) cs vq1 else vq1).
  set (vq3 := if negb (wallCW cell)
              then visit config (key cr cs) cr (Z.rem (cs + 1) S) vq2 else vq2).
  set (vq4 := if negb (wallCCW cell)
              then visit config (key cr cs) cr (Z.rem (cs - 1 + S) S) vq3 else vq3).
  assert (K : forall (b : bool) nr' ns' vq' k,
             is_Some (fst vq' !! k) ->
             is_Some (fst (if b then visit config (key cr cs) nr' ns' vq' else vq') !! k)).
  { intros b nr' ns' vq' k Hk. destruct b; [| exact Hk].
    apply visit_keeps_visited. exact Hk. }
  assert (K2 : forall k, is_Some (fst vq1 !! k) -> is_Some (fst vq2 !! k))
    by (intros k; apply K).
  assert (K3 : forall k, is_Some (fst vq2 !! k) -> is_Some (fst vq3 !! k))
    by (intros k; apply K).
  assert (K4 : forall k, is_Some (fst vq3 !! k) -> is_Some (fst vq4 !! k))
    by (intros k; apply K).
  destruct Hstep as [(H0 & Hw & -> & ->) | [(H0 & Hw & -> & ->)
                    | [(Hw & -> & ->) | (Hw & -> & ->)]]].
  - apply K4, K3, K2. unfold vq1.
    rewrite (proj2 (Z.ltb_lt 0 cr) H0), Hw. cbn [andb negb]. apply visit_visits.
  - apply K4, K3. unfold vq2.
    rewrite (proj2 (Z.ltb_lt cr (R - 1)) H0), Hw. cbn [andb negb]. apply visit_visits.
  - apply K4. unfold vq3. rewrite Hw. cbn [negb]. apply visit_visits.
  - unfold vq4. rewrite Hw. cbn [negb]. apply visit_visits.
Qed.

(* --- parent links are moves ------------------------------------- *)

Definition decode (k : Z) : Z * Z := (k / S, Z.rem k S).

Lemma decode_key r s : 0 <= r -> 0 <= s < S -> decode (key r s) = (r, s).
Proof.
  intros Hr Hs. unfold decode.
  rewrite (key_div config HS) by exact Hs.
  rewrite (key_rem config HS) by assumption. reflexivity.
Qed.

(* every visited key names a lattice cell, and a cell with a parent was
   offered by explore from that parent *)
Definition Linked (visited : gmap Z Z) : Prop :=
  forall k p, visited !! k = Some p ->
    exists nr ns,
      k = key nr ns /\ 0 <= nr < R /\ 0 <= ns < S
      /\ (p <> -1 ->
          exists cr cs cell,
            p = key cr cs /\ 0 <= cr < R /\ 0 <= cs < S
            /\ getCell cells cr cs = Some cell /\ stepOf cell cr cs nr ns).

Lemma Linked_visit visited queue cell cr cs nr ns :
  Linked visited ->
  0 <= cr < R -> 0 <= cs < S ->
  getCell cells cr cs = Some cell -> stepOf cell cr cs nr ns ->
  Linked (fst (visit config (key cr cs) nr ns (visited, queue))).
Proof.
  intros HL Hcr Hcs Hcell Hstep. unfold visit. cbn [fst].
  destruct (visited !! key nr ns) eqn:E; [exact HL |]. cbn [fst].
  intros k p Hk. destruct (decide (key nr ns = k)) as [<- | Ne].
  - rewrite lookup_insert_eq in Hk. injection Hk as <-.
    destruct (stepOf_range cell cr cs nr ns Hcr Hcs Hstep) as [Hnr Hns].
    exists nr, ns. split; [reflexivity | split; [exact Hnr | split; [exact Hns |]]].
    intros _. exists cr, cs, cell. auto.
  - rewrite lookup_insert_ne in Hk by exact Ne. eapply HL. exact Hk.
Qed.

Lemma reconstruct_walk visited k n :
  Linked visited -> rooted config visited k n ->
  forall fuel acc, (n < fuel)%nat ->
    exists chain,
      reconstruct config fuel visited k acc = Some (chain ++ acc)
      /\ last chain = Some (decode k)
      /\ isWalk chain.
Proof.
  intros HL. induction 1 as [k Hk Hr | k p n Hk Hp Hk0 _ IH]; intros fuel acc Hfuel.
  - destruct fuel as [| fuel]; [lia |].
    cbn [reconstruct]. destruct (Z.eqb_spec k (-1)) as [E | _]; [lia |].
    rewrite Hk. change (default (-1) (Some (-1))) with (-1).
    assert (Erec : reconstruct config fuel visited (-1) ((k / S, Z.rem k S) :: acc)
                   = Some ((k / S, Z.rem k S) :: acc)) by (destruct fuel; reflexivity).
    rewrite Erec. exists [decode k]. split; [reflexivity | split; [reflexivity |]].
    destruct (HL k _ Hk) as (nr & ns & -> & Hnr & Hns & _).
    rewrite decode_key by lia. split.
    + intros i a Hi. apply list_lookup_singleton_Some in Hi. destruct Hi as [_ <-].
      cbn [fst snd]. auto.
    + intros i a b _ Hb. destruct i; discriminate.
  - destruct fuel as [| fuel]; [lia |].
    cbn [reconstruct]. destruct (Z.eqb_spec k (-1)) as [E | _]; [lia |].
    rewrite Hk. change (default (-1) (Some p)) with p.
    destruct (IH fuel ((k / S, Z.rem k S) :: acc) ltac:(lia))
      as (chain & E & Hlast & [Hin Hmoves]).
    exists (chain ++ [decode k]).
    rewrite E, <- app_assoc. split; [reflexivity |].
    split; [apply last_snoc |].
    destruct (HL k p Hk) as (nr & ns & -> & Hnr & Hns & Hpar).
    destruct (Hpar Hp) as (cr & cs & cell & -> & Hcr & Hcs & Hcell & Hstep).
    rewrite decode_key in * by lia.
    split.
    + intros i a Hi. apply lookup_app_Some in Hi. destruct Hi as [Hi | [_ Hi]].
      * eapply Hin. exact Hi.
      * apply list_lookup_singleton_Some in Hi. destruct Hi as [_ <-]. cbn [fst snd]. auto.
    + intros i a b Ha Hb.
      destruct (decide (Datatypes.S i < length chain)%nat) as [Hlt | Hge].
      * rewrite lookup_app_l in Ha by lia. rewrite lookup_app_l in Hb by lia.
        eapply Hmoves; eassumption.
      * assert (Hlen : Datatypes.S i = length chain).
        { apply lookup_lt_Some in Hb. rewrite length_app in Hb. cbn [length] in Hb. lia. }
        rewrite lookup_app_r in Hb by lia.
        replace (Datatypes.S i - length chain)%nat with 0%nat in Hb by lia.
        injection Hb as <-.
        rewrite lookup_app_l in Ha by lia.
        assert (Ea : a = (cr, cs)).
        { rewrite last_lookup in Hlast. rewrite <- Hlen in Hlast. cbn [pred] in Hlast.
          congruence. }
        subst a. exists cell. cbn [fst snd]. auto.
Qed.

(* --- soundness: a returned route is a walk ---------------------- *)

Hypothesis Hstart : 0 <= sliceStart exit.

Definition QueueIn (queue : list (Z * Z)) : Prop :=
  forall i r s, queue !! i = Some (r, s) -> 0 <= r < R /\ 0 <= s < S.

Lemma QueueIn_visit ck nr ns vq :
  0 <= nr < R -> 0 <= ns < S -> QueueIn (snd vq) ->
  QueueIn (snd (visit config ck nr ns vq)).
Proof.
  intros Hnr Hns Hq. unfold visit. destruct (fst vq !! key nr ns); [exact Hq |].
  cbn [snd]. intros i r s Hi. apply lookup_app_Some in Hi. destruct Hi as [Hi | [_ Hi]].
  - eapply Hq. exact Hi.
  - apply list_lookup_singleton_Some in Hi. destruct Hi as [_ [= <- <-]]. auto.
Qed.

Lemma bfs_walk fuel visited queue head res :
  Inv config visited queue -> Linked visited -> QueueIn queue ->
  bfs cells config exit fuel visited queue head = Some res ->
  solvable res = true -> isWalk (path res).
Proof.
  revert visited queue head.
  induction fuel as [| fuel IH]; intros visited queue head HI HL HQ Hrun Hsolv.
  - cbn [bfs] in Hrun. destruct (queue !! head) as [[cr cs] |]; [discriminate |].
    injection Hrun as <-. discriminate.
  - cbn [bfs] in Hrun.
    destruct (queue !! head) as [[cr cs] |] eqn:Eq.
    2: { injection Hrun as <-. discriminate. }
    destruct (proj1 HI head cr cs Eq) as (_ & _ & Hsome).
    destruct (HQ head cr cs Eq) as [Hcr Hcs].
    destruct (getCell cells cr cs) as [cell |] eqn:Ecell; [| discriminate].
    destruct (bool_decide (key cr cs ∈ exitCells config exit) && negb (wallOuter cell)).
    + destruct Hsome as [p Hp].
      destruct (proj2 HI _ _ Hp) as (n & Hn & Hlt).
      destruct (reconstruct_walk visited _ n HL Hn (size visited) [] Hlt)
        as (chain & Erec & _ & Hwalk).
      rewrite Erec in Hrun. injection Hrun as <-.
      rewrite app_nil_r. exact Hwalk.
    + pose proof (Inv_explore config HS visited queue cell cr cs HI Hsome
                    ltac:(lia) Hcs) as HI'.
      assert (Hpres : Linked (fst (explore config cell cr cs (visited, queue)))
                      /\ QueueIn (snd (explore config cell cr cs (visited, queue)))).
      { apply (explore_steps (fun vq => Linked (fst vq) /\ QueueIn (snd vq)));
          [| split; assumption].
        intros [v q] nr ns [HLv HQv] Hstep. cbn [fst snd] in *.
        destruct (stepOf_range cell cr cs nr ns Hcr Hcs Hstep) as [Hnr Hns].
        split.
        - eapply Linked_visit; eassumption.
        - apply (QueueIn_visit _ _ _ (v, q)); assumption. }
      destruct (explore config cell cr cs (visited, queue)) as [visited' queue'].
      cbn [fst snd] in *. destruct Hpres as [HL' HQ'].
      eapply IH; eassumption.
Qed.

Hypothesis HR : 1 <= rings config.

Lemma seedStarts_Linked :
  Linked (fst (seedStarts config)) /\ QueueIn (snd (seedStarts config)).
Proof.
  destruct (seedStarts_SeedInv config) as [[Hq Hv] _]. split.
  - intros k p Hk. destruct (Hv k p Hk) as [-> Hr].
    exists 0, k. split; [rewrite (key_unfold config); lia |].
    split; [lia | split; [exact Hr |]]. intros Hne. now contradiction Hne.
  - intros i r s Hi. destruct (Hq i r s Hi) as (-> & Hs & _). split; [lia | exact Hs].
Qed.

Lemma solveMaze_walk res :
  solveMaze cells config exit = Some res -> solvable res = true -> isWalk (path res).
Proof.
  unfold solveMaze.
  pose proof (SeedInv_Inv config _ (proj1 (seedStarts_SeedInv config))) as HI.
  destruct seedStarts_Linked as [HL HQ].
  destruct (seedStarts config) as [visited queue]. cbn [fst snd] in *.
  apply bfs_walk; assumption.
Qed.

(* --- completeness: a negative answer leaves no route ------------ *)

(* the first [head] queue entries have been explored and were no open exit;
   every visited key is queued; ring 0 is visited *)
Definition Done (visited : gmap Z Z) (queue : list (Z * Z)) (head : nat) : Prop :=
  (forall i r s, (i < head)%nat -> queue !! i = Some (r, s) ->
      exists cell,
        getCell cells r s = Some cell
        /\ (key r s ∈ exitCells config exit -> wallOuter cell = true)
        /\ forall nr ns, stepOf cell r s nr ns -> is_Some (visited !! key nr ns))
  /\ (forall k, is_Some (visited !! k) ->
        exists i r s, queue !! i = Some (r, s) /\ k = key r s)
  /\ (forall s, 0 <= s < S -> is_Some (visited !! key 0 s)).

Lemma visit_queued ck nr ns vq :
  (forall k, is_Some (fst vq !! k) -> exists i r s, snd vq !! i = Some (r, s) /\ k = key r s) ->
  forall k, is_Some (fst (visit config ck nr ns vq) !! k) ->
    exists i r s, snd (visit config ck nr ns vq) !! i = Some (r, s) /\ k = key r s.
Proof.
  intros Hq k. unfold visit. destruct (fst vq !! key nr ns) eqn:E; [apply Hq |].
  cbn [fst snd]. intros Hk. destruct (decide (key nr ns = k)) as [<- | Ne].
  - exists (length (snd vq)), nr, ns. split; [| reflexivity].
    rewrite lookup_app_r by lia. now rewrite Nat.sub_diag.
  - rewrite lookup_insert_ne in Hk by exact Ne.
    destruct (Hq k Hk) as (i & r & s & Hi & ->).
    exists i, r, s. split; [| reflexivity]. apply lookup_app_l_Some. exact Hi.
Qed.

Lemma explore_keeps_visited cell cr cs vq k :
  is_Some (fst vq !! k) -> is_Some (fst (explore config cell cr cs vq) !! k).
Proof.
  intros [p Hk]. exists p. apply explore_lookup_old. exact Hk.
Qed.

Lemma explore_queue_prefix cell cr cs vq :
  exists ext, snd (explore config cell cr cs vq) = snd vq ++ ext.
Proof.
  apply (explore_steps (fun vq' => exists ext, snd vq' = snd vq ++ ext));
    [| exists []; now rewrite app_nil_r].
  intros vq' nr ns [ext E] _. unfold visit.
  destruct (fst vq' !! key nr ns); [exists ext; exact E |].
  cbn [snd]. exists (ext ++ [(nr, ns)]). rewrite E. now rewrite app_assoc.
Qed.

Lemma bfs_done fuel visited queue head res :
  QueueIn queue -> Done visited queue head ->
  bfs cells config exit fuel visited queue head = Some res ->
  solvable res = false ->
  exists visited' queue',
    QueueIn queue' /\ Done visited' queue' (length queue').
Proof.
  revert visited queue head.
  induction fuel as [| fuel IH]; intros visited queue head HQ HD Hrun Hsolv.
  - cbn [bfs] in Hrun. destruct (queue !! head) as [[cr cs] |] eqn:Eq; [discriminate |].
    exists visited, queue. split; [exact HQ |].
    destruct HD as (Hd1 & Hd2 & Hd3). split; [| split; assumption].
    intros i r s Hi Hl. apply (Hd1 i r s); [| exact Hl].
    apply lookup_ge_None in Eq. lia.
  - cbn [bfs] in Hrun.
    destruct (queue !! head) as [[cr cs] |] eqn:Eq.
    2: { exists visited, queue. split; [exact HQ |].
         destruct HD as (Hd1 & Hd2 & Hd3). split; [| split; assumption].
         intros i r s Hi Hl. apply (Hd1 i r s); [| exact Hl].
         apply lookup_ge_None in Eq. lia. }
    destruct (HQ head cr cs Eq) as [Hcr Hcs].
    destruct (getCell cells cr cs) as [cell |] eqn:Ecell; [| discriminate].
    destruct (bool_decide (key cr cs ∈ exitCells config exit) && negb (wallOuter cell))
      eqn:Eexit.
    { destruct (reconstruct config (size visited) visited (key cr cs) []);
        [| discriminate].
      injection Hrun as <-. discriminate. }
    assert (Hnoexit : key cr cs ∈ exitCells config exit -> wallOuter cell = true).
    { intros Hin. apply andb_false_iff in Eexit. destruct Eexit as [E | E].
      - apply bool_decide_eq_false in E. contradiction.
      - now apply negb_false_iff in E. }
    destruct (explore_queue_prefix cell cr cs (visited, queue)) as [ext Eext].
    cbn [snd] in Eext.
    destruct HD as (Hd1 & Hd2 & Hd3).
    assert (HQ' : QueueIn (snd (explore config cell cr cs (visited, queue)))).
    { apply (explore_steps (fun vq => QueueIn (snd vq))); [| exact HQ].
      intros vq nr ns HQv Hstep.
      destruct (stepOf_range cell cr cs nr ns Hcr Hcs Hstep) as [Hnr Hns].
      apply QueueIn_visit; assumption. }
    assert (Hqd : forall k, is_Some (fst (explore config cell cr cs (visited, queue)) !! k) ->
                  exists i r s, snd (explore config cell cr cs (visited, queue)) !! i
                                = Some (r, s) /\ k = key r s).
    { apply (explore_steps
               (fun vq => forall k, is_Some (fst vq !! k) ->
                            exists i r s, snd vq !! i = Some (r, s) /\ k = key r s));
        [| exact Hd2].
      intros vq nr ns Hvq _. apply visit_queued. exact Hvq. }
    pose proof (explore_covers cell cr cs (visited, queue)) as Hcov.
    pose proof (fun k => explore_keeps_visited cell cr cs (visited, queue) k) as Hkeep.
    destruct (explore config cell cr cs (visited, queue)) as [visited' queue'].
    cbn [fst snd] in *. subst queue'.
    apply (IH visited' (queue ++ ext) (Datatypes.S head)); [exact HQ' | | exact Hrun | exact Hsolv].
    split; [| split].
    + intros i r s Hi Hl.
      assert (Hlen : (head < length queue)%nat) by (eapply lookup_lt_Some; exact Eq).
      rewrite lookup_app_l in Hl by lia.
      destruct (decide (i = head)) as [-> | Hne].
      * rewrite Eq in Hl. injection Hl as <- <-.
        exists cell. split; [exact Ecell | split; [exact Hnoexit |]].
        intros nr ns Hstep. apply Hcov. exact Hstep.
      * destruct (Hd1 i r s ltac:(lia) Hl) as (c & Hc & Hne' & Hnb).
        exists c. split; [exact Hc | split; [exact Hne' |]].
        intros nr ns Hstep. apply Hkeep. apply Hnb. exact Hstep.
    + exact Hqd.
    + intros s Hs. apply Hkeep. apply Hd3. exact Hs.
Qed.

Lemma Done_reachable visited queue :
  QueueIn queue -> Done visited queue (length queue) ->
  forall r s, reachable r s -> is_Some (visited !! key r s).
Proof.
  intros HQ (Hd1 & Hd2 & Hd3).
  induction 1 as [s Hs | r s cell nr ns Hreach IH Hcell Hstep]; [apply Hd3; exact Hs |].
  destruct (Hd2 _ IH) as (i & r' & s' & Hi & Hkey).
  destruct (HQ i r' s' Hi) as [Hr' Hs'].
  destruct (reachable_range r s HR Hreach) as [Hr Hs].
  apply (key_inj config HS) in Hkey; [| assumption | assumption].
  destruct Hkey as [<- <-].
  destruct (Hd1 i r s ltac:(eapply lookup_lt_Some; exact Hi) Hi) as (c & Hc & _ & Hnb).
  rewrite Hcell in Hc. injection Hc as <-. apply Hnb. exact Hstep.
Qed.

Lemma seeds_spec l : forall vq : gmap Z Z * list (Z * Z),
  snd (foldl (fun vq s => (<[key 0 s := -1]> (fst vq), snd vq ++ [(0, s)])) vq l)
  = snd vq ++ ((fun s => (0, s)) <$> l)
  /\ forall k,
       is_Some (fst (foldl (fun vq s => (<[key 0 s := -1]> (fst vq), snd vq ++ [(0, s)]))
                           vq l) !! k)
       <-> is_Some (fst vq !! k) \/ exists s, s ∈ l /\ k = key 0 s.
Proof.
  induction l as [| s l IH]; intros vq; cbn [foldl fmap list_fmap].
  - split; [now rewrite app_nil_r |]. intros k. split; [auto |].
    intros [H | (s & Hs & _)]; [exact H | now apply elem_of_nil in Hs].
  - destruct (IH (<[key 0 s := -1]> (fst vq), snd vq ++ [(0, s)])) as [E1 E2].
    cbn [fst snd] in *. split; [rewrite E1, <- app_assoc; reflexivity |].
    intros k. rewrite E2. split.
    + intros [H | (s' & Hs' & ->)].
      * destruct (decide (key 0 s = k)) as [<- | Ne].
        -- right. exists s. split; [left | reflexivity].
        -- rewrite lookup_insert_ne in H by exact Ne. auto.
      * right. exists s'. split; [now right | reflexivity].
    + intros [H | (s' & Hs' & ->)].
      * left. destruct (decide (key 0 s = k)) as [<- | Ne].
        -- rewrite lookup_insert_eq. eauto.
        -- rewrite lookup_insert_ne by exact Ne. exact H.
      * apply elem_of_cons in Hs'. destruct Hs' as [-> | Hs'].
        -- left. rewrite lookup_insert_eq. eauto.
        -- right. eauto.
Qed.

Lemma seedStarts_Done :
  Done (fst (seedStarts config)) (snd (seedStarts config)) 0.
Proof.
  unfold seedStarts. destruct (seeds_spec (seqZ 0 S) (∅, [])) as [E1 E2].
  cbn [fst snd] in *. split; [| split].
  - intros i r s Hi. lia.
  - intros k Hk. apply E2 in Hk. destruct Hk as [Hk | (s & Hs & ->)].
    + rewrite lookup_empty in Hk. destruct Hk as [? Hk]. discriminate.
    + rewrite E1. apply list_elem_of_lookup in Hs. destruct Hs as [i Hi].
      exists i, 0, s. split; [| reflexivity].
      cbn [app]. rewrite list_lookup_fmap, Hi. reflexivity.
  - intros s Hs. apply E2. right. exists s. split; [apply elem_of_seqZ; lia | reflexivity].
Qed.

Lemma solveMaze_complete res :
  solveMaze cells config exit = Some res -> solvable res = false ->
  forall r s cell,
    reachable r s -> getCell cells r s = Some cell ->
    r = R - 1 -> exitSlice s -> wallOuter cell = true.
Proof.
  unfold solveMaze. intros Hrun Hsolv r s cell Hreach Hcell -> Hexit.
  pose proof seedStarts_Done as HD.
  destruct seedStarts_Linked as [_ HQ].
  destruct (seedStarts config) as [visited queue]. cbn [fst snd] in *.
  destruct (bfs_done _ _ _ _ _ HQ HD Hrun Hsolv) as (v' & q' & HQ' & HD').
  destruct (Done_reachable v' q' HQ' HD' _ _ Hreach) as [p Hp].
  destruct HD' as (Hd1 & Hd2 & _).
  destruct (Hd2 _ ltac:(eauto)) as (i & r' & s' & Hi & Hkey).
  destruct (HQ' i r' s' Hi) as [Hr' Hs'].
  destruct (reachable_range _ _ HR Hreach) as [Hr Hs].
  apply (key_inj config HS) in Hkey; [| assumption | assumption].
  destruct Hkey as [<- <-].
  destruct (Hd1 i _ _ ltac:(eapply lookup_lt_Some; exact Hi) Hi) as (c & Hc & Hne & _).
  rewrite Hcell in Hc. injection Hc as <-. apply Hne.
  apply (elem_of_exitCells config). destruct Hexit as (j & Hj & ->).
  exists j. split; [exact Hj | reflexivity].
Qed.

End Search.
End SearchFacts.

Module FallbackFacts.
Import Rng Types Solver Generator GridFacts RngFacts SolverFacts GeneratorFacts SearchFacts.
Local Open Scope Z_scope.

(* clearing the two flags of a shared wall records both as removed *)
Lemma clearPair_records R S F x r1 s1 y r2 s2 :
  partners R S x r1 s1 y r2 s2 ->
  hoare (Good R S F)
        (modifyCell (clearOf x) r1 s1 ;; modifyCell (clearOf y) r2 s2)
        (fun _ => Good R S (fun w r s =>
                    F w r s \/ (w = x /\ r = r1 /\ s = s1) \/ (w = y /\ r = r2 /\ s = s2))).
Proof.
  intros Hp cells Hg.
  destruct (clearPair_total R S F x r1 s1 y r2 s2 Hp cells Hg)
    as ([] & cells' & E & Hd & Hpair & Hk).
  exists tt, cells'. split; [exact E |].
  split; [exact Hd | split; [exact Hpair |]].
  unfold mbind, M_bind, bind in E.
  destruct (modifyCell (clearOf x) r1 s1 cells) as [[[] c1] |] eqn:E1; [| discriminate].
  destruct (modifyCell_clear _ _ _ _ _ E1) as [_ H1].
  destruct (modifyCell_clear _ _ _ _ _ E) as [_ H2].
  intros w r s [HF | [(-> & -> & ->) | (-> & -> & ->)]].
  - apply Hk. exact HF.
  - rewrite H2, H1. repeat case_decide; try reflexivity; tauto.
  - rewrite H2. repeat case_decide; try reflexivity; tauto.
Qed.

Section Fallback.
Variable config : MazeConfig.
Hypothesis HR : 1 <= rings config.
Hypothesis HS : 1 <= slices config.

Local Abbreviation R := (rings config).
Local Abbreviation S := (slices config).

(* the walls the fallback maze has removed after its first r0 rings *)
Definition ringsOpened (r0 : Z) (w : Wall) (r s : Z) : Prop :=
  (w = WCW /\ 0 <= r < r0 /\ 0 <= s < S)
  \/ (w = WOuter /\ 0 <= r < r0 /\ r < R - 1 /\ s = Z.rem r S).

Definition fallbackOpened (w : Wall) (r s : Z) : Prop :=
  ringsOpened R w r s \/ (w = WOuter /\ r = R - 1 /\ s = 0).

Lemma fallback_build_opened params m :
  generateFallbackMaze config params = Some m ->
  Good R S fallbackOpened (cells m) /\ exit m = mkExit 0 2.
Proof.
  unfold generateFallbackMaze. cbv zeta.
  set (loops := forUpTo R _).
  assert (Hloops : hoare (Good R S (ringsOpened 0)) loops
                         (fun _ => Good R S (ringsOpened (Z.max 0 R)))).
  { unfold loops.
    apply (hoare_forUpTo_indexed (fun r0 => Good R S (ringsOpened r0))).
    intros r Hr.
    eapply hoare_bind with
      (Q := fun _ => Good R S (fun w r' s' =>
                       ringsOpened r w r' s' \/ (w = WCW /\ r' = r /\ 0 <= s' < Z.max 0 S))).
    - eapply hoare_weaken.
      + apply (hoare_forUpTo_indexed
                 (fun s0 => Good R S (fun w r' s' =>
                    ringsOpened r w r' s' \/ (w = WCW /\ r' = r /\ 0 <= s' < s0)))).
        intros s Hs. eapply hoare_weaken.
        * apply (clearPair_records R S
                   (fun w r' s' => ringsOpened r w r' s' \/ (w = WCW /\ r' = r /\ 0 <= s' < s))
                   WCW r s WCCW r (Z.rem (s + 1) S)).
          apply partners_cw; assumption.
        * intros g Hg. exact Hg.
        * intros ? g Hg. cbn beta in Hg. eapply Good_weaken; [exact Hg |].
          intros w r' s' [H | (-> & -> & Hs')]; [left; left; exact H |].
          destruct (decide (s' = s)) as [-> | Hne]; [right; left; auto |].
          left; right. repeat split; lia.
      + intros g Hg. eapply Good_weaken; [exact Hg |].
        intros w r' s' [H | (_ & _ & Hs')]; [exact H | lia].
      + intros ? g Hg. exact Hg.
    - intros _. destruct (Z.ltb_spec r (R - 1)) as [Hlt | Hge].
      + eapply hoare_weaken.
        * apply (clearPair_records R S
                   (fun w r' s' =>
                      ringsOpened r w r' s' \/ (w = WCW /\ r' = r /\ 0 <= s' < Z.max 0 S))
                   WOuter r (Z.rem r S) WInner (r + 1) (Z.rem r S)).
          apply partners_outer; [lia | apply rem_range; lia].
        * intros g Hg. exact Hg.
        * intros ? g Hg. cbn beta in Hg. eapply Good_weaken; [exact Hg |].
          intros w r' s' [(-> & Hr' & Hs') | (-> & Hr' & Hlt' & ->)].
          -- destruct (decide (r' = r)) as [-> | Hne].
             ++ left; right. repeat split; lia.
             ++ left; left; left. repeat split; lia.
          -- destruct (decide (r' = r)) as [-> | Hne].
             ++ right; left. auto.
             ++ left; left; right. repeat split; lia.
      + apply hoare_ret. intros g Hg. eapply Good_weaken; [exact Hg |].
        intros w r' s' [(-> & Hr' & Hs') | (-> & Hr' & Hlt' & ->)].
        * destruct (decide (r' = r)) as [-> | Hne].
          -- right. repeat split; lia.
          -- left; left. repeat split; lia.
        * left; right. repeat split; lia. }
  assert (Hstart : Good R S (ringsOpened 0) (createEmptyGrid config)).
  { eapply Good_weaken; [apply createEmptyGrid_Good; assumption |].
    intros w r s [(_ & Hr & _) | (_ & Hr & _)]; lia. }
  destruct (Hloops _ Hstart) as (u0 & g0 & E0 & Hg0).
  unfold mbind, M_bind, bind. rewrite E0.
  destruct (modifyCell (withWallOuter false) (R - 1) 0 g0) as [[u1 g1] |] eqn:E1;
    [| discriminate].
  destruct (modifyCell (withWallOuter false) (R - 1) 1 g1) as [[u2 g2] |] eqn:E2;
    [| discriminate].
  intros [= <-]. cbn [cells exit]. split; [| reflexivity].
  destruct u1, u2.
  pose proof (clearRim_effect R S _ WOuter (R - 1) 0 g0 g1 ltac:(right; auto) E1 Hg0) as Hg1.
  pose proof (clearRim_effect R S _ WOuter (R - 1) 1 g1 g2 ltac:(right; auto) E2 Hg1) as Hg2.
  eapply Good_weaken; [exact Hg2 |].
  intros w r s [H | H].
  - left; left. replace (Z.max 0 R) with R by lia. exact H.
  - left; right. exact H.
Qed.

Lemma fallback_finalSeed params m :
  generateFallbackMaze config params = Some m -> finalSeed m = seed config.
Proof.
  unfold generateFallbackMaze. cbv zeta.
  match goal with
  | |- match ?run with _ => _ end = _ -> _ => destruct run as [[u g] |]
  end; [| discriminate].
  intros [= <-]. reflexivity.
Qed.

(* --- every cell of the fallback maze can be reached -------------- *)

Section Reach.
Variable cells : Grid.
Hypothesis Hgood : Good R S fallbackOpened cells.

Lemma opened_cell w r s :
  fallbackOpened w r s -> exists c, getCell cells r s = Some c /\ wallOf w c = false.
Proof.
  intros HF. pose proof (proj2 (proj2 Hgood) w r s HF) as Hw. unfold wallAt in Hw.
  destruct (getCell cells r s) as [c |]; [eauto | discriminate].
Qed.

Lemma reach_cw r s :
  0 <= r < R -> 0 <= s < S ->
  reachable cells config r s -> reachable cells config r (Z.rem (s + 1) S).
Proof.
  intros Hr Hs Hreach.
  destruct (opened_cell WCW r s) as (c & Hc & Hw).
  { left; left. auto. }
  eapply reach_step; [exact Hreach | exact Hc |].
  right; right; left. auto.
Qed.

Lemma reach_to_zero r n : forall s,
  0 <= r < R -> 0 <= s < S -> S - s = Z.of_nat n ->
  reachable cells config r s -> reachable cells config r 0.
Proof.
  induction n as [| n IH]; intros s Hr Hs Hn Hreach; [lia |].
  pose proof (reach_cw r s Hr Hs Hreach) as Hnext.
  destruct (rem_succ_cases s S Hs) as [[_ E] | [Hlt E]]; rewrite E in Hnext.
  - exact Hnext.
  - apply (IH (s + 1)); [exact Hr | lia | lia | exact Hnext].
Qed.

Lemma reach_from_zero r n :
  0 <= r < R -> Z.of_nat n < S ->
  reachable cells config r 0 -> reachable cells config r (Z.of_nat n).
Proof.
  intros Hr. induction n as [| n IH]; intros Hn Hreach; [exact Hreach |].
  pose proof (reach_cw r (Z.of_nat n) Hr ltac:(lia) (IH ltac:(lia) Hreach)) as Hnext.
  rewrite (rem_succ (Z.of_nat n) S) in Hnext by lia.
  rewrite decide_False in Hnext by lia.
  now replace (Z.of_nat (Datatypes.S n)) with (Z.of_nat n + 1) by lia.
Qed.

Lemma reach_ring r s s' :
  0 <= r < R -> 0 <= s < S -> 0 <= s' < S ->
  reachable cells config r s -> reachable cells config r s'.
Proof.
  intros Hr Hs Hs' Hreach.
  replace s' with (Z.of_nat (Z.to_nat s')) by lia.
  apply reach_from_zero; [exact Hr | lia |].
  apply (reach_to_zero r (Z.to_nat (S - s)) s); [exact Hr | exact Hs | lia | exact Hreach].
Qed.

Lemma reach_all n : forall s,
  Z.of_nat n < R -> 0 <= s < S -> reachable cells config (Z.of_nat n) s.
Proof.
  induction n as [| n IH]; intros s Hn Hs; [apply reach_start; exact Hs |].
  pose proof (rem_range (Z.of_nat n) S ltac:(lia) ltac:(lia)) as Hc.
  destruct (opened_cell WOuter (Z.of_nat n) (Z.rem (Z.of_nat n) S)) as (c & Hcell & Hw).
  { left; right. repeat split; lia. }
  apply (reach_ring _ (Z.rem (Z.of_nat n) S)); [lia | exact Hc | exact Hs |].
  replace (Z.of_nat (Datatypes.S n)) with (Z.of_nat n + 1) by lia.
  eapply reach_step; [apply (IH (Z.rem (Z.of_nat n) S)); [lia | exact Hc] | exact Hcell |].
  right; left. repeat split; [lia | exact Hw].
Qed.

Lemma fallback_route :
  exists cell,
    reachable cells config (R - 1) 0
    /\ getCell cells (R - 1) 0 = Some cell /\ wallOuter cell = false.
Proof.
  destruct (opened_cell WOuter (R - 1) 0) as (c & Hc & Hw); [right; auto |].
  exists c. split; [| auto].
  replace (R - 1) with (Z.of_nat (Z.to_nat (R - 1))) by lia.
  apply reach_all; lia.
Qed.

End Reach.

Lemma fallback_solvable params m :
  generateFallbackMaze config params = Some m ->
  exists res, solveMaze (cells m) config (exit m) = Some res /\ solvable res = true.
Proof.
  intros Hm. destruct (fallback_build_opened params m Hm) as [Hg He].
  destruct (solveMaze_total (cells m) config (exit m) HS HR (proj1 Hg)) as [res Hres].
  exists res. split; [exact Hres |].
  destruct (solvable res) eqn:Hsolv; [reflexivity |].
  destruct (fallback_route (cells m) Hg) as (cell & Hreach & Hcell & Hopen).
  rewrite <- Hopen.
  apply (solveMaze_complete (cells m) config (exit m) HS HR res Hres Hsolv
           (R - 1) 0 cell Hreach Hcell eq_refl).
  rewrite He. exists 0. cbn [sliceStart sliceCount]. split; [lia |].
  symmetry. apply Z.rem_0_l. lia.
Qed.

Lemma generateLoop_solvable params n seed0 m :
  generateLoop n config params seed0 = Some m ->
  exists res, solveMaze (cells m) config (exit m) = Some res /\ solvable res = true.
Proof.
  revert seed0. induction n as [| n IH]; intros seed0; cbn [generateLoop].
  - apply fallback_solvable.
  - destruct (negb (checkGeometricConstraints config)); [apply IH |].
    destruct (attemptMaze_total config HR HS params
                (mkGen (createEmptyGrid config) (createRNG seed0))
                (createEmptyGrid_Good config HR HS))
      as ([e sol] & st & E & _ & _ & _ & Hsol).
    rewrite E. cbn [fst snd] in *.
    destruct (solvable sol) eqn:Hsolv; [| apply IH].
    intros [= <-]. cbn [cells exit]. eauto.
Qed.

End Fallback.
End FallbackFacts.

Module AttemptFacts.
Import Rng Types Solver Generator GridFacts RngFacts SolverFacts GeneratorFacts.
Import SearchFacts FallbackFacts.
Local Open Scope Z_scope.

Lemma Good_extend R S (F : Wall -> Z -> Z -> Prop) cells w r s :
  Good R S F cells -> wallAt cells w r s = false ->
  Good R S (fun w' r' s' => F w' r' s' \/ (w' = w /\ r' = r /\ s' = s)) cells.
Proof.
  intros (Hd & Hp & Hk) Hw. split; [exact Hd | split; [exact Hp |]].
  intros w' r' s' [HF | (-> & -> & ->)]; [apply Hk; exact HF | exact Hw].
Qed.

Section Attempt.
Variable config : MazeConfig.
Hypothesis HR : 1 <= rings config.
Hypothesis HS : 1 <= slices config.

Local Abbreviation R := (rings config).
Local Abbreviation S := (slices config).

(* the outer walls below ring r0 at the exit's first slice *)
Definition corridor (e : ExitSector) (r0 : Z) (w : Wall) (r s : Z) : Prop :=
  w = WOuter /\ 0 <= r < r0 /\ r < R - 1 /\ s = sliceStart e.

Lemma ensurePathToExit_opens (F : Wall -> Z -> Z -> Prop) e :
  0 <= sliceStart e < S ->
  hoare (Good R S F) (ensurePathToExit config e)
        (fun _ => Good R S (fun w r s => F w r s \/ corridor e R w r s)).
Proof.
  intros Ht. unfold ensurePathToExit. cbv zeta.
  pose (I := fun (r0 : Z) => Good R S (fun w r s => F w r s \/ corridor e r0 w r s)).
  eapply hoare_weaken with (P' := I 0) (Q' := fun _ => I (Z.max 0 (R - 1))).
  - apply (hoare_forUpTo_indexed I). intros r Hr. unfold I.
    set (Fr := fun w r' s' => F w r' s' \/ corridor e r w r' s').
    eapply hoare_bind.
    { eapply hoare_weaken.
      - apply (hoare_readCell config (Good R S Fr) r (sliceStart e)); [lia | exact Ht].
      - intros g Hg. split; [apply Hg | exact Hg].
      - intros c g H. exact H. }
    intros c1. cbn beta.
    eapply hoare_bind with
      (Q := fun (blocked : bool) g =>
              Good R S Fr g
              /\ (blocked = false -> wallAt g WOuter r (sliceStart e) = false)).
    + destruct (wallOuter c1) eqn:Ec1.
      * eapply hoare_bind.
        { eapply hoare_weaken.
          + apply (hoare_readCell config
                     (fun g => Good R S Fr g /\ getCell g r (sliceStart e) = Some c1)
                     (r + 1) (sliceStart e)); [lia | exact Ht].
          + intros g [Hc Hg]. split; [apply Hg | auto].
          + intros c g H. exact H. }
        intros c2. apply hoare_ret. intros g (Hc2 & Hg & Hc1).
        split; [exact Hg |]. intros Hblocked.
        destruct (proj1 (proj2 Hg) r (sliceStart e) ltac:(lia) Ht) as [_ Hout].
        rewrite (Hout ltac:(lia)). unfold wallAt. rewrite Hc2. exact Hblocked.
      * apply hoare_ret. intros g [Hc Hg]. split; [exact Hg |].
        intros _. unfold wallAt. rewrite Hc. exact Ec1.
    + intros blocked. destruct blocked.
      * eapply hoare_weaken.
        -- apply (clearPair_records R S Fr WOuter r (sliceStart e) WInner (r + 1) (sliceStart e)).
          apply partners_outer; [lia | exact Ht].
        -- intros g [Hg _]. exact Hg.
        -- intros ? g Hg. cbn beta in Hg. eapply Good_weaken; [exact Hg |].
          intros w r' s' [HF | (-> & Hr' & Hlt & ->)]; [left; left; exact HF |].
          destruct (decide (r' = r)) as [-> | Hne].
          ++ right; left. auto.
          ++ left; right. repeat split; lia.
      * apply hoare_ret. intros g [Hg Hopen].
        pose proof (Good_extend R S Fr g WOuter r (sliceStart e) Hg (Hopen eq_refl)) as Hg'.
        eapply Good_weaken; [exact Hg' |].
        intros w r' s' [HF | (-> & Hr' & Hlt & ->)]; [left; left; exact HF |].
        destruct (decide (r' = r)) as [-> | Hne].
        -- right. auto.
        -- left; right. repeat split; lia.
  - intros g Hg. unfold I. eapply Good_weaken; [exact Hg |].
    intros w r s [HF | (_ & Hr & _)]; [exact HF | lia].
  - intros ? g Hg. unfold I in Hg. eapply Good_weaken; [exact Hg |].
    intros w r s [HF | (-> & Hr & Hlt & ->)]; [left; exact HF |].
    right. repeat split; lia.
Qed.

(* what an attempt leaves behind: the exit is open and a radial corridor
   leads to it *)
Definition attemptOpened (e : ExitSector) (w : Wall) (r s : Z) : Prop :=
  exitWalls config e w r s \/ corridor e R w r s.

Lemma attemptMaze_opens params :
  hoare (GoodSt config (fun _ _ _ => False)) (attemptMaze config params)
        (fun es st =>
           Good R S (attemptOpened (fst es)) (grid st)
           /\ 0 <= sliceStart (fst es) < S
           /\ sliceCount (fst es) = Z.min (exitWidth params) S
           /\ solveMaze (grid st) config (fst es) = Some (snd es)).
Proof.
  unfold attemptMaze.
  eapply hoare_bind; [apply carveSpanningTree_total; assumption |]. intros ?.
  eapply hoare_bind; [apply openEntryHoles_total; assumption |]. intros ?.
  eapply hoare_bind; [apply addExtraOpenings_total; assumption |]. intros ?.
  eapply hoare_bind; [apply capRadialWalls_total; assumption |]. intros ?.
  eapply hoare_bind; [apply placeExit_total; assumption |]. intros e. cbn beta.
  eapply hoare_weaken with
    (P' := fun st => GoodSt config (exitWalls config e) st
                     /\ (0 <= sliceStart e < S /\ sliceCount e = Z.min (exitWidth params) S));
    [| | intros es st H; exact H].
  2: { intros st (Hg & Hs & Hc). split; [| auto].
       eapply Good_weaken; [exact Hg |]. intros w r s H. right. exact H. }
  apply hoare_assume. intros [Hs Hc].
  eapply hoare_bind.
  { apply (hoare_onCells (Good R S (exitWalls config e)) _
             (fun _ => Good R S (attemptOpened e))).
    apply ensurePathToExit_opens. exact Hs. }
  intros ?.
  eapply hoare_bind.
  { apply (runSolver_total config HR HS (attemptOpened e) e). }
  intros sol.
  apply hoare_ret. intros st [Hg Hsol]. cbn [fst snd]. auto.
Qed.

Section Route.
Variable cells : Grid.
Variable e : ExitSector.
Hypothesis Hgood : Good R S (attemptOpened e) cells.
Hypothesis Hstart : 0 <= sliceStart e < S.

Lemma corridor_reach n :
  Z.of_nat n < R -> reachable cells config (Z.of_nat n) (sliceStart e).
Proof.
  induction n as [| n IH]; intros Hn; [apply reach_start; exact Hstart |].
  pose proof (proj2 (proj2 Hgood) WOuter (Z.of_nat n) (sliceStart e)) as Hw.
  unfold wallAt in Hw.
  destruct (getCell cells (Z.of_nat n) (sliceStart e)) as [c |] eqn:Ec.
  2: { assert (true = false); [| discriminate]. apply Hw. right. repeat split; lia. }
  replace (Z.of_nat (Datatypes.S n)) with (Z.of_nat n + 1) by lia.
  eapply reach_step; [apply IH; lia | exact Ec |].
  right; left. split; [lia |]. split; [| auto].
  apply Hw. right. repeat split; lia.
Qed.

Lemma attempt_route :
  1 <= sliceCount e ->
  exists cell,
    reachable cells config (R - 1) (sliceStart e)
    /\ exitSlice config e (sliceStart e)
    /\ getCell cells (R - 1) (sliceStart e) = Some cell /\ wallOuter cell = false.
Proof.
  intros Hcount.
  assert (Hexit : exitSlice config e (sliceStart e)).
  { exists 0. split; [lia |]. rewrite Z.add_0_r. symmetry. apply Z.rem_small. exact Hstart. }
  pose proof (proj2 (proj2 Hgood) WOuter (R - 1) (sliceStart e)) as Hw.
  unfold wallAt in Hw.
  destruct (getCell cells (R - 1) (sliceStart e)) as [c |] eqn:Ec.
  2: { assert (true = false); [| discriminate]. apply Hw. left.
       split; [reflexivity | split; [reflexivity | exact Hexit]]. }
  exists c. split; [| split; [exact Hexit | split; [reflexivity |]]].
  - replace (R - 1) with (Z.of_nat (Z.to_nat (R - 1))) by lia.
    apply corridor_reach. lia.
  - apply Hw. left. split; [reflexivity | split; [reflexivity | exact Hexit]].
Qed.

End Route.

(* with an exit of at least one slice the first attempt is solvable *)
Lemma attemptMaze_solvable params st0 :
  GoodSt config (fun _ _ _ => False) st0 ->
  1 <= exitWidth params ->
  exists e sol st,
    attemptMaze config params st0 = Some ((e, sol), st)
    /\ solvable sol = true
    /\ Good R S (attemptOpened e) (grid st)
    /\ 0 <= sliceStart e < S
    /\ sliceCount e = Z.min (exitWidth params) S
    /\ solveMaze (grid st) config e = Some sol.
Proof.
  intros Hst Hw.
  destruct (attemptMaze_opens params st0 Hst) as ([e sol] & st & E & Hg & Hs & Hc & Hsol).
  cbn [fst snd] in *. exists e, sol, st.
  split; [exact E |]. split; [| auto].
  destruct (solvable sol) eqn:Hsolv; [reflexivity |].
  destruct (attempt_route (grid st) e Hg Hs ltac:(lia)) as (cell & Hreach & Hexit & Hcell & Hopen).
  rewrite <- Hopen.
  exact (solveMaze_complete (grid st) config e HS HR sol Hsol Hsolv
           (R - 1) (sliceStart e) cell Hreach Hcell eq_refl Hexit).
Qed.

(* without an exit slice no attempt is solvable *)
Lemma attemptMaze_unsolvable params st0 :
  GoodSt config (fun _ _ _ => False) st0 ->
  exitWidth params < 1 ->
  exists e sol st,
    attemptMaze config params st0 = Some ((e, sol), st) /\ solvable sol = false.
Proof.
  intros Hst Hw.
  destruct (attemptMaze_opens params st0 Hst) as ([e sol] & st & E & Hg & Hs & Hc & Hsol).
  cbn [fst snd] in *. exists e, sol, st. split; [exact E |].
  destruct (solvable sol) eqn:Hsolv; [| reflexivity].
  destruct (solveMaze_pathShape (grid st) config e HS ltac:(lia) sol Hsol) as [Hyes _].
  destruct (Hyes Hsolv) as (_ & _ & i & c & Hi & _). lia.
Qed.

Lemma generateLoop_first_attempt params n seed0 :
  checkGeometricConstraints config = true -> 1 <= exitWidth params ->
  exists e sol st,
    attemptMaze config params (mkGen (createEmptyGrid config) (createRNG seed0))
      = Some ((e, sol), st)
    /\ solvable sol = true
    /\ generateLoop (Datatypes.S n) config params seed0
       = Some (mkMaze (grid st) e config params seed0)
    /\ Good R S (attemptOpened e) (grid st)
    /\ 0 <= sliceStart e < S
    /\ sliceCount e = Z.min (exitWidth params) S.
Proof.
  intros Hgeo Hw.
  destruct (attemptMaze_solvable params (mkGen (createEmptyGrid config) (createRNG seed0))
              (createEmptyGrid_Good config HR HS) Hw)
    as (e & sol & st & E & Hsolv & Hg & Hs & Hc & _).
  exists e, sol, st. split; [exact E | split; [exact Hsolv |]].
  split; [| auto].
  cbn [generateLoop]. rewrite Hgeo. cbn [negb]. rewrite E, Hsolv. reflexivity.
Qed.

Lemma generateLoop_no_exit params n seed0 :
  exitWidth params < 1 ->
  generateLoop n config params seed0 = generateFallbackMaze config params.
Proof.
  intros Hw. revert seed0. induction n as [| n IH]; intros seed0; cbn [generateLoop].
  - reflexivity.
  - destruct (negb (checkGeometricConstraints config)); [apply IH |].
    destruct (attemptMaze_unsolvable params (mkGen (createEmptyGrid config) (createRNG seed0))
                (createEmptyGrid_Good config HR HS) Hw)
      as (e & sol & st & E & Hsolv).
    rewrite E, Hsolv. apply IH.
Qed.

End Attempt.
End AttemptFacts.

Module RouteSpec.
Import Rng Types Solver Generator GridFacts RngFacts SolverFacts GeneratorFacts.
Import SearchFacts FallbackFacts AttemptFacts MazeSpec.
Local Open Scope Z_scope.

(** X1.  A route solveMaze returns stays inside the lattice, and each of its
    steps goes to a neighbor through a wall flag that is off on the cell the
    step leaves: inner and outer steps keep the slice, clockwise and
    counter-clockwise steps keep the ring and wrap modulo slices. *)
Theorem solveMaze_route_is_open_walk
        (cells : Grid) (config : MazeConfig) (exit : ExitSector) (res : SolveResult) :
  1 <= rings config -> 1 <= slices config ->
  solveMaze cells config exit = Some res -> solvable res = true ->
  (forall i a, path res !! i = Some a ->
               0 <= fst a < rings config /\ 0 <= snd a < slices config)
  /\ (forall i a b,
        path res !! i = Some a -> path res !! Datatypes.S i = Some b ->
        exists cell,
          getCell cells (fst a) (snd a) = Some cell
          /\ stepOf config cell (fst a) (snd a) (fst b) (snd b)).
Proof.
  intros HR HS Hrun Hsolv.
  exact (solveMaze_walk cells config exit HS HR res Hrun Hsolv).
Qed.

(** X2.  When solveMaze answers solvable = false no route exists: every cell
    of the exit sector on the last ring that can be reached from ring 0
    through open moves still has its outer wall. *)
Theorem solveMaze_unsolvable_has_no_route
        (cells : Grid) (config : MazeConfig) (exit : ExitSector) (res : SolveResult) :
  1 <= rings config -> 1 <= slices config ->
  solveMaze cells config exit = Some res -> solvable res = false ->
  forall s cell,
    reachable cells config (rings config - 1) s ->
    (exists i, 0 <= i < sliceCount exit
               /\ s = Z.rem (sliceStart exit + i) (slices config)) ->
    getCell cells (rings config - 1) s = Some cell ->
    wallOuter cell = true.
Proof.
  intros HR HS Hrun Hsolv s cell Hreach Hexit Hcell.
  exact (solveMaze_complete cells config exit HS HR res Hrun Hsolv
           (rings config - 1) s cell Hreach Hcell eq_refl Hexit).
Qed.

(** X3.  Every maze generateMaze returns is solvable, whatever the seed, the
    lattice and the parameters: solveMaze finds a route on it.  With at least
    two slices generateMaze does return a maze. *)
Theorem generateMaze_always_solvable (config : MazeConfig) (params : GenerationParams) :
  1 <= rings config -> 1 <= slices config ->
  (2 <= slices config -> exists m, generateMaze config params = Some m)
  /\ (forall m, generateMaze config params = Some m ->
        exists res, solveMaze (cells m) config (exit m) = Some res /\ solvable res = true).
Proof.
  intros HR HS. split.
  - intros HS2. apply generateMaze_returns; assumption.
  - intros m. unfold generateMaze. apply generateLoop_solvable; assumption.
Qed.

(** X4.  generateMaze never retries: when the geometric check passes and
    exitWidth is at least 1 it returns the grid of its first attempt, and
    otherwise the fallback maze; in both cases finalSeed is config.seed. *)
Theorem generateMaze_first_attempt_or_fallback
        (config : MazeConfig) (params : GenerationParams) :
  1 <= rings config -> 1 <= slices config ->
  (checkGeometricConstraints config = true -> 1 <= exitWidth params ->
   exists e sol st,
     attemptMaze config params (mkGen (createEmptyGrid config) (createRNG (seed config)))
       = Some ((e, sol), st)
     /\ solvable sol = true
     /\ generateMaze config params = Some (mkMaze (grid st) e config params (seed config)))
  /\ (checkGeometricConstraints config = false \/ exitWidth params < 1 ->
      generateMaze config params = generateFallbackMaze config params)
  /\ (forall m, generateMaze config params = Some m -> finalSeed m = seed config).
Proof.
  intros HR HS.
  assert (H1 : checkGeometricConstraints config = true -> 1 <= exitWidth params ->
               exists e sol st,
                 attemptMaze config params
                   (mkGen (createEmptyGrid config) (createRNG (seed config)))
                   = Some ((e, sol), st)
                 /\ solvable sol = true
                 /\ generateMaze config params
                    = Some (mkMaze (grid st) e config params (seed config))).
  { intros Hgeo Hw. unfold generateMaze, MAX_REGEN_ATTEMPTS.
    destruct (generateLoop_first_attempt config HR HS params 19 (seed config) Hgeo Hw)
      as (e & sol & st & E & Hsolv & Hm & _).
    exists e, sol, st. auto. }
  assert (H2 : checkGeometricConstraints config = false \/ exitWidth params < 1 ->
               generateMaze config params = generateFallbackMaze config params).
  { intros [Hgeo | Hw].
    - apply generateMaze_infeasible. exact Hgeo.
    - unfold generateMaze. apply generateLoop_no_exit; assumption. }
  split; [exact H1 | split; [exact H2 |]].
  intros m Hm.
  destruct (checkGeometricConstraints config) eqn:Hgeo.
  - destruct (Z_lt_le_dec (exitWidth params) 1) as [Hw | Hw].
    + rewrite (H2 (or_intror Hw)) in Hm.
      exact (fallback_finalSeed config params m Hm).
    + destruct (H1 eq_refl Hw) as (e & sol & st & _ & _ & E).
      rewrite E in Hm. injection Hm as <-. reflexivity.
  - rewrite (H2 (or_introl eq_refl)) in Hm.
    exact (fallback_finalSeed config params m Hm).
Qed.

(** X5.  A maze built by an attempt has a straight way out: at the first slice
    of its exit sector every cell below the last ring has its outer wall
    removed, the cell above it has its inner wall removed, and the cell on the
    last ring is open to the outside. *)
Theorem generateMaze_radial_corridor (config : MazeConfig) (params : GenerationParams) :
  1 <= rings config -> 1 <= slices config ->
  checkGeometricConstraints config = true -> 1 <= exitWidth params ->
  exists m,
    generateMaze config params = Some m
    /\ 0 <= sliceStart (exit m) < slices config
    /\ sliceCount (exit m) = Z.min (exitWidth params) (slices config)
    /\ (forall r, 0 <= r < rings config - 1 ->
          wallAt (cells m) WOuter r (sliceStart (exit m)) = false
          /\ wallAt (cells m) WInner (r + 1) (sliceStart (exit m)) = false)
    /\ wallAt (cells m) WOuter (rings config - 1) (sliceStart (exit m)) = false.
Proof.
  intros HR HS Hgeo Hw.
  destruct (generateLoop_first_attempt config HR HS params 19 (seed config) Hgeo Hw)
    as (e & sol & st & _ & _ & Hm & Hg & Hs & Hc).
  exists (mkMaze (grid st) e config params (seed config)).
  cbn [cells exit]. split; [exact Hm |].
  split; [exact Hs | split; [exact Hc |]].
  destruct Hg as (Hd & Hp & Hk). split.
  - intros r Hr.
    assert (Hout : wallAt (grid st) WOuter r (sliceStart e) = false).
    { apply Hk. right. repeat split; lia. }
    split; [exact Hout |].
    destruct (Hp r (sliceStart e) ltac:(lia) Hs) as [_ Hpair].
    rewrite <- (Hpair ltac:(lia)). exact Hout.
  - apply Hk. left. split; [reflexivity | split; [reflexivity |]].
    exists 0. split; [lia |]. rewrite Z.add_0_r. symmetry. apply Z.rem_small. exact Hs.
Qed.

(* the opposite side of a shared wall *)
Definition opposite (d : Direction) : Direction :=
  match d with
  | inner => outer
  | outer => inner
  | cw => ccw
  | ccw => cw
  end.

(** X6.  getNeighbors stays inside the lattice and is symmetric: a neighbor of
    a cell has that cell as its neighbor in the opposite direction.  A cell has
    two ring neighbors, one inner neighbor unless it is on ring 0 and one
    outer neighbor unless it is on the last ring. *)
Theorem getNeighbors_symmetric (config : MazeConfig) (r s : Z) :
  1 <= slices config -> 0 <= r < rings config -> 0 <= s < slices config ->
  (forall n, n ∈ getNeighbors r s config ->
     0 <= nring n < rings config /\ 0 <= nslice n < slices config
     /\ mkNeighbor r s (opposite (direction n))
        ∈ getNeighbors (nring n) (nslice n) config)
  /\ length (getNeighbors r s config)
     = (Nat.b2n (0 <? r)%Z + Nat.b2n (r <? rings config - 1)%Z + 2)%nat.
Proof.
  intros HS Hr Hs.
  pose proof (rem_range (s + 1) (slices config) ltac:(lia) ltac:(lia)) as Hcw.
  pose proof (rem_range (s - 1 + slices config) (slices config) ltac:(lia) ltac:(lia)) as Hccw.
  assert (Hback : Z.rem (Z.rem (s - 1 + slices config) (slices config) + 1) (slices config) = s).
  { rewrite !Z.rem_mod_nonneg by lia.
    destruct (decide (s = 0)) as [-> | Hne].
    - replace (0 - 1 + slices config) with (slices config - 1) by lia.
      rewrite (Z.mod_small (slices config - 1)) by lia.
      replace (slices config - 1 + 1) with (slices config) by lia. apply Z.mod_same. lia.
    - replace (s - 1 + slices config) with (s - 1 + 1 * slices config) by lia.
      rewrite Z.mod_add by lia. rewrite (Z.mod_small (s - 1)) by lia.
      replace (s - 1 + 1) with s by lia. apply Z.mod_small. lia. }
  assert (Hforth : Z.rem (Z.rem (s + 1) (slices config) - 1 + slices config) (slices config) = s).
  { destruct (rem_succ_cases s (slices config) Hs) as [[E1 E2] | [E1 E2]]; rewrite E2.
    - replace (0 - 1 + slices config) with s by lia. apply Z.rem_small. lia.
    - replace (s + 1 - 1 + slices config) with (s + 1 * slices config) by lia.
      rewrite Z.rem_mod_nonneg by lia. rewrite Z.mod_add by lia. apply Z.mod_small. lia. }
  split.
  - intros n Hin. unfold getNeighbors in Hin. rewrite !elem_of_app in Hin.
    destruct Hin as [Hin | [Hin | [Hin | Hin]]].
    + destruct (Z.ltb_spec 0 r); [| now apply elem_of_nil in Hin].
      apply list_elem_of_singleton in Hin. subst n. cbn [nring nslice direction opposite].
      split; [lia | split; [lia |]].
      unfold getNeighbors. rewrite !elem_of_app. right; left.
      rewrite (proj2 (Z.ltb_lt (r - 1) (rings config - 1))) by lia.
      apply list_elem_of_singleton. f_equal. lia.
    + destruct (Z.ltb_spec r (rings config - 1)); [| now apply elem_of_nil in Hin].
      apply list_elem_of_singleton in Hin. subst n. cbn [nring nslice direction opposite].
      split; [lia | split; [lia |]].
      unfold getNeighbors. rewrite !elem_of_app. left.
      rewrite (proj2 (Z.ltb_lt 0 (r + 1))) by lia.
      apply list_elem_of_singleton. f_equal. lia.
    + apply list_elem_of_singleton in Hin. subst n. cbn [nring nslice direction opposite].
      split; [lia | split; [lia |]].
      unfold getNeighbors. rewrite !elem_of_app. right; right; right.
      apply list_elem_of_singleton. f_equal. symmetry. exact Hforth.
    + apply list_elem_of_singleton in Hin. subst n. cbn [nring nslice direction opposite].
      split; [lia | split; [lia |]].
      unfold getNeighbors. rewrite !elem_of_app. right; right; left.
      apply list_elem_of_singleton. f_equal. symmetry. exact Hback.
  - unfold getNeighbors. rewrite !length_app.
    destruct (0 <? r), (r <? rings config - 1); reflexivity.
Qed.

(* two rings of two cells with one way out through (0,0) and (1,0) *)
Definition twoRingGrid : Grid :=
  [[mkCell 0 0 true false true true; mkCell 0 1 true true true true];
   [mkCell 1 0 false false true true; mkCell 1 1 true true true true]].
Definition twoRingConfig : MazeConfig := mkConfig 2 2 0 30 200 6.

(* one ring of two cells, walled all round *)
Definition closedGrid : Grid :=
  [[mkCell 0 0 true true true true; mkCell 0 1 true true true true]].

Lemma solveMaze_route_is_open_walk_witness :
  exists res,
    solveMaze twoRingGrid twoRingConfig tinyExit = Some res
    /\ path res = [(0, 0); (1, 0)]
    /\ forall i a b,
         path res !! i = Some a -> path res !! Datatypes.S i = Some b ->
         exists cell,
           getCell twoRingGrid (fst a) (snd a) = Some cell
           /\ stepOf twoRingConfig cell (fst a) (snd a) (fst b) (snd b).
Proof.
  destruct (solveMaze twoRingGrid twoRingConfig tinyExit) as [res |] eqn:Hres;
    [| vm_compute in Hres; discriminate].
  exists res. split; [reflexivity |].
  assert (Hp : path res = [(0, 0); (1, 0)] /\ solvable res = true)
    by (vm_compute in Hres; injection Hres as <-; split; reflexivity).
  split; [apply Hp |].
  apply (solveMaze_route_is_open_walk twoRingGrid twoRingConfig tinyExit res
           ltac:(cbn; lia) ltac:(cbn; lia) Hres (proj2 Hp)).
Defined.

Lemma solveMaze_unsolvable_has_no_route_witness :
  exists res,
    solveMaze closedGrid tinyConfig tinyExit = Some res
    /\ solvable res = false
    /\ forall s cell,
         reachable closedGrid tinyConfig (rings tinyConfig - 1) s ->
         (exists i, 0 <= i < sliceCount tinyExit
                    /\ s = Z.rem (sliceStart tinyExit + i) (slices tinyConfig)) ->
         getCell closedGrid (rings tinyConfig - 1) s = Some cell ->
         wallOuter cell = true.
Proof.
  destruct (solveMaze closedGrid tinyConfig tinyExit) as [res |] eqn:Hres;
    [| vm_compute in Hres; discriminate].
  exists res. split; [reflexivity |].
  assert (Hs : solvable res = false)
    by (vm_compute in Hres; injection Hres as <-; reflexivity).
  split; [exact Hs |].
  apply (solveMaze_unsolvable_has_no_route closedGrid tinyConfig tinyExit res
           ltac:(cbn; lia) ltac:(cbn; lia) Hres Hs).
Defined.

Lemma generateMaze_always_solvable_witness :
  exists m res,
    generateMaze sampleConfig defaultGenerationParams = Some m
    /\ solveMaze (cells m) sampleConfig (exit m) = Some res /\ solvable res = true.
Proof.
  destruct (generateMaze_always_solvable sampleConfig defaultGenerationParams
              ltac:(cbn; lia) ltac:(cbn; lia)) as [Hret Hsolv].
  destruct (Hret ltac:(cbn; lia)) as [m Hm].
  destruct (Hsolv m Hm) as (res & Hres & Hs).
  exists m, res. auto.
Defined.

Lemma generateMaze_first_attempt_or_fallback_witness :
  exists m,
    generateMaze sampleConfig defaultGenerationParams = Some m /\ finalSeed m = 42.
Proof.
  destruct (generateMaze_first_attempt_or_fallback sampleConfig defaultGenerationParams
              ltac:(cbn; lia) ltac:(cbn; lia)) as (H1 & _ & H3).
  destruct (H1 ltac:(vm_compute; reflexivity) ltac:(cbn; lia)) as (e & sol & st & _ & _ & E).
  eexists. split; [exact E | reflexivity].
Defined.

Lemma generateMaze_radial_corridor_witness :
  exists m,
    generateMaze sampleConfig defaultGenerationParams = Some m
    /\ wallAt (cells m) WOuter 3 (sliceStart (exit m)) = false.
Proof.
  destruct (generateMaze_radial_corridor sampleConfig defaultGenerationParams
              ltac:(cbn; lia) ltac:(cbn; lia) ltac:(vm_compute; reflexivity) ltac:(cbn; lia))
    as (m & Hm & _ & _ & _ & Hlast).
  exists m. split; [exact Hm | exact Hlast].
Defined.

Lemma getNeighbors_symmetric_witness :
  length (getNeighbors 0 0 sampleConfig) = 3%nat.
Proof.
  exact (proj2 (getNeighbors_symmetric sampleConfig 0 0
                  ltac:(cbn; lia) ltac:(cbn; lia) ltac:(cbn; lia))).
Defined.

End RouteSpec.

Module ShortestFacts.
Import Types Solver GridFacts SolverFacts SearchFacts.
Local Open Scope Z_scope.

Section Shortest.
Variable cells : Grid.
Variable config : MazeConfig.
Variable exit : ExitSector.
Hypothesis HS : 1 <= slices config.
Hypothesis HR : 1 <= rings config.

Local Abbreviation key := (key config).
Local Abbreviation R := (rings config).
Local Abbreviation S := (slices config).
Local Abbreviation rooted := (rooted config).

(* (r, s) can be reached from a ring-0 cell in n open moves *)
Inductive reachIn : nat -> Z -> Z -> Prop :=
| reachIn_start s : 0 <= s < S -> reachIn 0 0 s
| reachIn_step n r s cell nr ns :
    reachIn n r s -> getCell cells r s = Some cell -> stepOf config cell r s nr ns ->
    reachIn (Datatypes.S n) nr ns.

Lemma reachIn_range n r s : reachIn n r s -> 0 <= r < R /\ 0 <= s < S.
Proof.
  induction 1 as [s Hs | n r s cell nr ns _ IH _ Hstep]; [lia |].
  eapply (stepOf_range config HS); [apply IH | apply IH | exact Hstep].
Qed.

(* the i-th cell of a walk that starts on ring 0 is i moves away *)
Lemma walk_reachIn (w : list (Z * Z)) s0 :
  isWalk cells config w -> w !! 0%nat = Some (0, s0) ->
  forall i c, w !! i = Some c -> reachIn i (fst c) (snd c).
Proof.
  intros [Hin Hmoves] H0. induction i as [| i IH]; intros c Hc.
  - rewrite H0 in Hc. injection Hc as <-. cbn [fst snd].
    apply reachIn_start. apply (Hin 0%nat (0, s0) H0).
  - destruct (lookup_lt_is_Some_2 w i) as [a Ha].
    { apply lookup_lt_Some in Hc. lia. }
    destruct (Hmoves i a c Ha Hc) as (cell & Hcell & Hstep).
    eapply reachIn_step; [apply IH; exact Ha | exact Hcell | exact Hstep].
Qed.

(* --- depth of a visited key ------------------------------------- *)

Lemma rooted_fun visited k n m : rooted visited k n -> rooted visited k m -> n = m.
Proof.
  intros Hn. revert m.
  induction Hn as [k Hk Hr | k p n Hk Hp Hk0 _ IH]; intros m Hm.
  - destruct Hm as [k' Hk' _ | k' p' m' Hk' Hp' _ _]; [reflexivity | congruence].
  - destruct Hm as [k' Hk' _ | k' p' m' Hk' Hp' _ Hm']; [congruence |].
    f_equal. apply IH. congruence.
Qed.

Lemma reconstruct_length visited k n :
  rooted visited k n ->
  forall fuel acc p, reconstruct config fuel visited k acc = Some p ->
    length p = (Datatypes.S n + length acc)%nat.
Proof.
  induction 1 as [k Hk Hr | k p0 n Hk Hp Hk0 _ IH]; intros fuel acc p Hrec.
  - destruct fuel as [| fuel]; cbn [reconstruct] in Hrec;
      destruct (Z.eqb_spec k (-1)) as [E | _]; try lia; [discriminate |].
    rewrite Hk in Hrec. change (default (-1) (Some (-1))) with (-1) in Hrec.
    destruct fuel; cbn [reconstruct] in Hrec; cbn [Z.eqb] in Hrec;
      injection Hrec as <-; reflexivity.
  - destruct fuel as [| fuel]; cbn [reconstruct] in Hrec;
      destruct (Z.eqb_spec k (-1)) as [E | _]; try lia; [discriminate |].
    rewrite Hk in Hrec. change (default (-1) (Some p0)) with p0 in Hrec.
    rewrite (IH _ _ _ Hrec). cbn [length]. lia.
Qed.

(* --- the breadth-first order ------------------------------------ *)

(* depths never decrease along the queue *)
Definition depthSorted (visited : gmap Z Z) (queue : list (Z * Z)) : Prop :=
  forall i j ri si rj sj ni nj, (i <= j)%nat ->
    queue !! i = Some (ri, si) -> queue !! j = Some (rj, sj) ->
    rooted visited (key ri si) ni -> rooted visited (key rj sj) nj -> (ni <= nj)%nat.

(* no queued cell is more than one level below depth nh *)
Definition depthBound (visited : gmap Z Z) (queue : list (Z * Z)) (nh : nat) : Prop :=
  forall j r s n,
    queue !! j = Some (r, s) -> rooted visited (key r s) n -> (n <= Datatypes.S nh)%nat.

(* a cell offered from an explored cell is visited, at most one level below *)
Definition edgesDone (visited : gmap Z Z) (queue : list (Z * Z)) (head : nat) : Prop :=
  forall i r s cell nr ns n,
    (i < head)%nat -> queue !! i = Some (r, s) ->
    getCell cells r s = Some cell -> stepOf config cell r s nr ns ->
    rooted visited (key r s) n ->
    exists m, rooted visited (key nr ns) m /\ (m <= Datatypes.S n)%nat.

Definition rootsKept (visited : gmap Z Z) : Prop :=
  forall s, 0 <= s < S -> visited !! key 0 s = Some (-1).

Definition queued (visited : gmap Z Z) (queue : list (Z * Z)) : Prop :=
  forall k, is_Some (visited !! k) ->
    exists i r s, queue !! i = Some (r, s) /\ k = key r s.

(* no explored cell was an open exit *)
Definition noExit (queue : list (Z * Z)) (head : nat) : Prop :=
  forall i r s cell,
    (i < head)%nat -> queue !! i = Some (r, s) -> getCell cells r s = Some cell ->
    key r s ∈ exitCells config exit -> wallOuter cell = true.

(* what holds while the neighbors of queue[h] = (rh, sh), of depth nh, are visited *)
Definition Step (h : nat) (rh sh : Z) (nh : nat) (vq : gmap Z Z * list (Z * Z)) : Prop :=
  Inv config (fst vq) (snd vq)
  /\ QueueIn config (snd vq)
  /\ queued (fst vq) (snd vq)
  /\ depthSorted (fst vq) (snd vq)
  /\ depthBound (fst vq) (snd vq) nh
  /\ edgesDone (fst vq) (snd vq) h
  /\ rootsKept (fst vq)
  /\ rooted (fst vq) (key rh sh) nh
  /\ snd vq !! h = Some (rh, sh).

Lemma Step_visit h rh sh nh cell nr ns vq :
  0 <= rh < R -> 0 <= sh < S ->
  getCell cells rh sh = Some cell -> stepOf config cell rh sh nr ns ->
  Step h rh sh nh vq -> Step h rh sh nh (visit config (key rh sh) nr ns vq).
Proof.
  intros Hrh Hsh Hcell Hstep
         (HI & HQ & Hqd & Hsort & Hbound & Hedges & Hroots & Hdepth & Hhead).
  destruct vq as [v q]. cbn [fst snd] in *.
  destruct (stepOf_range config HS cell rh sh nr ns Hrh Hsh Hstep) as [Hnr Hns].
  assert (Hck : is_Some (v !! key rh sh)).
  { destruct Hdepth as [k Hk _ | k p n Hk _ _ _]; eauto. }
  assert (Hck0 : 0 <= key rh sh) by (rewrite (key_unfold config); nia).
  pose proof (Inv_visit config HS v q (key rh sh) nr ns HI Hck Hck0 ltac:(lia) Hns) as HI'.
  pose proof (QueueIn_visit config (key rh sh) nr ns (v, q) Hnr Hns HQ) as HQ'.
  pose proof (visit_queued config (key rh sh) nr ns (v, q) Hqd) as Hqd'.
  split; [exact HI' | split; [exact HQ' | split; [exact Hqd' |]]].
  clear HI' HQ' Hqd'. unfold visit. cbn [fst snd].
  destruct (v !! key nr ns) as [p |] eqn:Enk; cbn [fst snd].
  { repeat split; assumption. }
  set (v' := <[key nr ns := key rh sh]> v).
  assert (Hup : forall k n, rooted v k n -> rooted v' k n).
  { intros k n Hk. apply rooted_insert; assumption. }
  assert (Hold : forall k n, is_Some (v !! k) -> rooted v' k n -> rooted v k n).
  { intros k n [pk Hk] Hn. destruct (proj2 HI k pk Hk) as (n0 & Hn0 & _).
    now rewrite (rooted_fun v' k n n0 Hn (Hup k n0 Hn0)). }
  assert (Hnew : rooted v' (key nr ns) (Datatypes.S nh)).
  { eapply rooted_step.
    - apply lookup_insert_eq.
    - lia.
    - rewrite (key_unfold config). nia.
    - apply Hup. exact Hdepth. }
  assert (Hqold : forall i r s, q !! i = Some (r, s) -> is_Some (v !! key r s)).
  { intros i r s Hi. apply (proj1 HI i r s Hi). }
  assert (Hlast : forall j r s n,
            (q ++ [(nr, ns)]) !! j = Some (r, s) -> rooted v' (key r s) n ->
            (q !! j = Some (r, s) /\ rooted v (key r s) n)
            \/ (j = length q /\ r = nr /\ s = ns /\ n = Datatypes.S nh)).
  { intros j r s n Hj Hn. apply lookup_app_Some in Hj. destruct Hj as [Hj | [Hge Hj]].
    - left. split; [exact Hj |]. apply Hold; [eapply Hqold; exact Hj | exact Hn].
    - right. apply list_lookup_singleton_Some in Hj. destruct Hj as [Hj [= <- <-]].
      split; [lia |]. split; [reflexivity | split; [reflexivity |]].
      apply (rooted_fun v' (key nr ns)); assumption. }
  split; [| split; [| split; [| split; [| split]]]].
  - intros i j ri si rj sj ni nj Hij Hi Hj Hni Hnj.
    destruct (Hlast i ri si ni Hi Hni) as [[Hi' Hni'] | (Ei & -> & -> & ->)];
      destruct (Hlast j rj sj nj Hj Hnj) as [[Hj' Hnj'] | (Ej & -> & -> & ->)].
    + exact (Hsort i j ri si rj sj ni nj Hij Hi' Hj' Hni' Hnj').
    + exact (Hbound i ri si ni Hi' Hni').
    + apply lookup_lt_Some in Hj'. lia.
    + lia.
  - intros j r s n Hj Hn.
    destruct (Hlast j r s n Hj Hn) as [[Hj' Hn'] | (_ & _ & _ & ->)]; [| lia].
    exact (Hbound j r s n Hj' Hn').
  - intros i r s c nr' ns' n Hi Hq Hc Hst Hn.
    assert (Hqi : q !! i = Some (r, s)).
    { apply lookup_app_Some in Hq. destruct Hq as [Hq | [Hge Hq]]; [exact Hq |].
      apply lookup_lt_Some in Hhead. lia. }
    destruct (Hedges i r s c nr' ns' n Hi Hqi Hc Hst
                (Hold _ _ (Hqold i r s Hqi) Hn)) as (m & Hm & Hle).
    exists m. split; [apply Hup; exact Hm | exact Hle].
  - intros s Hs. unfold v'. rewrite lookup_insert_ne; [apply Hroots; exact Hs |].
    intros E. specialize (Hroots s Hs). rewrite <- E in Hroots. congruence.
  - apply Hup. exact Hdepth.
  - apply lookup_app_l_Some. exact Hhead.
Qed.

Lemma Step_explore h rh sh nh cell vq :
  0 <= rh < R -> 0 <= sh < S -> getCell cells rh sh = Some cell ->
  Step h rh sh nh vq -> Step h rh sh nh (explore config cell rh sh vq).
Proof.
  intros Hrh Hsh Hcell. apply (explore_steps config (Step h rh sh nh)).
  intros vq' nr ns Hvq Hstep. eapply Step_visit; eassumption.
Qed.

(* the invariant of the search loop *)
Definition Loop (visited : gmap Z Z) (queue : list (Z * Z)) (head : nat) : Prop :=
  Inv config visited queue
  /\ QueueIn config queue
  /\ queued visited queue
  /\ depthSorted visited queue
  /\ (forall rh sh nh,
        queue !! head = Some (rh, sh) -> rooted visited (key rh sh) nh ->
        depthBound visited queue nh)
  /\ edgesDone visited queue head
  /\ rootsKept visited
  /\ noExit queue head.

Lemma rooted_visited visited k n : rooted visited k n -> is_Some (visited !! k).
Proof. destruct 1; eauto. Qed.

(* where a visited lattice cell sits in the queue *)
Lemma Loop_index visited queue head r s n :
  Loop visited queue head -> 0 <= s < S -> rooted visited (key r s) n ->
  exists i, queue !! i = Some (r, s).
Proof.
  intros (_ & HQ & Hqd & _) Hs Hn.
  destruct (Hqd _ (rooted_visited _ _ _ Hn)) as (i & r' & s' & Hi & Ekey).
  destruct (HQ i r' s' Hi) as [_ Hs'].
  apply (key_inj config HS) in Ekey; [| assumption | assumption].
  destruct Ekey as [-> ->]. eauto.
Qed.

(* every cell fewer moves away than the depth of queue[head] has been
   visited at no greater depth than its distance *)
Lemma Loop_near visited queue head rh sh nh :
  Loop visited queue head ->
  queue !! head = Some (rh, sh) -> rooted visited (key rh sh) nh ->
  forall n r s, reachIn n r s -> (n <= nh)%nat ->
    exists m, rooted visited (key r s) m /\ (m <= n)%nat.
Proof.
  intros HL Hhead Hdepth n r s Hreach.
  pose proof HL as (HI & HQ & Hqd & Hsort & _ & Hedges & Hroots & _).
  induction Hreach as [s Hs | n r s cell nr ns Hreach IH Hcell Hstep]; intros Hle.
  - exists 0%nat. split; [| lia].
    apply rooted_start; [apply Hroots; exact Hs |]. rewrite (key_unfold config). lia.
  - destruct (IH ltac:(lia)) as (m & Hm & Hmn).
    destruct (reachIn_range _ _ _ Hreach) as [Hr Hs].
    destruct (Loop_index visited queue head r s m HL Hs Hm) as [i Hi].
    assert (Hlt : (i < head)%nat).
    { destruct (le_lt_dec head i) as [Hge | Hlt]; [| exact Hlt].
      pose proof (Hsort head i rh sh r s nh m Hge Hhead Hi Hdepth Hm). lia. }
    destruct (Hedges i r s cell nr ns m Hlt Hi Hcell Hstep Hm) as (m' & Hm' & Hle').
    exists m'. split; [exact Hm' | lia].
Qed.

Lemma bfs_shortest fuel : forall visited queue head res,
  Loop visited queue head ->
  bfs cells config exit fuel visited queue head = Some res -> solvable res = true ->
  forall n r s cell,
    reachIn n r s -> key r s ∈ exitCells config exit ->
    getCell cells r s = Some cell -> wallOuter cell = false ->
    (length (path res) <= Datatypes.S n)%nat.
Proof.
  induction fuel as [| fuel IH]; intros visited queue head res HL Hrun Hsolv.
  - cbn [bfs] in Hrun. destruct (queue !! head) as [[cr cs] |]; [discriminate |].
    injection Hrun as <-. discriminate.
  - cbn [bfs] in Hrun.
    destruct (queue !! head) as [[cr cs] |] eqn:Eq.
    2: { injection Hrun as <-. discriminate. }
    pose proof HL as (HI & HQ & Hqd & Hsort & Hb & Hedges & Hroots & Hno).
    destruct (proj1 HI head cr cs Eq) as (_ & _ & [p Hp]).
    destruct (proj2 HI _ _ Hp) as (nh & Hnh & Hlt).
    destruct (HQ head cr cs Eq) as [Hcr Hcs].
    destruct (getCell cells cr cs) as [cell |] eqn:Ecell; [| discriminate].
    destruct (bool_decide (key cr cs ∈ exitCells config exit) && negb (wallOuter cell))
      eqn:Eexit.
    + destruct (reconstruct config (size visited) visited (key cr cs) []) as [pth |] eqn:Erec;
        [| discriminate].
      injection Hrun as <-. cbn [path].
      rewrite (reconstruct_length visited _ nh Hnh _ _ _ Erec). cbn [length].
      intros n r s c Hreach Hexit Hc Hopen.
      destruct (le_lt_dec nh n) as [Hge | Hless]; [lia | exfalso].
      destruct (Loop_near visited queue head cr cs nh HL Eq Hnh n r s Hreach ltac:(lia))
        as (m & Hm & Hmn).
      destruct (reachIn_range _ _ _ Hreach) as [Hr Hs].
      destruct (Loop_index visited queue head r s m HL Hs Hm) as [i Hi].
      assert (Hi' : (i < head)%nat).
      { destruct (le_lt_dec head i) as [Hge | Hi']; [| exact Hi'].
        pose proof (Hsort head i cr cs r s nh m Hge Eq Hi Hnh Hm). lia. }
      rewrite (Hno i r s c Hi' Hi Hc Hexit) in Hopen. discriminate.
    + assert (Hnoexit : key cr cs ∈ exitCells config exit -> wallOuter cell = true).
      { intros Hin. apply andb_false_iff in Eexit. destruct Eexit as [E | E].
        - apply bool_decide_eq_false in E. contradiction.
        - now apply negb_false_iff in E. }
      assert (HStep : Step head cr cs nh (visited, queue)).
      { exact (conj HI (conj HQ (conj Hqd (conj Hsort (conj (Hb cr cs nh Eq Hnh)
                 (conj Hedges (conj Hroots (conj Hnh Eq)))))))). }
      apply (Step_explore head cr cs nh cell _ Hcr Hcs Ecell) in HStep.
      pose proof (explore_covers config cell cr cs (visited, queue)) as Hcov.
      pose proof (explore_queue_old config cell cr cs (visited, queue)) as Hext.
      destruct (explore config cell cr cs (visited, queue)) as [v' q'].
      cbn [fst snd] in *.
      destruct HStep as (HI' & HQ' & Hqd' & Hsort' & Hbound' & Hedges' & Hroots' & Hnh' & Hhead').
      cbn [fst snd] in *.
      apply (IH v' q' (Datatypes.S head) res); [| exact Hrun | exact Hsolv].
      split; [exact HI' | split; [exact HQ' | split; [exact Hqd' | split; [exact Hsort' |]]]].
      split; [| split; [| split; [exact Hroots' |]]].
      * intros rh sh nh' Hh Hn' j r s n Hj Hn.
        pose proof (Hbound' j r s n Hj Hn).
        pose proof (Hsort' head (Datatypes.S head) cr cs rh sh nh nh' ltac:(lia)
                      Hhead' Hh Hnh' Hn').
        lia.
      * intros i r s c nr ns n Hi Hq Hc Hst Hn.
        destruct (decide (i = head)) as [-> | Hne].
        -- rewrite Hhead' in Hq. injection Hq as <- <-.
           rewrite Ecell in Hc. injection Hc as <-.
           rewrite (rooted_fun v' _ n nh Hn Hnh').
           destruct (Hcov nr ns Hst) as [p' Hp'].
           destruct (proj2 HI' _ _ Hp') as (m & Hm & _).
           exists m. split; [exact Hm |].
           destruct (Hqd' _ (ex_intro _ p' Hp')) as (j & r' & s' & Hj & Ekey).
           rewrite Ekey in Hm. exact (Hbound' j r' s' m Hj Hm).
        -- apply (Hedges' i r s c nr ns n); try assumption. lia.
      * intros i r s c Hi Hq Hc Hin.
        destruct (decide (i = head)) as [-> | Hne].
        -- rewrite Hhead' in Hq. injection Hq as <- <-.
           rewrite Ecell in Hc. injection Hc as <-. apply Hnoexit. exact Hin.
        -- assert (Hlen : (i < length queue)%nat).
           { apply lookup_lt_Some in Eq. lia. }
           destruct (lookup_lt_is_Some_2 queue i Hlen) as [c0 Hc0].
           pose proof (Hext i c0 Hc0) as Hc0'. rewrite Hq in Hc0'. injection Hc0' as <-.
           apply (Hno i r s c); try assumption. lia.
Qed.

Lemma root_depth visited k n : visited !! k = Some (-1) -> rooted visited k n -> n = 0%nat.
Proof. intros Hk Hn. destruct Hn as [| k p n Hk' Hp _ _]; [reflexivity | congruence]. Qed.

Lemma seedStarts_Loop : Loop (fst (seedStarts config)) (snd (seedStarts config)) 0.
Proof.
  destruct (seedStarts_SeedInv config) as [HSeed _].
  pose proof (SeedInv_Inv config _ HSeed) as HI.
  destruct (seedStarts_Linked cells config HR) as [_ HQ].
  destruct (seedStarts_Done cells config exit) as (_ & Hqd & Hall).
  assert (Hzero : forall i r s n,
            snd (seedStarts config) !! i = Some (r, s) ->
            rooted (fst (seedStarts config)) (key r s) n -> n = 0%nat).
  { intros i r s n Hi Hn. destruct (proj1 HSeed i r s Hi) as (-> & _ & [p Hp]).
    destruct (proj2 HSeed _ _ Hp) as [-> _]. exact (root_depth _ _ _ Hp Hn). }
  split; [exact HI | split; [exact HQ | split; [exact Hqd |]]].
  split; [| split; [| split; [| split]]].
  - intros i j ri si rj sj ni nj _ Hi Hj Hni Hnj.
    rewrite (Hzero i ri si ni Hi Hni). lia.
  - intros rh sh nh _ _ j r s n Hj Hn. rewrite (Hzero j r s n Hj Hn). lia.
  - intros i r s c nr ns n Hi. lia.
  - intros s Hs. destruct (Hall s Hs) as [p Hp].
    destruct (proj2 HSeed _ _ Hp) as [-> _]. exact Hp.
  - intros i r s c Hi. lia.
Qed.

Lemma solveMaze_shortest res :
  solveMaze cells config exit = Some res -> solvable res = true ->
  forall n r s cell,
    reachIn n r s -> key r s ∈ exitCells config exit ->
    getCell cells r s = Some cell -> wallOuter cell = false ->
    (length (path res) <= Datatypes.S n)%nat.
Proof.
  unfold solveMaze. pose proof seedStarts_Loop as HL.
  destruct (seedStarts config) as [visited queue]. cbn [fst snd] in *.
  apply bfs_shortest. exact HL.
Qed.

End Shortest.
End ShortestFacts.

Module ShortestSpec.
Import Types Solver GridFacts SolverFacts SearchFacts ShortestFacts MazeSpec.
Local Open Scope Z_scope.

(** X22.  The route solveMaze returns is a shortest one: no walk through open
    moves from a ring-0 cell to an exit-sector cell of the last ring whose
    outer wall is removed has fewer cells than the returned path. *)
Theorem solveMaze_route_is_shortest
        (cells : Grid) (config : MazeConfig) (exit : ExitSector) (res : SolveResult) :
  1 <= rings config -> 1 <= slices config ->
  solveMaze cells config exit = Some res -> solvable res = true ->
  forall (w : list (Z * Z)) (s0 se : Z) (cell : MazeCell),
    isWalk cells config w ->
    head w = Some (0, s0) ->
    last w = Some (rings config - 1, se) ->
    (exists i, 0 <= i < sliceCount exit
               /\ se = Z.rem (sliceStart exit + i) (slices config)) ->
    getCell cells (rings config - 1) se = Some cell ->
    wallOuter cell = false ->
    (length (path res) <= length w)%nat.
Proof.
  intros HR HS Hrun Hsolv w s0 se cell Hwalk Hhead Hlast Hexit Hcell Hopen.
  rewrite head_lookup in Hhead. rewrite last_lookup in Hlast.
  pose proof (walk_reachIn cells config w s0 Hwalk Hhead _ _ Hlast) as Hreach.
  cbn [fst snd] in Hreach.
  assert (Hlen : (0 < length w)%nat) by (apply lookup_lt_Some in Hhead; exact Hhead).
  replace (length w) with (Datatypes.S (Init.Nat.pred (length w))) by lia.
  apply (solveMaze_shortest cells config exit HS HR res Hrun Hsolv
           _ (rings config - 1) se cell Hreach); [| exact Hcell | exact Hopen].
  apply (elem_of_exitCells config). destruct Hexit as (i & Hi & ->).
  exists i. split; [exact Hi | reflexivity].
Qed.

Lemma solveMaze_route_is_shortest_witness :
  exists res,
    solveMaze RouteSpec.twoRingGrid RouteSpec.twoRingConfig tinyExit = Some res
    /\ (length (path res) <= 2)%nat.
Proof.
  destruct (solveMaze RouteSpec.twoRingGrid RouteSpec.twoRingConfig tinyExit)
    as [res |] eqn:Hres; [| vm_compute in Hres; discriminate].
  exists res. split; [reflexivity |].
  assert (Hs : solvable res = true)
    by (vm_compute in Hres; injection Hres as <-; reflexivity).
  apply (solveMaze_route_is_shortest RouteSpec.twoRingGrid RouteSpec.twoRingConfig
           tinyExit res ltac:(cbn; lia) ltac:(cbn; lia) Hres Hs
           [(0, 0); (1, 0)] 0 0 (mkCell 1 0 false false true true)).
  - split.
    + intros i a Hi. destruct i as [| [| i]]; cbn in Hi; try discriminate;
        injection Hi as <-; cbn; lia.
    + intros i a b Ha Hb. destruct i as [| i]; cbn in Ha, Hb; [| destruct i; discriminate].
      injection Ha as <-. injection Hb as <-.
      exists (mkCell 0 0 true false true true). split; [reflexivity |].
      right; left. cbn. repeat split; lia.
  - reflexivity.
  - reflexivity.
  - exists 0. cbn. split; [lia | reflexivity].
  - reflexivity.
  - reflexivity.
Defined.

End ShortestSpec.

Module FrameFacts.
Import Rng Types Solver Generator GridFacts RngFacts SolverFacts GeneratorFacts.
Import SearchFacts FallbackFacts.
Local Open Scope Z_scope.

Section PartialCorrectness.
Context {St : Type}.

(* partial correctness: when the computation returns from a state satisfying
   P, the result and the final state satisfy Q *)
Definition pc {A} (P : St -> Prop) (m : M St A) (Q : A -> St -> Prop) : Prop :=
  forall s a s', P s -> m s = Some (a, s') -> Q a s'.

Lemma pc_ret {A} (P : St -> Prop) (a : A) (Q : A -> St -> Prop) :
  (forall s, P s -> Q a s) -> pc P (mret a) Q.
Proof. intros H s a' s' Hs [= <- <-]. auto. Qed.

Lemma pc_throw {A} (P : St -> Prop) (Q : A -> St -> Prop) : pc P throw Q.
Proof. intros s a s' _ [=]. Qed.

Lemma pc_bind {A B} (P : St -> Prop) (m : M St A) (k : A -> M St B)
      (Q : A -> St -> Prop) (R : B -> St -> Prop) :
  pc P m Q -> (forall a, pc (Q a) (k a) R) -> pc P (m ≫= k) R.
Proof.
  intros Hm Hk s b s'' Hs E. unfold mbind, M_bind, bind in E.
  destruct (m s) as [[a s'] |] eqn:Em; [| discriminate].
  exact (Hk a s' b s'' (Hm s a s' Hs Em) E).
Qed.

Lemma pc_weaken {A} (P P' : St -> Prop) (m : M St A) (Q Q' : A -> St -> Prop) :
  pc P' m Q' -> (forall s, P s -> P' s) -> (forall a s, Q' a s -> Q a s) -> pc P m Q.
Proof. intros Hm HP HQ s a s' Hs E. eauto. Qed.

Lemma pc_assume {A} (fact : Prop) (P : St -> Prop) (m : M St A) (Q : A -> St -> Prop) :
  (fact -> pc P m Q) -> pc (fun s => P s /\ fact) m Q.
Proof. intros H s a s' [Hs Hf]. exact (H Hf s a s' Hs). Qed.

Lemma pc_forLoop (I : St -> Prop) (body : Z -> M St unit) n lo :
  (forall i, lo <= i < lo + Z.of_nat n -> pc I (body i) (fun _ => I)) ->
  pc I (forLoop n lo body) (fun _ => I).
Proof.
  revert lo. induction n as [| n IH]; intros lo Hbody.
  - cbn [forLoop]. apply pc_ret. auto.
  - cbn [forLoop]. eapply (pc_bind _ _ _ (fun _ => I)).
    + apply Hbody. lia.
    + intros ?. apply IH. intros i Hi. apply Hbody. lia.
Qed.

Lemma pc_forUpTo (I : St -> Prop) (body : Z -> M St unit) hi :
  (forall i, 0 <= i < hi -> pc I (body i) (fun _ => I)) ->
  pc I (forUpTo hi body) (fun _ => I).
Proof.
  intros Hbody. unfold forUpTo. apply pc_forLoop. intros i Hi. apply Hbody. lia.
Qed.

End PartialCorrectness.

(* c' is c with some of the flags in A cleared and nothing else changed *)
Definition evolves (A : Wall -> Z -> Z -> Prop) (c c' : Grid) : Prop :=
  (forall r s, is_Some (getCell c' r s) <-> is_Some (getCell c r s))
  /\ forall w r s,
       wallAt c' w r s = wallAt c w r s \/ (A w r s /\ wallAt c' w r s = false).

Lemma evolves_refl A c : evolves A c c.
Proof. split; [reflexivity | auto]. Qed.

Lemma evolves_trans A c1 c2 c3 : evolves A c1 c2 -> evolves A c2 c3 -> evolves A c1 c3.
Proof.
  intros [Hd1 Hw1] [Hd2 Hw2]. split.
  - intros r s. rewrite Hd2. apply Hd1.
  - intros w r s. destruct (Hw2 w r s) as [E | H]; [| auto].
    rewrite E. destruct (Hw1 w r s) as [E1 | [HA E1]]; [auto |].
    right. split; [exact HA | congruence].
Qed.

Lemma evolves_weaken (A A' : Wall -> Z -> Z -> Prop) c c' :
  (forall w r s, A w r s -> A' w r s) -> evolves A c c' -> evolves A' c c'.
Proof.
  intros HA [Hd Hw]. split; [exact Hd |].
  intros w r s. destruct (Hw w r s) as [E | [H E]]; auto.
Qed.

Lemma evolves_clear (A : Wall -> Z -> Z -> Prop) x r s c u c' :
  modifyCell (clearOf x) r s c = Some (u, c') ->
  (is_Some (getCell c r s) -> A x r s) -> evolves A c c'.
Proof.
  intros E HA. destruct u.
  assert (Hsome : is_Some (getCell c r s)).
  { unfold modifyCell in E. destruct (getCell c r s); [eauto | discriminate]. }
  destruct (modifyCell_clear _ _ _ _ _ E) as [Hdef Hw].
  split; [exact Hdef |]. intros w r' s'. rewrite Hw.
  destruct (decide (w = x)) as [-> | _]; [| auto].
  destruct (decide (r' = r /\ s' = s)) as [[-> ->] | _]; auto.
Qed.

Lemma wallAt_cell c w r s cell : getCell c r s = Some cell -> wallAt c w r s = wallOf w cell.
Proof. intros H. unfold wallAt. now rewrite H. Qed.

Lemma pc_clear (A : Wall -> Z -> Z -> Prop) g0 x r s :
  (is_Some (getCell g0 r s) -> A x r s) ->
  pc (evolves A g0) (modifyCell (clearOf x) r s) (fun _ => evolves A g0).
Proof.
  intros HA c u c' Hev E. apply evolves_trans with c; [exact Hev |].
  apply (evolves_clear A x r s c u c' E).
  intros Hsome. apply HA. apply (proj1 Hev). exact Hsome.
Qed.

Lemma pc_readCell (P : Grid -> Prop) r s : pc P (readCell r s) (fun _ => P).
Proof.
  intros c a c' Hc E. unfold readCell in E.
  destruct (getCell c r s); [| discriminate]. now injection E as _ <-.
Qed.

(* the two flags removeWall clears for a direction *)
Definition wallsOf (d : Direction) : Wall * Wall :=
  match d with
  | inner => (WInner, WOuter)
  | outer => (WOuter, WInner)
  | cw => (WCW, WCCW)
  | ccw => (WCCW, WCW)
  end.

Lemma removeWall_pair r1 s1 r2 s2 d :
  removeWall r1 s1 r2 s2 d
  = (modifyCell (clearOf (fst (wallsOf d))) r1 s1 ;;
     modifyCell (clearOf (snd (wallsOf d))) r2 s2).
Proof. destruct d; reflexivity. Qed.

Lemma pc_removeWall (A : Wall -> Z -> Z -> Prop) g0 r1 s1 r2 s2 d :
  A (fst (wallsOf d)) r1 s1 -> A (snd (wallsOf d)) r2 s2 ->
  pc (evolves A g0) (removeWall r1 s1 r2 s2 d) (fun _ => evolves A g0).
Proof.
  intros H1 H2. rewrite removeWall_pair.
  eapply pc_bind; [apply pc_clear; auto |].
  intros ?. apply pc_clear. auto.
Qed.

Lemma pc_onCells {A} (P : Grid -> Prop) (m : M Grid A) (Q : A -> Grid -> Prop) :
  pc P m Q -> pc (fun st => P (grid st)) (onCells m) (fun a st => Q a (grid st)).
Proof.
  intros Hm st a st' Hst E. unfold onCells in E.
  destruct (m (grid st)) as [[a' g] |] eqn:Em; [| discriminate].
  injection E as <- <-. cbn [grid]. eauto.
Qed.

Lemma pc_rngNext (P : Grid -> Prop) :
  pc (fun st => P (grid st)) rngNext (fun _ st => P (grid st)).
Proof.
  intros st a st' Hst E. unfold rngNext in E.
  destruct (next (rng st)). injection E as _ <-. exact Hst.
Qed.

Lemma pc_rngNextInt (P : Grid -> Prop) lo hi :
  pc (fun st => P (grid st)) (rngNextInt lo hi)
     (fun v st => P (grid st) /\ (lo < hi -> lo <= v < hi)).
Proof.
  intros st a s' Hst E. unfold rngNextInt in E.
  pose proof (nextInt_range lo hi (rng st)) as Hr.
  destruct (nextInt lo hi (rng st)) as [v r]. injection E as Ea Es.
  subst a s'. cbn [grid fst] in *. auto.
Qed.

Lemma pc_runSolver (P : GenState -> Prop) config exit :
  pc P (runSolver config exit) (fun _ => P).
Proof.
  intros st a st' Hst E. unfold runSolver in E.
  destruct (solveMaze (grid st) config exit); [| discriminate].
  now injection E as _ <-.
Qed.

Section Frame.
Variable config : MazeConfig.
Hypothesis HR : 1 <= rings config.
Hypothesis HS : 1 <= slices config.
Local Abbreviation R := (rings config).
Local Abbreviation S := (slices config).

(* the flags a step may clear: every flag except the outer walls of the last
   ring, and of those the ones of the slices in E *)
Definition allowed (E : Z -> Prop) (w : Wall) (r s : Z) : Prop :=
  w = WOuter -> r = R - 1 -> E s.

(* every cell of the lattice can be reached from ring 0 *)
Definition spanned (g : Grid) : Prop :=
  forall r s, 0 <= r < R -> 0 <= s < S -> reachable g config r s.

Lemma reachable_mono A c c' r s :
  evolves A c c' -> reachable c config r s -> reachable c' config r s.
Proof.
  intros [Hdef Hw] H.
  induction H as [s Hs | r s cell nr ns _ IH Hcell Hstep].
  - apply reach_start. exact Hs.
  - destruct (proj2 (Hdef r s) (ex_intro _ cell Hcell)) as [cell' Hcell'].
    apply (reach_step c' config r s cell' nr ns IH Hcell').
    assert (Hflag : forall w, wallOf w cell = false -> wallOf w cell' = false).
    { intros w Hf. rewrite <- (wallAt_cell c' w r s cell' Hcell').
      destruct (Hw w r s) as [E | [_ E]]; [| exact E].
      rewrite E, (wallAt_cell c w r s cell Hcell). exact Hf. }
    destruct Hstep as [(H1 & H2 & H3) | [(H1 & H2 & H3) | [(H2 & H3) | (H2 & H3)]]].
    + left. split; [exact H1 | split; [exact (Hflag WInner H2) | exact H3]].
    + right; left. split; [exact H1 | split; [exact (Hflag WOuter H2) | exact H3]].
    + right; right; left. split; [exact (Hflag WCW H2) | exact H3].
    + right; right; right. split; [exact (Hflag WCCW H2) | exact H3].
Qed.

Lemma spanned_mono A c c' : evolves A c c' -> spanned c -> spanned c'.
Proof. intros Hev Hsp r s Hr Hs. eapply reachable_mono; [exact Hev | auto]. Qed.

Lemma neighbor_cases cr cs n :
  n ∈ getNeighbors cr cs config ->
  (0 < cr /\ n = mkNeighbor (cr - 1) cs inner)
  \/ (cr < R - 1 /\ n = mkNeighbor (cr + 1) cs outer)
  \/ n = mkNeighbor cr (Z.rem (cs + 1) S) cw
  \/ n = mkNeighbor cr (Z.rem (cs - 1 + S) S) ccw.
Proof.
  unfold getNeighbors. rewrite !elem_of_app. intros [H | [H | [H | H]]].
  - destruct (Z.ltb_spec 0 cr); [| now apply elem_of_nil in H].
    apply list_elem_of_singleton in H. auto.
  - destruct (Z.ltb_spec cr (R - 1)); [| now apply elem_of_nil in H].
    apply list_elem_of_singleton in H. auto.
  - apply list_elem_of_singleton in H. auto.
  - apply list_elem_of_singleton in H. auto.
Qed.

Lemma clear_two (A : Wall -> Z -> Z -> Prop) x r1 s1 y r2 s2 c u c' :
  A x r1 s1 -> A y r2 s2 ->
  (modifyCell (clearOf x) r1 s1 ;; modifyCell (clearOf y) r2 s2) c = Some (u, c') ->
  evolves A c c'
  /\ exists cell, getCell c' r1 s1 = Some cell /\ wallOf x cell = false.
Proof.
  intros H1 H2 E. unfold mbind, M_bind, bind in E.
  destruct (modifyCell (clearOf x) r1 s1 c) as [[u1 c1] |] eqn:E1; [| discriminate].
  assert (Hsome : is_Some (getCell c r1 s1)).
  { unfold modifyCell in E1. destruct (getCell c r1 s1); [eauto | discriminate]. }
  pose proof (evolves_clear A x r1 s1 c u1 c1 E1 (fun _ => H1)) as Hev1.
  pose proof (evolves_clear A y r2 s2 c1 u c' E (fun _ => H2)) as Hev2.
  split; [eapply evolves_trans; eassumption |].
  destruct u, u1.
  destruct (modifyCell_clear _ _ _ _ _ E1) as [Hd1 Hw1].
  destruct (modifyCell_clear _ _ _ _ _ E) as [Hd2 Hw2].
  destruct (proj2 (Hd2 r1 s1) (proj2 (Hd1 r1 s1) Hsome)) as [cell Hcell].
  exists cell. split; [exact Hcell |].
  rewrite <- (wallAt_cell c' x r1 s1 cell Hcell), Hw2.
  assert (F1 : wallAt c1 x r1 s1 = false).
  { rewrite Hw1. rewrite decide_True by reflexivity. now rewrite decide_True by auto. }
  repeat case_decide; auto.
Qed.

Lemma removeWall_effect E cr cs n c u c' :
  n ∈ getNeighbors cr cs config -> cr < R ->
  removeWall cr cs (nring n) (nslice n) (direction n) c = Some (u, c') ->
  evolves (allowed E) c c'
  /\ exists cell,
       getCell c' cr cs = Some cell /\ stepOf config cell cr cs (nring n) (nslice n).
Proof.
  intros Hn Hcr Erw. rewrite removeWall_pair in Erw.
  destruct (neighbor_cases cr cs n Hn) as [[H0 ->] | [[H0 ->] | [-> | ->]]];
    cbn [nring nslice direction wallsOf fst snd] in Erw;
    (eapply (clear_two (allowed E)) in Erw; [| unfold allowed; intros; first [discriminate | lia] ..]);
    destruct Erw as [Hev (cell & Hcell & Hflag)];
    (split; [exact Hev |]); exists cell; (split; [exact Hcell |]);
    cbn [nring nslice wallOf] in *.
  - left. auto.
  - right; left. auto.
  - right; right; left. auto.
  - right; right; right. auto.
Qed.

Lemma cw_neighbor r s :
  mkNeighbor r (Z.rem (s + 1) S) cw ∈ getNeighbors r s config.
Proof.
  unfold getNeighbors. rewrite !elem_of_app. right; right; left.
  apply list_elem_of_singleton. reflexivity.
Qed.

Lemma outer_neighbor r s :
  r < R - 1 -> mkNeighbor (r + 1) s outer ∈ getNeighbors r s config.
Proof.
  intros Hr. unfold getNeighbors. rewrite !elem_of_app. right; left.
  rewrite (proj2 (Z.ltb_lt r (R - 1)) Hr). apply list_elem_of_singleton. reflexivity.
Qed.

(* a set of cells that is closed under getNeighbors and holds a cell of ring 0
   holds every cell of the lattice *)
Lemma closed_covers (V : gset (Z * Z)) s0 :
  0 <= s0 < S -> (0, s0) ∈ V ->
  (forall r s, (r, s) ∈ V ->
     forall n, n ∈ getNeighbors r s config -> (nring n, nslice n) ∈ V) ->
  forall r s, 0 <= r < R -> 0 <= s < S -> (r, s) ∈ V.
Proof.
  intros Hs0 Hin Hclosed.
  assert (Hring : forall r s1, 0 <= s1 < S -> (r, s1) ∈ V ->
                    forall s, 0 <= s < S -> (r, s) ∈ V).
  { intros r s1 Hs1 H1.
    assert (Hk : forall k : nat, (r, (s1 + Z.of_nat k) mod S) ∈ V).
    { induction k as [| k IH].
      - rewrite Z.add_0_r, Z.mod_small by lia. exact H1.
      - pose proof (Hclosed _ _ IH _ (cw_neighbor r ((s1 + Z.of_nat k) mod S))) as Hn.
        cbn [nring nslice] in Hn.
        pose proof (Z.mod_pos_bound (s1 + Z.of_nat k) S ltac:(lia)) as Hb.
        rewrite Z.rem_mod_nonneg in Hn by lia.
        rewrite Z.add_mod_idemp_l in Hn by lia.
        now replace (s1 + Z.of_nat (Datatypes.S k)) with (s1 + Z.of_nat k + 1) by lia. }
    intros s Hs. specialize (Hk (Z.to_nat ((s - s1) mod S))).
    pose proof (Z.mod_pos_bound (s - s1) S ltac:(lia)) as Hb.
    rewrite Z2Nat.id in Hk by lia.
    rewrite Z.add_mod_idemp_r in Hk by lia.
    replace (s1 + (s - s1)) with s in Hk by lia.
    now rewrite Z.mod_small in Hk by lia. }
  assert (Hall : forall n : nat, Z.of_nat n < R -> forall s, 0 <= s < S -> (Z.of_nat n, s) ∈ V).
  { induction n as [| n IH]; intros Hn s Hs.
    - apply (Hring 0 s0 Hs0 Hin s Hs).
    - pose proof (Hclosed _ _ (IH ltac:(lia) s Hs) _
                    (outer_neighbor (Z.of_nat n) s ltac:(lia))) as H1.
      cbn [nring nslice] in H1.
      now replace (Z.of_nat (Datatypes.S n)) with (Z.of_nat n + 1) by lia. }
  intros r s Hr Hs. specialize (Hall (Z.to_nat r)).
  rewrite Z2Nat.id in Hall by lia. apply Hall; lia.
Qed.

Lemma weighted_nil visited nbrs n :
  length (weightedNeighbors visited nbrs) = 0%nat ->
  n ∈ nbrs -> (nring n, nslice n) ∈ visited.
Proof.
  intros Hlen Hin. apply length_zero_iff_nil in Hlen.
  destruct (decide ((nring n, nslice n) ∈ visited)) as [Hv | Hv]; [exact Hv | exfalso].
  assert (Hm : In n (weightedNeighbors visited nbrs)).
  { unfold weightedNeighbors. apply in_flat_map. exists n.
    split; [apply list_elem_of_In; exact Hin |].
    rewrite bool_decide_eq_false_2 by exact Hv.
    destruct (direction n); cbn; auto. }
  rewrite Hlen in Hm. destruct Hm.
Qed.

(* the depth-first search of carveSpanningTree: the stack holds visited cells,
   every visited cell can be reached, and a visited cell that has left the
   stack has no unvisited neighbor *)
Definition Dfs (visited : gset (Z * Z)) (stack : list (Z * Z)) (g : Grid) : Prop :=
  (exists s0, 0 <= s0 < S /\ (0, s0) ∈ visited)
  /\ (forall c, c ∈ stack -> c ∈ visited)
  /\ (forall r s, (r, s) ∈ visited ->
        (0 <= r < R /\ 0 <= s < S) /\ reachable g config r s)
  /\ (forall r s, (r, s) ∈ visited -> (r, s) ∉ stack ->
        forall n, n ∈ getNeighbors r s config -> (nring n, nslice n) ∈ visited).

Definition Ev (E : Z -> Prop) (g0 : Grid) (st : GenState) : Prop :=
  evolves (allowed E) g0 (grid st).

Lemma carveLoop_spans E g0 fuel : forall visited stack,
  pc (fun st => Ev E g0 st /\ Dfs visited stack (grid st))
     (carveLoop fuel config visited stack)
     (fun _ st => Ev E g0 st /\ spanned (grid st)).
Proof.
  assert (Hdone : forall visited g,
            Dfs visited [] g -> spanned g).
  { intros visited g ((s0 & Hs0 & Hin) & _ & Hreach & Hclosed) r s Hr Hs.
    apply Hreach.
    apply (closed_covers visited s0 Hs0 Hin); [| exact Hr | exact Hs].
    intros r' s' Hv. apply Hclosed; [exact Hv |]. apply not_elem_of_nil. }
  induction fuel as [| fuel IH]; intros visited stack.
  - destruct stack as [| [cr cs] rest]; cbn [carveLoop]; [| apply pc_throw].
    apply pc_ret. intros st [Hev Hd]. split; [exact Hev | eapply Hdone; exact Hd].
  - destruct stack as [| [cr cs] rest]; cbn [carveLoop].
    { apply pc_ret. intros st [Hev Hd]. split; [exact Hev | eapply Hdone; exact Hd]. }
    set (weighted := weightedNeighbors visited (getNeighbors cr cs config)).
    destruct (Nat.eqb_spec (length weighted) 0) as [Hempty | Hsome].
    + eapply pc_weaken; [apply (IH visited rest) | | auto].
      intros st [Hev (Hstart & Hstack & Hreach & Hclosed)].
      split; [exact Hev |]. split; [exact Hstart |].
      split; [intros c Hc; apply Hstack; now right |].
      split; [exact Hreach |].
      intros r s Hv Hnot n Hn.
      destruct (decide ((r, s) = (cr, cs))) as [[= -> ->] | Hne].
      * exact (weighted_nil visited _ n Hempty Hn).
      * apply (Hclosed r s Hv); [| exact Hn].
        intros Hin. apply elem_of_cons in Hin. destruct Hin as [Heq | Hin]; auto.
    + eapply pc_bind.
      * apply (pc_rngNextInt (fun g => evolves (allowed E) g0 g /\ Dfs visited ((cr, cs) :: rest) g)).
      * intros i. cbn beta.
        destruct (if 0 <=? i then weighted !! Z.to_nat i else None) as [chosen |] eqn:Hch;
          [| apply pc_throw].
        assert (Hin : chosen ∈ weighted).
        { destruct (0 <=? i); [| discriminate]. eapply list_elem_of_lookup_2. exact Hch. }
        apply weighted_elem in Hin. destruct Hin as [Hnb Hfresh].
        eapply pc_bind; [| intros u; apply IH].
        intros st u st' [[Hev (Hstart & Hstack & Hreach & Hclosed)] _] Erun.
        unfold onCells in Erun.
        destruct (removeWall cr cs (nring chosen) (nslice chosen) (direction chosen) (grid st))
          as [[u' g'] |] eqn:Erw; [| discriminate].
        injection Erun as _ <-. cbn [grid]. unfold Ev. cbn [grid].
        destruct (Hreach cr cs (Hstack _ ltac:(left))) as [[Hcr Hcs] Hrc].
        destruct (removeWall_effect E cr cs chosen (grid st) u' g' Hnb ltac:(lia) Erw)
          as [Hstep (cell & Hcell & Hmove)].
        destruct (getNeighbors_partner config HS cr cs chosen Hcr Hcs Hnb) as (Hnr & Hns & _).
        split; [eapply evolves_trans; eassumption |].
        split; [destruct Hstart as (s0 & Hs0 & Hin0); exists s0; split;
                  [exact Hs0 | apply elem_of_union_r; exact Hin0] |].
        split.
        { intros c Hc. apply elem_of_cons in Hc. destruct Hc as [-> | Hc];
            [apply elem_of_union_l, elem_of_singleton; reflexivity |].
          apply elem_of_union_r. apply Hstack. exact Hc. }
        split.
        { intros r s Hv. apply elem_of_union in Hv. destruct Hv as [Hv | Hv].
          - apply elem_of_singleton in Hv. injection Hv as -> ->.
            split; [auto |].
            apply (reach_step g' config cr cs cell _ _); [| exact Hcell | exact Hmove].
            eapply reachable_mono; eassumption.
          - destruct (Hreach r s Hv) as [Hl Hr']. split; [exact Hl |].
            eapply reachable_mono; eassumption. }
        intros r s Hv Hnot n Hn.
        apply elem_of_union in Hv. destruct Hv as [Hv | Hv].
        { exfalso. apply Hnot. apply elem_of_singleton in Hv. rewrite Hv. left. }
        apply elem_of_union_r. apply (Hclosed r s Hv); [| exact Hn].
        intros Hin. apply Hnot. now right.
Qed.

Lemma carveSpanningTree_spans E g0 :
  pc (Ev E g0) (carveSpanningTree config) (fun _ st => Ev E g0 st /\ spanned (grid st)).
Proof.
  unfold carveSpanningTree. cbv zeta.
  eapply pc_bind; [apply (pc_rngNextInt (evolves (allowed E) g0)) |].
  intros startS. cbn beta.
  eapply pc_weaken; [apply (carveLoop_spans E g0) | | auto].
  intros st [Hev Hrange]. specialize (Hrange ltac:(lia)).
  split; [exact Hev |]. split; [exists startS; split; [exact Hrange | apply elem_of_singleton; reflexivity] |].
  split; [intros c Hc; apply list_elem_of_singleton in Hc; apply elem_of_singleton; exact Hc |].
  split.
  - intros r s Hv. apply elem_of_singleton in Hv. injection Hv as -> ->.
    split; [lia |]. apply reach_start. exact Hrange.
  - intros r s Hv Hnot. exfalso. apply Hnot. apply elem_of_singleton in Hv.
    rewrite Hv. left.
Qed.

(* --- the passes after the spanning tree -------------------------- *)

Lemma pc_clear_st E g0 x r s :
  (is_Some (getCell g0 r s) -> allowed E x r s) ->
  pc (Ev E g0) (onCells (modifyCell (clearOf x) r s)) (fun _ => Ev E g0).
Proof.
  intros HA. apply (pc_onCells (evolves (allowed E) g0) _ (fun _ => evolves (allowed E) g0)).
  apply pc_clear. exact HA.
Qed.

Lemma pc_removeWall_st E g0 r1 s1 r2 s2 d :
  allowed E (fst (wallsOf d)) r1 s1 -> allowed E (snd (wallsOf d)) r2 s2 ->
  pc (Ev E g0) (onCells (removeWall r1 s1 r2 s2 d)) (fun _ => Ev E g0).
Proof.
  intros H1 H2.
  apply (pc_onCells (evolves (allowed E) g0) _ (fun _ => evolves (allowed E) g0)).
  apply pc_removeWall; assumption.
Qed.

Lemma pc_readCell_st E g0 r s :
  pc (Ev E g0) (onCells (readCell r s)) (fun _ => Ev E g0).
Proof.
  apply (pc_onCells (evolves (allowed E) g0) _ (fun _ => evolves (allowed E) g0)).
  apply pc_readCell.
Qed.

Lemma openEntryHoles_frame E g0 :
  pc (Ev E g0) (openEntryHoles config) (fun _ => Ev E g0).
Proof.
  unfold openEntryHoles. cbv zeta.
  eapply pc_bind; [apply (pc_rngNextInt (evolves (allowed E) g0)) |].
  intros offset. cbn beta. apply pc_assume. intros ?.
  apply pc_forUpTo. intros i Hi.
  apply (pc_clear_st E g0 WInner). intros _ [=].
Qed.

Lemma addExtraOpenings_frame E g0 params :
  pc (Ev E g0) (addExtraOpenings config params) (fun _ => Ev E g0).
Proof.
  unfold addExtraOpenings. cbv zeta.
  apply pc_forUpTo. intros k Hk.
  eapply pc_bind; [apply (pc_rngNextInt (evolves (allowed E) g0)) |].
  intros r. cbn beta. apply pc_assume. intros Hr. specialize (Hr ltac:(lia)).
  eapply pc_bind; [apply (pc_rngNextInt (evolves (allowed E) g0)) |].
  intros s. cbn beta. apply pc_assume. intros ?.
  eapply pc_bind; [apply pc_readCell_st |]. intros cell.
  eapply pc_bind; [apply (pc_rngNext (evolves (allowed E) g0)) |]. intros v.
  destruct (Qlt_le_dec v 0.7).
  - eapply (pc_bind _ _ _ (fun _ => Ev E g0)).
    + destruct ((0 <? r) && wallInner cell).
      * eapply pc_bind; [apply (pc_rngNext (evolves (allowed E) g0)) |].
        intros v'. apply pc_ret. auto.
      * apply pc_ret. auto.
    + intros [|].
      * apply pc_removeWall_st; cbn [wallsOf fst snd]; unfold allowed; intros; [discriminate | lia].
      * destruct (Z.ltb_spec r (R - 1)) as [Hlt | Hge]; cbn [andb].
        -- destruct (wallOuter cell); [| apply pc_ret; auto].
           apply pc_removeWall_st; cbn [wallsOf fst snd]; unfold allowed; intros;
             [lia | discriminate].
        -- apply pc_ret. auto.
  - destruct (wallCW cell); [| apply pc_ret; auto].
    apply pc_removeWall_st; cbn [wallsOf fst snd]; unfold allowed; intros; discriminate.
Qed.

Lemma capRadialWalls_frame E g0 params :
  pc (Ev E g0) (capRadialWalls config params) (fun _ => Ev E g0).
Proof.
  assert (Hpair : forall r s,
            pc (Ev E g0)
               (onCells (modifyCell (withWallCW false) r s);;
                onCells (modifyCell (withWallCCW false) r (Z.rem (s + 1) S)))
               (fun _ => Ev E g0)).
  { intros r s. eapply pc_bind; [apply (pc_clear_st E g0 WCW); intros _ [=] |].
    intros ?. apply (pc_clear_st E g0 WCCW). intros _ [=]. }
  unfold capRadialWalls.
  apply pc_forUpTo. intros r Hr. apply pc_forUpTo. intros s Hs.
  eapply pc_bind; [apply pc_readCell_st |]. intros cell.
  destruct (negb (wallCW cell)); [apply pc_ret; auto |].
  destruct (Z.rem r 2 =? 1); [apply Hpair |].
  eapply pc_bind; [apply (pc_rngNext (evolves (allowed E) g0)) |]. intros v.
  destruct (Qlt_le_dec (radialDensity params) v); [apply Hpair | apply pc_ret; auto].
Qed.

Lemma placeExit_frame g0 params :
  pc (Ev (fun _ => False) g0) (placeExit config params)
     (fun e => Ev (exitSlice config e) g0).
Proof.
  unfold placeExit.
  eapply (pc_bind _ _ _ (fun _ => Ev (fun _ => False) g0)).
  - destruct (0 <=? exitOffset params).
    + apply pc_ret. auto.
    + eapply pc_weaken; [apply (pc_rngNextInt (evolves (allowed (fun _ => False)) g0)) | auto |].
      intros v st [H _]. exact H.
  - intros start. cbv zeta.
    set (e := mkExit start (Z.min (exitWidth params) S)).
    eapply (pc_bind _ _ _ (fun _ => Ev (exitSlice config e) g0)).
    + eapply pc_weaken with (P' := Ev (exitSlice config e) g0)
                            (Q' := fun _ => Ev (exitSlice config e) g0); [| | auto].
      * apply pc_forUpTo. intros i Hi.
        apply (pc_clear_st (exitSlice config e) g0 WOuter).
        intros _ _ _. exists i. cbn [sliceCount sliceStart e]. auto.
      * intros st Hst. eapply evolves_weaken; [| exact Hst].
        intros w r s H Hw Hr'. destruct (H Hw Hr').
    + intros ?. apply pc_ret. auto.
Qed.

Lemma ensurePathToExit_frame E g0 e :
  pc (evolves (allowed E) g0) (ensurePathToExit config e) (fun _ => evolves (allowed E) g0).
Proof.
  unfold ensurePathToExit. cbv zeta.
  apply pc_forUpTo. intros r Hr.
  eapply (pc_bind _ _ _ (fun _ => evolves (allowed E) g0)); [apply pc_readCell |].
  intros c1.
  eapply (pc_bind _ _ _ (fun _ => evolves (allowed E) g0)).
  - destruct (wallOuter c1); [| apply pc_ret; auto].
    eapply (pc_bind _ _ _ (fun _ => evolves (allowed E) g0)); [apply pc_readCell |].
    intros c2. apply pc_ret. auto.
  - intros [|]; [| apply pc_ret; auto].
    eapply pc_bind; [apply (pc_clear _ g0 WOuter); intros _ _ ?; lia |].
    intros ?. apply (pc_clear _ g0 WInner). intros _ [=].
Qed.

(* lifting a frame fact to the invariant of an attempt *)
Lemma frame_lift E {A} (m : M GenState A) :
  (forall g, pc (Ev E g) m (fun _ => Ev E g)) ->
  forall g0,
    pc (fun st => Ev E g0 st /\ spanned (grid st)) m
       (fun _ st => Ev E g0 st /\ spanned (grid st)).
Proof.
  intros H g0 st a st' [Hev Hsp] Erun.
  pose proof (H (grid st) st a st' (evolves_refl _ _) Erun) as H1.
  split; [exact (evolves_trans _ _ _ _ Hev H1) |].
  exact (spanned_mono _ _ _ H1 Hsp).
Qed.

Lemma attemptMaze_frame params g0 :
  pc (fun st => grid st = g0) (attemptMaze config params)
     (fun es st => evolves (allowed (exitSlice config (fst es))) g0 (grid st)
                   /\ spanned (grid st)).
Proof.
  unfold attemptMaze.
  eapply (pc_bind _ _ _ (fun _ st => Ev (fun _ => False) g0 st /\ spanned (grid st))).
  { eapply pc_weaken;
      [apply (carveSpanningTree_spans (fun _ => False) g0) | | intros a s H; exact H].
    intros st <-. apply evolves_refl. }
  intros ?. eapply pc_bind; [apply frame_lift; intros g; apply openEntryHoles_frame |].
  intros ?. eapply pc_bind; [apply frame_lift; intros g; apply addExtraOpenings_frame |].
  intros ?. eapply pc_bind; [apply frame_lift; intros g; apply capRadialWalls_frame |].
  intros ?.
  eapply (pc_bind _ _ _ (fun e st => Ev (exitSlice config e) g0 st /\ spanned (grid st))).
  { intros st e st' [Hev Hsp] Erun.
    pose proof (placeExit_frame (grid st) params st e st' (evolves_refl _ _) Erun) as H1.
    pose proof (placeExit_frame g0 params st e st' Hev Erun) as H2.
    split; [exact H2 | exact (spanned_mono _ _ _ H1 Hsp)]. }
  intros e.
  eapply (pc_bind _ _ _ (fun _ st => Ev (exitSlice config e) g0 st /\ spanned (grid st))).
  { apply frame_lift. intros g.
    apply (pc_onCells (evolves (allowed (exitSlice config e)) g) _
                      (fun _ => evolves (allowed (exitSlice config e)) g)).
    apply ensurePathToExit_frame. }
  intros ?. eapply pc_bind; [apply pc_runSolver |].
  intros sol. apply pc_ret. auto.
Qed.

(* --- the fallback maze ------------------------------------------- *)

Lemma getCell_createEmptyGrid_range r s :
  is_Some (getCell (createEmptyGrid config) r s) -> 0 <= r < R /\ 0 <= s < S.
Proof.
  unfold getCell, createEmptyGrid. intros [c H].
  destruct (Z.leb_spec 0 r) as [Hr |]; [| discriminate].
  destruct (Z.leb_spec 0 s) as [Hs |]; [| discriminate].
  cbn [andb] in H.
  destruct (_ !! Z.to_nat r) as [row |] eqn:Erow; [| discriminate].
  pose proof (lookup_lt_Some _ _ _ Erow) as Hlr.
  rewrite length_map, length_seqZ in Hlr.
  apply list_elem_of_lookup_2 in Erow. apply list_elem_of_In, in_map_iff in Erow.
  destruct Erow as (r' & <- & _).
  pose proof (lookup_lt_Some _ _ _ H) as Hls.
  rewrite length_map, length_seqZ in Hls. lia.
Qed.

Lemma fallback_frame params m :
  generateFallbackMaze config params = Some m ->
  evolves (allowed (exitSlice config (exit m))) (createEmptyGrid config) (cells m).
Proof.
  unfold generateFallbackMaze. cbv zeta.
  set (g0 := createEmptyGrid config).
  set (A := allowed (exitSlice config (mkExit 0 2))).
  match goal with
  | |- match ?b g0 with _ => _ end = _ -> _ => set (build := b)
  end.
  assert (Hbuild : pc (evolves A g0) build (fun _ => evolves A g0)).
  { unfold build.
    eapply (pc_bind _ _ _ (fun _ => evolves A g0)).
    - apply pc_forUpTo. intros r Hr.
      eapply (pc_bind _ _ _ (fun _ => evolves A g0)).
      + apply pc_forUpTo. intros s Hs.
        eapply pc_bind; [apply (pc_clear A g0 WCW); intros _ [=] |].
        intros ?. apply (pc_clear A g0 WCCW). intros _ [=].
      + intros ?. destruct (Z.ltb_spec r (R - 1)) as [Hlt | Hge]; [| apply pc_ret; auto].
        eapply pc_bind; [apply (pc_clear A g0 WOuter); intros _ _ ?; lia |].
        intros ?. apply (pc_clear A g0 WInner). intros _ [=].
    - intros ?.
      eapply pc_bind.
      + apply (pc_clear A g0 WOuter). intros Hsome _ _.
        exists 0. cbn [sliceCount sliceStart]. split; [lia |].
        symmetry. apply Z.rem_0_l. lia.
      + intros ?. apply (pc_clear A g0 WOuter). intros Hsome _ _.
        apply getCell_createEmptyGrid_range in Hsome.
        exists 1. cbn [sliceCount sliceStart]. split; [lia |].
        symmetry. apply Z.rem_small. lia. }
  destruct (build g0) as [[u g] |] eqn:Eb; [| discriminate].
  intros [= <-]. cbn [cells exit].
  exact (Hbuild g0 u g (evolves_refl _ _) Eb).
Qed.

Lemma generateLoop_frame params n seed0 m :
  generateLoop n config params seed0 = Some m ->
  evolves (allowed (exitSlice config (exit m))) (createEmptyGrid config) (cells m)
  /\ spanned (cells m).
Proof.
  revert seed0. induction n as [| n IH]; intros seed0; cbn [generateLoop].
  - intros Hm. split; [apply (fallback_frame params); exact Hm |].
    destruct (fallback_build_opened config HR HS params m Hm) as [Hg _].
    intros r s Hr Hs.
    pose proof (reach_all config HS (cells m) Hg (Z.to_nat r) s) as H.
    rewrite Z2Nat.id in H by lia. apply H; lia.
  - destruct (negb (checkGeometricConstraints config)); [apply IH |].
    destruct (attemptMaze config params (mkGen (createEmptyGrid config) (createRNG seed0)))
      as [[[e sol] st] |] eqn:E; [| discriminate].
    destruct (solvable sol); [| apply IH].
    intros [= <-]. cbn [cells exit].
    exact (attemptMaze_frame params (createEmptyGrid config)
             (mkGen (createEmptyGrid config) (createRNG seed0)) (e, sol) st eq_refl E).
Qed.

End Frame.

Lemma generateMaze_frame config params m :
  1 <= rings config -> 1 <= slices config ->
  generateMaze config params = Some m ->
  evolves (allowed config (exitSlice config (exit m))) (createEmptyGrid config) (cells m)
  /\ spanned config (cells m).
Proof. intros HR HS. unfold generateMaze. apply generateLoop_frame; assumption. Qed.

End FrameFacts.

Module LayoutSpec.
Import Rng Types Solver Generator GridFacts RngFacts SolverFacts GeneratorFacts.
Import SearchFacts FallbackFacts FrameFacts MazeSpec.
Local Open Scope Z_scope.

(** X20.  In every maze generateMaze returns the outer boundary is closed
    except at the exit: on the last ring the outer wall of a slice is removed
    exactly when the slice belongs to the exit sector. *)
Theorem generateMaze_boundary_closed_outside_exit
        (config : MazeConfig) (params : GenerationParams) (m : MazeData) :
  1 <= rings config -> 1 <= slices config ->
  generateMaze config params = Some m ->
  forall s, 0 <= s < slices config ->
    (wallAt (cells m) WOuter (rings config - 1) s = false
     <-> exists i, 0 <= i < sliceCount (exit m)
                   /\ s = Z.rem (sliceStart (exit m) + i) (slices config)).
Proof.
  intros HR HS Hm s Hs. split.
  - intros Hopen.
    destruct (generateMaze_frame config params m HR HS Hm) as [[_ Hw] _].
    destruct (Hw WOuter (rings config - 1) s) as [E | [HA _]].
    + rewrite Hopen in E. unfold wallAt in E.
      rewrite (getCell_createEmptyGrid config) in E by lia. discriminate.
    + exact (HA eq_refl eq_refl).
  - intros Hexit.
    destruct (generateMaze_Good config params m HR HS Hm) as ((_ & _ & Hk) & _).
    apply Hk. split; [reflexivity | split; [reflexivity | exact Hexit]].
Qed.

(** X21.  Every maze generateMaze returns is connected: each cell of the
    lattice can be reached from ring 0 through open moves, so no part of the
    maze is sealed off. *)
Theorem generateMaze_fully_connected
        (config : MazeConfig) (params : GenerationParams) (m : MazeData) :
  1 <= rings config -> 1 <= slices config ->
  generateMaze config params = Some m ->
  forall r s, 0 <= r < rings config -> 0 <= s < slices config ->
    reachable (cells m) config r s.
Proof.
  intros HR HS Hm.
  exact (proj2 (generateMaze_frame config params m HR HS Hm)).
Qed.

Lemma generateMaze_boundary_closed_outside_exit_witness :
  exists m,
    generateMaze sampleConfig defaultGenerationParams = Some m
    /\ (wallAt (cells m) WOuter 3 0 = false
        <-> exists i, 0 <= i < sliceCount (exit m)
                      /\ 0 = Z.rem (sliceStart (exit m) + i) 8).
Proof.
  destruct (generateMaze_returns sampleConfig defaultGenerationParams
              ltac:(cbn; lia) ltac:(cbn; lia)) as [m Hm].
  exists m. split; [exact Hm |].
  exact (generateMaze_boundary_closed_outside_exit sampleConfig defaultGenerationParams m
           ltac:(cbn; lia) ltac:(cbn; lia) Hm 0 ltac:(cbn; lia)).
Defined.

Lemma generateMaze_fully_connected_witness :
  exists m,
    generateMaze sampleConfig defaultGenerationParams = Some m
    /\ reachable (cells m) sampleConfig 3 5.
Proof.
  destruct (generateMaze_returns sampleConfig defaultGenerationParams
              ltac:(cbn; lia) ltac:(cbn; lia)) as [m Hm].
  exists m. split; [exact Hm |].
  exact (generateMaze_fully_connected sampleConfig defaultGenerationParams m
           ltac:(cbn; lia) ltac:(cbn; lia) Hm 3 5 ltac:(cbn; lia) ltac:(cbn; lia)).
Defined.

End LayoutSpec.

Module RngSpec.
Import Rng RngFacts.
Local Open Scope Z_scope.

(* the generator after n calls of next *)
Fixpoint advance (n : nat) (rng : RNG) : RNG :=
  match n with
  | O => rng
  | S n' => advance n' (snd (next rng))
  end.

(* the first n numbers next returns *)
Fixpoint stream (n : nat) (rng : RNG) : list Q :=
  match n with
  | O => []
  | S n' => fst (next rng) :: stream n' (snd (next rng))
  end.

Lemma toInt32_range z : - 2 ^ 31 <= toInt32 z < 2 ^ 31.
Proof.
  unfold toInt32. pose proof (Z.mod_pos_bound (z + 2 ^ 31) (2 ^ 32) ltac:(lia)). lia.
Qed.

Lemma toInt32_small z : - 2 ^ 31 <= z < 2 ^ 31 -> toInt32 z = z.
Proof. intros Hz. unfold toInt32. rewrite Z.mod_small by lia. lia. Qed.

Lemma toInt32_wrap z k : toInt32 (z + k * 2 ^ 32) = toInt32 z.
Proof.
  unfold toInt32. replace (z + k * 2 ^ 32 + 2 ^ 31) with (z + 2 ^ 31 + k * 2 ^ 32) by lia.
  now rewrite Z.mod_add by lia.
Qed.

Lemma or32_zero z : or32 z 0 = toInt32 z.
Proof. unfold or32. rewrite (toInt32_small 0) by lia. apply Z.lor_0_r. Qed.

Lemma state_next rng : - 2 ^ 31 <= state (snd (next rng)) < 2 ^ 31.
Proof. unfold next. cbn [snd state]. rewrite or32_zero. apply toInt32_range. Qed.

Lemma next_state_only rng rng' :
  state rng = state rng' ->
  fst (next rng) = fst (next rng') /\ state (snd (next rng)) = state (snd (next rng')).
Proof. intros E. unfold next. cbn [fst snd state]. rewrite E. auto. Qed.

Lemma stream_state_only n : forall rng rng',
  state rng = state rng' -> stream n rng = stream n rng'.
Proof.
  induction n as [| n IH]; intros rng rng' E; [reflexivity |].
  cbn [stream]. destruct (next_state_only rng rng' E) as [E1 E2].
  rewrite E1. f_equal. apply IH. exact E2.
Qed.

(** X7.  next returns a number in [0, 1) and leaves a 32-bit signed state;
    nextInt(min, max) returns an integer in [min, max) and nextFloat(min, max)
    a number in [min, max) when min < max; nextInt(min, min) is min.  Each of
    them advances the generator by exactly one call of next. *)
Theorem rng_outputs_in_range (rng : RNG) :
  ((0 <= fst (next rng))%Q /\ (fst (next rng) < 1)%Q
   /\ - 2 ^ 31 <= state (snd (next rng)) < 2 ^ 31
   /\ seed (snd (next rng)) = seed rng)
  /\ (forall min max : Z,
        snd (nextInt min max rng) = snd (next rng)
        /\ (min < max -> min <= fst (nextInt min max rng) < max)
        /\ (min = max -> fst (nextInt min max rng) = min))
  /\ (forall min max : Q,
        snd (nextFloat min max rng) = snd (next rng)
        /\ ((min < max)%Q ->
            (min <= fst (nextFloat min max rng))%Q /\ (fst (nextFloat min max rng) < max)%Q)).
Proof.
  pose proof (next_range rng) as [H0 H1].
  split; [| split].
  - split; [exact H0 | split; [exact H1 | split; [apply state_next | reflexivity]]].
  - intros lo hi. split; [| split].
    + unfold nextInt. destruct (next rng); reflexivity.
    + apply nextInt_range.
    + intros ->. unfold nextInt. destruct (next rng) as [v r]. cbn [fst].
      rewrite Z.sub_diag.
      assert (E : (v * inject_Z 0 == 0)%Q) by ring.
      rewrite E. reflexivity.
  - intros lo hi. split.
    + unfold nextFloat. destruct (next rng); reflexivity.
    + intros Hlt. unfold nextFloat. destruct (next rng) as [v r]. cbn [fst] in *.
      split; nra.
Qed.

(** X8.  The seed is taken modulo 2^32: two seeds that differ by a multiple of
    2^32 start the generator in the same state and give the same numbers. *)
Theorem createRNG_seed_wraps (seed0 k : Z) (n : nat) :
  state (createRNG (seed0 + k * 2 ^ 32)) = state (createRNG seed0)
  /\ - 2 ^ 31 <= state (createRNG seed0) < 2 ^ 31
  /\ stream n (createRNG (seed0 + k * 2 ^ 32)) = stream n (createRNG seed0)
  /\ (- 2 ^ 31 <= seed0 < 2 ^ 31 -> state (createRNG seed0) = seed0).
Proof.
  assert (E : state (createRNG (seed0 + k * 2 ^ 32)) = state (createRNG seed0)).
  { unfold createRNG. cbn [state]. rewrite !or32_zero. apply toInt32_wrap. }
  split; [exact E | split; [| split]].
  - unfold createRNG. cbn [state]. rewrite or32_zero. apply toInt32_range.
  - apply stream_state_only. exact E.
  - intros Hs. unfold createRNG. cbn [state]. rewrite or32_zero. apply toInt32_small. exact Hs.
Qed.

(* --- shuffle ---------------------------------------------------- *)

Lemma swap_spec {T} (arr : list T) (i j : nat) :
  (i < length arr)%nat -> (j < length arr)%nat ->
  exists arr', swap arr i j = Some arr' /\ arr' ≡ₚ arr /\ length arr' = length arr.
Proof.
  intros Hi Hj. unfold swap.
  destruct (lookup_lt_is_Some_2 arr i Hi) as [ai Hai].
  destruct (lookup_lt_is_Some_2 arr j Hj) as [aj Haj].
  rewrite Hai, Haj. eexists. split; [reflexivity |].
  split; [| now rewrite !length_insert].
  destruct (decide (i = j)) as [-> | Hne].
  - assert (ai = aj) by congruence. subst aj.
    rewrite list_insert_insert_eq. rewrite list_insert_id by exact Hai. reflexivity.
  - apply Permutation_inj.
    split; [now rewrite !length_insert |].
    exists (fun n => if decide (n = j) then i else if decide (n = i) then j else n).
    split.
    + intros a b E. repeat case_decide; subst; congruence.
    + intros n. destruct (decide (n = j)) as [-> | Hnj].
      * rewrite list_lookup_insert_eq by (rewrite length_insert; exact Hj).
        symmetry. exact Hai.
      * rewrite list_lookup_insert_ne by congruence.
        destruct (decide (n = i)) as [-> | Hni].
        -- rewrite list_lookup_insert_eq by exact Hi. symmetry. exact Haj.
        -- rewrite list_lookup_insert_ne by congruence. reflexivity.
Qed.

Lemma shuffleFrom_spec {T} (i : nat) : forall (arr : list T) (rng : RNG),
  (i < length arr)%nat ->
  exists arr',
    shuffleFrom i arr rng = Some (arr', advance i rng)
    /\ arr' ≡ₚ arr /\ length arr' = length arr.
Proof.
  induction i as [| i IH]; intros arr rng Hi.
  - exists arr. cbn. auto.
  - cbn [shuffleFrom advance].
    pose proof (nextInt_range 0 (Z.of_nat (S i) + 1) rng ltac:(lia)) as Hj.
    assert (Ernd : snd (nextInt 0 (Z.of_nat (S i) + 1) rng) = snd (next rng))
      by (unfold nextInt; destruct (next rng); reflexivity).
    destruct (nextInt 0 (Z.of_nat (S i) + 1) rng) as [j rng'].
    cbn [fst snd] in *. subst rng'.
    rewrite (proj2 (Z.leb_le 0 j)) by lia.
    destruct (swap_spec arr (S i) (Z.to_nat j) Hi ltac:(lia)) as (arr1 & E1 & Hp1 & Hl1).
    rewrite E1.
    destruct (IH arr1 (snd (next rng)) ltac:(lia)) as (arr2 & E2 & Hp2 & Hl2).
    exists arr2. split; [exact E2 |].
    split; [now rewrite Hp2 | lia].
Qed.

(** X9.  shuffle always returns, and what it returns is a rearrangement of its
    argument: the same elements with the same multiplicities.  It calls next
    once for every element but the first, and leaves an array of at most one
    element and the generator untouched. *)
Theorem shuffle_is_permutation {T} (arr : list T) (rng : RNG) :
  exists arr',
    shuffle arr rng = Some (arr', advance (length arr - 1) rng)
    /\ arr' ≡ₚ arr
    /\ length arr' = length arr
    /\ ((length arr <= 1)%nat -> arr' = arr /\ advance (length arr - 1) rng = rng).
Proof.
  unfold shuffle. destruct arr as [| a arr].
  - exists []. cbn. auto.
  - destruct (shuffleFrom_spec (length (a :: arr) - 1) (a :: arr) rng)
      as (arr' & E & Hp & Hl); [cbn [length]; lia |].
    exists arr'. split; [exact E | split; [exact Hp | split; [exact Hl |]]].
    intros Hle. cbn [length] in Hle.
    assert (Hz : (length (a :: arr) - 1 = 0)%nat) by (cbn [length]; lia).
    rewrite Hz in E. cbn [shuffleFrom advance] in E. injection E as <-.
    rewrite Hz. auto.
Qed.

End RngSpec.

Module ContactSpec.
Import Physics Collision Tolerance CollisionSpec PhysicsSpec.
Local Open Scope R_scope.

Lemma circleVsSegment_cases ball seg :
  circleVsSegment ball seg
  = if Rlt_dec (segLenSq seg) EPS then mkResult false (0, 0) 0
    else if Rle_dec (radius ball) (segDistance ball seg) then mkResult false (0, 0) 0
    else if Rlt_dec (segDistance ball seg) EPS then mkResult false (0, 0) 0
    else mkResult true
           ((x ball - fst (closestPoint ball seg)) / segDistance ball seg,
            (y ball - snd (closestPoint ball seg)) / segDistance ball seg)
           (radius ball - segDistance ball seg).
Proof. reflexivity. Qed.

Lemma segDistance_sq ball seg :
  segDistance ball seg * segDistance ball seg
  = (x ball - fst (closestPoint ball seg)) * (x ball - fst (closestPoint ball seg))
    + (y ball - snd (closestPoint ball seg)) * (y ball - snd (closestPoint ball seg)).
Proof. unfold segDistance, distTo. apply sqrt_sqrt, sumsq_nonneg. Qed.

(* what a hit tells *)
Lemma hit_facts ball seg :
  hit (circleVsSegment ball seg) = true ->
  EPS <= segLenSq seg
  /\ EPS <= segDistance ball seg < radius ball
  /\ normal (circleVsSegment ball seg)
     = ((x ball - fst (closestPoint ball seg)) / segDistance ball seg,
        (y ball - snd (closestPoint ball seg)) / segDistance ball seg)
  /\ penetration (circleVsSegment ball seg) = radius ball - segDistance ball seg
  /\ fst (normal (circleVsSegment ball seg)) * fst (normal (circleVsSegment ball seg))
     + snd (normal (circleVsSegment ball seg)) * snd (normal (circleVsSegment ball seg)) = 1.
Proof.
  rewrite circleVsSegment_cases.
  assert (HE : 0 < EPS) by (unfold EPS; lra).
  destruct (Rlt_dec (segLenSq seg) EPS); [discriminate |].
  destruct (Rle_dec (radius ball) (segDistance ball seg)); [discriminate |].
  destruct (Rlt_dec (segDistance ball seg) EPS); [discriminate |].
  intros _. cbn [hit normal penetration fst snd].
  split; [lra | split; [lra | split; [reflexivity | split; [reflexivity |]]]].
  pose proof (segDistance_sq ball seg) as Hd.
  field_simplify_eq; [| lra]. lra.
Qed.

Lemma bounceBall_position ball n p :
  x (bounceBall ball n p) = x ball + fst n * p
  /\ y (bounceBall ball n p) = y ball + snd n * p
  /\ radius (bounceBall ball n p) = radius ball.
Proof.
  unfold bounceBall. cbn [x y vx vy radius].
  destruct (Rlt_dec _ 0); cbn [x y radius]; auto.
Qed.


(* the parameter of the closest point from the projection w of the center *)
Lemma clamp_param_cases w L :
  0 < L ->
  (w <= 0 -> Rmax 0 (Rmin 1 (w / L)) = 0)
  /\ (L <= w -> Rmax 0 (Rmin 1 (w / L)) = 1).
Proof.
  intros HL. split; intros Hw.
  - assert (Hq : w / L <= 0).
    { unfold Rdiv. assert (0 < / L) by (apply Rinv_0_lt_compat; exact HL). nra. }
    rewrite Rmin_right by lra. apply Rmax_left. exact Hq.
  - assert (Hq : 1 <= w / L).
    { apply Rmult_le_reg_r with L; [exact HL |]. unfold Rdiv.
      rewrite Rmult_assoc, Rinv_l by lra. lra. }
    rewrite Rmin_left by exact Hq. apply Rmax_right. lra.
Qed.

(** X10.  The push-out of bounceBall moves the center to one radius from the
    segment: after a hit the closest point of the segment is the same and the
    distance of the center to it is the radius.  A second test of the same
    segment is therefore on the threshold of circleVsSegment, radius <= dist,
    where the last bit of the computed distance decides. *)
Theorem bounceBall_pushes_out_to_radius (ball : Ball) (seg : Segment) :
  hit (circleVsSegment ball seg) = true ->
  let ball' := bounceBall ball (normal (circleVsSegment ball seg))
                          (penetration (circleVsSegment ball seg)) in
  closestPoint ball' seg = closestPoint ball seg
  /\ segDistance ball' seg = radius ball
  /\ radius ball' = radius ball.
Proof.
  intros Hhit. cbv zeta.
  destruct (hit_facts ball seg Hhit) as (HL & [Hd0 Hd1] & Hn & Hp & _).
  assert (HE : 0 < EPS) by (unfold EPS; lra).
  set (res := circleVsSegment ball seg) in *.
  destruct (bounceBall_position ball (normal res) (penetration res)) as (Ex & Ey & Er).
  set (ball' := bounceBall ball (normal res) (penetration res)) in *.
  rewrite Hn, Hp in Ex, Ey. cbn [fst snd] in Ex, Ey.
  set (d := segDistance ball seg) in *.
  pose proof (segDistance_sq ball seg) as Hsq. fold d in Hsq.
  pose proof (closestParam_cases ball seg ltac:(lra)) as Hc. cbv zeta in Hc.
  assert (Hparam : closestParam ball' seg = closestParam ball seg).
  { unfold closestPoint, pointAt in Ex, Ey. cbn [fst snd] in Ex, Ey.
    set (t := closestParam ball seg) in *.
    set (L := segLenSq seg) in *.
    set (w := (x ball - x1 seg) * (x2 seg - x1 seg) + (y ball - y1 seg) * (y2 seg - y1 seg)) in *.
    assert (Hw' : (x ball' - x1 seg) * (x2 seg - x1 seg) + (y ball' - y1 seg) * (y2 seg - y1 seg)
                  = (radius ball / d) * (w - t * L) + t * L).
    { rewrite Ex, Ey. unfold w, L, segLenSq. field. lra. }
    assert (Hk : 0 < radius ball / d) by (apply Rdiv_lt_0_compat; lra).
    unfold closestParam at 1. fold L. rewrite Hw'.
    assert (HL0 : 0 < L) by lra.
    assert (Et : t = Rmax 0 (Rmin 1 (w / L))) by reflexivity.
    clear Ex Ey Hw' Hsq. clearbody t w L.
    destruct Hc as [[Ht Hle] | [[Ht Hle] | Heq]].
    - subst t. apply (proj1 (clamp_param_cases _ L HL0)). nra.
    - subst t. apply (proj2 (clamp_param_cases _ L HL0)). nra.
    - rewrite <- Heq at 1.
      replace (radius ball / d * (t * L - t * L) + t * L) with (t * L) by ring.
      rewrite Heq. symmetry. exact Et. }
  assert (Hpoint : closestPoint ball' seg = closestPoint ball seg)
    by (unfold closestPoint; now rewrite Hparam).
  assert (Hdist : segDistance ball' seg = radius ball).
  { unfold segDistance, distTo. rewrite Hpoint, Ex, Ey.
    set (px := x ball - fst (closestPoint ball seg)) in *.
    set (py := y ball - snd (closestPoint ball seg)) in *.
    replace ((x ball + px / d * (radius ball - d) - fst (closestPoint ball seg))
             * (x ball + px / d * (radius ball - d) - fst (closestPoint ball seg))
             + (y ball + py / d * (radius ball - d) - snd (closestPoint ball seg))
               * (y ball + py / d * (radius ball - d) - snd (closestPoint ball seg)))
      with (radius ball * radius ball).
    - apply sqrt_square. lra.
    - unfold px, py in *. field_simplify_eq; [| lra].
      set (a := x ball - fst (closestPoint ball seg)) in *.
      set (b := y ball - snd (closestPoint ball seg)) in *.
      replace (x ball) with (a + fst (closestPoint ball seg)) by (unfold a; ring).
      replace (y ball) with (b + snd (closestPoint ball seg)) by (unfold b; ring).
      nra. }
  split; [exact Hpoint | split; [exact Hdist | exact Er]].
Qed.

Lemma bounceBall_pushes_out_to_radius_witness :
  hit (circleVsSegment (mkBall 0 1 0 (-5) 2) (mkSegment (-1) 0 1 0)) = true
  /\ segDistance
       (bounceBall (mkBall 0 1 0 (-5) 2)
                   (normal (circleVsSegment (mkBall 0 1 0 (-5) 2) (mkSegment (-1) 0 1 0)))
                   (penetration (circleVsSegment (mkBall 0 1 0 (-5) 2) (mkSegment (-1) 0 1 0))))
       (mkSegment (-1) 0 1 0) = 2.
Proof.
  assert (Hhit : hit (circleVsSegment (mkBall 0 1 0 (-5) 2) (mkSegment (-1) 0 1 0)) = true).
  { rewrite circleVsSegment_cases.
    assert (HL : segLenSq (mkSegment (-1) 0 1 0) = 4) by (unfold segLenSq; cbn; ring).
    assert (Ht : closestParam (mkBall 0 1 0 (-5) 2) (mkSegment (-1) 0 1 0) = / 2).
    { unfold closestParam. rewrite HL. cbn [x y x1 y1 x2 y2].
      replace (((0 - -1) * (1 - -1) + (1 - 0) * (0 - 0)) / 4) with (/ 2) by field.
      rewrite Rmin_right by lra. apply Rmax_right. lra. }
    assert (Hd : segDistance (mkBall 0 1 0 (-5) 2) (mkSegment (-1) 0 1 0) = 1).
    { unfold segDistance, closestPoint, pointAt, distTo. rewrite Ht.
      cbn [x y x1 y1 x2 y2 fst snd].
      replace ((0 - (-1 + / 2 * (1 - -1))) * (0 - (-1 + / 2 * (1 - -1)))
               + (1 - (0 + / 2 * (0 - 0))) * (1 - (0 + / 2 * (0 - 0)))) with 1 by field.
      apply sqrt_1. }
    rewrite HL, Hd. unfold EPS. cbn [radius].
    destruct (Rlt_dec 4 1e-10); [lra |].
    destruct (Rle_dec 2 1); [lra |].
    destruct (Rlt_dec 1 1e-10); [lra | reflexivity]. }
  split; [exact Hhit |].
  exact (proj1 (proj2 (bounceBall_pushes_out_to_radius _ _ Hhit))).
Defined.

(* --- all segments ----------------------------------------------- *)



(* --- arcs ------------------------------------------------------- *)

Lemma tessellateArc_lookup cx cy r theta1 theta2 n (i : nat) :
  (Z.of_nat i < n)%Z ->
  tessellateArc cx cy r theta1 theta2 n !! i
  = Some (mkSegment
            (cx + r * cos (theta1 + INR i * ((theta2 - theta1) / IZR n)))
            (cy + r * sin (theta1 + INR i * ((theta2 - theta1) / IZR n)))
            (cx + r * cos (theta1 + INR (S i) * ((theta2 - theta1) / IZR n)))
            (cy + r * sin (theta1 + INR (S i) * ((theta2 - theta1) / IZR n)))).
Proof.
  intros Hi. unfold tessellateArc. cbv zeta.
  rewrite list_lookup_fmap, lookup_seqZ_lt by lia.
  cbn [fmap option_fmap option_map]. rewrite Z.add_0_l.
  rewrite !INR_IZR_INZ. rewrite Nat2Z.inj_succ. unfold Z.succ. reflexivity.
Qed.

(** X12.  tessellateArc(cx, cy, r, theta1, theta2, n) returns n segments (none
    when n <= 0) whose end points all lie on the circle of radius r around
    (cx, cy); each segment starts where the one before it ends, the first
    starts at angle theta1 and the last ends at angle theta2, and all have the
    same squared length 2 r^2 (1 - cos((theta2 - theta1) / n)). *)
Theorem tessellateArc_chain (cx cy r theta1 theta2 : R) (n : Z) :
  let arc := tessellateArc cx cy r theta1 theta2 n in
  length arc = Z.to_nat n
  /\ (forall i seg, arc !! i = Some seg ->
        (x1 seg - cx) * (x1 seg - cx) + (y1 seg - cy) * (y1 seg - cy) = r * r
        /\ (x2 seg - cx) * (x2 seg - cx) + (y2 seg - cy) * (y2 seg - cy) = r * r
        /\ segLenSq seg = 2 * (r * r) * (1 - cos ((theta2 - theta1) / IZR n)))
  /\ (forall i seg next, arc !! i = Some seg -> arc !! S i = Some next ->
        x1 next = x2 seg /\ y1 next = y2 seg)
  /\ (forall seg, head arc = Some seg ->
        x1 seg = cx + r * cos theta1 /\ y1 seg = cy + r * sin theta1)
  /\ (forall seg, last arc = Some seg ->
        x2 seg = cx + r * cos theta2 /\ y2 seg = cy + r * sin theta2).
Proof.
  cbv zeta.
  assert (Hlen : length (tessellateArc cx cy r theta1 theta2 n) = Z.to_nat n).
  { unfold tessellateArc. cbv zeta. rewrite length_fmap, length_seqZ. reflexivity. }
  assert (Hget : forall i seg,
             tessellateArc cx cy r theta1 theta2 n !! i = Some seg ->
             (Z.of_nat i < n)%Z
             /\ seg = mkSegment
                        (cx + r * cos (theta1 + INR i * ((theta2 - theta1) / IZR n)))
                        (cy + r * sin (theta1 + INR i * ((theta2 - theta1) / IZR n)))
                        (cx + r * cos (theta1 + INR (S i) * ((theta2 - theta1) / IZR n)))
                        (cy + r * sin (theta1 + INR (S i) * ((theta2 - theta1) / IZR n)))).
  { intros i seg Hi. pose proof (lookup_lt_Some _ _ _ Hi) as Hlt. rewrite Hlen in Hlt.
    assert (Hin : (Z.of_nat i < n)%Z) by lia. split; [exact Hin |].
    rewrite (tessellateArc_lookup _ _ _ _ _ _ _ Hin) in Hi. congruence. }
  split; [exact Hlen | split; [| split; [| split]]].
  - intros i seg Hi. destruct (Hget i seg Hi) as [_ ->].
    cbn [x1 y1 x2 y2]. set (d := (theta2 - theta1) / IZR n).
    set (a1 := theta1 + INR i * d). set (a2 := theta1 + INR (S i) * d).
    pose proof (sin2_cos2 a1) as H1. pose proof (sin2_cos2 a2) as H2.
    unfold Rsqr in H1, H2.
    split; [| split].
    + replace (cx + r * cos a1 - cx) with (r * cos a1) by ring.
      replace (cy + r * sin a1 - cy) with (r * sin a1) by ring. nra.
    + replace (cx + r * cos a2 - cx) with (r * cos a2) by ring.
      replace (cy + r * sin a2 - cy) with (r * sin a2) by ring. nra.
    + unfold segLenSq. cbn [x1 y1 x2 y2].
      assert (Ed : d = a2 - a1) by (unfold a1, a2; rewrite S_INR; ring).
      rewrite Ed, cos_minus. nra.
  - intros i seg next Hi Hn.
    destruct (Hget i seg Hi) as [_ ->]. destruct (Hget (S i) next Hn) as [_ ->].
    cbn [x1 y1 x2 y2]. auto.
  - intros seg Hh. rewrite head_lookup in Hh. destruct (Hget 0%nat seg Hh) as [_ ->].
    cbn [x1 y1 INR]. rewrite Rmult_0_l, Rplus_0_r. auto.
  - intros seg Hl. rewrite last_lookup, Hlen in Hl.
    destruct (Hget _ seg Hl) as [Hin ->]. cbn [x2 y2].
    assert (Hn : (0 < n)%Z) by lia.
    assert (Es : INR (S (pred (Z.to_nat n))) = IZR n).
    { rewrite INR_IZR_INZ. f_equal. lia. }
    rewrite Es.
    assert (Hne : IZR n <> 0) by (apply not_0_IZR; lia).
    replace (theta1 + IZR n * ((theta2 - theta1) / IZR n)) with theta2 by (field; exact Hne).
    auto.
Qed.

(* --- after a bounce and from rest ------------------------------- *)



(** X14.  One integrateBall step moves the center by at most MAX_SPEED * |dt|
    up to rounding (TOLERANCE on the speed, and TOLERANCE relative to the
    size of the coordinates) and never changes the radius.  A ball at rest, as
    createBall and resetBall leave it, gets the velocity
    FRICTION * GRAVITY * dt * (sin mazeAngle, cos mazeAngle) when that is within
    the speed cap: it starts to fall towards the bottom of the screen. *)
Theorem integrateBall_step_bound (ball : Ball) (dt mazeAngle : R) :
  let ball' := integrateBall ball dt mazeAngle in
  sqrt ((x ball' - x ball) * (x ball' - x ball) + (y ball' - y ball) * (y ball' - y ball))
  <= (MAX_SPEED + Q2R TOLERANCE) * Rabs dt
     + Q2R TOLERANCE * (Rabs (x ball) + Rabs (y ball))
  /\ x ball' = x ball + vx ball' * dt
  /\ y ball' = y ball + vy ball' * dt
  /\ radius ball' = radius ball
  /\ (forall x0 y0,
        speed (resetBall ball x0 y0) = 0
        /\ resetBall ball x0 y0 = createBall x0 y0 (radius ball))
  /\ (vx ball = 0 -> vy ball = 0 ->
      0 <= dt -> FRICTION * GRAVITY * dt <= MAX_SPEED ->
      vx ball' = FRICTION * GRAVITY * dt * sin mazeAngle
      /\ vy ball' = FRICTION * GRAVITY * dt * cos mazeAngle
      /\ speed ball' = FRICTION * GRAVITY * dt).
Proof.
  cbv zeta.
  assert (E : integrateBall ball dt mazeAngle
    = advancePosition dt (clampSpeed (applyFriction (applyGravity dt mazeAngle ball)))).
  { unfold integrateBall, advancePosition, clampSpeed, applyFriction, applyGravity, speed.
    cbn [x y vx vy radius].
    destruct (Rlt_dec MAX_SPEED _); reflexivity. }
  rewrite E.
  set (b := clampSpeed (applyFriction (applyGravity dt mazeAngle ball))).
  assert (Hxy : x b = x ball /\ y b = y ball /\ radius b = radius ball).
  { unfold b, clampSpeed. destruct (Rlt_dec _ _); cbn; auto. }
  destruct Hxy as (Hx & Hy & Hr).
  pose proof (clampSpeed_bound (applyFriction (applyGravity dt mazeAngle ball))) as Hcap.
  fold b in Hcap.
  assert (Hsq : vx b * vx b + vy b * vy b <= MAX_SPEED * MAX_SPEED).
  { pose proof (speed_nonneg b) as H0.
    assert (Hs : speed b * speed b = vx b * vx b + vy b * vy b)
      by (unfold speed; apply sqrt_sqrt, sumsq_nonneg).
    rewrite <- Hs. unfold MAX_SPEED in *. nra. }
  unfold advancePosition. cbn [x y vx vy radius]. rewrite Hx, Hy, Hr.
  split.
  { assert (Htol : 0 < Q2R TOLERANCE).
    { unfold TOLERANCE, Q2R. cbn [Qnum Qden]. lra. }
    assert (Hstep : sqrt ((x ball + vx b * dt - x ball) * (x ball + vx b * dt - x ball)
                          + (y ball + vy b * dt - y ball) * (y ball + vy b * dt - y ball))
                    <= MAX_SPEED * Rabs dt).
    { replace ((x ball + vx b * dt - x ball) * (x ball + vx b * dt - x ball)
               + (y ball + vy b * dt - y ball) * (y ball + vy b * dt - y ball))
        with ((vx b * vx b + vy b * vy b) * (dt * dt)) by ring.
      replace (MAX_SPEED * Rabs dt) with (sqrt (Rsqr (MAX_SPEED * dt))).
      - apply sqrt_le_of_sq; [apply Rle_0_sqr |]. unfold Rsqr.
        replace (MAX_SPEED * dt * (MAX_SPEED * dt))
          with (MAX_SPEED * MAX_SPEED * (dt * dt)) by ring.
        apply Rmult_le_compat_r; [nra | exact Hsq].
      - rewrite sqrt_Rsqr_abs, Rabs_mult. f_equal.
        apply Rabs_pos_eq. unfold MAX_SPEED. lra. }
    pose proof (Rabs_pos dt). pose proof (Rabs_pos (x ball)). pose proof (Rabs_pos (y ball)).
    nra. }
  split; [reflexivity | split; [reflexivity | split; [reflexivity | split]]].
  { intros x0 y0. split; [| reflexivity].
    unfold speed, resetBall. cbn [vx vy].
    replace (0 * 0 + 0 * 0) with 0 by ring. apply sqrt_0. }
  intros Hvx Hvy Hdt Hslow.
  set (k := FRICTION * GRAVITY * dt) in *.
  assert (Hk : 0 <= k) by (unfold k, FRICTION, GRAVITY; nra).
  assert (Hspeed : speed (applyFriction (applyGravity dt mazeAngle ball)) = k).
  { unfold speed, applyFriction, applyGravity. cbn [vx vy]. rewrite Hvx, Hvy.
    replace ((0 + GRAVITY * sin mazeAngle * dt) * FRICTION
             * ((0 + GRAVITY * sin mazeAngle * dt) * FRICTION)
             + (0 + GRAVITY * cos mazeAngle * dt) * FRICTION
               * ((0 + GRAVITY * cos mazeAngle * dt) * FRICTION))
      with (k * k * (Rsqr (sin mazeAngle) + Rsqr (cos mazeAngle)))
      by (unfold k, Rsqr; ring).
    rewrite sin2_cos2, Rmult_1_r. apply sqrt_square. exact Hk. }
  assert (Eb : b = applyFriction (applyGravity dt mazeAngle ball)).
  { unfold b, clampSpeed. rewrite Hspeed.
    destruct (Rlt_dec MAX_SPEED k); [lra | reflexivity]. }
  assert (Hsb : speed b = k) by (rewrite Eb; exact Hspeed).
  split; [| split].
  - rewrite Eb. unfold applyFriction, applyGravity. cbn [vx vy]. rewrite Hvx. unfold k. ring.
  - rewrite Eb. unfold applyFriction, applyGravity. cbn [vx vy]. rewrite Hvy. unfold k. ring.
  - unfold speed in *. cbn [vx vy]. exact Hsb.
Qed.

End ContactSpec.

Module GeometrySpec.
Import Types Generator Tolerance.
Local Open Scope Q_scope.

Lemma inject_Z_nonzero z : z <> 0%Z -> ~ inject_Z z == 0.
Proof.
  intros Hz E. apply Hz. change 0 with (inject_Z 0) in E.
  now apply (proj1 (inject_Z_injective z 0)) in E.
Qed.

Lemma inject_Z_pos z : (0 < z)%Z -> 0 < inject_Z z.
Proof. intros Hz. change 0 with (inject_Z 0). now rewrite <- Zlt_Qlt. Qed.

Lemma inject_Z_nonneg z : (0 <= z)%Z -> 0 <= inject_Z z.
Proof. intros Hz. change 0 with (inject_Z 0). now rewrite <- Zle_Qle. Qed.

Lemma MATH_PI_pos : 0 < MATH_PI.
Proof. reflexivity. Qed.

Lemma ringWidth_times_rings config :
  rings config <> 0%Z ->
  inject_Z (rings config) * ringWidth config == outerRadius config - innerRadius config.
Proof.
  intros Hr. unfold ringWidth. field. apply inject_Z_nonzero. exact Hr.
Qed.

Lemma ringInnerRadius_eq config r :
  ringInnerRadius config r == innerRadius config + inject_Z r * ringWidth config.
Proof. reflexivity. Qed.

Lemma ringOuterRadius_eq config r :
  ringOuterRadius config r == innerRadius config + (inject_Z r + 1) * ringWidth config.
Proof.
  unfold ringOuterRadius, ringWidth. cbv zeta. rewrite inject_Z_plus. reflexivity.
Qed.

(** X15.  The rings tile the annulus between innerRadius and outerRadius: ring
    0 starts at innerRadius, every ring ends where the next one starts, the
    last ring ends at outerRadius, every ring is ringWidth wide, and the
    radii grow from innerRadius to the outer radius of the last ring; the
    slices of a ring add up to the full circle. *)
Theorem rings_tile_the_annulus (config : MazeConfig) :
  rings config <> 0%Z ->
  ringInnerRadius config 0 == innerRadius config
  /\ ringOuterRadius config (rings config - 1) == outerRadius config
  /\ (forall r : Z,
        ringOuterRadius config r == ringInnerRadius config (r + 1)
        /\ ringOuterRadius config r - ringInnerRadius config r == ringWidth config)
  /\ ((0 < rings config)%Z -> innerRadius config <= outerRadius config ->
      forall r : Z, (0 <= r < rings config)%Z ->
        innerRadius config <= ringInnerRadius config r
        /\ ringInnerRadius config r <= ringOuterRadius config r
        /\ ringOuterRadius config r <= ringOuterRadius config (rings config - 1))
  /\ (slices config <> 0%Z ->
      inject_Z (slices config) * sliceAngle (slices config) == 2 * MATH_PI).
Proof.
  intros Hr.
  pose proof (ringWidth_times_rings config Hr) as Hw.
  split; [| split; [| split; [| split]]].
  - rewrite ringInnerRadius_eq. ring.
  - rewrite ringOuterRadius_eq.
    assert (E : inject_Z (rings config - 1) + 1 == inject_Z (rings config)).
    { unfold Qeq, Qplus, inject_Z. cbn [Qnum Qden]. lia. }
    rewrite E, Hw. ring.
  - intros r. rewrite ringOuterRadius_eq, !ringInnerRadius_eq, inject_Z_plus.
    split; ring.
  - intros Hpos Hle r Hrange.
    assert (Hwn : 0 <= ringWidth config).
    { unfold ringWidth. apply Qle_shift_div_l; [apply inject_Z_pos; exact Hpos |]. lra. }
    assert (Hr0 : 0 <= inject_Z r) by (apply inject_Z_nonneg; lia).
    assert (Hr1 : inject_Z r + 1 <= inject_Z (rings config)).
    { change 1 with (inject_Z 1). rewrite <- inject_Z_plus, <- Zle_Qle. lia. }
    assert (Hlast : ringOuterRadius config (rings config - 1) == outerRadius config).
    { rewrite ringOuterRadius_eq.
      assert (E : inject_Z (rings config - 1) + 1 == inject_Z (rings config)).
      { unfold Qeq, Qplus, inject_Z. cbn [Qnum Qden]. lia. }
      rewrite E, Hw. ring. }
    rewrite Hlast, ringOuterRadius_eq, ringInnerRadius_eq.
    split; [nra | split; [nra |]].
    assert (Hmul : (inject_Z r + 1) * ringWidth config
                   <= inject_Z (rings config) * ringWidth config)
      by (apply Qmult_le_compat_r; assumption).
    lra.
  - intros Hs. unfold sliceAngle. field. apply inject_Z_nonzero. exact Hs.
Qed.

Lemma rings_tile_the_annulus_witness :
  ringOuterRadius (mkConfig 7 12 1 50 410 8) 6 == 410.
Proof.
  exact (proj1 (proj2 (rings_tile_the_annulus (mkConfig 7 12 1 50 410 8) ltac:(cbn; lia)))).
Defined.

(* the least ring width and inner arc length the generator accepts *)
Definition minCellHeight (config : MazeConfig) : Q :=
  2 * ballRadius config + GEOMETRIC_MARGIN.

(** X16.  For a lattice of at least one ring and one slice, up to rounding
    (TOLERANCE relative to the radii): checkGeometricConstraints is true only
    when the ring width and the arc length of a slice at innerRadius are both
    at least the ball diameter plus GEOMETRIC_MARGIN, and it is true whenever
    they are; then, for a ball radius that is not negative, every cell of
    every ring is at least that high and at least that long on its inner arc,
    so the ball fits in every cell. *)
Theorem checkGeometricConstraints_ball_fits (config : MazeConfig) :
  (1 <= rings config)%Z ->
  (1 <= slices config)%Z ->
  let tol := slack (innerRadius config) (outerRadius config) in
  (checkGeometricConstraints config = true ->
   minCellHeight config <= ringWidth config + tol
   /\ minCellHeight config <= innerRadius config * sliceAngle (slices config) + tol)
  /\ (minCellHeight config + tol <= ringWidth config ->
      minCellHeight config + tol <= innerRadius config * sliceAngle (slices config) ->
      checkGeometricConstraints config = true)
  /\ (checkGeometricConstraints config = true ->
      0 <= ballRadius config ->
      forall r : Z, (0 <= r < rings config)%Z ->
        minCellHeight config <= ringOuterRadius config r - ringInnerRadius config r + tol
        /\ minCellHeight config <= ringInnerRadius config r * sliceAngle (slices config) + tol).
Proof.
  intros HR HS tol.
  assert (Htol : 0 <= tol).
  { unfold tol, slack, TOLERANCE.
    pose proof (Qabs_nonneg (innerRadius config)). pose proof (Qabs_nonneg (outerRadius config)).
    apply Qmult_le_0_compat; [discriminate | lra]. }
  assert (Hiff : checkGeometricConstraints config = true
            <-> minCellHeight config <= ringWidth config
                /\ minCellHeight config <= innerRadius config * sliceAngle (slices config)).
  { unfold checkGeometricConstraints, minCellHeight, ringWidth. cbv zeta.
    assert (E0 : ringInnerRadius config 0 == innerRadius config)
      by (rewrite ringInnerRadius_eq; ring).
    destruct (Qlt_le_dec _ _) as [H1 | H1].
    - split; [discriminate | intros [H _]; lra].
    - destruct (Qlt_le_dec _ _) as [H2 | H2].
      + split; [discriminate |]. intros [_ H]. rewrite E0 in H2. lra.
      + split; [| reflexivity]. intros _. split; [exact H1 |]. rewrite E0 in H2. exact H2. }
  split; [| split].
  - intros Hgeo. destruct (proj1 Hiff Hgeo) as [Hw Harc]. split; lra.
  - intros Hw Harc. apply (proj2 Hiff). split; lra.
  - intros Hgeo Hball r [Hr _].
    assert (Hs : (0 < slices config)%Z) by lia.
    destruct (proj1 Hiff Hgeo) as [Hw Harc].
    assert (Hmin : 0 < minCellHeight config)
      by (unfold minCellHeight, GEOMETRIC_MARGIN; lra).
    assert (Hsa : 0 < sliceAngle (slices config)).
    { unfold sliceAngle. apply Qlt_shift_div_l; [apply inject_Z_pos; exact Hs |].
      pose proof MATH_PI_pos. lra. }
    assert (Hr0 : 0 <= inject_Z r) by (apply inject_Z_nonneg; exact Hr).
    rewrite ringOuterRadius_eq, ringInnerRadius_eq.
    split; [lra |].
    assert (Hgrow : innerRadius config * sliceAngle (slices config)
                    <= (innerRadius config + inject_Z r * ringWidth config)
                       * sliceAngle (slices config)).
    { apply Qmult_le_compat_r; [| lra].
      assert (0 <= inject_Z r * ringWidth config) by (apply Qmult_le_0_compat; lra). lra. }
    lra.
Qed.

Lemma checkGeometricConstraints_ball_fits_witness :
  checkGeometricConstraints MazeSpec.sampleConfig = true
  /\ minCellHeight MazeSpec.sampleConfig
     <= ringOuterRadius MazeSpec.sampleConfig 3 - ringInnerRadius MazeSpec.sampleConfig 3
        + slack (innerRadius MazeSpec.sampleConfig) (outerRadius MazeSpec.sampleConfig).
Proof.
  pose proof (checkGeometricConstraints_ball_fits MazeSpec.sampleConfig
                ltac:(cbn; lia) ltac:(cbn; lia)) as (_ & Hsuf & Hfit).
  assert (Hgeo : checkGeometricConstraints MazeSpec.sampleConfig = true).
  { apply Hsuf; vm_compute; discriminate. }
  split; [exact Hgeo |].
  refine (proj1 (Hfit Hgeo _ 3%Z _)); [discriminate | cbn; lia].
Defined.

End GeometrySpec.

Module AdaptSpec.
Import Types Profile Mapping Tolerance ProfileSpec MappingSpec.
Local Open Scope Q_scope.

(* --- the profile over a session --------------------------------- *)

(* the profile after the attempts of a session, oldest first *)
Definition learn (ms : list Metrics.AttemptMetrics) : PlayerProfile :=
  foldl updateProfile createProfile ms.

Lemma learn_snoc ms m : learn (ms ++ [m]) = updateProfile (learn ms) m.
Proof. unfold learn. rewrite foldl_app. reflexivity. Qed.

Lemma attempts_learn ms : attempts (learn ms) = Z.of_nat (length ms).
Proof.
  induction ms as [| m ms IH] using rev_ind; [reflexivity |].
  rewrite learn_snoc, length_app. cbn [length].
  unfold updateProfile. destruct (attempts (learn ms) + 1 =? 1)%Z; cbn [attempts]; lia.
Qed.

Lemma ema_between lo hi prev c :
  lo <= prev <= hi -> lo <= c <= hi -> lo <= ema prev c <= hi.
Proof. intros Hp Hc. unfold ema, EMA_ALPHA. split; lra. Qed.

Lemma follows_within f g (lo hi : Q) ms :
  follows f g -> ms <> [] ->
  Forall (fun m => lo <= g m <= hi) ms ->
  lo <= f (learn ms) <= hi.
Proof.
  intros Hf. induction ms as [| m ms IH] using rev_ind; [congruence |].
  intros _ Hall. apply Forall_app in Hall. destruct Hall as [Hms Hm].
  apply Forall_cons in Hm. destruct Hm as [Hm _].
  rewrite learn_snoc, (Hf (learn ms) m), attempts_learn.
  destruct ms as [| m0 ms'].
  - cbn. exact Hm.
  - destruct (Z.eqb_spec (Z.of_nat (length (m0 :: ms')) + 1) 1) as [E | _];
      [cbn [length] in E; lia |].
    apply ema_between; [apply IH; [discriminate | exact Hms] | exact Hm].
Qed.

(** X17.  Over a whole session the profile counts the attempts, and every
    average stays within the bounds of the values it was fed, up to rounding:
    if a snapshot field lies in [lo, hi] in every attempt so far, the profile
    field that follows it lies in [lo, hi] widened by TOLERANCE relative to
    the size of lo and hi. *)
Theorem profile_stays_within_observed (ms : list Metrics.AttemptMetrics) :
  attempts (learn ms) = Z.of_nat (length ms)
  /\ (ms <> [] ->
      Forall (fun fg : (PlayerProfile -> Q) * (Metrics.AttemptMetrics -> Q) =>
                forall lo hi : Q,
                  Forall (fun m => lo <= snd fg m <= hi) ms ->
                  lo - slack lo hi <= fst fg (learn ms) <= hi + slack lo hi)
             tracked).
Proof.
  split; [apply attempts_learn |].
  intros Hne. eapply List.Forall_impl; [| exact tracked_follows].
  intros [f g] Hf lo hi Hall. cbn [fst snd] in *.
  pose proof (follows_within f g lo hi ms Hf Hne Hall) as [H1 H2].
  pose proof (slack_nonneg lo hi). split; lra.
Qed.

(* --- the mapper with an unchanged profile ----------------------- *)

(* the rate-limited tunables with their clamp ranges and the value the
   mapper steers them to *)
Definition steering : list ((GenerationParams -> Q) * Range * (PlayerProfile -> Q)) :=
  [ (wallDensity, CLAMPS.wallDensity, fun p => 0.2 + avgSpeed p / 500);
    (branchiness, CLAMPS.branchiness, fun p => 0.15 + (1 - avgDirChanges p / 50) * 0.3);
    (corridorWidth, CLAMPS.corridorWidth, fun p => 1.5 - avgExploration p * 0.5);
    (radialDensity, CLAMPS.radialDensity, fun p => 0.2 + avgRiskRatio p * 0.15);
    (decoyRate, CLAMPS.decoyRate, fun p => 0.1 + (1 - avgCollisions p / 20) * 0.2);
    (pathLengthBias, CLAMPS.pathLengthBias, fun p => 0.3 + avgSpeed p / 600) ].

(* n successive mapProfileToParams calls with the same profile *)
Fixpoint adaptMany (n : nat) (profile : PlayerProfile) (params : GenerationParams)
  : GenerationParams :=
  match n with
  | O => params
  | S k => mapProfileToParams profile (adaptMany k profile params)
  end.

Definition steers (frt : (GenerationParams -> Q) * Range * (PlayerProfile -> Q)) : Prop :=
  min (snd (fst frt)) <= max (snd (fst frt))
  /\ max (snd (fst frt)) - min (snd (fst frt)) <= 1
  /\ forall profile params,
       (1 <= attempts profile)%Z ->
       fst (fst frt) (mapProfileToParams profile params)
       = clamp (rateLimited (fst (fst frt) params) (snd frt profile) MAX_DELTA)
               (min (snd (fst frt))) (max (snd (fst frt))).

Lemma steering_steers : Forall steers steering.
Proof.
  unfold steering.
  repeat constructor; cbn [fst snd min max]; try (cbn; lra);
    intros profile params Hatt; unfold mapProfileToParams;
    destruct (Z.ltb_spec (attempts profile) 1) as [Hlt | _]; try lia; reflexivity.
Qed.

Lemma clamp_cases v lo hi :
  lo <= hi ->
  (v <= lo /\ clamp v lo hi == lo)
  \/ (hi <= v /\ clamp v lo hi == hi)
  \/ (lo <= v <= hi /\ clamp v lo hi == v).
Proof.
  intros Hle. unfold clamp.
  destruct (Qlt_le_dec v lo) as [H1 | H1].
  - left. split; [lra |]. rewrite Q.min_r by lra. apply Q.max_l. lra.
  - destruct (Qlt_le_dec hi v) as [H2 | H2].
    + right; left. split; [lra |]. rewrite Q.min_l by lra. apply Q.max_r. lra.
    + right; right. split; [lra |]. rewrite Q.min_r by lra. apply Q.max_r. lra.
Qed.

Lemma rateLimited_cases prev target :
  (Qabs (target - prev) <= MAX_DELTA /\ rateLimited prev target MAX_DELTA = target)
  \/ (MAX_DELTA < target - prev /\ rateLimited prev target MAX_DELTA == prev + MAX_DELTA)
  \/ (target - prev < - MAX_DELTA /\ rateLimited prev target MAX_DELTA == prev - MAX_DELTA).
Proof.
  unfold rateLimited.
  destruct (Qle_bool (Qabs (target - prev)) MAX_DELTA) eqn:E.
  - left. apply Qle_bool_iff in E. auto.
  - assert (Hgt : MAX_DELTA < Qabs (target - prev)).
    { apply Qnot_le_lt. intros H. apply Qle_bool_iff in H. congruence. }
    assert (Hd : 0 < MAX_DELTA) by reflexivity.
    unfold sign. destruct (target - prev ?= 0) eqn:C.
    + apply Qeq_alt in C. rewrite Qabs_pos in Hgt by lra. lra.
    + apply Qlt_alt in C. rewrite Qabs_neg in Hgt by lra. right; right. split; [lra | ring].
    + apply Qgt_alt in C. rewrite Qabs_pos in Hgt by lra. right; left. split; [lra | ring].
Qed.

(* one pass moves an in-range value onto the clamped target or a full
   MAX_DELTA towards it *)
Lemma step_progress v t lo hi :
  lo <= hi -> lo <= v <= hi ->
  clamp (rateLimited v t MAX_DELTA) lo hi == clamp t lo hi
  \/ (clamp (rateLimited v t MAX_DELTA) lo hi == v + MAX_DELTA
      /\ v + MAX_DELTA <= clamp t lo hi)
  \/ (clamp (rateLimited v t MAX_DELTA) lo hi == v - MAX_DELTA
      /\ clamp t lo hi <= v - MAX_DELTA).
Proof.
  intros Hle Hv.
  assert (Hd : 0 < MAX_DELTA) by reflexivity.
  destruct (rateLimited_cases v t) as [[Ha ->] | [[Ha Er] | [Ha Er]]].
  - left. reflexivity.
  - destruct (clamp_cases t lo hi Hle) as [[Ht Ec] | [[Ht Ec] | [Ht Ec]]];
      destruct (clamp_cases (rateLimited v t MAX_DELTA) lo hi Hle)
        as [[Hs Es] | [[Hs Es] | [Hs Es]]];
      rewrite Ec, Es; rewrite Er in *; first [left; lra | right; left; split; lra].
  - destruct (clamp_cases t lo hi Hle) as [[Ht Ec] | [[Ht Ec] | [Ht Ec]]];
      destruct (clamp_cases (rateLimited v t MAX_DELTA) lo hi Hle)
        as [[Hs Es] | [[Hs Es] | [Hs Es]]];
      rewrite Ec, Es; rewrite Er in *; first [left; lra | right; right; split; lra].
Qed.

Lemma step_distance_drops v t lo hi :
  lo <= hi -> lo <= v <= hi ->
  Qabs (clamp (rateLimited v t MAX_DELTA) lo hi - clamp t lo hi) == 0
  \/ Qabs (clamp (rateLimited v t MAX_DELTA) lo hi - clamp t lo hi)
     <= Qabs (v - clamp t lo hi) - MAX_DELTA.
Proof.
  intros Hle Hv.
  assert (Hd : 0 < MAX_DELTA) by reflexivity.
  destruct (step_progress v t lo hi Hle Hv) as [E | [[E H] | [E H]]].
  - left. apply Qabs_zero_iff. rewrite E. ring.
  - right. rewrite E. rewrite !Qabs_neg by lra. lra.
  - right. rewrite E. rewrite !Qabs_pos by lra. lra.
Qed.

Lemma steers_settles frt profile params n :
  steers frt -> (1 <= attempts profile)%Z ->
  let f := fst (fst frt) in
  let c := clamp (snd frt profile) (min (snd (fst frt))) (max (snd (fst frt))) in
  (min (snd (fst frt)) <= f (adaptMany (S n) profile params) <= max (snd (fst frt)))
  /\ (Qabs (f (adaptMany (S n) profile params) - c) == 0
      \/ Qabs (f (adaptMany (S n) profile params) - c) <= 1 - inject_Z (Z.of_nat n) * MAX_DELTA).
Proof.
  intros (Hle & Hwidth & Hstep) Hatt f c.
  set (lo := min (snd (fst frt))) in *. set (hi := max (snd (fst frt))) in *.
  assert (Hc : lo <= c <= hi) by (apply clamp_inRange; exact Hle).
  induction n as [| n [Hin IH]].
  - cbn [adaptMany]. unfold f. rewrite (Hstep profile params Hatt). fold lo hi.
    pose proof (clamp_inRange (rateLimited (fst (fst frt) params) (snd frt profile) MAX_DELTA)
                  lo hi Hle) as Hin.
    split; [exact Hin |]. right.
    assert (E0 : 1 - inject_Z (Z.of_nat 0) * MAX_DELTA == 1) by reflexivity.
    rewrite E0. apply Qabs_Qle_condition. split; lra.
  - assert (Hnext : f (adaptMany (S (S n)) profile params)
                    = clamp (rateLimited (f (adaptMany (S n) profile params))
                                         (snd frt profile) MAX_DELTA) lo hi).
    { cbn [adaptMany]. unfold f. rewrite (Hstep profile _ Hatt). reflexivity. }
    rewrite Hnext.
    split; [apply clamp_inRange; exact Hle |].
    destruct (step_distance_drops (f (adaptMany (S n) profile params))
                (snd frt profile) lo hi Hle Hin) as [Hz | Hdrop]; [left; exact Hz |].
    fold c in Hdrop. right.
    assert (Es : inject_Z (Z.of_nat (S n)) == inject_Z (Z.of_nat n) + 1).
    { rewrite Nat2Z.inj_succ. unfold Z.succ. rewrite inject_Z_plus. reflexivity. }
    rewrite Es.
    destruct IH as [Hz | Hle'].
    + rewrite Hz in Hdrop.
      pose proof (Qabs_nonneg (clamp (rateLimited (f (adaptMany (S n) profile params))
                                                  (snd frt profile) MAX_DELTA) lo hi - c)).
      unfold MAX_DELTA in *. lra.
    + lra.
Qed.

(** X18.  With an unchanged profile the mapper settles: after at most 11 calls
    every rate-limited parameter equals its target clamped to its range and
    stays there, exitWidth and exitOffset being set at the first call.  With
    no attempt recorded the mapper returns the parameters it was given. *)
Theorem mapProfileToParams_settles
        (profile : PlayerProfile) (params : GenerationParams) (n : nat) :
  ((attempts profile < 1)%Z -> mapProfileToParams profile params = params)
  /\ ((1 <= attempts profile)%Z -> (11 <= n)%nat ->
      Forall (fun frt : (GenerationParams -> Q) * Range * (PlayerProfile -> Q) =>
                fst (fst frt) (adaptMany n profile params)
                == clamp (snd frt profile) (min (snd (fst frt))) (max (snd (fst frt)))
                /\ fst (fst frt) (adaptMany (S n) profile params)
                   == fst (fst frt) (adaptMany n profile params))
             steering
      /\ exitOffset (adaptMany n profile params) = (-1)%Z
      /\ exitWidth (adaptMany n profile params)
         = (if Qlt_le_dec 60 (avgTime profile) then 2 else 1)%Z).
Proof.
  split.
  - intros Hatt. unfold mapProfileToParams.
    destruct (Z.ltb_spec (attempts profile) 1) as [_ | Hge]; [reflexivity | lia].
  - intros Hatt Hn.
    destruct n as [| k]; [lia |].
    assert (Hsettled : forall frt j, steers frt -> (10 <= j)%nat ->
               fst (fst frt) (adaptMany (S j) profile params)
               == clamp (snd frt profile) (min (snd (fst frt))) (max (snd (fst frt)))).
    { intros frt j Hst Hj.
      pose proof (steers_settles frt profile params j Hst Hatt) as Hs.
      cbv zeta in Hs. destruct Hs as [_ Hs].
      set (d := fst (fst frt) (adaptMany (S j) profile params)
                - clamp (snd frt profile) (min (snd (fst frt))) (max (snd (fst frt)))) in *.
      assert (Hz : Qabs d == 0).
      { destruct Hs as [Hz | Hle]; [exact Hz |].
        assert (H10 : 10 <= inject_Z (Z.of_nat j)).
        { change 10 with (inject_Z 10). rewrite <- Zle_Qle. lia. }
        pose proof (Qabs_nonneg d) as Hnn.
        unfold MAX_DELTA in Hle. lra. }
      apply (proj1 (Qabs_zero_iff d)) in Hz. unfold d in Hz. lra. }
    split; [| split].
    + eapply List.Forall_impl; [| exact steering_steers].
      intros frt Hst.
      pose proof (Hsettled frt k Hst ltac:(lia)) as H1.
      pose proof (Hsettled frt (S k) Hst ltac:(lia)) as H2.
      split; [exact H1 | rewrite H1, H2; reflexivity].
    + cbn [adaptMany]. unfold mapProfileToParams.
      destruct (Z.ltb_spec (attempts profile) 1) as [Hlt | _]; [lia | reflexivity].
    + cbn [adaptMany]. unfold mapProfileToParams.
      destruct (Z.ltb_spec (attempts profile) 1) as [Hlt | _]; [lia | reflexivity].
Qed.

End AdaptSpec.

Module ClockSpec.
Import Time TimeSpec.
Local Open Scope Q_scope.

(* consecutive timestamps (milliseconds) at most MAX_FRAME_TIME apart *)
Fixpoint closeFrames (last : Q) (nows : list Q) : Prop :=
  match nows with
  | [] => True
  | now :: rest => now / 1000 - last <= MAX_FRAME_TIME /\ closeFrames (now / 1000) rest
  end.

Section Clock.
Variable World : Type.
Variable physicsTick : Q -> World -> World.

(* the frame times of a run after the clamp, added up *)
Fixpoint clampedTotal (last : Q) (nows : list Q) : Q :=
  match nows with
  | [] => 0
  | now :: rest => Qmin (now / 1000 - last) MAX_FRAME_TIME + clampedTotal (now / 1000) rest
  end.

Lemma framesExact_clock nows : forall state w alphas final w',
  framesExact World physicsTick state w nows alphas final w' ->
  nonDecreasingFrom (lastTime state) nows ->
  exists n : nat,
    w' = Nat.iter n (physicsTick FIXED_DT) w
    /\ elapsed final == elapsed state + inject_Z (Z.of_nat n) * FIXED_DT
    /\ elapsed final + accumulator final - (elapsed state + accumulator state)
       == clampedTotal (lastTime state) nows
    /\ (closeFrames (lastTime state) nows ->
        clampedTotal (lastTime state) nows == lastTime final - lastTime state)
    /\ (n <= 12 * length nows)%nat.
Proof.
  induction nows as [| now rest IH]; intros state w alphas final w' Hok Hnd.
  - destruct alphas; [| destruct Hok]. destruct Hok as [-> ->].
    exists O. cbn [Nat.iter length clampedTotal]. split; [reflexivity |].
    split; [cbn; ring |]. split; [ring |]. split; [intros _; ring | lia].
  - destruct alphas as [| a alphas]; [destruct Hok |].
    destruct Hok as (state1 & w1 & _ & Hf & Hrest).
    destruct Hnd as [Hle Hnd].
    destruct Hf as (n1 & Hw1 & Hn1 & _ & Hacc & Hel & _ & Hlast & _).
    rewrite <- Hlast in Hnd.
    destruct (IH state1 w1 alphas final w' Hrest Hnd)
      as (n2 & Hw2 & Hel2 & Htot2 & Heq2 & Hn2).
    exists (n2 + n1)%nat.
    assert (Hsum : inject_Z (Z.of_nat (n2 + n1))
                   == inject_Z (Z.of_nat n2) + inject_Z (Z.of_nat n1)).
    { rewrite Nat2Z.inj_add, inject_Z_plus. reflexivity. }
    destruct (clampedFrameTime_bounds state now Hle) as [_ Hmin].
    cbn [clampedTotal]. rewrite Hlast in Htot2, Heq2.
    split; [| split; [| split; [| split]]].
    + rewrite Hw2, Hw1. symmetry. apply Nat.iter_add.
    + rewrite Hel2, Hel, Hsum. ring.
    + rewrite <- Htot2, <- Hmin. lra.
    + intros [Hclose Hrest'].
      rewrite (Heq2 Hrest'), Q.min_l by exact Hclose. ring.
    + cbn [length]. lia.
Qed.

(** X19.  The game clock follows the wall clock.  From a fresh time state and
    timestamps that never decrease, elapsed is FIXED_DT times the number of
    physics ticks run so far, and elapsed + accumulator is the sum of the
    clamped frame times; when no two consecutive timestamps are more than
    MAX_FRAME_TIME apart that sum is the real time since the state was
    created.  Over k calls at most 13 k ticks run: 12 per call in exact
    arithmetic, and one more is allowed for an accumulator that rounding
    leaves just under FIXED_DT. *)
Theorem updateTime_follows_wall_clock (now0 : Q) (w : World) (nows : list Q) :
  nonDecreasingFrom (now0 / 1000) nows ->
  exists alphas final w' (n : nat),
    runFrames World physicsTick (createTimeState now0) w nows = Some (alphas, final, w')
    /\ w' = Nat.iter n (physicsTick FIXED_DT) w
    /\ (n <= 13 * length nows)%nat
    /\ elapsed final == inject_Z (Z.of_nat n) * FIXED_DT
    /\ elapsed final + accumulator final == clampedTotal (now0 / 1000) nows
    /\ (closeFrames (now0 / 1000) nows ->
        clampedTotal (now0 / 1000) nows == lastTime final - now0 / 1000).
Proof.
  intros Hnd.
  assert (Hs : settled (createTimeState now0)).
  { split; cbn [accumulator createTimeState]; [apply Qle_refl | reflexivity]. }
  destruct (runFrames_spec World physicsTick nows (createTimeState now0) w Hs Hnd)
    as (alphas & final & w' & Hrun & Hok & [Hf0 Hf1]).
  destruct (framesExact_clock nows (createTimeState now0) w alphas final w' Hok Hnd)
    as (n & Hw & Hel & Htot & Heq & Hn).
  cbn [createTimeState elapsed accumulator lastTime] in Hel, Htot, Heq.
  exists alphas, final, w', n.
  split; [exact Hrun | split; [exact Hw | split; [lia |]]].
  split; [rewrite Hel; ring |].
  split; [rewrite <- Htot; ring | exact Heq].
Qed.

End Clock.

Lemma updateTime_follows_wall_clock_witness :
  exists alphas final,
    runFrames (list Q) (fun dt w => dt :: w) (createTimeState 0) [] [20; 40; 60]
    = Some (alphas, final, repeat FIXED_DT 7)
    /\ elapsed final + accumulator final == 60 / 1000.
Proof.
  destruct (updateTime_follows_wall_clock (list Q) (fun dt w => dt :: w) 0 [] [20; 40; 60])
    as (alphas & final & w' & n & Hrun & _ & _ & _ & Htot & _).
  - cbn. repeat split; discriminate.
  - exists alphas, final.
    assert (Hl : w' = repeat FIXED_DT 7).
    { pose proof Hrun as Hrun'. vm_compute in Hrun'. injection Hrun' as _ _ <-.
      reflexivity. }
    rewrite Hl in Hrun. split; [exact Hrun |].
    rewrite Htot. reflexivity.
Defined.

End ClockSpec.

Module AngleFacts.
Import Types Physics JSMath.
Local Open Scope R_scope.

Lemma atan2_range y x : - PI < atan2 y x <= PI.
Proof.
  pose proof PI_RGT_0 as Hpi. unfold atan2.
  destruct (Rlt_dec 0 x) as [Hx | Hx].
  - pose proof (atan_bound (y / x)). lra.
  - destruct (Rlt_dec x 0) as [Hx' | Hx'].
    + assert (Hinv : / x < 0) by (apply Rinv_lt_0_compat; exact Hx').
      destruct (Rle_dec 0 y) as [Hy | Hy].
      * assert (Hq : y / x <= 0).
        { unfold Rdiv. replace 0 with (y * 0) by ring.
          apply Rmult_le_compat_l; [exact Hy | lra]. }
        pose proof (atan_bound (y / x)) as Hb.
        assert (atan (y / x) <= 0).
        { destruct Hq as [Hq | Hq]; [| rewrite Hq, atan_0; lra].
          left. rewrite <- atan_0. apply atan_increasing. exact Hq. }
        lra.
      * assert (Hq : 0 < y / x).
        { unfold Rdiv. replace (y * / x) with ((- y) * (- / x)) by ring.
          apply Rmult_lt_0_compat; lra. }
        pose proof (atan_bound (y / x)) as Hb.
        assert (0 < atan (y / x)).
        { rewrite <- atan_0. apply atan_increasing. exact Hq. }
        lra.
    + destruct (Rlt_dec 0 y); [lra |]. destruct (Rlt_dec y 0); lra.
Qed.

Lemma floor_spec v : IZR (floor v) <= v < IZR (floor v) + 1.
Proof. unfold floor. pose proof (base_Int_part v). lra. Qed.

Lemma floor_range v (n : Z) : 0 <= v -> v < IZR n -> (0 <= floor v < n)%Z.
Proof.
  intros H0 Hn. destruct (floor_spec v) as [Hl Hu]. split.
  - apply Z.lt_succ_r. apply lt_IZR. rewrite succ_IZR. lra.
  - apply lt_IZR. lra.
Qed.

Lemma Q2R_inject_Z z : Q2R (inject_Z z) = IZR z.
Proof. unfold Q2R, inject_Z. cbn [Qnum Qden]. lra. Qed.

Lemma MATH_PI_bounds : 3 < Q2R MATH_PI < 4.
Proof. unfold MATH_PI, Q2R. cbn [Qnum Qden]. lra. Qed.

(* the angle of the ball in [0, 2 * Math.PI), as recordTick and checkWin
   compute it *)
Definition ballAngle (ball : Ball) : R :=
  let theta := atan2 (y ball) (x ball) in
  if Rlt_dec theta 0 then theta + 2 * Q2R MATH_PI else theta.

Lemma ballAngle_range ball : 0 <= ballAngle ball < 2 * Q2R MATH_PI.
Proof.
  unfold ballAngle. pose proof (atan2_range (y ball) (x ball)) as Ha.
  pose proof MATH_PI_bounds. pose proof PI_4. pose proof PI2_3_2.
  cbv zeta. destruct (Rlt_dec _ 0); lra.
Qed.

Lemma sliceAngle_real n :
  (1 <= n)%Z ->
  0 < Q2R (sliceAngle n) /\ IZR n * Q2R (sliceAngle n) = 2 * Q2R MATH_PI.
Proof.
  intros Hn. unfold sliceAngle.
  assert (Hnz : ~ (inject_Z n == 0)%Q).
  { intros E. change 0%Q with (inject_Z 0) in E.
    apply (proj1 (inject_Z_injective n 0)) in E. lia. }
  rewrite Q2R_div by exact Hnz. rewrite Q2R_mult, Q2R_inject_Z.
  assert (Hpos : 0 < IZR n) by (apply IZR_lt; lia).
  pose proof MATH_PI_bounds.
  change (Q2R 2) with (Q2R (inject_Z 2)). rewrite Q2R_inject_Z.
  split.
  - apply Rdiv_lt_0_compat; lra.
  - field. lra.
Qed.

(* the slice the ball is in, as recordTick computes it *)
Definition ballSlice (config : MazeConfig) (ball : Ball) : Z :=
  Z.rem (floor (ballAngle ball / Q2R (sliceAngle (slices config)))) (slices config).

Lemma ballSlice_floor config ball :
  (1 <= slices config)%Z ->
  let k := floor (ballAngle ball / Q2R (sliceAngle (slices config))) in
  (0 <= k < slices config)%Z /\ ballSlice config ball = k
  /\ IZR k * Q2R (sliceAngle (slices config)) <= ballAngle ball
  /\ ballAngle ball < (IZR k + 1) * Q2R (sliceAngle (slices config)).
Proof.
  intros HS. cbv zeta.
  destruct (sliceAngle_real (slices config) HS) as [Hsa Hfull].
  destruct (ballAngle_range ball) as [H0 H1].
  unfold ballSlice.
  set (sa := Q2R (sliceAngle (slices config))) in *.
  set (t := ballAngle ball / sa).
  assert (Ht : ballAngle ball = t * sa) by (unfold t; field; lra).
  assert (Ht0 : 0 <= t).
  { unfold t. apply Rmult_le_pos; [exact H0 |]. left. apply Rinv_0_lt_compat. exact Hsa. }
  assert (Htn : t < IZR (slices config)).
  { apply (Rmult_lt_reg_r sa); [exact Hsa |]. rewrite <- Ht, Hfull. exact H1. }
  destruct (floor_range t (slices config) Ht0 Htn) as [Hk0 Hkn].
  destruct (floor_spec t) as [Hl Hu].
  split; [lia |]. split; [apply Z.rem_small; lia |].
  rewrite Ht. split.
  - apply Rmult_le_compat_r; lra.
  - apply Rmult_lt_compat_r; lra.
Qed.

End AngleFacts.

Module TrackerSpec.
Import Types Physics JSMath Tracker AngleFacts.
Local Open Scope R_scope.

(* what the game loop reports to the tracker *)
Inductive Event :=
| Tick (ball : Ball) (mazeAngle dt : R)
| Hit
| Turn.

Definition record (tracker : MetricsTracker) (ev : Event) : MetricsTracker :=
  match ev with
  | Tick ball mazeAngle dt => recordTick tracker ball mazeAngle dt
  | Hit => recordCollision tracker
  | Turn => recordDirectionChange tracker
  end.

Definition play (config : MazeConfig) (now : R) (events : list Event) : MetricsTracker :=
  foldl record (createMetricsTracker config now) events.

Definition isTick (ev : Event) : bool := match ev with Tick _ _ _ => true | _ => false end.
Definition isHit (ev : Event) : bool := match ev with Hit => true | _ => false end.
Definition isTurn (ev : Event) : bool := match ev with Turn => true | _ => false end.

Definition count (p : Event -> bool) (events : list Event) : Z :=
  Z.of_nat (length (List.filter p events)).

Definition inLattice (cfg : MazeConfig) (c : Z * Z) : Prop :=
  (0 <= fst c < rings cfg)%Z /\ (0 <= snd c < slices cfg)%Z.

(* the invariant of a tracker *)
Definition Sound (cfg : MazeConfig) (events : list Event) (t : MetricsTracker) : Prop :=
  config t = cfg
  /\ tickCount t = count isTick events
  /\ collisions t = count isHit events
  /\ dirChanges t = count isTurn events
  /\ (0 <= idleTicks t <= tickCount t)%Z
  /\ (0 <= nearOuterTicks t <= tickCount t)%Z
  /\ 0 <= totalSpeed t
  /\ (forall c, c ∈ visitedCells t -> inLattice cfg c)
  /\ (tickCount t = 0%Z -> totalSpeed t = 0 /\ size (visitedCells t) = 0%nat).

Lemma count_snoc p events ev :
  count p (events ++ [ev]) = (count p events + if p ev then 1 else 0)%Z.
Proof.
  unfold count. rewrite List.filter_app, length_app. cbn [List.filter].
  destruct (p ev); cbn [length]; lia.
Qed.

Lemma count_nonneg p events : (0 <= count p events)%Z.
Proof. unfold count. lia. Qed.

Lemma recordTick_cell tracker ball mazeAngle dt c :
  c ∈ visitedCells (recordTick tracker ball mazeAngle dt) ->
  c ∈ visitedCells tracker
  \/ ((0 <= fst c < rings (config tracker))%Z
      /\ snd c = ballSlice (config tracker) ball).
Proof.
  unfold recordTick. cbv zeta. cbn [visitedCells].
  destruct (Req_dec_T _ 0) as [_ | _]; [auto |].
  destruct ((0 <=? _)%Z && (_ <? _)%Z) eqn:E; [| auto].
  intros Hc. apply elem_of_union in Hc. destruct Hc as [Hc | Hc]; [| auto].
  apply elem_of_singleton in Hc. subst c. cbn [fst snd]. right.
  apply andb_true_iff in E. destruct E as [E1 E2].
  apply Z.leb_le in E1. apply Z.ltb_lt in E2. split; [lia | reflexivity].
Qed.

Lemma Sound_record cfg events t ev :
  (1 <= slices cfg)%Z -> Sound cfg events t -> Sound cfg (events ++ [ev]) (record t ev).
Proof.
  intros HS (Hc & Ht & Hh & Hd & Hi & Hn & Hsp & Hv & Hz).
  rewrite <- Hc in *.
  destruct ev as [ball a dt | |]; cbn [record].
  - split; [reflexivity |].
    split; [unfold recordTick; cbn [tickCount]; rewrite count_snoc, Ht; reflexivity |].
    split; [unfold recordTick; cbn [collisions]; rewrite count_snoc, Hh; cbn [isHit]; lia |].
    split; [unfold recordTick; cbn [dirChanges]; rewrite count_snoc, Hd; cbn [isTurn]; lia |].
    split; [unfold recordTick; cbn [idleTicks tickCount]; destruct (Rlt_dec _ _); lia |].
    split; [unfold recordTick; cbn [nearOuterTicks tickCount]; destruct (Rlt_dec _ _); lia |].
    split.
    + unfold recordTick. cbn [totalSpeed].
      pose proof (sqrt_pos (vx ball * vx ball + vy ball * vy ball)). lra.
    + split.
      * intros c Hin. apply recordTick_cell in Hin. destruct Hin as [Hin | [Hr Hsl]].
        -- apply Hv. exact Hin.
        -- split; [exact Hr |]. rewrite Hsl.
           destruct (ballSlice_floor (config t) ball HS) as (Hk & -> & _). exact Hk.
      * unfold recordTick. cbn [tickCount]. pose proof (count_nonneg isTick events). lia.
  - unfold Sound, recordCollision.
    cbn [config tickCount collisions dirChanges idleTicks nearOuterTicks totalSpeed
         visitedCells].
    rewrite !count_snoc, <- Ht, <- Hh, <- Hd. cbn [isTick isHit isTurn].
    split; [reflexivity |]. split; [lia |]. split; [reflexivity |]. split; [lia |].
    split; [exact Hi |]. split; [exact Hn |]. split; [exact Hsp |].
    split; [exact Hv | exact Hz].
  - unfold Sound, recordDirectionChange.
    cbn [config tickCount collisions dirChanges idleTicks nearOuterTicks totalSpeed
         visitedCells].
    rewrite !count_snoc, <- Ht, <- Hh, <- Hd. cbn [isTick isHit isTurn].
    split; [reflexivity |]. split; [lia |]. split; [lia |]. split; [reflexivity |].
    split; [exact Hi |]. split; [exact Hn |]. split; [exact Hsp |].
    split; [exact Hv | exact Hz].
Qed.

Lemma play_Sound cfg now events :
  (1 <= slices cfg)%Z -> Sound cfg events (play cfg now events).
Proof.
  intros HS. unfold play.
  induction events as [| ev events IH] using rev_ind.
  - cbn [foldl]. unfold Sound, createMetricsTracker, count.
    cbn [config tickCount collisions dirChanges idleTicks nearOuterTicks totalSpeed
         visitedCells List.filter length].
    split; [reflexivity |]. split; [reflexivity |]. split; [reflexivity |].
    split; [reflexivity |]. split; [lia |]. split; [lia |]. split; [lra |].
    split; [intros c Hc; now apply elem_of_empty in Hc |].
    intros _. split; [reflexivity | apply size_empty].
  - rewrite foldl_app. cbn [foldl]. apply Sound_record; assumption.
Qed.

Lemma size_list_to_set_le (l : list (Z * Z)) :
  (size (list_to_set l : gset (Z * Z)) <= length l)%nat.
Proof.
  induction l as [| c l IH]; cbn [list_to_set length].
  - rewrite size_empty. lia.
  - rewrite size_union_alt, size_singleton.
    pose proof (subseteq_size (list_to_set l ∖ {[c]}) (list_to_set l : gset (Z * Z))
                  (subseteq_difference_l _ _ _ (reflexivity _))).
    lia.
Qed.

Lemma lattice_size (cfg : MazeConfig) (v : gset (Z * Z)) :
  (1 <= rings cfg)%Z -> (1 <= slices cfg)%Z ->
  (forall c, c ∈ v -> inLattice cfg c) ->
  (Z.of_nat (size v) <= rings cfg * slices cfg)%Z.
Proof.
  intros HR HS Hv.
  assert (Hsub : v ⊆ list_to_set (GeneratorFacts.gridList cfg)).
  { intros [r s] Hc. apply elem_of_list_to_set. apply GeneratorFacts.elem_of_gridList.
    exact (Hv (r, s) Hc). }
  apply subseteq_size in Hsub.
  pose proof (size_list_to_set_le (GeneratorFacts.gridList cfg)) as Hle.
  rewrite GeneratorFacts.length_gridList in Hle. nia.
Qed.

Lemma ratio_range (a b : Z) : (0 <= a <= b)%Z -> (1 <= b)%Z -> 0 <= IZR a / IZR b <= 1.
Proof.
  intros Ha Hb.
  assert (Hb' : 0 < IZR b) by (apply IZR_lt; lia).
  assert (Ha0 : 0 <= IZR a) by (apply IZR_le; lia).
  assert (Hab : IZR a <= IZR b) by (apply IZR_le; lia).
  split.
  - apply Rmult_le_pos; [exact Ha0 |]. left. apply Rinv_0_lt_compat. exact Hb'.
  - apply (Rmult_le_reg_r (IZR b)); [exact Hb' |].
    unfold Rdiv. rewrite Rmult_assoc, Rinv_l by lra. lra.
Qed.

(** X23.  Whatever the game loop reports, the tracker counts it and its
    snapshot is in range: tickCount, collisionCount and directionChanges are
    the numbers of ticks, collisions and direction changes reported, every
    visited cell is a cell of the lattice, avgSpeed is not negative, idleRatio,
    riskRatio and exploration lie in [0, 1], and won is false; with no tick
    reported the averages and ratios are 0 (no division by zero). *)
Theorem snapshotMetrics_in_range (cfg : MazeConfig) (now : R) (events : list Event) :
  (1 <= rings cfg)%Z -> (1 <= slices cfg)%Z ->
  let t := play cfg now events in
  let m := snapshotMetrics t in
  tickCount t = count isTick events
  /\ Attempt.collisionCount m = count isHit events
  /\ Attempt.directionChanges m = count isTurn events
  /\ (forall c, c ∈ visitedCells t -> inLattice cfg c)
  /\ 0 <= Attempt.avgSpeed m
  /\ 0 <= Attempt.idleRatio m <= 1
  /\ 0 <= Attempt.riskRatio m <= 1
  /\ 0 <= Attempt.exploration m <= 1
  /\ Attempt.won m = false
  /\ (count isTick events = 0%Z ->
      Attempt.avgSpeed m = 0 /\ Attempt.idleRatio m = 0 /\ Attempt.riskRatio m = 0
      /\ Attempt.exploration m = 0).
Proof.
  intros HR HS t m.
  destruct (play_Sound cfg now events HS) as (Hc & Ht & Hh & Hd & Hi & Hn & Hsp & Hv & Hz).
  fold t in Hc, Ht, Hh, Hd, Hi, Hn, Hsp, Hv, Hz.
  pose proof (count_nonneg isTick events) as Hticks. rewrite <- Ht in Hticks.
  assert (Hmax : (1 <= Z.max (tickCount t) 1)%Z) by lia.
  assert (Hmax' : 0 < IZR (Z.max (tickCount t) 1)) by (apply IZR_lt; lia).
  pose proof (lattice_size cfg (visitedCells t) HR HS Hv) as Hsize.
  unfold m, snapshotMetrics. cbv zeta.
  cbn [Attempt.collisionCount Attempt.directionChanges Attempt.avgSpeed Attempt.idleRatio
       Attempt.riskRatio Attempt.exploration Attempt.won].
  rewrite Hc.
  split; [exact Ht |]. split; [exact Hh |]. split; [exact Hd |]. split; [exact Hv |].
  split.
  { apply Rmult_le_pos; [exact Hsp |]. left. apply Rinv_0_lt_compat. exact Hmax'. }
  split; [apply ratio_range; lia |].
  split; [apply ratio_range; lia |].
  split; [apply ratio_range; [lia | nia] |].
  split; [reflexivity |].
  intros Hnone. rewrite <- Ht in Hnone. destruct (Hz Hnone) as [Hs0 Hv0].
  rewrite Hs0, Hv0.
  assert (Ei : idleTicks t = 0%Z) by lia.
  assert (En : nearOuterTicks t = 0%Z) by lia.
  rewrite Ei, En. cbn [Z.of_nat]. unfold Rdiv. rewrite !Rmult_0_l. auto.
Qed.

Lemma snapshotMetrics_in_range_witness :
  let events := [Tick (mkBall 100 0 3 4 8) 0 (1 / 120); Hit; Tick (mkBall 101 0 3 4 8) 0 (1 / 120)] in
  tickCount (play MazeSpec.sampleConfig 0 events) = 2%Z
  /\ 0 <= Attempt.exploration (snapshotMetrics (play MazeSpec.sampleConfig 0 events)) <= 1.
Proof.
  intros events.
  destruct (snapshotMetrics_in_range MazeSpec.sampleConfig 0 events
              ltac:(cbn; lia) ltac:(cbn; lia))
    as (Ht & _ & _ & _ & _ & _ & _ & He & _).
  split; [exact Ht | exact He].
Defined.

End TrackerSpec.

Module RendererSpec.
Import Rng Types Physics Collision Renderer SearchFacts.
Local Open Scope Z_scope.


Lemma cellHash_range ring slice salt :
  (0 <= cellHash ring slice salt)%Q /\ (cellHash ring slice salt <= 1)%Q.
Proof.
  unfold cellHash. cbv zeta.
  set (h := toInt32 _).
  change 0x7fffffff with (Z.ones 31). rewrite Z.land_ones by lia.
  pose proof (Z.mod_pos_bound h (2 ^ 31) ltac:(lia)) as Hb.
  set (m := h mod 2 ^ 31) in *.
  assert (Hden : (0 < inject_Z (Z.ones 31))%Q) by reflexivity.
  split.
  - apply Qle_shift_div_l; [exact Hden |]. rewrite Qmult_0_l.
    change 0%Q with (inject_Z 0). rewrite <- Zle_Qle. lia.
  - apply Qle_shift_div_r; [exact Hden |]. rewrite Qmult_1_l.
    rewrite <- Zle_Qle. change (Z.ones 31) with (2 ^ 31 - 1). lia.
Qed.

Local Open Scope R_scope.

(* the part of the arc [theta0, theta1] that stays free of collision stubs *)
Definition freeArc (r theta0 theta1 maxPass : R) (ring slice salt : Z) : R * R :=
  let gapAngle := maxPass / r in
  let range := theta1 - theta0 - gapAngle - gapAngle * 0.1 * 2 in
  let gapStart := theta0 + (gapAngle * 0.1 + Q2R (cellHash ring slice salt) * Rmax 0 range) in
  let gapEnd := gapStart + gapAngle in
  (if Rlt_dec (theta0 + 0.001) gapStart then gapStart else theta0,
   if Rlt_dec gapEnd (theta1 - 0.001) then gapEnd else theta1).

Lemma clamped_gap
      (segments : list Segment) (r theta0 theta1 maxPass : R) (ring slice salt : Z) :
  0 < r -> 0 < maxPass -> theta0 < theta1 ->
  (r * (theta1 - theta0) <= maxPass ->
   addClampedPassageSegments segments r theta0 theta1 maxPass ring slice salt = segments)
  /\ (maxPass < r * (theta1 - theta0) ->
      let a := fst (freeArc r theta0 theta1 maxPass ring slice salt) in
      let b := snd (freeArc r theta0 theta1 maxPass ring slice salt) in
      addClampedPassageSegments segments r theta0 theta1 maxPass ring slice salt
      = (segments
         ++ (if Rlt_dec theta0 a then tessellateArc 0 0 r theta0 a ARC_SEGMENTS else []))
        ++ (if Rlt_dec b theta1 then tessellateArc 0 0 r b theta1 ARC_SEGMENTS else [])
      /\ theta0 <= a /\ a < b /\ b <= theta1
      /\ 0.9 * maxPass <= r * (b - a)
      /\ r * (b - a) <= maxPass + 0.002 * r).
Proof.
  intros Hr Hmax Hlt. split.
  { intros Hshort. unfold addClampedPassageSegments. cbv zeta.
    destruct (Rle_dec (r * (theta1 - theta0)) maxPass); [reflexivity | contradiction]. }
  intros Hlong.
  destruct (cellHash_range ring slice salt) as [Hh0 Hh1].
  apply Qle_Rle in Hh0, Hh1. rewrite RMicromega.Q2R_0 in Hh0. rewrite RMicromega.Q2R_1 in Hh1.
  unfold addClampedPassageSegments, freeArc. cbv zeta.
  destruct (Rle_dec (r * (theta1 - theta0)) maxPass) as [Hle | _]; [lra |].
  set (g := maxPass / r).
  assert (Hg : r * g = maxPass) by (unfold g; field; lra).
  assert (Hg0 : 0 < g) by (unfold g; apply Rdiv_lt_0_compat; assumption).
  assert (Htot : g < theta1 - theta0).
  { apply (Rmult_lt_reg_l r); [exact Hr |]. rewrite Hg. exact Hlong. }
  set (h := Q2R (cellHash ring slice salt)) in *.
  set (range := theta1 - theta0 - g - g * 0.1 * 2).
  assert (Hoff : 0 <= h * Rmax 0 range
                 /\ (0 <= range -> h * Rmax 0 range <= range)
                 /\ (range < 0 -> h * Rmax 0 range = 0)).
  { unfold Rmax. destruct (Rle_dec 0 range) as [Hpos | Hneg].
    - split; [apply Rmult_le_pos; assumption |]. split; [| lra].
      intros _. rewrite <- (Rmult_1_l range) at 2.
      apply Rmult_le_compat_r; assumption.
    - split; [rewrite Rmult_0_r; lra |]. split; [lra |].
      intros _. apply Rmult_0_r. }
  destruct Hoff as (Ho0 & Ho1 & Ho2).
  set (off := h * Rmax 0 range) in *.
  set (gapStart := theta0 + (g * 0.1 + off)).
  assert (Hrange : range = theta1 - theta0 - 1.2 * g) by (unfold range; lra).
  assert (Hoffle : g * 0.1 + off <= theta1 - theta0 - 0.9 * g).
  { destruct (Rle_dec 0 range) as [Hpos | Hneg].
    - specialize (Ho1 Hpos). lra.
    - rewrite (Ho2 ltac:(lra)). lra. }
  cbn [fst snd].
  destruct (Rlt_dec (theta0 + 0.001) gapStart) as [HL | HL];
    destruct (Rlt_dec (gapStart + g) (theta1 - 0.001)) as [HR | HR].
  - destruct (Rlt_dec theta0 gapStart) as [_ | Hn]; [| unfold gapStart in *; lra].
    destruct (Rlt_dec (gapStart + g) theta1) as [_ | Hn]; [| lra].
    split; [reflexivity |].
    unfold gapStart in *.
    replace (r * (theta0 + (g * 0.1 + off) + g - (theta0 + (g * 0.1 + off))))
      with (r * g) by ring.
    rewrite Hg. repeat split; lra.
  - destruct (Rlt_dec theta0 gapStart) as [_ | Hn]; [| unfold gapStart in *; lra].
    destruct (Rlt_dec theta1 theta1) as [Hn | _]; [lra |].
    split; [now rewrite app_nil_r |].
    unfold gapStart in *.
    assert (Hlen : r * (theta1 - (theta0 + (g * 0.1 + off)))
                   = r * (theta1 - theta0 - (g * 0.1 + off))) by ring.
    rewrite Hlen.
    assert (H1 : r * (0.9 * g) <= r * (theta1 - theta0 - (g * 0.1 + off))).
    { apply Rmult_le_compat_l; lra. }
    assert (H2 : r * (theta1 - theta0 - (g * 0.1 + off)) <= r * (g + 0.001)).
    { apply Rmult_le_compat_l; lra. }
    repeat split; try lra; nra.
  - destruct (Rlt_dec theta0 theta0) as [Hn | _]; [lra |].
    destruct (Rlt_dec (gapStart + g) theta1) as [_ | Hn]; [| lra].
    split; [now rewrite app_nil_r |].
    unfold gapStart in *.
    assert (H1 : r * g <= r * (theta0 + (g * 0.1 + off) + g - theta0)).
    { apply Rmult_le_compat_l; lra. }
    assert (H2 : r * (theta0 + (g * 0.1 + off) + g - theta0) <= r * (g + 0.001)).
    { apply Rmult_le_compat_l; lra. }
    repeat split; try lra; nra.
  - destruct (Rlt_dec theta0 theta0) as [Hn | _]; [lra |].
    destruct (Rlt_dec theta1 theta1) as [Hn | _]; [lra |].
    split; [now rewrite !app_nil_r |].
    unfold gapStart in *.
    assert (H1 : r * g <= r * (theta1 - theta0)).
    { apply Rmult_le_compat_l; lra. }
    assert (H2 : r * (theta1 - theta0) <= r * (g + 0.002)).
    { apply Rmult_le_compat_l; lra. }
    repeat split; try lra; nra.
Qed.

Lemma maxPassage_real config :
  Q2R (maxPassage config) = 3 * (2 * Q2R (ballRadius config)).
Proof.
  unfold maxPassage, PASSAGE_FACTOR. rewrite !Q2R_mult.
  replace (Q2R 3) with 3 by (unfold Q2R; cbn [Qnum Qden]; lra).
  replace (Q2R 2) with 2 by (unfold Q2R; cbn [Qnum Qden]; lra).
  ring.
Qed.

(** X25.  Clamping never closes a passage.  With maxPass = maxPassage config
    (three ball diameters), an open arc no longer than maxPass gets no
    collision stub.  A longer one gets stubs only outside a free part [a, b]
    of the arc, theta0 <= a < b <= theta1, each stub the tessellation of the
    arc from theta0 to a or from b to theta1; the free part is at least
    0.9 maxPass long, which is more than two ball diameters, and at most
    maxPass + 0.002 r. *)
Theorem addClampedPassageSegments_leaves_gap
        (config : MazeConfig) (segments : list Segment) (r theta0 theta1 : R)
        (ring slice salt : Z) :
  let maxPass := Q2R (maxPassage config) in
  let diameter := 2 * Q2R (ballRadius config) in
  0 < r -> 0 < diameter -> theta0 < theta1 ->
  (r * (theta1 - theta0) <= maxPass ->
   addClampedPassageSegments segments r theta0 theta1 maxPass ring slice salt = segments)
  /\ (maxPass < r * (theta1 - theta0) ->
      let a := fst (freeArc r theta0 theta1 maxPass ring slice salt) in
      let b := snd (freeArc r theta0 theta1 maxPass ring slice salt) in
      addClampedPassageSegments segments r theta0 theta1 maxPass ring slice salt
      = (segments
         ++ (if Rlt_dec theta0 a then tessellateArc 0 0 r theta0 a ARC_SEGMENTS else []))
        ++ (if Rlt_dec b theta1 then tessellateArc 0 0 r b theta1 ARC_SEGMENTS else [])
      /\ theta0 <= a /\ a < b /\ b <= theta1
      /\ 2 * diameter < r * (b - a)
      /\ 0.9 * maxPass <= r * (b - a)
      /\ r * (b - a) <= maxPass + 0.002 * r).
Proof.
  intros maxPass diameter Hr Hd Hlt.
  assert (Em : maxPass = 3 * diameter) by apply maxPassage_real.
  assert (Hmax : 0 < maxPass) by lra.
  destruct (clamped_gap segments r theta0 theta1 maxPass ring slice salt Hr Hmax Hlt)
    as [Hshort Hlong].
  split; [exact Hshort |].
  intros Hl. destruct (Hlong Hl) as (Eq & H0 & Hab & H1 & Hlo & Hhi).
  cbv zeta. split; [exact Eq |].
  split; [exact H0 |]. split; [exact Hab |]. split; [exact H1 |].
  split; [lra |]. split; [exact Hlo | exact Hhi].
Qed.

Lemma addClampedPassageSegments_leaves_gap_witness :
  addClampedPassageSegments [] 30 0 1 (Q2R (maxPassage MazeSpec.sampleConfig)) 0 0 0 = [].
Proof.
  assert (Ed : 2 * Q2R (ballRadius MazeSpec.sampleConfig) = 12).
  { unfold Q2R. cbn. lra. }
  destruct (addClampedPassageSegments_leaves_gap MazeSpec.sampleConfig [] 30 0 1 0%Z 0%Z 0%Z)
    as [Hshort _].
  - lra.
  - rewrite Ed. lra.
  - lra.
  - apply Hshort. rewrite maxPassage_real, Ed. lra.
Defined.

End RendererSpec.

Module WinSpec.
Import Types Physics JSMath Game Renderer Tolerance AngleFacts SearchFacts RendererSpec.
Local Open Scope R_scope.

Section Scale.
Variable sa : R.
Hypothesis Hsa : 0 < sa.



End Scale.





End WinSpec.

Module InputSpec.
Import Input.
Local Open Scope string_scope.
Local Open Scope list_scope.

(* what the window delivers between two reads *)
Inductive Event :=
| KeyDown (key : string)
| KeyUp (key : string)
| Blur.

Definition handle (st : InputStore) (ev : Event) : InputStore :=
  match ev with
  | KeyDown key => onKeyDown key st
  | KeyUp key => onKeyUp key st
  | Blur => onBlur st
  end.

Definition isDown (names : list string) (ev : Event) : bool :=
  match ev with
  | KeyDown key => bool_decide (key ∈ names)
  | _ => false
  end.

(* the event takes [key] out of the set *)
Definition releases (key : string) (ev : Event) : bool :=
  match ev with
  | KeyDown _ => false
  | KeyUp key' => bool_decide (key' = key)
  | Blur => true
  end.

(* [key] was in the set at the start or went down, and nothing released it
   afterwards *)
Fixpoint held (key : string) (before : bool) (events : list Event) : bool :=
  match events with
  | [] => before
  | ev :: rest =>
      held key (if releases key ev then false
                else if isDown [key] ev then true else before) rest
  end.

Lemma eqb_decide (a b : string) : String.eqb a b = bool_decide (a = b).
Proof.
  destruct (String.eqb_spec a b) as [E | E].
  - symmetry. apply bool_decide_eq_true. exact E.
  - symmetry. apply bool_decide_eq_false. exact E.
Qed.

Lemma handle_edges events : forall st,
  resetEdge (foldl handle st events)
  = resetEdge st || existsb (isDown ["r"; "R"]) events
  /\ debugEdge (foldl handle st events)
     = debugEdge st || existsb (isDown ["F1"]) events.
Proof.
  induction events as [| ev rest IH]; intros st.
  - cbn. rewrite !orb_false_r. split; reflexivity.
  - cbn [foldl existsb]. destruct (IH (handle st ev)) as [-> ->].
    destruct ev as [key | key |]; cbn [handle isDown onKeyDown onKeyUp onBlur resetEdge debugEdge].
    + split.
      * rewrite !eqb_decide.
        assert (E : bool_decide (key ∈ ["r"; "R"])
                    = bool_decide (key = "r") || bool_decide (key = "R")).
        { rewrite <- bool_decide_or. apply bool_decide_ext.
          rewrite !elem_of_cons, elem_of_nil. tauto. }
        rewrite E. destruct (bool_decide (key = "r") || bool_decide (key = "R"));
          cbn; [now rewrite orb_true_r | reflexivity].
      * rewrite eqb_decide.
        assert (E : bool_decide (key ∈ ["F1"]) = bool_decide (key = "F1")).
        { apply bool_decide_ext. rewrite elem_of_cons, elem_of_nil. tauto. }
        rewrite E. destruct (bool_decide (key = "F1"));
          cbn; [now rewrite orb_true_r | reflexivity].
    + split; reflexivity.
    + split; reflexivity.
Qed.

Lemma handle_keys key events : forall st,
  has (foldl handle st events) key = held key (has st key) events.
Proof.
  induction events as [| ev rest IH]; intros st; [reflexivity |].
  cbn [foldl held]. rewrite IH. f_equal.
  unfold has. destruct ev as [key' | key' |]; cbn [handle releases isDown onKeyDown onKeyUp onBlur keys].
  - rewrite (bool_decide_ext (key' ∈ [key]) (key' = key))
      by (rewrite elem_of_cons, elem_of_nil; tauto).
    destruct (bool_decide_reflect (key' = key)) as [E | E].
    + apply bool_decide_eq_true. subst. apply elem_of_union_l, elem_of_singleton. reflexivity.
    + apply bool_decide_ext. rewrite elem_of_union, elem_of_singleton. split; [| tauto].
      intros [E' | H]; [congruence | exact H].
  - destruct (bool_decide_reflect (key' = key)) as [E | E].
    + apply bool_decide_eq_false. subst. rewrite elem_of_difference, elem_of_singleton. tauto.
    + apply bool_decide_ext. rewrite elem_of_difference, elem_of_singleton. split; [tauto |].
      intros H. split; [exact H | congruence].
  - apply bool_decide_eq_false. apply not_elem_of_empty.
Qed.

Definition unreleased (key : string) (events : list Event) : Prop :=
  forallb (fun ev => negb (releases key ev)) events = true.

(* [key] is down after [events]: it was in the set and no keyup of it and no
   blur came, or a keydown of it came and no keyup of it and no blur after *)
Definition Held (key : string) (init : gset string) (events : list Event) : Prop :=
  (key ∈ init /\ unreleased key events)
  \/ (exists pre post, events = pre ++ KeyDown key :: post /\ unreleased key post).

Lemma isDown_self key ev : isDown [key] ev = true <-> ev = KeyDown key.
Proof.
  destruct ev as [key' | key' |]; cbn [isDown]; [| split; discriminate ..].
  rewrite bool_decide_eq_true, elem_of_cons, elem_of_nil. split.
  - intros [E | []]. now subst.
  - intros E. injection E as E. now left.
Qed.

Lemma held_spec key events : forall before,
  held key before events = true
  <-> (before = true /\ unreleased key events)
      \/ (exists pre post, events = pre ++ KeyDown key :: post /\ unreleased key post).
Proof.
  unfold unreleased.
  induction events as [| ev rest IH]; intros before.
  - cbn [held forallb]. split.
    + intros E. left. split; [exact E | reflexivity].
    + intros [[E _] | (pre & post & E & _)]; [exact E |].
      destruct pre; discriminate.
  - cbn [held forallb]. rewrite IH. rewrite andb_true_iff, negb_true_iff. split.
    + intros [[Eb Hrest] | (pre & post & E & Hpost)].
      * destruct (releases key ev) eqn:Erel; [discriminate |].
        destruct (isDown [key] ev) eqn:Edown.
        -- right. exists [], rest. apply isDown_self in Edown. subst ev.
           split; [reflexivity | exact Hrest].
        -- left. auto.
      * right. exists (ev :: pre), post. subst rest. split; [reflexivity | exact Hpost].
    + intros [(Eb & Erel & Hrest) | (pre & post & E & Hpost)].
      * left. rewrite Erel. split; [| exact Hrest]. destruct (isDown [key] ev); auto.
      * destruct pre as [| e pre]; cbn [app] in E; injection E as -> ->.
        -- left. cbn [releases]. split; [| exact Hpost].
           rewrite (proj2 (isDown_self key (KeyDown key)) eq_refl). reflexivity.
        -- right. exists pre, post. split; [reflexivity | exact Hpost].
Qed.

Lemma has_any (st : InputStore) (k1 k2 k3 : string) (init : gset string) events :
  (forall key, has st key = true <-> Held key init events) ->
  has st k1 || has st k2 || has st k3 = true
  <-> exists key, key ∈ [k1; k2; k3] /\ Held key init events.
Proof.
  intros Hhas. rewrite !orb_true_iff, !Hhas. split.
  - intros [[H | H] | H]; eexists; (split; [| exact H]);
      rewrite !elem_of_cons; auto.
  - intros (key & Hin & H). rewrite !elem_of_cons, elem_of_nil in Hin.
    destruct Hin as [-> | [-> | [-> | []]]]; auto.
Qed.

(** X26.  readInput reports the edges once and the held keys as they are.
    After a read, the next read reports resetPressed exactly when a keydown
    of r or R came in between, and debugToggled exactly when a keydown of F1
    did, whether or not the key was released or the window lost focus since;
    left (right) is reported exactly when one of a, A, ArrowLeft (d, D,
    ArrowRight) is down: it was down at the earlier read or went down since,
    and neither a keyup of that very key string nor a blur followed. *)
Theorem readInput_edges_once_keys_while_held (st0 : InputStore) (events : list Event) :
  let st1 := snd (readInput st0) in
  let s := fst (readInput (foldl handle st1 events)) in
  resetPressed s = existsb (isDown ["r"; "R"]) events
  /\ debugToggled s = existsb (isDown ["F1"]) events
  /\ (left s = true
      <-> exists key, key ∈ ["a"; "A"; "ArrowLeft"] /\ Held key (keys st0) events)
  /\ (right s = true
      <-> exists key, key ∈ ["d"; "D"; "ArrowRight"] /\ Held key (keys st0) events).
Proof.
  intros st1 s.
  destruct (handle_edges events st1) as [Er Ed].
  assert (Hhas : forall key, has (foldl handle st1 events) key = true
                             <-> Held key (keys st0) events).
  { intros key. rewrite handle_keys, held_spec. unfold Held, has.
    cbn [st1 readInput snd keys]. rewrite bool_decide_eq_true. reflexivity. }
  unfold s. cbn [readInput fst resetPressed debugToggled left right].
  split; [rewrite Er; reflexivity |]. split; [rewrite Ed; reflexivity |].
  split; apply has_any; exact Hhas.
Qed.

End InputSpec.
